(** * kvstore: a shallow embedding of the LSM key-value store

    The development follows the layout of the C++ sources:
    - [bloom_filters.h]  : modules [static_filter] and [scalable_filter];
    - [memtable.h]       : module [skiptable];
    - [sstable.h]        : module [sstable];
    - [wal.h]            : module [walfile];
    - [kvstore.h]        : module [kvstore];
    - [tool.cpp]         : module [tool].

    Machine integers are modelled as [Z] with the wrap-around written out,
    [std::string] and byte buffers as [string], pointers into the skip list
    as indices into a node arena.  Code that can leave the defined behaviour
    of C++ (an index past the end of an array, a read outside a mapping, a
    failed [assert], an exception) returns an explicit [Fault]. *)

From Stdlib Require Import String Ascii ZArith List Bool Lia Sorted Permutation.
From Stdlib Require Import Reals Lra.
Import ListNotations.
Local Open Scope Z_scope.

(** ** Machine integers *)

Definition wrap64 (z : Z) : Z := z mod 2 ^ 64.

(** Conversion to [int32_t] (two's complement). *)
Definition to_int32 (z : Z) : Z := (z + 2 ^ 31) mod 2 ^ 32 - 2 ^ 31.

(** Conversion of a signed value to [size_t]. *)
Definition to_size_t (z : Z) : Z := wrap64 z.

Definition CHAR_BIT : Z := 8.

(** ** Results of code that may leave defined behaviour *)

Inductive fault : Type :=
| OutOfBounds      (* index or address outside the object *)
| DivisionByZero   (* [x % 0] *)
| OutOfRange       (* [std::out_of_range] thrown by [at] / [substr] *)
| AssertionFailed  (* a failed [assert] *)
| NoProgress.      (* a retry loop that did not finish within its fuel *)

Inductive result (A : Type) : Type :=
| Ok (a : A)
| Fault (f : fault).
Arguments Ok {A} a.
Arguments Fault {A} f.

Definition bind {A B} (r : result A) (k : A -> result B) : result B :=
  match r with
  | Ok a => k a
  | Fault f => Fault f
  end.

Notation "x <- r ;; k" := (bind r (fun x => k))
  (at level 61, r at next level, right associativity).
Notation "' p <- r ;; k" := (bind r (fun x => let p := x in k))
  (at level 61, p pattern, r at next level, right associativity).

Definition assert (b : bool) : result unit :=
  if b then Ok tt else Fault AssertionFailed.

(** [v[i]] on a [std::vector] or [std::array]: outside the bounds the
    behaviour is undefined. *)
Definition index {A} (l : list A) (i : Z) : result A :=
  if (0 <=? i) && (i <? Z.of_nat (length l)) then
    match nth_error l (Z.to_nat i) with
    | Some a => Ok a
    | None => Fault OutOfBounds
    end
  else Fault OutOfBounds.

Fixpoint upd {A} (l : list A) (n : nat) (a : A) : list A :=
  match l, n with
  | [], _ => []
  | _ :: t, O => a :: t
  | h :: t, S n' => h :: upd t n' a
  end.

(** [v[i] = a]. *)
Definition store {A} (l : list A) (i : Z) (a : A) : result (list A) :=
  if (0 <=? i) && (i <? Z.of_nat (length l)) then Ok (upd l (Z.to_nat i) a)
  else Fault OutOfBounds.

(** ** bloom_filters.h

    [xxhash64.h] is a third-party header that is not part of the sources,
    and the sizing formulas of [parameters] are floating-point code
    ([ceil], [log2], [log]); both are taken as parameters, the fields of [filter_env]:
    [XXHash64_hash data seed] is the 64-bit hash, [hash_count p] and
    [slice_bits p c] are [parameters::hash_count] and
    [parameters::slice_bits] converted to [size_t], and [rate_mul] is the
    multiplication of two [double]s.  The instance [sized_env] further
    down fills in the two formulas, over the real numbers. *)

Class filter_env : Type := {
  rate : Type;
  rate_mul : rate -> rate -> rate;
  hash_count : rate -> Z;
  slice_bits : rate -> Z -> Z;
  XXHash64_hash : string -> Z -> Z
}.

Section BloomFilters.

Context {env : filter_env}.

Definition MAX_HASH_COUNT : Z := 32.

(** [static_filter::parameters] *)
Record parameters : Type := {
  target_error_rate : rate;
  capacity : Z;
  hash_seeds : list Z
}.

(** [static_filter::memory] *)
Record memory : Type := {
  slices : Z;
  bps : Z;
  bit_count : Z;
  bits : list Z
}.

(** The constructor of [memory]: room for [bit_count] bits, rounded up to
    whole bytes, all zero. *)
Definition memory_new (slice_count bits_per_slice : Z) : memory :=
  let bit_count := wrap64 (slice_count * bits_per_slice) in
  let byte_count :=
    bit_count / CHAR_BIT + (if bit_count mod CHAR_BIT =? 0 then 0 else 1) in
  {| slices := slice_count;
     bps := bits_per_slice;
     bit_count := bit_count;
     bits := repeat 0 (Z.to_nat byte_count) |}.

Definition byte_idx (bit : Z) : Z := bit / CHAR_BIT.
Definition sub_bit (bit : Z) : Z := Z.shiftl 1 (bit mod CHAR_BIT).

Definition mem_set (m : memory) (bit_idx : Z) : result memory :=
  b <- index (bits m) (byte_idx bit_idx) ;;
  bs <- store (bits m) (byte_idx bit_idx) (Z.lor b (sub_bit bit_idx)) ;;
  Ok {| slices := slices m; bps := bps m; bit_count := bit_count m; bits := bs |}.

Definition mem_check (m : memory) (bit_idx : Z) : result bool :=
  b <- index (bits m) (byte_idx bit_idx) ;;
  Ok (negb (Z.land b (sub_bit bit_idx) =? 0)).

Definition mem_check_set (m : memory) (bit_idx : Z) : result (bool * memory) :=
  old <- mem_check m bit_idx ;;
  m' <- mem_set m bit_idx ;;
  Ok (old, m').

Record static_filter : Type := {
  params : parameters;
  mem : memory;
  element_count : Z
}.

Definition static_filter_new (p : parameters) : static_filter :=
  {| params := p;
     mem := memory_new (hash_count (target_error_rate p))
                       (slice_bits (target_error_rate p) (capacity p));
     element_count := 0 |}.

Definition good (f : static_filter) : bool := element_count f <? capacity (params f).

(** [bool count() const { return this->element_count; }]: the count is
    converted to [bool]. *)
Definition static_count (f : static_filter) : bool := negb (element_count f =? 0).

(** [hash_seeds.at(i)] throws past the end of the array; [% bps] with
    [bps = 0] is undefined. *)
Definition hash_i (f : static_filter) (i : Z) (data : string) : result Z :=
  seed <- match nth_error (hash_seeds (params f)) (Z.to_nat i) with
          | Some s => Ok s
          | None => Fault OutOfRange
          end ;;
  if bps (mem f) =? 0 then Fault DivisionByZero
  else Ok (wrap64 (XXHash64_hash data seed mod bps (mem f) + wrap64 (i * bps (mem f)))).

(** The body of [for (size_t i = ...; i < slices; i++)] in [might_contain],
    with [n] iterations left. *)
Fixpoint might_contain_from (f : static_filter) (data : string) (i : Z) (n : nat)
  : result bool :=
  match n with
  | O => Ok true
  | S n' =>
      b <- hash_i f i data ;;
      c <- mem_check (mem f) b ;;
      if c then might_contain_from f data (i + 1) n' else Ok false
  end.

Definition static_might_contain (f : static_filter) (data : string) : result bool :=
  might_contain_from f data 0 (Z.to_nat (slices (mem f))).

Definition with_mem (f : static_filter) (m : memory) : static_filter :=
  {| params := params f; mem := m; element_count := element_count f |}.

Fixpoint insert_from (f : static_filter) (data : string) (i : Z) (n : nat)
  (all_set : bool) : result (bool * static_filter) :=
  match n with
  | O => Ok (all_set, f)
  | S n' =>
      b <- hash_i f i data ;;
      '(old, m) <- mem_check_set (mem f) b ;;
      insert_from (with_mem f m) data (i + 1) n' (old && all_set)
  end.

Definition static_insert (f : static_filter) (data : string)
  : result (bool * static_filter) :=
  '(all_set, f') <- insert_from f data 0 (Z.to_nat (slices (mem f))) true ;;
  if all_set then Ok (true, f')
  else Ok (false, {| params := params f'; mem := mem f';
                     element_count := wrap64 (element_count f' + 1) |}).

Fixpoint insert_new_from (f : static_filter) (data : string) (i : Z) (n : nat)
  : result static_filter :=
  match n with
  | O => Ok f
  | S n' =>
      b <- hash_i f i data ;;
      m <- mem_set (mem f) b ;;
      insert_new_from (with_mem f m) data (i + 1) n'
  end.

Definition static_insert_new (f : static_filter) (data : string) : result static_filter :=
  let f1 := {| params := params f; mem := mem f;
               element_count := wrap64 (element_count f + 1) |} in
  insert_new_from f1 data 0 (Z.to_nat (slices (mem f))).

(** [scalable_filter::parameters] extends the static parameters. *)
Record scalable_parameters : Type := {
  base : parameters;
  tightening_ratio : rate;
  scaling_factor : Z
}.

Record scalable_filter : Type := {
  sparams : scalable_parameters;
  filters : list static_filter
}.

Definition scalable_filter_new (p : scalable_parameters) : scalable_filter :=
  {| sparams := p; filters := [static_filter_new (base p)] |}.

(** [count += f.count()] adds the [bool] returned by
    [static_filter::count], converted to [size_t]. *)
Definition scalable_count (s : scalable_filter) : Z :=
  fold_left (fun count f => wrap64 (count + (if static_count f then 1 else 0)))
            (filters s) 0.

Definition scalable_capacity (s : scalable_filter) : Z :=
  fold_left (fun c f => wrap64 (c + capacity (params f))) (filters s) 0.

Fixpoint might_contain_any (fs : list static_filter) (data : string) : result bool :=
  match fs with
  | [] => Ok false
  | f :: fs' =>
      b <- static_might_contain f data ;;
      if b then Ok true else might_contain_any fs' data
  end.

Definition scalable_might_contain (s : scalable_filter) (data : string) : result bool :=
  might_contain_any (filters s) data.

(** [filters.back()]; undefined on an empty vector. *)
Definition back (fs : list static_filter) : result static_filter :=
  match rev fs with
  | f :: _ => Ok f
  | [] => Fault OutOfBounds
  end.

(** [filters.back().insert_new(...)]: the last element is updated in place. *)
Definition insert_new_back (fs : list static_filter) (data : string)
  : result (list static_filter) :=
  f <- back fs ;;
  f' <- static_insert_new f data ;;
  Ok (removelast fs ++ [f']).

Definition scaled (p : scalable_parameters) (q : parameters) : parameters :=
  {| target_error_rate := rate_mul (target_error_rate q) (tightening_ratio p);
     capacity := wrap64 (capacity q * scaling_factor p);
     hash_seeds := hash_seeds q |}.

Definition scalable_insert (s : scalable_filter) (data : string)
  : result (bool * scalable_filter) :=
  present <- scalable_might_contain s data ;;
  if present then Ok (true, s)
  else
    last <- back (filters s) ;;
    let fs := if good last then filters s
              else filters s ++ [static_filter_new (scaled (sparams s) (params last))] in
    fs' <- insert_new_back fs data ;;
    Ok (false, {| sparams := sparams s; filters := fs' |}).

(** Sequences of calls, for statements about "every later call". *)
Inductive static_op : Type :=
| SInsert (data : string)
| SInsertNew (data : string).

Definition static_step (f : static_filter) (o : static_op) : result static_filter :=
  match o with
  | SInsert d => '(_, f') <- static_insert f d ;; Ok f'
  | SInsertNew d => static_insert_new f d
  end.

Fixpoint static_run (f : static_filter) (ops : list static_op) : result static_filter :=
  match ops with
  | [] => Ok f
  | o :: ops' => f' <- static_step f o ;; static_run f' ops'
  end.

(** Inserting a list of elements; the answers of the calls are collected. *)
Fixpoint scalable_run (s : scalable_filter) (xs : list string)
  : result (list bool * scalable_filter) :=
  match xs with
  | [] => Ok ([], s)
  | x :: xs' =>
      '(b, s1) <- scalable_insert s x ;;
      '(bs, s2) <- scalable_run s1 xs' ;;
      Ok (b :: bs, s2)
  end.

(** Specification of the filters: bits that are on, filters that grew out of
    one another, and well-formed geometry. *)

(** A bit of the filter memory is on. *)
Definition bit_on (m : memory) (idx : Z) : Prop := mem_check m idx = Ok true.

(** Two memories of the same shape. *)
Definition same_shape (m m' : memory) : Prop :=
  slices m' = slices m /\ bps m' = bps m /\ bit_count m' = bit_count m /\
  length (bits m') = length (bits m).

(** [f'] is [f] after some insertions: same parameters, same shape, and
    every bit that was on is still on. *)
Definition extends (f f' : static_filter) : Prop :=
  params f' = params f /\ same_shape (mem f) (mem f') /\
  forall j, bit_on (mem f) j -> bit_on (mem f') j.

(** Well-formed geometry: every bit index that [hash_i] can produce lies
    inside the allocated bytes, and there is a seed for every slice. *)
Definition wf_static (f : static_filter) : Prop :=
  0 < bps (mem f) /\ 0 <= slices (mem f) /\
  slices (mem f) <= Z.of_nat (length (hash_seeds (params f))) /\
  slices (mem f) * bps (mem f) < 2 ^ 64 /\
  slices (mem f) * bps (mem f) <= 8 * Z.of_nat (length (bits (mem f))).

(** The list of sub-filters only grows: old sub-filters are extended in
    place, new ones are appended. *)
Definition grows (fs fs' : list static_filter) : Prop :=
  exists gs extra, fs' = gs ++ extra /\ Forall2 extends fs gs.

(** A sub-filter holds no more elements than its capacity. *)
Definition within_capacity (f : static_filter) : Prop :=
  0 <= element_count f <= capacity (params f) /\ capacity (params f) < 2 ^ 64.



End BloomFilters.

(** ** The sizing formulas of [parameters]

    [parameters::hash_count] and [parameters::slice_bits] compute in
    [double].  A [double] is modelled by the real number it denotes: the
    roundings of [log2], [log], [/] and [*] are left out.  A conversion of
    a [double] to an integer type truncates; it is undefined when the
    value does not fit the type, which [double_to_integer] does not
    model: the logarithm of a positive [double] fits [int], and the
    statements below bound the other values. *)

Definition floor (x : R) : Z := up x - 1.

(** [ceil] of [<cmath>]: the result is a [double]. *)
Definition ceil (x : R) : R := IZR (- floor (- x)).

Definition log2 (x : R) : R := (ln x / ln 2)%R.

Definition double_to_integer (x : R) : Z :=
  if Rle_dec 0 x then floor x else - floor (- x).

(** [parameters::hash_count] *)
Definition parameters_hash_count (target_error_rate : R) : Z :=
  double_to_integer (ceil (log2 (1 / target_error_rate))).

(** [parameters::slice_bits].  The call [abs(log(target_error_rate))] is
    unqualified and [<cmath>] declares only [std::abs] next to the [abs] of
    [<stdlib.h>], so it is [int abs(int)]: the logarithm is converted to
    [int] first.  The product with [capacity] is a [size_t]. *)
Definition parameters_slice_bits (target_error_rate : R) (capacity : Z) : Z :=
  let numerator :=
    IZR (wrap64 (capacity * Z.abs (double_to_integer (ln target_error_rate)))) in
  let denominator :=
    (IZR (parameters_hash_count target_error_rate) * ln 2 * ln 2)%R in
  double_to_integer (ceil (numerator / denominator)).

(** The filters of the sources, over a hash function [hash]. *)
Definition sized_env (hash : string -> Z -> Z) : filter_env :=
  {| rate := R;
     rate_mul := Rmult;
     hash_count := parameters_hash_count;
     slice_bits := parameters_slice_bits;
     XXHash64_hash := hash |}.

(** ** Bytes and strings

    Files are the strings of their bytes; integers are stored
    little-endian in their native width. *)

Fixpoint le_bytes (width : nat) (z : Z) : string :=
  match width with
  | O => EmptyString
  | S w => String (ascii_of_N (Z.to_N (z mod 256))) (le_bytes w (z / 256))
  end.

Fixpoint le_value (s : string) : Z :=
  match s with
  | EmptyString => 0
  | String c s' => Z.of_N (N_of_ascii c) + 256 * le_value s'
  end.

Fixpoint zeros (n : nat) : string :=
  match n with
  | O => EmptyString
  | S n' => String Ascii.zero (zeros n')
  end.

Definition strlen (s : string) : Z := Z.of_nat (String.length s).

(** [std::string_view::substr(pos, count)]: throws when [pos] is past the
    end, and stops at the end. *)
Definition substr (s : string) (pos count : Z) : result string :=
  if strlen s <? pos then Fault OutOfRange
  else Ok (substring (Z.to_nat pos) (Z.to_nat (Z.min count (strlen s - pos))) s).

(** [len] bytes at offset [off] of a mapped file; outside the file the
    read is out of bounds. *)
Definition read_bytes (file : string) (off len : Z) : result string :=
  if (0 <=? off) && (0 <=? len) && (off + len <=? strlen file) then
    Ok (substring (Z.to_nat off) (Z.to_nat len) file)
  else Fault OutOfBounds.

Definition read_u32 (file : string) (off : Z) : result Z :=
  b <- read_bytes file off 4 ;; Ok (le_value b).

Definition read_u64 (file : string) (off : Z) : result Z :=
  b <- read_bytes file off 8 ;; Ok (le_value b).

(** A string without the byte [d]. *)
Fixpoint lacks (d : ascii) (s : string) : bool :=
  match s with
  | EmptyString => true
  | String c s' => negb (Ascii.eqb c d) && lacks d s'
  end.

(** ** memtable.h

    [malloc] is the C library's: whether an allocation of a given size
    succeeds is a parameter.  The level of a new node comes from the
    thread's random generator: an insertion takes the sequence of numbers
    that [dist( *gen )] returns to it. *)

Class allocator : Type := { malloc_ok : Z -> bool }.

Definition KiB (x : Z) : Z := 1024 * x.
Definition MiB (x : Z) : Z := KiB 1024 * x.
Definition GiB (x : Z) : Z := MiB 1024 * x.

Module skiptable.

Definition MAX_TABLE_LEVELS : Z := 16.

Record config_opts : Type := {
  writes_before_lock : Z;
  data_limit : Z;
  total_data_limit : Z
}.

Definition default_config : config_opts :=
  {| writes_before_lock := 2000; data_limit := MiB 16; total_data_limit := MiB 160 |}.

(** [struct record]: [data = None] is the null pointer. *)
Record record : Type := {
  data : option string;
  size : Z
}.

(** [struct node]; a [node *] to a heap node is its index in the arena
    [nodes], and [None] is [nullptr]. *)
Record node : Type := {
  key : string;
  record_idx : Z;
  next : list (option nat)
}.

(** A [node *] that may also be [&this->head]. *)
Inductive node_ref : Type :=
| Head
| At (j : nat).

Record t : Type := {
  config : config_opts;
  records : list record;
  total_data_size : Z;
  data_size : Z;
  is_locked : bool;
  next_record : Z;
  head : node;
  nodes : list node
}.

Definition no_links : list (option nat) := repeat None (Z.to_nat MAX_TABLE_LEVELS).

Definition new_node (k : string) (idx : Z) : node :=
  {| key := k; record_idx := to_int32 idx; next := no_links |}.

(** The constructor. *)
Definition create (opts : config_opts) : t :=
  {| config := opts;
     records := repeat {| data := None; size := 0 |} (Z.to_nat (writes_before_lock opts));
     total_data_size := 0;
     data_size := 0;
     is_locked := false;
     next_record := 0;
     head := new_node EmptyString (-1);
     nodes := [] |}.

Definition set_locked (s : t) (b : bool) : t :=
  {| config := config s; records := records s; total_data_size := total_data_size s;
     data_size := data_size s; is_locked := b; next_record := next_record s;
     head := head s; nodes := nodes s |}.

Definition set_data_size (s : t) (n : Z) : t :=
  {| config := config s; records := records s; total_data_size := total_data_size s;
     data_size := n; is_locked := is_locked s; next_record := next_record s;
     head := head s; nodes := nodes s |}.

Definition set_nodes (s : t) (h : node) (ns : list node) : t :=
  {| config := config s; records := records s; total_data_size := total_data_size s;
     data_size := data_size s; is_locked := is_locked s; next_record := next_record s;
     head := h; nodes := ns |}.

(** [bool lock() { return this->is_locked.exchange(true); }] *)
Definition lock (s : t) : bool * t := (is_locked s, set_locked s true).

Definition locked (s : t) : bool :=
  (total_data_limit (config s) <=? total_data_size s)
  || (writes_before_lock (config s) <=? to_size_t (next_record s))
  || (data_limit (config s) <=? data_size s)
  || is_locked s.

Definition empty (s : t) : bool := data_size s =? 0.

(** Dereference of a [node *]. *)
Definition deref (s : t) (r : node_ref) : result node :=
  match r with
  | Head => Ok (head s)
  | At j => match nth_error (nodes s) j with
            | Some n => Ok n
            | None => Fault OutOfBounds
            end
  end.

(** [node::iterate]: [this->next[level]]. *)
Definition iterate (n : node) (level : Z) : result (option nat) := index (next n) level.

Definition first (s : t) (level : Z) : result (option nat) := iterate (head s) level.

(** What one pass of the inner [while (true)] loop of [find] ends with. *)
Inductive find_step : Type :=
| Below (n : node_ref)   (* [break]: the next key is larger, or the level ends *)
| Match (j : nat).       (* [return n2] *)

Fixpoint find_level (fuel : nat) (s : t) (k : string) (n : node_ref) (i : Z)
  : result find_step :=
  match fuel with
  | O => Fault NoProgress
  | S fuel' =>
      nd <- deref s n ;;
      n2 <- iterate nd i ;;
      match n2 with
      | None => Ok (Below n)
      | Some j =>
          nd2 <- deref s (At j) ;;
          match String.compare k (key nd2) with
          | Lt => Ok (Below n)
          | Eq => Ok (Match j)
          | Gt => find_level fuel' s k (At j) i
          end
      end
  end.

(** The outer loop of [find], with [levels] levels left: [i = levels - 1]. *)
Fixpoint find_from (fuel : nat) (s : t) (k : string) (n : node_ref) (levels : nat)
  : result (option nat) :=
  match levels with
  | O => Ok None
  | S i =>
      r <- find_level fuel s k n (Z.of_nat i) ;;
      match r with
      | Match j => Ok (Some j)
      | Below n' => find_from fuel s k n' i
      end
  end.

Definition find (s : t) (k : string) : result (option nat) :=
  find_from (S (length (nodes s))) s k Head (Z.to_nat MAX_TABLE_LEVELS).

(** [get] of a node pointer. *)
Definition get_node (s : t) (n : option nat) : result (option record) :=
  match n with
  | None => Ok None
  | Some j =>
      nd <- deref s (At j) ;;
      if (record_idx nd <? 0) || (next_record s <=? record_idx nd) then Ok None
      else r <- index (records s) (record_idx nd) ;; Ok (Some r)
  end.

(** [get(std::string_view)] *)
Definition get (s : t) (k : string) : result (option record) :=
  n <- find s k ;; get_node s n.

Definition with_next (n : node) (l : list (option nat)) : node :=
  {| key := key n; record_idx := record_idx n; next := l |}.

Definition put_node (s : t) (r : node_ref) (n : node) : t :=
  match r with
  | Head => set_nodes s n (nodes s)
  | At j => set_nodes s (head s) (upd (nodes s) j n)
  end.

(** [node::link]: [this->next[level] = n]. *)
Definition link (s : t) (r : node_ref) (level : Z) (n : option nat) : result t :=
  nd <- deref s r ;;
  l <- store (next nd) level n ;;
  Ok (put_node s r (with_next nd l)).

Definition same_node (a b : option nat) : bool :=
  match a, b with
  | None, None => true
  | Some x, Some y => Nat.eqb x y
  | _, _ => false
  end.

(** [node::CE_link]: [next[level].compare_exchange_strong(expected, n)]. *)
Definition CE_link (s : t) (r : node_ref) (level : Z) (expected n : option nat)
  : result (bool * t) :=
  nd <- deref s r ;;
  cur <- index (next nd) level ;;
  if same_node cur expected then s' <- link s r level n ;; Ok (true, s')
  else Ok (false, s).

(** [node::update]: [this->record_idx.exchange(new_idx)]. *)
Definition update (s : t) (j : nat) (new_idx : Z) : result (Z * t) :=
  nd <- deref s (At j) ;;
  Ok (record_idx nd,
      put_node s (At j) {| key := key nd; record_idx := new_idx; next := next nd |}).

Definition older (n : node) (idx : Z) : bool := record_idx n <? idx.
Definition newer (n : node) (idx : Z) : bool := record_idx n >? idx.

(** The level of a new node: [level] goes up while the numbers drawn are
    odd and [level < MAX_TABLE_LEVELS]; [d] numbers have been drawn. *)
Fixpoint level_loop (draw : nat -> Z) (d : nat) (fuel : nat) (level : Z) : Z :=
  match fuel with
  | O => level
  | S fuel' =>
      if level <? MAX_TABLE_LEVELS then
        if Z.odd (draw d) then level_loop draw (S d) fuel' (level + 1) else level
      else level
  end.

Definition random_level (draw : nat -> Z) : Z :=
  level_loop draw 0 (S (Z.to_nat MAX_TABLE_LEVELS)) 0.

(** What one pass of the inner [while (true)] loop of [insert] ends with. *)
Inductive search_step : Type :=
| Between (n : node_ref) (n2 : option nat)  (* [comp < 0] *)
| IsNewer (j : nat)                         (* same key, written later *)
| IsOlder (j : nat).                        (* same key, written earlier *)

Fixpoint insert_level (fuel : nat) (s : t) (k : string) (idx : Z) (n : node_ref) (i : Z)
  : result search_step :=
  match fuel with
  | O => Fault NoProgress
  | S fuel' =>
      nd <- deref s n ;;
      n2 <- iterate nd i ;;
      match n2 with
      | None => Ok (Between n None)
      | Some j =>
          nd2 <- deref s (At j) ;;
          match String.compare k (key nd2) with
          | Lt => Ok (Between n (Some j))
          | Eq => if newer nd2 idx then Ok (IsNewer j)
                  else if older nd2 idx then Ok (IsOlder j)
                  else Fault AssertionFailed
          | Gt => insert_level fuel' s k idx (At j) i
          end
      end
  end.

Inductive search_result : Type :=
| Links (updates : list (option node_ref)) (update_nexts : list (option nat))
| Existing (j : nat) (is_older : bool).

(** The search loop [for (i = level; i >= 0; i--)], with [levels] levels
    left: [i = levels - 1]. *)
Fixpoint insert_search (fuel : nat) (s : t) (k : string) (idx : Z) (n : node_ref)
  (levels : nat) (updates : list (option node_ref)) (update_nexts : list (option nat))
  : result search_result :=
  match levels with
  | O => Ok (Links updates update_nexts)
  | S i =>
      r <- insert_level fuel s k idx n (Z.of_nat i) ;;
      match r with
      | Between n' n2 =>
          u <- store updates (Z.of_nat i) (Some n') ;;
          x <- store update_nexts (Z.of_nat i) n2 ;;
          insert_search fuel s k idx n' i u x
      | IsNewer j => Ok (Existing j false)
      | IsOlder j => Ok (Existing j true)
      end
  end.

(** The linking loop; [false] is a failed compare-exchange. *)
Fixpoint splice (s : t) (j : nat) (levels : nat)
  (updates : list (option node_ref)) (update_nexts : list (option nat))
  : result (bool * t) :=
  match levels with
  | O => Ok (true, s)
  | S i =>
      nx <- index update_nexts (Z.of_nat i) ;;
      s1 <- link s (At j) (Z.of_nat i) nx ;;
      u <- index updates (Z.of_nat i) ;;
      match u with
      | None => Fault OutOfBounds
      | Some r =>
          '(ok, s2) <- CE_link s1 r (Z.of_nat i) nx (Some j) ;;
          if ok then splice s2 j i updates update_nexts else Ok (false, s2)
      end
  end.

(** [delete new_node]: the node allocated last leaves the arena. *)
Definition delete_last (s : t) : t := set_nodes s (head s) (removelast (nodes s)).

(** The code from the label [insert_loop] on; [j] is the new node. *)
Fixpoint insert_loop (retries : nat) (s : t) (k : string) (idx sz level : Z) (j : nat)
  (updates : list (option node_ref)) (update_nexts : list (option nat))
  : result (option nat * t) :=
  match retries with
  | O => Fault NoProgress
  | S retries' =>
      r <- insert_search (S (length (nodes s))) s k idx Head (Z.to_nat (level + 1))
             updates update_nexts ;;
      match r with
      | Existing n2 false => Ok (Some n2, delete_last s)
      | Existing n2 true =>
          '(old, s1) <- update s n2 idx ;;
          rec <- index (records s1) old ;;
          let s2 := set_data_size s1 (wrap64 (wrap64 (data_size s1 - size rec) + sz)) in
          Ok (Some n2, delete_last s2)
      | Links u x =>
          '(ok, s1) <- splice s j (Z.to_nat (level + 1)) u x ;;
          if ok then Ok (Some j, set_data_size s1 (wrap64 (data_size s1 + sz)))
          else insert_loop retries' s1 k idx sz level j u x
      end
  end.

Section WithAllocator.

Context {alloc : allocator}.

(** [insert]: the node written, or [None] for [nullptr]. *)
Definition insert (s : t) (k : string) (dat : string) (sz : Z) (draw : nat -> Z)
  : result (option nat * t) :=
  if locked s then Ok (None, s)
  else
    let new_record_idx := to_size_t (next_record s) in
    let next' := to_int32 (next_record s + 1) in
    slot <- index (records s) new_record_idx ;;
    if malloc_ok sz then
      if Z.of_nat (String.length dat) <? sz then Fault OutOfBounds
      else
        recs <- store (records s) new_record_idx
                  {| data := Some (substring 0 (Z.to_nat sz) dat); size := sz |} ;;
        let level := random_level draw in
        let j := length (nodes s) in
        let s1 :=
          {| config := config s; records := recs;
             total_data_size := wrap64 (total_data_size s + sz);
             data_size := data_size s; is_locked := is_locked s;
             next_record := next'; head := head s;
             nodes := nodes s ++ [new_node k new_record_idx] |} in
        insert_loop (S j) s1 k (to_int32 new_record_idx) sz level j
          (repeat None (Z.to_nat MAX_TABLE_LEVELS)) no_links
    else
      recs <- store (records s) new_record_idx {| data := None; size := size slot |} ;;
      Ok (None,
          {| config := config s; records := recs;
             total_data_size := total_data_size s;
             data_size := data_size s; is_locked := is_locked s;
             next_record := next'; head := head s; nodes := nodes s |}).

(** Calls that change a table, and sequences of them run one after the
    other on a single thread. *)
Inductive op : Type :=
| Insert (k dat : string) (sz : Z) (draw : nat -> Z)
| Lock.

Definition is_lock (o : op) : bool :=
  match o with Lock => true | Insert _ _ _ _ => false end.

Definition step (s : t) (o : op) : result t :=
  match o with
  | Insert k dat sz draw => '(_, s') <- insert s k dat sz draw ;; Ok s'
  | Lock => Ok (snd (lock s))
  end.

Fixpoint run (s : t) (ops : list op) : result t :=
  match ops with
  | [] => Ok s
  | o :: ops' => s' <- step s o ;; run s' ops'
  end.

End WithAllocator.

(** The bottom level from [first()] by [iterate(0)]: the nodes visited. *)
Fixpoint chain_from (fuel : nat) (s : t) (n : option nat) : result (list nat) :=
  match n with
  | None => Ok []
  | Some j =>
      match fuel with
      | O => Fault NoProgress
      | S fuel' =>
          nd <- deref s (At j) ;;
          n' <- iterate nd 0 ;;
          rest <- chain_from fuel' s n' ;;
          Ok (j :: rest)
      end
  end.

Definition bottom (s : t) : result (list nat) :=
  n <- first s 0 ;; chain_from (length (nodes s)) s n.

(** The destructor.  The first loop walks the bottom level and deletes
    every node after reading its link; [deleted] are the nodes deleted so
    far, and reading a deleted node is an error.  The second loop frees
    the buffers of the records: the indices of the records that have one. *)
Fixpoint delete_chain (fuel : nat) (s : t) (n : option nat) (deleted : list nat)
  : result (list nat) :=
  match n with
  | None => Ok deleted
  | Some j =>
      match fuel with
      | O => Fault NoProgress
      | S fuel' =>
          if existsb (Nat.eqb j) deleted then Fault OutOfBounds
          else
            nd <- deref s (At j) ;;
            n' <- iterate nd 0 ;;
            delete_chain fuel' s n' (j :: deleted)
      end
  end.

Fixpoint freed_records (rs : list record) (i : nat) : list nat :=
  match rs with
  | [] => []
  | r :: rs' =>
      match data r with
      | Some _ => i :: freed_records rs' (S i)
      | None => freed_records rs' (S i)
      end
  end.

Definition destroy (s : t) : result (list nat * list nat) :=
  n <- first s 0 ;;
  deleted <- delete_chain (S (length (nodes s))) s n [] ;;
  Ok (rev deleted, freed_records (records s) 0).

End skiptable.

(** ** The shape of a skip list

    The predicates in which the properties of [memtable.h] are stated: the
    links, keys and record indices of a table, the list of nodes along its
    bottom level, and what holds of a table between two calls. *)

Section SkiplistShape.

Import skiptable.

(** Two tables that differ in their links and counters only. *)
Definition same_frame (s s' : t) : Prop :=
  config s' = config s /\ is_locked s' = is_locked s.

Definition key_lt (a b : string) : Prop := String.compare a b = Lt.

(** The link of a node at a level, the key and the record index of a heap
    node, as total functions. *)
Definition nxt (s : t) (r : node_ref) (i : nat) : option nat :=
  match deref s r with
  | Ok nd => nth i (next nd) None
  | Fault _ => None
  end.

Definition keyof (s : t) (j : nat) : string :=
  match nth_error (nodes s) j with Some nd => key nd | None => EmptyString end.

Definition idxof (s : t) (j : nat) : Z :=
  match nth_error (nodes s) j with Some nd => record_idx nd | None => 0 end.

Definition valid (s : t) (r : node_ref) : Prop :=
  match r with Head => True | At j => (j < length (nodes s))%nat end.

Definition levels_ok (s : t) : Prop :=
  length (next (head s)) = 16%nat /\
  forall j nd, nth_error (nodes s) j = Some nd -> length (next nd) = 16%nat.

Definition node_ref_eqb (a b : node_ref) : bool :=
  match a, b with
  | Head, Head => true
  | At x, At y => Nat.eqb x y
  | _, _ => false
  end.

(** [s'] is [s] with other links (and possibly other record indices). *)
Record relinked (s s' : t) : Prop := {
  rl_config : config s' = config s;
  rl_records : records s' = records s;
  rl_total : total_data_size s' = total_data_size s;
  rl_data : data_size s' = data_size s;
  rl_locked : is_locked s' = is_locked s;
  rl_next : next_record s' = next_record s;
  rl_length : length (nodes s') = length (nodes s);
  rl_keys : forall j, keyof s' j = keyof s j;
  rl_levels : levels_ok s -> levels_ok s'
}.

Definition below (s : t) (r : node_ref) (k : string) : Prop :=
  match r with Head => True | At j => key_lt (keyof s j) k end.

Definition above (s : t) (n : option nat) (k : string) : Prop :=
  match n with None => True | Some j => key_lt k (keyof s j) end.

(** Links stay inside the arena and lead to larger keys. *)
Record links_ok (s : t) : Prop := {
  lk_levels : levels_ok s;
  lk_valid : forall r i j, valid s r -> nxt s r i = Some j -> (j < length (nodes s))%nat;
  lk_asc : forall j i j', (j < length (nodes s))%nat -> nxt s (At j) i = Some j' ->
                          key_lt (keyof s j) (keyof s j')
}.

(** The number of nodes that a walk from [r] can still visit. *)
Definition room (s : t) (r : node_ref) : nat :=
  match r with
  | Head => length (nodes s)
  | At j => length (filter (fun nd => String.ltb (keyof s j) (key nd)) (nodes s))
  end.

(** The nodes met from a pointer along the links of level 0. *)
Inductive path (s : t) : option nat -> list nat -> Prop :=
| path_nil : path s None []
| path_cons j l :
    (j < length (nodes s))%nat -> path s (nxt s (At j) 0) l -> path s (Some j) (j :: l).

Definition ascending (s : t) (l : list nat) : Prop :=
  StronglySorted (fun a b => key_lt (keyof s a) (keyof s b)) l.

(** [l] is the bottom level: it starts at the head, holds the first [n]
    nodes of the arena (all of them, between two insertions), and its keys
    ascend strictly. *)
Record bottom_ok (s : t) (n : nat) (l : list nat) : Prop := {
  bo_path : path s (nxt s Head 0) l;
  bo_all : forall j, (j < n)%nat -> In j l;
  bo_asc : ascending s l
}.

(** What the search leaves in [updates] and [update_nexts] for the levels
    below [levels]. *)
Definition found_links (s : t) (k : string) (P : node_ref -> Prop) (levels : nat)
  (u : list (option node_ref)) (x : list (option nat)) : Prop :=
  length u = 16%nat /\ length x = 16%nat /\
  forall i, (i < levels)%nat ->
    exists p, nth i u None = Some p /\ nth i x None = nxt s p i /\
              valid s p /\ P p /\ below s p k /\ above s (nxt s p i) k.

Definition is_pred (u : list (option node_ref)) (i : nat) (r : node_ref) : bool :=
  match nth i u None with Some p => node_ref_eqb p r | None => false end.

(** For the levels below [levels], [updates] holds nodes other than the
    new node [j], and [update_nexts] their links. *)
Definition spliceable (s : t) (j levels : nat)
  (u : list (option node_ref)) (x : list (option nat)) : Prop :=
  length u = 16%nat /\ length x = 16%nat /\
  forall i, (i < levels)%nat ->
    exists p, nth i u None = Some p /\ nth i x None = nxt s p i /\
              valid s p /\ p <> At j.

(** The table between the allocation of the node [j] for the key [k] and
    its linking: the node is the last of the arena, nothing leads to it,
    and the bottom level holds the nodes before it. *)
Record pending (s : t) (j : nat) (k : string) (l : list nat) : Prop := {
  pe_links : links_ok s;
  pe_last : length (nodes s) = S j;
  pe_key : keyof s j = k;
  pe_unlinked : forall i, nxt s (At j) i = None;
  pe_fresh : forall r i, valid s r -> nxt s r i <> Some j;
  pe_bottom : bottom_ok s j l
}.

Definition same_links (s s' : t) : Prop :=
  length (nodes s') = length (nodes s) /\
  (forall r i, nxt s' r i = nxt s r i) /\
  (forall j, keyof s' j = keyof s j) /\
  (levels_ok s -> levels_ok s').

Record table_ok (s : t) : Prop := {
  ok_links : links_ok s;
  ok_bottom : exists l, bottom_ok s (length (nodes s)) l;
  ok_records : Z.of_nat (length (records s)) = writes_before_lock (config s);
  ok_limit : writes_before_lock (config s) <= 2 ^ 31 - 1;
  ok_next : 0 <= next_record s <= writes_before_lock (config s);
  ok_idx : forall j, (j < length (nodes s))%nat -> 0 <= idxof s j < next_record s
}.

(** The size field of the record slot [i]. *)
Definition size_at (s : t) (i : Z) : Z :=
  match index (records s) i with Ok r => size r | Fault _ => 0 end.

(** What a call of [insert] that returned [r] did to the table: nothing
    when the table was locked; otherwise it took the record slot
    [next_record], and either could not allocate, or wrote the record and
    then linked a new node (the last of the arena) or gave the node of the
    key the new record. *)
Definition insert_effect {alloc : allocator} (s : t) (k dat : string) (sz : Z)
  (r : option nat) (s' : t) : Prop :=
  config s' = config s /\ is_locked s' = is_locked s /\
  if locked s then r = None /\ s' = s
  else
    next_record s' = next_record s + 1 /\
    if malloc_ok sz then
      records s' = upd (records s) (Z.to_nat (next_record s))
                     {| data := Some (substring 0 (Z.to_nat sz) dat); size := sz |} /\
      total_data_size s' = wrap64 (total_data_size s + sz) /\
      exists j, r = Some j /\ keyof s' j = k /\ idxof s' j = next_record s /\
        ((j = length (nodes s) /\ length (nodes s') = S (length (nodes s)) /\
          (forall a, (a < length (nodes s))%nat ->
                     keyof s' a = keyof s a /\ idxof s' a = idxof s a /\ keyof s a <> k) /\
          data_size s' = wrap64 (data_size s + sz)) \/
         ((j < length (nodes s))%nat /\ length (nodes s') = length (nodes s) /\
          keyof s j = k /\
          (forall a, keyof s' a = keyof s a) /\
          (forall a, a <> j -> idxof s' a = idxof s a) /\
          data_size s' = wrap64 (wrap64 (data_size s - size_at s (idxof s j)) + sz)))
    else
      r = None /\
      records s' = upd (records s) (Z.to_nat (next_record s))
                     {| data := None; size := size_at s (next_record s) |} /\
      total_data_size s' = total_data_size s /\ data_size s' = data_size s /\
      head s' = head s /\ nodes s' = nodes s.

(** The operations of a run that stay inside the arrays: the level drawn
    is below [MAX_TABLE_LEVELS], and the buffer holds the bytes copied. *)
Definition op_fits {alloc : allocator} (o : op) : Prop :=
  match o with
  | Insert k dat sz draw =>
      random_level draw < MAX_TABLE_LEVELS /\ (malloc_ok sz = true -> sz <= strlen dat)
  | Lock => True
  end.

(** The bytes of the values that the nodes refer to, and of all the
    records written. *)
Definition live_bytes (s : t) : Z :=
  fold_right Z.add 0 (map (fun j => size_at s (idxof s j)) (seq 0 (length (nodes s)))).

Definition written_bytes (s : t) : Z := fold_right Z.add 0 (map size (records s)).

(** Every node refers to a record that holds its bytes. *)
Definition records_ok (s : t) : Prop :=
  forall j, (j < length (nodes s))%nat ->
    exists d, index (records s) (idxof s j) = Ok {| data := Some d; size := strlen d |}.

(** A well-formed table whose counters agree with its records. *)
Record table_wf (s : t) : Prop := {
  wf_ok : table_ok s;
  wf_records : records_ok s;
  wf_data : data_size s = wrap64 (live_bytes s);
  wf_total : total_data_size s = wrap64 (written_bytes s);
  wf_unused : forall i r, next_record s <= i -> index (records s) i = Ok r -> size r = 0
}.

(** A call whose level stays inside the links and whose buffer holds the
    [sz >= 0] bytes to copy. *)
Definition op_sound {alloc : allocator} (o : op) : Prop :=
  match o with
  | Insert k dat sz draw =>
      random_level draw < MAX_TABLE_LEVELS /\ 0 <= sz /\ (malloc_ok sz = true -> sz <= strlen dat)
  | Lock => True
  end.

(** Every key of the table is shorter than 2^32 bytes, and a call that
    keeps it so. *)
Definition keys_short (s : t) : Prop :=
  forall j, (j < length (nodes s))%nat -> strlen (keyof s j) < 2 ^ 32.


End SkiplistShape.

(** ** sstable.h *)

Module sstable.

Local Infix "+++" := String.append (at level 60, right associativity).

Record config_options : Type := { max_block_size : Z }.

Definition default_config : config_options := {| max_block_size := MiB 4 |}.

Record entry_header : Type := {
  prefix_bytes : Z;
  suffix_bytes : Z;
  value_bytes : Z
}.

Definition sizeof_entry_header : Z := 16.
Definition sizeof_uint64 : Z := 8.

(** [entry_header::padding_bytes] *)
Definition padding_bytes (data_size : Z) : Z :=
  wrap64 (sizeof_uint64 - data_size mod sizeof_uint64).

Record footer : Type := {
  block_size : Z;
  block_count : Z;
  entry_count : Z;
  key_bytes : Z;
  footer_value_bytes : Z;
  magic : Z
}.

Definition MAGIC_NUMBER : Z := 0x677265676F727968.
Definition sizeof_footer : Z := 48.

(** Number of leading bytes that [prefix] and [k] share: the loop of
    [header_from]. *)
Fixpoint common_prefix (prefix k : string) : Z :=
  match prefix, k with
  | String a p', String b k' => if Ascii.eqb a b then 1 + common_prefix p' k' else 0
  | _, _ => 0
  end.

(** What [header_from] returns when its loop ends: the header of a node's
    entry and the prefix after the call ([prefix] is passed by reference);
    [vsize] is [n->value()->size]. *)
Definition header_of (prefix : string) (k : string) (vsize : Z)
  : entry_header * string :=
  let '(pb, prefix') :=
    if String.eqb prefix EmptyString then (0, k) else (common_prefix prefix k, prefix) in
  ({| prefix_bytes := pb;
      suffix_bytes := (strlen k - pb) mod 2 ^ 32;
      value_bytes := vsize |}, prefix').

(** [header_from].  The loop counts in [hdr.prefix_bytes], a [uint32_t]:
    when the prefix and the key share 2^32 or more leading bytes, the
    counter wraps to 0 while the loop condition still holds and the loop
    starts again, so the call does not return. *)
Definition header_from (prefix : string) (k : string) (vsize : Z)
  : result (entry_header * string) :=
  if negb (String.eqb prefix EmptyString) && (2 ^ 32 <=? common_prefix prefix k)
  then Fault NoProgress
  else Ok (header_of prefix k vsize).

Definition write_header (h : entry_header) : string :=
  le_bytes 4 (prefix_bytes h) +++ le_bytes 4 (suffix_bytes h) +++ le_bytes 8 (value_bytes h).

Definition write_footer (f : footer) : string :=
  le_bytes 8 (block_size f) +++ le_bytes 8 (block_count f) +++ le_bytes 8 (entry_count f)
  +++ le_bytes 8 (key_bytes f) +++ le_bytes 8 (footer_value_bytes f) +++ le_bytes 8 (magic f).

(** The local variables of [build] and the bytes written so far. *)
Record writer : Type := {
  blocks : Z;
  w_key_bytes : Z;
  data_bytes : Z;
  entries : Z;
  prefix : string;
  block_bytes : Z;
  idx_offsets : list Z;
  out : string
}.

Definition writer_init : writer :=
  {| blocks := 0; w_key_bytes := 0; data_bytes := 0; entries := 0;
     prefix := EmptyString; block_bytes := 0; idx_offsets := []; out := EmptyString |}.

(** The block footer: zero fill up to the footer, the index offsets and
    their count. *)
Definition block_footer (cfg : config_options) (block_bytes : Z) (idx_offsets : list Z)
  : string :=
  let idx_count := Z.of_nat (length idx_offsets) in
  let footer_bytes := wrap64 (sizeof_uint64 * (idx_count + 1)) in
  let limit := wrap64 (max_block_size cfg - footer_bytes) in
  zeros (Z.to_nat (limit - block_bytes))
  +++ String.concat EmptyString (map (le_bytes 8) idx_offsets)
  +++ le_bytes 8 idx_count.

(** One turn of the [while (n)] loop of [build], for the node with key
    [k] and record [r]; [last] tells that [n->iterate()] is null. *)
Definition build_entry (cfg : config_options) (w : writer) (k : string)
  (r : skiptable.record) (last : bool) : result writer :=
  let vsize := skiptable.size r in
  '(hdr, prefix1) <- header_from (prefix w) k vsize ;;
  let idx_key := prefix_bytes hdr =? 0 in
  let entry_bytes :=
    wrap64 (sizeof_entry_header + suffix_bytes hdr + padding_bytes (suffix_bytes hdr)
            + vsize + padding_bytes vsize) in
  let room :=
    wrap64 (max_block_size cfg - entry_bytes
            - (if idx_key then sizeof_uint64 else 0)
            - Z.of_nat (length (idx_offsets w)) * sizeof_uint64
            - sizeof_uint64) in
  let new_block := room <? block_bytes w in
  let out1 :=
    if new_block then out w +++ block_footer cfg (block_bytes w) (idx_offsets w) else out w in
  let blocks1 := if new_block then wrap64 (blocks w + 1) else blocks w in
  let block_bytes1 := if new_block then 0 else block_bytes w in
  let offsets1 := if new_block then [] else idx_offsets w in
  let prefix2 := if new_block then EmptyString else prefix1 in
  let offsets2 := if idx_key then offsets1 ++ [block_bytes1] else offsets1 in
  suffix <- substr k (prefix_bytes hdr) (suffix_bytes hdr) ;;
  value <- match skiptable.data r with
           | Some d => if strlen d <? vsize then Fault OutOfBounds
                       else Ok (substring 0 (Z.to_nat vsize) d)
           | None => if vsize =? 0 then Ok EmptyString else Fault OutOfBounds
           end ;;
  let out2 :=
    out1 +++ write_header hdr
    +++ suffix +++ zeros (Z.to_nat (padding_bytes (suffix_bytes hdr)))
    +++ value +++ zeros (Z.to_nat (padding_bytes vsize)) in
  let block_bytes2 := wrap64 (block_bytes1 + entry_bytes) in
  Ok {| blocks := if last then wrap64 (blocks1 + 1) else blocks1;
        w_key_bytes := wrap64 (w_key_bytes w + strlen k);
        data_bytes := wrap64 (data_bytes w + vsize);
        entries := wrap64 (entries w + 1);
        prefix := prefix2;
        block_bytes := block_bytes2;
        idx_offsets := offsets2;
        out := if last then out2 +++ block_footer cfg block_bytes2 offsets2 else out2 |}.

(** The [while (n)] loop over the bottom level of the table. *)
Fixpoint build_loop (fuel : nat) (cfg : config_options) (table : skiptable.t)
  (n : option nat) (w : writer) : result writer :=
  match n with
  | None => Ok w
  | Some j =>
      match fuel with
      | O => Fault NoProgress
      | S fuel' =>
          rec <- skiptable.get_node table (Some j) ;;
          nd <- skiptable.deref table (skiptable.At j) ;;
          r <- match rec with Some r => Ok r | None => Fault OutOfBounds end ;;
          n' <- skiptable.iterate nd 0 ;;
          w' <- build_entry cfg w (skiptable.key nd) r
                  (match n' with None => true | Some _ => false end) ;;
          build_loop fuel' cfg table n' w'
      end
  end.

(** [build]: [None] when the table is not locked (the call returns
    [false] and the file stays as the stream constructor left it),
    otherwise the bytes of the file. *)
Definition build (cfg : config_options) (table : skiptable.t) : result (option string) :=
  if negb (skiptable.locked table) then Ok None
  else
    n <- skiptable.first table 0 ;;
    w <- build_loop (length (skiptable.nodes table)) cfg table n writer_init ;;
    Ok (Some (out w +++ write_footer
                {| block_size := max_block_size cfg; block_count := blocks w;
                   entry_count := entries w; key_bytes := w_key_bytes w;
                   footer_value_bytes := data_bytes w; magic := MAGIC_NUMBER |})).

(** The entry header that a pointer into the mapping is cast to. *)
Definition read_header (file : string) (off : Z) : result entry_header :=
  p <- read_u32 file off ;;
  s <- read_u32 file (off + 4) ;;
  v <- read_u64 file (off + 8) ;;
  Ok {| prefix_bytes := p; suffix_bytes := s; value_bytes := v |}.

Definition read_footer (file : string) : result footer :=
  let off := strlen file - sizeof_footer in
  bs <- read_u64 file off ;;
  bc <- read_u64 file (off + 8) ;;
  ec <- read_u64 file (off + 16) ;;
  kb <- read_u64 file (off + 24) ;;
  vb <- read_u64 file (off + 32) ;;
  mg <- read_u64 file (off + 40) ;;
  Ok {| block_size := bs; block_count := bc; entry_count := ec; key_bytes := kb;
        footer_value_bytes := vb; magic := mg |}.

(** The key bytes that follow the header at [off]. *)
Definition key_at (file : string) (off : Z) (hdr : entry_header) : result string :=
  read_bytes file (wrap64 (off + sizeof_entry_header)) (suffix_bytes hdr).

(** The loop that finds the block: the value of [block] when it ends;
    [left] blocks are still to be looked at. *)
Fixpoint find_block (file : string) (ftr : footer) (k : string) (block : Z) (left : nat)
  : result Z :=
  match left with
  | O => Ok block
  | S left' =>
      let offset := wrap64 (block * block_size ftr) in
      hdr <- read_header file offset ;;
      _ <- assert (prefix_bytes hdr =? 0) ;;
      k0 <- key_at file offset hdr ;;
      if String.ltb k k0 then Ok block
      else find_block file ftr k (wrap64 (block + 1)) left'
  end.

(** The loop over the index offsets of the block: the offset and the
    prefix it ends with. *)
Fixpoint find_index (file : string) (ftr : footer) (k : string)
  (block_base idx_count idx idx_offset : Z) (prefix : string) (left : nat)
  : result (Z * string) :=
  match left with
  | O => Ok (idx_offset, prefix)
  | S left' =>
      let last_offset := idx_offset in
      idx_offset' <- read_u64 file
        (wrap64 (block_base + block_size ftr - sizeof_uint64 * (1 + idx_count - idx))) ;;
      hdr <- read_header file (wrap64 (block_base + idx_offset')) ;;
      _ <- assert (prefix_bytes hdr =? 0) ;;
      k0 <- key_at file (wrap64 (block_base + idx_offset')) hdr ;;
      if String.ltb k k0 then Ok (last_offset, prefix)
      else find_index file ftr k block_base idx_count (idx + 1) idx_offset' k0 left'
  end.

(** The [do ... while] loop over the entries under one index key; [off]
    is the offset of [hdr]. *)
Fixpoint scan_entries (fuel : nat) (file : string) (k prefix : string) (off : Z)
  : result (option string) :=
  match fuel with
  | O => Fault NoProgress
  | S fuel' =>
      hdr <- read_header file off ;;
      suffix <- key_at file off hdr ;;
      kp <- substr k 0 (prefix_bytes hdr) ;;
      pp <- substr prefix 0 (prefix_bytes hdr) ;;
      hit <- (if String.eqb kp pp then
                ks <- substr k (prefix_bytes hdr) (suffix_bytes hdr) ;;
                Ok (String.eqb ks suffix)
              else Ok false) ;;
      let after_key :=
        off + sizeof_entry_header + suffix_bytes hdr + padding_bytes (suffix_bytes hdr) in
      if hit then
        v <- read_bytes file (wrap64 after_key) (value_bytes hdr) ;;
        Ok (Some v)
      else
        let off' :=
          wrap64 (after_key + value_bytes hdr + padding_bytes (value_bytes hdr)) in
        hdr' <- read_header file off' ;;
        if prefix_bytes hdr' =? 0 then Ok None
        else scan_entries fuel' file k prefix off'
  end.

(** [get]: [Some data_out] when the call returns [true]. *)
Definition get (file : string) (k : string) : result (option string) :=
  ftr <- read_footer file ;;
  _ <- assert (magic ftr =? MAGIC_NUMBER) ;;
  block0 <- find_block file ftr k 0 (Z.to_nat (block_count ftr)) ;;
  let block := wrap64 (block0 - 1) in
  let block_base := wrap64 (block * block_size ftr) in
  idx_count <- read_u64 file (wrap64 (block_base + block_size ftr - sizeof_uint64)) ;;
  '(idx_offset, prefix) <-
    find_index file ftr k block_base idx_count 0 0 EmptyString (Z.to_nat idx_count) ;;
  scan_entries (S (String.length file)) file k prefix (wrap64 (block_base + idx_offset)).

(** The block that [get] goes on with after the block loop. *)
Definition selected_block (file : string) (k : string) : result Z :=
  ftr <- read_footer file ;;
  _ <- assert (magic ftr =? MAGIC_NUMBER) ;;
  block0 <- find_block file ftr k 0 (Z.to_nat (block_count ftr)) ;;
  Ok (wrap64 (block0 - 1)).

End sstable.


(** The counters of a [writer] are [size_t] values. *)
Definition writer_in_range (w : sstable.writer) : Prop :=
  0 <= sstable.blocks w < 2 ^ 64 /\ 0 <= sstable.w_key_bytes w < 2 ^ 64 /\
  0 <= sstable.data_bytes w < 2 ^ 64 /\ 0 <= sstable.entries w < 2 ^ 64.

(** The bytes of all keys of a table. *)
Definition key_bytes_of (s : skiptable.t) : Z :=
  fold_right Z.add 0 (map (fun j => strlen (keyof s j)) (seq 0 (length (skiptable.nodes s)))).

(** ** The layout of a block

    The entries that [build] writes into one block, as records; [get]
    reads them back through their offsets. *)

Section BlockLayout.

Import sstable.
Local Infix "+++" := String.append (at level 60, right associativity).

Record entry : Type := {
  e_hdr : entry_header;
  e_sfx : string;
  e_val : string
}.

(** The bytes of an entry: header, key suffix, padding, value, padding. *)
Definition enc (e : entry) : string :=
  write_header (e_hdr e)
  +++ e_sfx e +++ zeros (Z.to_nat (padding_bytes (suffix_bytes (e_hdr e))))
  +++ e_val e +++ zeros (Z.to_nat (padding_bytes (value_bytes (e_hdr e)))).

Definition enc_size (e : entry) : Z :=
  sizeof_entry_header
  + suffix_bytes (e_hdr e) + padding_bytes (suffix_bytes (e_hdr e))
  + value_bytes (e_hdr e) + padding_bytes (value_bytes (e_hdr e)).

Fixpoint encs (es : list entry) : string :=
  match es with
  | [] => EmptyString
  | e :: es' => enc e +++ encs es'
  end.

Fixpoint encs_size (es : list entry) : Z :=
  match es with
  | [] => 0
  | e :: es' => enc_size e + encs_size es'
  end.

(** The fields of a header describe the suffix and the value that follow
    it. *)
Definition entry_ok (e : entry) : Prop :=
  0 <= prefix_bytes (e_hdr e) < 2 ^ 32 /\
  suffix_bytes (e_hdr e) = strlen (e_sfx e) /\ strlen (e_sfx e) < 2 ^ 32 /\
  value_bytes (e_hdr e) = strlen (e_val e) /\ strlen (e_val e) < 2 ^ 32.

(** The entry of the key [k] with the value [d], written while the prefix
    is [p]. *)
Definition entry_of (p k d : string) : entry :=
  let hdr := fst (header_of p k (strlen d)) in
  {| e_hdr := hdr;
     e_sfx := substring (Z.to_nat (prefix_bytes hdr)) (Z.to_nat (suffix_bytes hdr)) k;
     e_val := d |}.

(** The entries of a list of keys and values in key order; [header_from]
    sets the prefix as it goes. *)
Fixpoint entries_of (p : string) (kvs : list (string * string)) : list entry :=
  match kvs with
  | [] => []
  | (k, d) :: kvs' =>
      entry_of p k d :: entries_of (snd (header_of p k (strlen d))) kvs'
  end.

(** The index of a block: the offsets and keys of the entries whose
    header has no prefix bytes; [off] is the offset of the first entry. *)
Fixpoint index_of (off : Z) (es : list entry) : list (Z * string) :=
  match es with
  | [] => []
  | e :: es' =>
      (if prefix_bytes (e_hdr e) =? 0 then [(off, e_sfx e)] else [])
      ++ index_of (off + enc_size e) es'
  end.

(** The comparison of [get] between the key looked for and an entry. *)
Definition matches (k prefix : string) (hdr : entry_header) (suffix : string)
  : result bool :=
  kp <- substr k 0 (prefix_bytes hdr) ;;
  pp <- substr prefix 0 (prefix_bytes hdr) ;;
  if String.eqb kp pp then
    ks <- substr k (prefix_bytes hdr) (suffix_bytes hdr) ;;
    Ok (String.eqb ks suffix)
  else Ok false.

(** The walk of [get] over the index of a block, from the offset and
    prefix [cur]. *)
Fixpoint index_walk (k : string) (cur : Z * string) (idx : list (Z * string))
  : Z * string :=
  match idx with
  | [] => cur
  | (o, k0) :: idx' => if String.ltb k k0 then cur else index_walk k (o, k0) idx'
  end.

End BlockLayout.

(** The value and the pair of a node. *)
Definition valof (s : skiptable.t) (j : nat) : string :=
  match index (skiptable.records s) (idxof s j) with
  | Ok {| skiptable.data := Some d |} => d
  | _ => EmptyString
  end.

Definition pair_of (s : skiptable.t) (j : nat) : string * string := (keyof s j, valof s j).

(** An upper bound of the bytes that the pairs take in a block: 32 bytes
    of header and padding and an index offset for each. *)
Definition pairs_size (kvs : list (string * string)) : Z :=
  fold_right Z.add 0 (map (fun kv => 40 + strlen (fst kv) + strlen (snd kv)) kvs).

(** The prefix of [build] after the pairs [kvs]. *)
Fixpoint prefix_after (p : string) (kvs : list (string * string)) : string :=
  match kvs with
  | [] => p
  | (k, d) :: kvs' => prefix_after (snd (sstable.header_of p k (strlen d))) kvs'
  end.

(** Keys and values shorter than 2^32 bytes. *)
Definition short_pair (kv : string * string) : Prop :=
  strlen (fst kv) < 2 ^ 32 /\ strlen (snd kv) < 2 ^ 32.

(** ** wal.h *)

Module walfile.

Local Infix "+++" := String.append (at level 60, right associativity).

Record config_options : Type := { concurrent_put_limit : Z }.

Definition default_config : config_options := {| concurrent_put_limit := 256 |}.

(** The log object and the bytes of its file.  The queue holds pointers
    to nodes of the memtable that the caller inserted into. *)
Record t : Type := {
  config : config_options;
  logfile : string;
  putq : list (option nat);
  write : Z;
  read : Z
}.

Definition create (opts : config_options) : t :=
  {| config := opts; logfile := EmptyString;
     putq := repeat None (Z.to_nat (concurrent_put_limit opts));
     write := 0; read := 0 |}.

Definition newline : string := String (ascii_of_N 10) EmptyString.

(** [putq.at(i)] throws outside the vector. *)
Definition at_ {A} (l : list A) (i : Z) : result A :=
  match index l i with
  | Ok a => Ok a
  | Fault _ => Fault OutOfRange
  end.

(** [x % m] on [size_t]. *)
Definition modulo (x m : Z) : result Z :=
  if m =? 0 then Fault DivisionByZero else Ok (x mod m).

(** The [while (read != write)] loop under the exclusive lock. *)
Fixpoint drain (fuel : nat) (w : t) (table : skiptable.t) : result t :=
  if read w =? write w then Ok w
  else
    match fuel with
    | O => Fault NoProgress
    | S fuel' =>
        n <- at_ (putq w) (read w) ;;
        q <- store (putq w) (read w) None ;;
        rec <- skiptable.get_node table n ;;
        nd <- match n with
              | Some j => skiptable.deref table (skiptable.At j)
              | None => Fault OutOfBounds
              end ;;
        r <- match rec with Some r => Ok r | None => Fault OutOfBounds end ;;
        bytes <- match skiptable.data r with
                 | Some d => Ok (substring 0 (Z.to_nat (skiptable.size r)) d)
                 | None => if skiptable.size r =? 0 then Ok EmptyString
                           else Fault OutOfBounds
                 end ;;
        rd <- modulo (wrap64 (read w + 1)) (concurrent_put_limit (config w)) ;;
        drain fuel'
          {| config := config w;
             logfile := logfile w +++ skiptable.key nd +++ newline +++ bytes;
             putq := q; write := write w; read := rd |}
          table
    end.

(** [log] called by the only running thread: the shared lock is free, the
    compare-exchange succeeds, and [try_lock] succeeds.  A full queue is
    retried for ever. *)
Definition log (w : t) (table : skiptable.t) (node : option nat) : result t :=
  next <- modulo (wrap64 (write w + 1)) (concurrent_put_limit (config w)) ;;
  if next =? read w then Fault NoProgress
  else
    _ <- at_ (putq w) (write w) ;;
    q <- store (putq w) (write w) node ;;
    drain (S (Z.to_nat (concurrent_put_limit (config w))))
      {| config := config w; logfile := logfile w; putq := q;
         write := next; read := read w |}
      table.

(** [std::ifstream] over the bytes left to read. *)
Record ifstream : Type := {
  rest : string;
  eofbit : bool;
  failbit : bool
}.

Definition open (file : string) : ifstream :=
  {| rest := file; eofbit := false; failbit := false |}.

Definition good (f : ifstream) : bool := negb (eofbit f) && negb (failbit f).

(** The characters up to the first newline, and what follows it; [None]
    when the input ends first. *)
Fixpoint take_line (s : string) : string * option string :=
  match s with
  | EmptyString => (EmptyString, None)
  | String c s' =>
      if Ascii.eqb c (ascii_of_N 10) then (EmptyString, Some s')
      else let '(line, r) := take_line s' in (String c line, r)
  end.

(** [std::getline(file, str)] into an empty [str]. *)
Definition getline (f : ifstream) : string * ifstream :=
  if negb (good f) then
    (EmptyString, {| rest := rest f; eofbit := eofbit f; failbit := true |})
  else
    match take_line (rest f) with
    | (line, Some r) => (line, {| rest := r; eofbit := false; failbit := false |})
    | (line, None) =>
        (line, {| rest := EmptyString; eofbit := true;
                  failbit := String.eqb line EmptyString |})
    end.

(** The [while (file.good())] loop of [load]. *)
Fixpoint read_pairs (fuel : nat) (f : ifstream) (kvs : list (string * string))
  : result (list (string * string)) :=
  if negb (good f) then Ok kvs
  else
    match fuel with
    | O => Fault NoProgress
    | S fuel' =>
        let '(k, f1) := getline f in
        _ <- assert (good f1) ;;
        let '(v, f2) := getline f1 in
        read_pairs fuel' f2 (kvs ++ [(k, v)])
    end.

Section WithAllocator.

Context {alloc : allocator}.

(** The loop over the reversed pairs; [draws i] are the numbers drawn by
    the [i]-th insertion. *)
Fixpoint load_pairs (kvs : list (string * string)) (inserted : list string)
  (table : skiptable.t) (draws : nat -> nat -> Z) (i : nat) : result skiptable.t :=
  match kvs with
  | [] => Ok table
  | (k, v) :: kvs' =>
      if existsb (String.eqb k) inserted then load_pairs kvs' inserted table draws i
      else
        _ <- assert (negb (skiptable.locked table)) ;;
        k' <- substr k 0 (wrap64 (strlen k - 1)) ;;
        '(_, table') <- skiptable.insert table k' v (wrap64 (strlen v - 1)) (draws i) ;;
        load_pairs kvs' (k :: inserted) table' draws (S i)
  end.

(** [load] of a log file with the given bytes. *)
Definition load (file : string) (table : skiptable.t) (draws : nat -> nat -> Z)
  : result skiptable.t :=
  kvs <- read_pairs (S (String.length file)) (open file) [] ;;
  load_pairs (rev kvs) [] table draws 0.

End WithAllocator.

End walfile.


(** ** Logs of lines, and the queue of a log *)

Section WalShape.

Import walfile.

(** A string without a newline byte. *)
Definition no_newline (s : string) : bool := lacks (ascii_of_N 10) s.

(** A log of lines: key, newline, value, with a newline between two
    records and none at the end. *)
Fixpoint wal_lines (kvs : list (string * string)) : string :=
  match kvs with
  | [] => EmptyString
  | [(k, v)] => k ++ newline ++ v
  | (k, v) :: kvs' => k ++ newline ++ v ++ newline ++ wal_lines kvs'
  end.

(** The queue of a log between two calls of [log] on one thread: drained,
    with room for a pointer. *)
Definition wal_ok (w : t) : Prop :=
  2 <= concurrent_put_limit (config w) < 2 ^ 64 /\
  Z.of_nat (length (putq w)) = concurrent_put_limit (config w) /\
  0 <= read w < concurrent_put_limit (config w) /\ write w = read w.

End WalShape.

(** ** kvstore.h

    The store as one thread sees it: [put], [get] and the wake-ups of
    the background thread run one after the other.  [clock] is the steady
    clock; every reading is later than the one before. *)

Module kvstore.

Record config_options : Type := {
  memtable_options : skiptable.config_opts;
  sst_options : sstable.config_options;
  wal_options : walfile.config_options;
  memtable_history : Z
}.

Definition default_config : config_options :=
  {| memtable_options := skiptable.default_config;
     sst_options := sstable.default_config;
     wal_options := walfile.default_config;
     memtable_history := 2 |}.

(** An [sstable] object: its time stamp and the bytes of its file. *)
Record sst : Type := {
  created : Z;
  file : string
}.

Record t : Type := {
  config : config_options;
  mtable : skiptable.t;
  wal : walfile.t;
  hist : list skiptable.t;   (* the [hist_node] list, head first *)
  sstq : list sst;           (* the container [c] of the priority queue *)
  clock : Z
}.

(** The store after the constructor found both directories empty. *)
Definition create (opts : config_options) : t :=
  {| config := opts;
     mtable := skiptable.create (memtable_options opts);
     wal := walfile.create (wal_options opts);
     hist := []; sstq := []; clock := 0 |}.

(** [operator<] of [sstable]. *)
Definition sst_lt (a b : sst) : bool := created a <? created b.

(** [std::push_heap] with [std::less]: the last element moves up while
    its parent is smaller. *)
Fixpoint sift_up (fuel : nat) (c : list sst) (hole : nat) (v : sst) : list sst :=
  match fuel, hole with
  | S fuel', S h =>
      let parent := Nat.div h 2 in
      match nth_error c parent with
      | Some p => if sst_lt p v then sift_up fuel' (upd c hole p) parent v
                  else upd c hole v
      | None => upd c hole v
      end
  | _, _ => upd c hole v
  end.

(** [sstq.emplace(...)]: [c.emplace_back] then [push_heap]. *)
Definition emplace (c : list sst) (v : sst) : list sst :=
  sift_up (length c) (c ++ [v]) (length c) v.

(** [save_memtable] *)
Definition save_memtable (s : t) : t :=
  if skiptable.empty (mtable s) then s
  else
    {| config := config s;
       mtable := skiptable.create (memtable_options (config s));
       wal := wal s;
       hist := snd (skiptable.lock (mtable s)) :: hist s;
       sstq := sstq s; clock := clock s |}.

(** The [while (save)] loop of [flush_memtables]: one file per table of
    the history, head first. *)
Fixpoint flush_history (cfg : config_options) (save : list skiptable.t)
  (q : list sst) (now : Z) : result (list sst * Z) :=
  match save with
  | [] => Ok (q, now)
  | table :: save' =>
      built <- sstable.build (sst_options cfg) table ;;
      bytes <- match built with
               | Some b => Ok b
               | None => Fault AssertionFailed
               end ;;
      flush_history cfg save' (emplace q {| created := now; file := bytes |}) (now + 1)
  end.

(** [flush_memtables] *)
Definition flush_memtables (s : t) : result t :=
  let s1 := save_memtable s in
  '(q, now) <- flush_history (config s1) (hist s1) (sstq s1) (clock s1 + 1) ;;
  Ok {| config := config s1; mtable := mtable s1;
        wal := walfile.create (wal_options (config s1));
        hist := []; sstq := q; clock := now |}.

(** One wake-up of [background]. *)
Definition background (s : t) : result t :=
  if memtable_history (config s) <? Z.of_nat (length (hist s)) then flush_memtables s
  else Ok s.

(** The bytes copied into [data_out] from a record. *)
Definition copy_out (r : skiptable.record) : result string :=
  match skiptable.data r with
  | Some d => if strlen d <? skiptable.size r then Fault OutOfBounds
              else Ok (substring 0 (Z.to_nat (skiptable.size r)) d)
  | None => if skiptable.size r =? 0 then Ok EmptyString else Fault OutOfBounds
  end.

Fixpoint get_hist (h : list skiptable.t) (k : string) : result (option string) :=
  match h with
  | [] => Ok None
  | table :: h' =>
      r <- skiptable.get table k ;;
      match r with
      | Some rec => v <- copy_out rec ;; Ok (Some v)
      | None => get_hist h' k
      end
  end.

Fixpoint get_sst (q : list sst) (k : string) : result (option string) :=
  match q with
  | [] => Ok None
  | entry :: q' =>
      r <- sstable.get (file entry) k ;;
      match r with
      | Some v => Ok (Some v)
      | None => get_sst q' k
      end
  end.

(** [get]: [Some data_out] when the call returns [true]. *)
Definition get (s : t) (k : string) : result (option string) :=
  r <- get_hist (mtable s :: hist s) k ;;
  match r with
  | Some v => Ok (Some v)
  | None => get_sst (sstq s) k
  end.

Section WithAllocator.

Context {alloc : allocator}.

(** [put]: [retries] bounds the jumps to [put_retry]; [draws i] are the
    numbers drawn by the [i]-th call of [insert]. *)
Fixpoint put_retry (retries : nat) (s : t) (k v : string) (draws : nat -> nat -> Z)
  (i : nat) : result t :=
  match retries with
  | O => Fault NoProgress
  | S retries' =>
      '(node, table) <- skiptable.insert (mtable s) k v (strlen v) (draws i) ;;
      let s1 := {| config := config s; mtable := table; wal := wal s;
                   hist := hist s; sstq := sstq s; clock := clock s |} in
      match node with
      | None => put_retry retries' (save_memtable s1) k v draws (S i)
      | Some _ =>
          w <- walfile.log (wal s1) table node ;;
          Ok {| config := config s1; mtable := table; wal := w;
                hist := hist s1; sstq := sstq s1; clock := clock s1 |}
      end
  end.

(** What the client and the background thread do, in the order in which
    it happens. *)
Inductive op : Type :=
| Put (k v : string) (draws : nat -> nat -> Z)
| Get (k : string)
| Wake.

(** A run of operations and the answers of its [Get]s; [retries] is the
    bound of every [put]. *)
Fixpoint run (retries : nat) (s : t) (ops : list op)
  : result (list (option string) * t) :=
  match ops with
  | [] => Ok ([], s)
  | Put k v draws :: ops' =>
      s' <- put_retry retries s k v draws 0 ;; run retries s' ops'
  | Get k :: ops' =>
      a <- get s k ;;
      '(answers, s') <- run retries s ops' ;;
      Ok (a :: answers, s')
  | Wake :: ops' =>
      s' <- background s ;; run retries s' ops'
  end.

End WithAllocator.

End kvstore.


(** ** The store between two operations *)

Section StoreShape.
Import kvstore.
Context {alloc : allocator}.

(** Options with which a fresh memtable takes writes, the log has room
    for a pointer, and the sizes fit their types. *)
Definition config_sane (c : config_options) : Prop :=
  0 < skiptable.writes_before_lock (memtable_options c) <= 2 ^ 31 - 1 /\
  0 < skiptable.data_limit (memtable_options c) /\
  0 < skiptable.total_data_limit (memtable_options c) /\
  2 <= walfile.concurrent_put_limit (wal_options c) < 2 ^ 64 /\
  0 <= sstable.max_block_size (sst_options c) < 2 ^ 64.

(** The store between two operations. *)
Record store_ok (s : t) : Prop := {
  so_config : config_sane (config s);
  so_mtable : table_wf (mtable s);
  so_mconfig : skiptable.config (mtable s) = memtable_options (config s);
  so_wal : wal_ok (wal s);
  so_hist : Forall (fun m => table_wf m /\ skiptable.locked m = true) (hist s)
}.

(** A [put] whose insertions draw levels inside the links. *)
Definition op_ok (o : op) : Prop :=
  match o with
  | Put k v draws => forall i, skiptable.random_level (draws i) < skiptable.MAX_TABLE_LEVELS
  | Get _ | Wake => True
  end.



End StoreShape.

(** ** tool.cpp

    The command loop of [main]: a line of the standard input is split at
    spaces with [std::getline(ss, str, ' ')], and the store is asked. *)

Module tool.

Local Infix "+++" := String.append (at level 60, right associativity).

(** The characters up to the first [d], and what follows it; [None] when
    the input ends first. *)
Fixpoint take_until (d : ascii) (s : string) : string * option string :=
  match s with
  | EmptyString => (EmptyString, None)
  | String c s' =>
      if Ascii.eqb c d then (EmptyString, Some s')
      else let '(line, r) := take_until d s' in (String c line, r)
  end.

(** [std::getline(ss, str, delim)] into an empty [str]. *)
Definition getline (d : ascii) (f : walfile.ifstream) : string * walfile.ifstream :=
  if negb (walfile.good f) then
    (EmptyString, {| walfile.rest := walfile.rest f; walfile.eofbit := walfile.eofbit f;
                     walfile.failbit := true |})
  else
    match take_until d (walfile.rest f) with
    | (line, Some r) =>
        (line, {| walfile.rest := r; walfile.eofbit := false; walfile.failbit := false |})
    | (line, None) =>
        (line, {| walfile.rest := EmptyString; walfile.eofbit := true;
                  walfile.failbit := String.eqb line EmptyString |})
    end.

Definition space : ascii := " "%char.

(** What the body of the loop does with a line. *)
Inductive command : Type :=
| Quit
| Get (key : string)
| Put (key val : string)
| Skip.

Definition parse (line : string) : command :=
  let '(cmd, ss1) := getline space (walfile.open line) in
  if walfile.failbit ss1 then Skip
  else if String.eqb cmd "quit"%string then Quit
  else
    let get_cmd :=
      if String.eqb cmd "get"%string then
        let '(key, ss2) := getline space ss1 in
        if walfile.failbit ss2 then None else Some key
      else None in
    match get_cmd with
    | Some key => Get key
    | None =>
        if String.eqb cmd "put"%string then
          let '(key, ss2) := getline space ss1 in
          if walfile.failbit ss2 then Skip
          else
            let '(val, ss3) := getline space ss2 in
            if walfile.failbit ss3 then Skip else Put key val
        else Skip
    end.

Definition prompt : string :=
  "Please enter command (quit | get <key> | put <key> <value>): "%string.

Section WithAllocator.

Context {alloc : allocator}.

(** [main]: the bytes written to [std::cout] when the loop is left by
    [quit]; [cin] is the standard input, [retries] bounds every [put], and
    [draws n] are the numbers drawn by the insertions of the [n]-th turn
    of the loop. *)
Fixpoint main (fuel retries : nat) (store : kvstore.t) (cin : walfile.ifstream)
  (draws : nat -> nat -> nat -> Z) (n : nat) (cout : string) : result string :=
  match fuel with
  | O => Fault NoProgress
  | S fuel' =>
      let cout1 := cout +++ prompt in
      let '(line, cin1) := walfile.getline cin in
      match parse line with
      | Quit => Ok cout1
      | Get key =>
          r <- kvstore.get store key ;;
          let answer := match r with Some val => val | None => "not found"%string end in
          main fuel' retries store cin1 draws (S n)
            (cout1 +++ "GET "%string +++ key +++ ":"%string +++ answer +++ walfile.newline)
      | Put key val =>
          store1 <- kvstore.put_retry retries store key val (draws n) 0 ;;
          main fuel' retries store1 cin1 draws (S n)
            (cout1 +++ "PUT "%string +++ key +++ ":"%string +++ val +++ walfile.newline)
      | Skip => main fuel' retries store cin1 draws (S n) cout1
      end
  end.

End WithAllocator.

End tool.

(** ** Fixtures

    Small concrete environments, tables and stores on which the code is
    run in the second part.  The allocator is glibc's with memory to
    spare: an allocation fails only above [PTRDIFF_MAX]. *)

(** A small filter environment: rates are per-mille integers, every filter has 2 slices of 8 bits, and
    the hash adds the seed to the length and first byte of the data. *)
Definition demo_hash (data : string) (seed : Z) : Z :=
  match data with
  | EmptyString => seed
  | String c _ => Z.of_nat (String.length data) + Z.of_N (N_of_ascii c) + seed
  end.

Definition demo_env : filter_env :=
  {| rate := Z;
     rate_mul := fun a b => a * b / 1000;
     hash_count := fun _ => 2;
     slice_bits := fun _ _ => 8;
     XXHash64_hash := demo_hash |}.

Definition demo_parameters : @parameters demo_env :=
  @Build_parameters demo_env 10 3 [1; 2; 3; 4].

Definition demo_scalable_parameters : @scalable_parameters demo_env :=
  @Build_scalable_parameters demo_env demo_parameters 900 2.

(** A sub-filter of the demo environment with the given bytes and count. *)
Definition demo_sub (p : @parameters demo_env) (bytes : list Z) (count : Z)
  : @static_filter demo_env :=
  @Build_static_filter demo_env p
    {| slices := 2; bps := 8; bit_count := 16; bits := bytes |} count.

Definition demo_filter : @static_filter demo_env := static_filter_new demo_parameters.

Definition demo_scalable : @scalable_filter demo_env :=
  scalable_filter_new demo_scalable_parameters.


Definition demo_later : list string := ["bb"; "ccc"; "dddd"; "a"; "eeeee"]%string.

Definition demo_final : @scalable_filter demo_env :=
  @Build_scalable_filter demo_env demo_scalable_parameters
    [demo_sub demo_parameters [168; 81] 3;
     demo_sub (@Build_parameters demo_env 9 6 [1; 2; 3; 4]) [2; 4] 1].

(** The 32 seeds of a [std::array<uint64_t, MAX_HASH_COUNT>]. *)
Definition seeds32 : list Z := map Z.of_nat (seq 1 32).

Definition glibc_malloc : allocator := {| malloc_ok := fun sz => sz <=? 2 ^ 63 - 1 |}.

Definition level0 : nat -> Z := fun _ => 0.
Definition all_level0 : nat -> nat -> Z := fun _ _ => 0.

(** Memtables with four record slots keep the runs small. *)
Definition four_writes : skiptable.config_opts :=
  {| skiptable.writes_before_lock := 4;
     skiptable.data_limit := MiB 16;
     skiptable.total_data_limit := MiB 160 |}.

Definition fresh_table : skiptable.t := skiptable.create four_writes.

(** A table sealed by [lock()]. *)
Definition sealed_table : skiptable.t := snd (skiptable.lock fresh_table).

(** The table with the given pairs, inserted in order, then locked. *)
Fixpoint table_of (s : skiptable.t) (kvs : list (string * string)) : result skiptable.t :=
  match kvs with
  | [] => Ok (snd (skiptable.lock s))
  | (k, v) :: kvs' =>
      '(_, s') <- @skiptable.insert glibc_malloc s k v (strlen v) level0 ;;
      table_of s' kvs'
  end.

Definition file_of (block_size : Z) (kvs : list (string * string)) : result string :=
  s <- table_of fresh_table kvs ;;
  built <- sstable.build {| sstable.max_block_size := block_size |} s ;;
  match built with
  | Some bytes => Ok bytes
  | None => Fault AssertionFailed
  end.

(** The log file after the given inserts were made and logged in order. *)
Fixpoint log_all (s : skiptable.t) (w : walfile.t) (kvs : list (string * string))
  : result string :=
  match kvs with
  | [] => Ok (walfile.logfile w)
  | (k, v) :: kvs' =>
      '(node, s') <- @skiptable.insert glibc_malloc s k v (strlen v) level0 ;;
      w' <- walfile.log w s' node ;;
      log_all s' w' kvs'
  end.

(** A store whose memtables take one write each, with 64-byte blocks. *)
Definition small_config : kvstore.config_options :=
  {| kvstore.memtable_options :=
       {| skiptable.writes_before_lock := 1;
          skiptable.data_limit := MiB 16;
          skiptable.total_data_limit := MiB 160 |};
     kvstore.sst_options := {| sstable.max_block_size := 64 |};
     kvstore.wal_options := walfile.default_config;
     kvstore.memtable_history := 2 |}.

Definition always_odd : nat -> Z := fun _ => 1.

(** An allocator that has no room for more than 8 bytes. *)
Definition small_malloc : allocator := {| malloc_ok := fun sz => sz <=? 8 |}.

(** One insertion into a table of four slots, and the table after it. *)
Definition insert_b : list skiptable.op := [skiptable.Insert "b" "2" 1 level0].

Definition table_b : skiptable.t :=
  Eval vm_compute in
    match @skiptable.run glibc_malloc fresh_table insert_b with
    | Ok s => s
    | Fault _ => fresh_table
    end.

(** A locked table with two keys that share their first byte. *)
Definition insert_ab_ac : list skiptable.op :=
  [skiptable.Insert "ab" "1" 1 level0; skiptable.Insert "ac" "2" 1 level0; skiptable.Lock].

Definition table_ab_ac : skiptable.t :=
  Eval vm_compute in
    match @skiptable.run glibc_malloc fresh_table insert_ab_ac with
    | Ok s => s
    | Fault _ => fresh_table
    end.

(** One [put] into a store whose memtables take one write, and the store
    after it. *)
Definition put_a : list kvstore.op := [kvstore.Put "a" "1" all_level0].

Definition store_a : kvstore.t :=
  Eval vm_compute in
    match @kvstore.run glibc_malloc 1 (kvstore.create small_config) put_a with
    | Ok (_, s) => s
    | Fault _ => kvstore.create small_config
    end.



(** A standard input at its end. *)
Definition cin_at_end : walfile.ifstream :=
  {| walfile.rest := EmptyString; walfile.eofbit := true; walfile.failbit := false |}.

(** * Properties *)

(** ** Machine integers and arrays *)

Lemma wrap64_range z : 0 <= wrap64 z < 2 ^ 64.
Proof. unfold wrap64. apply Z.mod_pos_bound. lia. Qed.

Lemma wrap64_small z : 0 <= z < 2 ^ 64 -> wrap64 z = z.
Proof. intros H. unfold wrap64. apply Z.mod_small. exact H. Qed.

Lemma upd_length {A} (l : list A) n a : length (upd l n a) = length l.
Proof.
  revert n; induction l as [|h t IH]; intros [|n]; simpl; auto.
Qed.

Lemma nth_error_upd_same {A} (l : list A) n a :
  (n < length l)%nat -> nth_error (upd l n a) n = Some a.
Proof.
  revert n; induction l as [|h t IH]; intros [|n] H; simpl in *; try lia; auto.
  apply IH; lia.
Qed.

Lemma nth_error_upd_other {A} (l : list A) n m a :
  n <> m -> nth_error (upd l n a) m = nth_error l m.
Proof.
  revert n m; induction l as [|h t IH]; intros [|n] [|m] H; simpl; auto.
  congruence.
Qed.

Lemma index_Ok {A} (l : list A) i a :
  index l i = Ok a <-> 0 <= i < Z.of_nat (length l) /\ nth_error l (Z.to_nat i) = Some a.
Proof.
  unfold index.
  destruct (0 <=? i) eqn:H0; destruct (i <? Z.of_nat (length l)) eqn:H1; simpl;
    try (split; [discriminate | intros [? _]; lia]).
  destruct (nth_error l (Z.to_nat i)) eqn:E.
  - split; [intros [= ->]; split; [lia | reflexivity] | intros [_ [= ->]]; reflexivity].
  - split; [discriminate | intros [_ ?]; discriminate].
Qed.

Lemma store_Ok {A} (l : list A) i a l' :
  store l i a = Ok l' <-> 0 <= i < Z.of_nat (length l) /\ l' = upd l (Z.to_nat i) a.
Proof.
  unfold store.
  destruct (0 <=? i) eqn:H0; destruct (i <? Z.of_nat (length l)) eqn:H1; simpl;
    try (split; [discriminate | intros [? _]; lia]).
  split; [intros [= <-]; split; [lia | reflexivity] | intros [_ ->]; reflexivity].
Qed.

(** ** The error monad *)

Lemma bind_Ok {A B} (r : result A) (k : A -> result B) b :
  bind r k = Ok b <-> exists a, r = Ok a /\ k a = Ok b.
Proof.
  destruct r as [a|f]; simpl.
  - split; [eauto | intros (a' & [= <-] & H); exact H].
  - split; [discriminate | intros (a' & H & _); discriminate].
Qed.

(** Decompose hypotheses of the shape [bind r k = Ok b]. *)
Ltac bind_inv H :=
  let a := fresh "a" in
  let Ha := fresh "Ha" in
  apply bind_Ok in H; destruct H as (a & Ha & H).

(** ** Bloom filters *)

Section BloomProps.

Context {env : filter_env}.

(** The test of one bit is the [testbit] of its byte. *)
Lemma land_sub_bit b idx :
  negb (Z.land b (sub_bit idx) =? 0) = Z.testbit b (idx mod CHAR_BIT).
Proof.
  unfold sub_bit, CHAR_BIT. rewrite Z.shiftl_1_l.
  assert (Hk : 0 <= idx mod 8) by (apply Z.mod_pos_bound; lia).
  destruct (Z.testbit b (idx mod 8)) eqn:T.
  - destruct (Z.eqb_spec (Z.land b (2 ^ (idx mod 8))) 0) as [E|E]; [|reflexivity].
    assert (X : Z.testbit (Z.land b (2 ^ (idx mod 8))) (idx mod 8) = true).
    { rewrite Z.land_spec, T, Z.pow2_bits_true by lia. reflexivity. }
    rewrite E, Z.bits_0 in X. discriminate.
  - assert (E : Z.land b (2 ^ (idx mod 8)) = 0).
    { apply Z.bits_inj'. intros n Hn. rewrite Z.land_spec, Z.bits_0.
      rewrite Z.pow2_bits_eqb by lia.
      destruct (Z.eqb_spec (idx mod 8) n) as [<-|]; [rewrite T|]; auto with bool. }
    rewrite E. reflexivity.
Qed.

Lemma lor_sub_bit_same b idx :
  Z.testbit (Z.lor b (sub_bit idx)) (idx mod CHAR_BIT) = true.
Proof.
  unfold sub_bit, CHAR_BIT. rewrite Z.shiftl_1_l, Z.lor_spec.
  rewrite Z.pow2_bits_true by (apply Z.mod_pos_bound; lia).
  apply orb_true_r.
Qed.

Lemma lor_sub_bit_mono b idx k :
  Z.testbit b k = true -> Z.testbit (Z.lor b (sub_bit idx)) k = true.
Proof. intros H. rewrite Z.lor_spec, H. reflexivity. Qed.

Lemma bit_on_iff m idx :
  bit_on m idx <->
  exists b, index (bits m) (byte_idx idx) = Ok b /\ Z.testbit b (idx mod CHAR_BIT) = true.
Proof.
  unfold bit_on, mem_check. rewrite bind_Ok. split.
  - intros (b & Hb & [= E]). exists b. rewrite land_sub_bit in E. auto.
  - intros (b & Hb & T). exists b. rewrite land_sub_bit, T. auto.
Qed.

Lemma mem_set_shape m idx m' : mem_set m idx = Ok m' -> same_shape m m'.
Proof.
  unfold mem_set. intros H. bind_inv H. bind_inv H. injection H as <-.
  apply store_Ok in Ha0 as [_ ->]. unfold same_shape; simpl.
  rewrite upd_length. auto.
Qed.

Lemma mem_set_on m idx m' : mem_set m idx = Ok m' -> bit_on m' idx.
Proof.
  unfold mem_set. intros H. bind_inv H. bind_inv H. injection H as <-.
  apply bit_on_iff; simpl. apply store_Ok in Ha0 as [Hr ->].
  exists (Z.lor a (sub_bit idx)). split; [|apply lor_sub_bit_same].
  apply index_Ok. rewrite upd_length. split; [exact Hr|].
  apply nth_error_upd_same. lia.
Qed.

Lemma mem_set_mono m idx m' j : mem_set m idx = Ok m' -> bit_on m j -> bit_on m' j.
Proof.
  unfold mem_set. intros H. bind_inv H. bind_inv H. injection H as <-.
  rewrite !bit_on_iff; simpl. intros (b & Hb & T).
  apply store_Ok in Ha0 as [Hr ->].
  apply index_Ok in Hb as [Hj Hb]. apply index_Ok in Ha as [_ Ha].
  destruct (Nat.eq_dec (Z.to_nat (byte_idx idx)) (Z.to_nat (byte_idx j))) as [E|E].
  - exists (Z.lor a (sub_bit idx)). split.
    + apply index_Ok. rewrite upd_length. split; [exact Hj|].
      rewrite <- E. apply nth_error_upd_same. lia.
    + rewrite <- E in Hb. assert (a = b) by congruence. subst a.
      apply lor_sub_bit_mono, T.
  - exists b. split; [|exact T].
    apply index_Ok. rewrite upd_length. split; [exact Hj|].
    rewrite nth_error_upd_other; auto.
Qed.

Lemma extends_refl f : extends f f.
Proof. unfold extends, same_shape. repeat split; auto. Qed.

Lemma extends_trans f g h : extends f g -> extends g h -> extends f h.
Proof.
  unfold extends, same_shape.
  intros (P1 & (A1 & B1 & C1 & D1) & M1) (P2 & (A2 & B2 & C2 & D2) & M2).
  repeat split; try congruence. auto.
Qed.

Lemma extends_with_mem f idx m : mem_set (mem f) idx = Ok m -> extends f (with_mem f m).
Proof.
  intros H. unfold extends; simpl. split; [reflexivity|]. split.
  - eapply mem_set_shape, H.
  - intros j. eapply mem_set_mono, H.
Qed.

Lemma extends_count f n :
  extends f {| params := params f; mem := mem f; element_count := n |}.
Proof. unfold extends, same_shape; simpl. repeat split; auto. Qed.

Lemma hash_i_ext f f' i x : extends f f' -> hash_i f' i x = hash_i f i x.
Proof.
  intros (P & (_ & B & _) & _). unfold hash_i. rewrite P, B. reflexivity.
Qed.

Lemma might_contain_from_ext f f' x n : forall i,
  extends f f' ->
  might_contain_from f x i n = Ok true -> might_contain_from f' x i n = Ok true.
Proof.
  induction n as [|n IH]; intros i E; simpl; [auto|].
  intros H. bind_inv H. bind_inv H.
  rewrite (hash_i_ext f f') by exact E. rewrite Ha. simpl.
  destruct a0; [|discriminate].
  destruct E as (P & S & M). rewrite (M a Ha0). simpl.
  apply IH; [split; auto | exact H].
Qed.

Lemma insert_new_from_spec x n : forall f i f',
  insert_new_from f x i n = Ok f' ->
  extends f f' /\ element_count f' = element_count f /\
  might_contain_from f' x i n = Ok true.
Proof.
  induction n as [|n IH]; intros f i f'; simpl.
  - intros [= <-]. split; [apply extends_refl | auto].
  - intros H. bind_inv H. bind_inv H.
    destruct (IH _ _ _ H) as (E & C & MC).
    pose proof (extends_with_mem f a a0 Ha0) as E0.
    pose proof (extends_trans _ _ _ E0 E) as E1.
    split; [exact E1 | split; [exact C|]].
    rewrite (hash_i_ext f f') by exact E1. rewrite Ha. simpl.
    assert (B : bit_on (mem f') a).
    { destruct E as (_ & _ & M). apply M. simpl. eapply mem_set_on, Ha0. }
    rewrite B. simpl. exact MC.
Qed.

Lemma insert_from_spec x n : forall f i a b f',
  insert_from f x i n a = Ok (b, f') ->
  extends f f' /\ element_count f' = element_count f /\
  might_contain_from f' x i n = Ok true.
Proof.
  induction n as [|n IH]; intros f i a b f'; simpl.
  - intros [= <- <-]. split; [apply extends_refl | auto].
  - intros H. bind_inv H. bind_inv H. destruct a1 as [old m].
    unfold mem_check_set in Ha0. bind_inv Ha0. bind_inv Ha0. injection Ha0 as <- <-.
    destruct (IH _ _ _ _ _ H) as (E & C & MC).
    pose proof (extends_with_mem f a0 a2 Ha2) as E0.
    pose proof (extends_trans _ _ _ E0 E) as E1.
    split; [exact E1 | split; [exact C|]].
    rewrite (hash_i_ext f f') by exact E1. rewrite Ha. simpl.
    assert (B : bit_on (mem f') a0).
    { destruct E as (_ & _ & M). apply M. simpl. eapply mem_set_on, Ha2. }
    rewrite B. simpl. exact MC.
Qed.

Lemma extends_slices f f' : extends f f' -> slices (mem f') = slices (mem f).
Proof. intros (_ & (S & _) & _). exact S. Qed.

Lemma static_insert_new_spec f x f' :
  static_insert_new f x = Ok f' ->
  extends f f' /\ element_count f' = wrap64 (element_count f + 1) /\
  static_might_contain f' x = Ok true.
Proof.
  unfold static_insert_new. intros H.
  apply insert_new_from_spec in H as (E & C & MC). simpl in C.
  assert (E' : extends f f').
  { eapply extends_trans; [apply (extends_count f (wrap64 (element_count f + 1))) | exact E]. }
  split; [exact E' | split; [exact C|]].
  unfold static_might_contain. rewrite (extends_slices _ _ E'). exact MC.
Qed.

Lemma static_insert_spec f x b f' :
  static_insert f x = Ok (b, f') ->
  extends f f' /\ static_might_contain f' x = Ok true.
Proof.
  unfold static_insert. intros H. bind_inv H. destruct a as [all_set g].
  apply insert_from_spec in Ha as (E & C & MC).
  assert (X : static_might_contain g x = Ok true).
  { unfold static_might_contain. rewrite (extends_slices _ _ E). exact MC. }
  destruct all_set; injection H as <- <-.
  - auto.
  - pose proof (extends_count g (wrap64 (element_count g + 1))) as E2.
    split; [eapply extends_trans; eauto|].
    unfold static_might_contain in *. simpl.
    eapply might_contain_from_ext; [exact E2 | exact X].
Qed.

Lemma static_step_extends f o f' : static_step f o = Ok f' -> extends f f'.
Proof.
  destruct o as [d|d]; simpl; intros H.
  - bind_inv H. destruct a as [b g]. injection H as <-.
    eapply static_insert_spec, Ha.
  - eapply static_insert_new_spec, H.
Qed.

Lemma static_run_extends ops : forall f f', static_run f ops = Ok f' -> extends f f'.
Proof.
  induction ops as [|o ops IH]; simpl; intros f f' H.
  - injection H as <-. apply extends_refl.
  - bind_inv H. eapply extends_trans; [eapply static_step_extends, Ha | eapply IH, H].
Qed.

Lemma static_might_contain_ext f f' x :
  extends f f' -> static_might_contain f x = Ok true -> static_might_contain f' x = Ok true.
Proof.
  intros E H. unfold static_might_contain in *. rewrite (extends_slices _ _ E).
  eapply might_contain_from_ext; eauto.
Qed.

Lemma wf_static_extends f f' : extends f f' -> (wf_static f <-> wf_static f').
Proof.
  intros (P & (A & B & C & D) & _). unfold wf_static.
  rewrite P, A, B, D. reflexivity.
Qed.

Lemma hash_i_total f i x :
  wf_static f -> 0 <= i < slices (mem f) ->
  exists b, hash_i f i x = Ok b /\ 0 <= b < slices (mem f) * bps (mem f).
Proof.
  intros (Hb & Hs & Hseed & Hlt & _) Hi. unfold hash_i.
  destruct (nth_error (hash_seeds (params f)) (Z.to_nat i)) as [seed|] eqn:E.
  2:{ apply nth_error_None in E. lia. }
  simpl. destruct (Z.eqb_spec (bps (mem f)) 0) as [Z0|_]; [lia|].
  pose proof (Z.mod_pos_bound (XXHash64_hash x seed) (bps (mem f)) Hb) as Hm.
  assert (Hi2 : 0 <= i * bps (mem f) /\
                i * bps (mem f) + bps (mem f) <= slices (mem f) * bps (mem f)) by nia.
  eexists. split; [reflexivity|].
  rewrite (wrap64_small (i * _)) by lia. rewrite wrap64_small by lia. lia.
Qed.

Lemma byte_idx_range (l : list Z) b :
  0 <= b < 8 * Z.of_nat (length l) -> 0 <= byte_idx b < Z.of_nat (length l).
Proof.
  intros H. unfold byte_idx, CHAR_BIT. split.
  - apply Z.div_pos; lia.
  - apply Z.div_lt_upper_bound; lia.
Qed.

Lemma index_total {A} (l : list A) i :
  0 <= i < Z.of_nat (length l) -> exists a, index l i = Ok a.
Proof.
  intros H. destruct (nth_error l (Z.to_nat i)) as [a|] eqn:E.
  - exists a. apply index_Ok. auto.
  - apply nth_error_None in E. lia.
Qed.

Lemma mem_set_total m b :
  0 <= b < 8 * Z.of_nat (length (bits m)) -> exists m', mem_set m b = Ok m'.
Proof.
  intros H. apply byte_idx_range in H. unfold mem_set.
  destruct (index_total _ _ H) as (a & ->). simpl.
  destruct (store (bits m) (byte_idx b) (Z.lor a (sub_bit b))) as [bs|e] eqn:E.
  - simpl. eauto.
  - unfold store in E.
    destruct (0 <=? byte_idx b) eqn:E1; destruct (byte_idx b <? Z.of_nat (length (bits m))) eqn:E2;
      simpl in E; try discriminate; lia.
Qed.

Lemma mem_check_total m b :
  0 <= b < 8 * Z.of_nat (length (bits m)) -> exists c, mem_check m b = Ok c.
Proof.
  intros H. apply byte_idx_range in H. unfold mem_check.
  destruct (index_total _ _ H) as (a & ->). simpl. eauto.
Qed.

Lemma might_contain_from_total x n : forall f i,
  wf_static f -> 0 <= i -> i + Z.of_nat n <= slices (mem f) ->
  exists c, might_contain_from f x i n = Ok c.
Proof.
  induction n as [|n IH]; intros f i W Hi Hn; simpl; [eauto|].
  destruct (hash_i_total f i x W) as (b & -> & Hb); [lia|]. simpl.
  destruct (mem_check_total (mem f) b) as (c & ->); [destruct W as (_&_&_&_&?); lia|].
  simpl. destruct c; [|eauto]. apply IH; auto; lia.
Qed.

Lemma static_might_contain_total f x :
  wf_static f -> exists c, static_might_contain f x = Ok c.
Proof.
  intros W. apply might_contain_from_total; auto; [lia|].
  destruct W as (_ & ? & _). lia.
Qed.

Lemma insert_new_from_total x n : forall f i,
  wf_static f -> 0 <= i -> i + Z.of_nat n <= slices (mem f) ->
  exists f', insert_new_from f x i n = Ok f'.
Proof.
  induction n as [|n IH]; intros f i W Hi Hn; simpl; [eauto|].
  destruct (hash_i_total f i x W) as (b & -> & Hb); [lia|]. simpl.
  destruct (mem_set_total (mem f) b) as (m & Hm); [destruct W as (_&_&_&_&?); lia|].
  rewrite Hm. simpl.
  pose proof (extends_with_mem f b m Hm) as E.
  apply IH; [apply (wf_static_extends _ _ E), W | lia |].
  rewrite (extends_slices _ _ E). lia.
Qed.

Lemma insert_from_total x n : forall f i a,
  wf_static f -> 0 <= i -> i + Z.of_nat n <= slices (mem f) ->
  exists b f', insert_from f x i n a = Ok (b, f').
Proof.
  induction n as [|n IH]; intros f i a W Hi Hn; simpl; [eauto|].
  destruct (hash_i_total f i x W) as (b & -> & Hb); [lia|]. simpl.
  assert (R : 0 <= b < 8 * Z.of_nat (length (bits (mem f))))
    by (destruct W as (_&_&_&_&?); lia).
  destruct (mem_set_total (mem f) b R) as (m & Hm).
  destruct (mem_check_total (mem f) b R) as (c & Hc).
  unfold mem_check_set. rewrite Hc. simpl. rewrite Hm. simpl.
  pose proof (extends_with_mem f b m Hm) as E.
  apply IH; [apply (wf_static_extends _ _ E), W | lia |].
  rewrite (extends_slices _ _ E). lia.
Qed.

Lemma static_insert_new_total f x :
  wf_static f -> exists f', static_insert_new f x = Ok f'.
Proof.
  intros W. unfold static_insert_new.
  apply insert_new_from_total; simpl; try lia.
  - apply (wf_static_extends _ _ (extends_count f (wrap64 (element_count f + 1)))), W.
  - destruct W as (_ & ? & _). lia.
Qed.

Lemma static_insert_total f x :
  wf_static f -> exists b f', static_insert f x = Ok (b, f').
Proof.
  intros W. unfold static_insert.
  destruct (insert_from_total x (Z.to_nat (slices (mem f))) f 0 true W) as (b & f' & ->);
    [lia | destruct W as (_ & ? & _); lia |].
  simpl. destruct b; eauto.
Qed.

Lemma static_run_total ops : forall f,
  wf_static f -> exists f', static_run f ops = Ok f'.
Proof.
  induction ops as [|o ops IH]; intros f W; simpl; [eauto|].
  assert (S : exists g, static_step f o = Ok g).
  { destruct o as [d|d]; simpl.
    - destruct (static_insert_total f d W) as (b & g & ->). simpl. eauto.
    - apply static_insert_new_total, W. }
  destruct S as (g & Hg). rewrite Hg. simpl.
  apply IH. apply (wf_static_extends _ _ (static_step_extends _ _ _ Hg)), W.
Qed.

(** *** The scalable filter *)

Lemma Forall2_extends_refl fs : Forall2 extends fs fs.
Proof. induction fs; constructor; auto using extends_refl. Qed.

Lemma grows_refl fs : grows fs fs.
Proof. exists fs, []. rewrite app_nil_r. auto using Forall2_extends_refl. Qed.

Lemma Forall2_extends_trans fs : forall gs hs,
  Forall2 extends fs gs -> Forall2 extends gs hs -> Forall2 extends fs hs.
Proof.
  induction fs as [|f fs IH]; intros gs hs H1 H2; inversion H1; subst;
    inversion H2; subst; constructor; eauto using extends_trans.
Qed.

Lemma grows_trans fs gs hs : grows fs gs -> grows gs hs -> grows fs hs.
Proof.
  intros (g1 & e1 & -> & F1) (g2 & e2 & -> & F2).
  apply Forall2_app_inv_l in F2 as (h1 & h2 & A & B & ->).
  exists h1, (h2 ++ e2). rewrite app_assoc. split; [reflexivity|].
  eapply Forall2_extends_trans; eauto.
Qed.

Lemma grows_length fs fs' : grows fs fs' -> (length fs <= length fs')%nat.
Proof.
  intros (gs & extra & -> & F). apply Forall2_length in F.
  rewrite length_app. lia.
Qed.

Lemma back_last fs f : back (fs ++ [f]) = Ok f.
Proof. unfold back. rewrite rev_app_distr. reflexivity. Qed.

Lemma back_Ok fs f : back fs = Ok f -> fs = removelast fs ++ [f].
Proof.
  unfold back. destruct (rev fs) as [|g r] eqn:E; [discriminate|].
  intros [= ->]. assert (F : fs = rev r ++ [f]).
  { rewrite <- (rev_involutive fs), E. reflexivity. }
  rewrite F at 2. rewrite removelast_last. exact F.
Qed.

Lemma might_contain_any_app fs gs x :
  might_contain_any fs x = Ok false ->
  might_contain_any (fs ++ gs) x = might_contain_any gs x.
Proof.
  induction fs as [|f fs IH]; simpl; [auto|].
  intros H. bind_inv H. rewrite Ha. simpl. destruct a; [discriminate|]. auto.
Qed.

Lemma might_contain_any_prefix fs gs x :
  might_contain_any (fs ++ gs) x = Ok false -> might_contain_any fs x = Ok false.
Proof.
  induction fs as [|f fs IH]; simpl; [auto|].
  intros H. bind_inv H. rewrite Ha. simpl. destruct a; [discriminate|]. auto.
Qed.


Lemma insert_new_back_spec fs x fs' :
  insert_new_back fs x = Ok fs' ->
  exists f f', back fs = Ok f /\ static_insert_new f x = Ok f' /\
               fs' = removelast fs ++ [f'].
Proof.
  unfold insert_new_back. intros H. bind_inv H. bind_inv H. injection H as <-.
  eauto.
Qed.

Lemma scalable_insert_spec s x b s1 :
  scalable_insert s x = Ok (b, s1) ->
  grows (filters s) (filters s1) /\ scalable_might_contain s1 x = Ok true.
Proof.
  unfold scalable_insert, scalable_might_contain. intros H. bind_inv H.
  destruct a.
  { injection H as <- <-. split; [apply grows_refl | exact Ha]. }
  bind_inv H. bind_inv H. injection H as <- <-. simpl.
  apply insert_new_back_spec in Ha1 as (f & f' & B & I & ->).
  apply static_insert_new_spec in I as (E & _ & MC).
  destruct (good a).
  - pose proof (back_Ok _ _ B) as Hfs. split.
    + exists (removelast (filters s) ++ [f']), []. rewrite app_nil_r. split; [reflexivity|].
      rewrite Hfs at 1. apply Forall2_app; [apply Forall2_extends_refl | auto].
    + rewrite Hfs in Ha. apply might_contain_any_prefix in Ha.
      rewrite might_contain_any_app by exact Ha. simpl. rewrite MC. reflexivity.
  - rewrite removelast_last. split.
    + exists (filters s), [f']. split; [reflexivity | apply Forall2_extends_refl].
    + rewrite might_contain_any_app by exact Ha. simpl. rewrite MC. reflexivity.
Qed.

Lemma scalable_run_grows xs : forall s bs s',
  scalable_run s xs = Ok (bs, s') -> grows (filters s) (filters s').
Proof.
  induction xs as [|x xs IH]; simpl; intros s bs s' H.
  - injection H as <- <-. apply grows_refl.
  - bind_inv H. destruct a as [b s1]. bind_inv H. destruct a as [bs' s2].
    injection H as <- <-.
    eapply grows_trans; [eapply scalable_insert_spec, Ha | eapply IH, Ha0].
Qed.

Lemma scalable_run_length xs : forall s bs s',
  scalable_run s xs = Ok (bs, s') -> length bs = length xs.
Proof.
  induction xs as [|x xs IH]; simpl; intros s bs s' H.
  - injection H as <- <-. reflexivity.
  - bind_inv H. destruct a as [b s1]. bind_inv H. destruct a as [bs' s2].
    injection H as <- <-. simpl. f_equal. eapply IH, Ha0.
Qed.

Lemma wrap64_add_l a b : wrap64 (wrap64 a + b) = wrap64 (a + b).
Proof. unfold wrap64. apply Z.add_mod_idemp_l. lia. Qed.

Lemma scalable_count_fold fs : forall a,
  fold_left (fun count f => wrap64 (count + (if static_count f then 1 else 0))) fs (wrap64 a)
  = wrap64 (a + Z.of_nat (length (filter static_count fs))).
Proof.
  induction fs as [|f fs IH]; intros a; simpl.
  - f_equal. lia.
  - rewrite wrap64_add_l, IH. destruct (static_count f); simpl; f_equal; lia.
Qed.

Lemma scalable_count_spec s :
  scalable_count s = wrap64 (Z.of_nat (length (filter static_count (filters s)))).
Proof.
  pose proof (scalable_count_fold (filters s) 0) as H.
  rewrite Z.add_0_l in H. rewrite <- H. reflexivity.
Qed.

(** While the filter keeps a single sub-filter, every insertion that was
    not answered "already present" adds one to its element count. *)
Lemma scalable_run_single xs : forall s bs s' f,
  scalable_run s xs = Ok (bs, s') ->
  filters s = [f] -> length (filters s') = 1%nat ->
  0 <= element_count f -> capacity (params f) < 2 ^ 64 ->
  exists f', filters s' = [f'] /\
             element_count f' = element_count f + Z.of_nat (length (filter negb bs)).
Proof.
  induction xs as [|x xs IH]; simpl; intros s bs s' f H Hs Hlen Hec Hcap.
  - injection H as <- <-. exists f. split; [exact Hs | simpl; lia].
  - bind_inv H. destruct a as [b s1]. bind_inv H. destruct a as [bs' s2].
    injection H as <- <-.
    pose proof (grows_length _ _ (scalable_run_grows _ _ _ _ Ha0)) as Hg.
    rewrite Hlen in Hg.
    unfold scalable_insert in Ha. bind_inv Ha. destruct a.
    { injection Ha as <- <-. simpl. eapply IH; eauto. }
    rewrite Hs in Ha. simpl in Ha. unfold good in Ha.
    destruct (Z.ltb_spec (element_count f) (capacity (params f))) as [Hgood|Hfull];
      apply bind_Ok in Ha as (fs' & Hi & Ha); injection Ha as <- <-;
      apply insert_new_back_spec in Hi as (g & g' & B & I & ->); simpl in *.
    + injection B as <-.
      apply static_insert_new_spec in I as ((P & _) & C & _).
      rewrite wrap64_small in C by lia.
      destruct (IH _ _ _ g' Ha0 eq_refl Hlen) as (f' & Hf' & E); try rewrite C; try rewrite P; try lia.
      exists f'. split; [exact Hf'|]. rewrite E, C. lia.
    + exfalso. lia.
Qed.






(** C10. [scalable_filter::count] adds one per sub-filter that holds at
    least one element and nothing per sub-filter that holds none, because
    [static_filter::count] returns [bool]: it is the number of sub-filters
    whose element count is not 0 (modulo 2^64).  A new filter counts 0;
    after [n >= 2] insertions into a new filter that were all new (every
    call answered false, hence the elements are distinct) and that all
    went to the first sub-filter, [count] is 1 while that sub-filter's
    element count is [n]. *)
Theorem scalable_count_counts_nonempty_filters :
  (forall s, scalable_count s
             = wrap64 (Z.of_nat (length (filter (fun f => negb (element_count f =? 0))
                                                (filters s))))) /\
  (forall p, scalable_count (scalable_filter_new p) = 0) /\
  (forall p xs bs s',
     0 <= capacity (base p) < 2 ^ 64 ->
     scalable_run (scalable_filter_new p) xs = Ok (bs, s') ->
     (2 <= length xs)%nat -> forallb negb bs = true ->
     length (filters s') = 1%nat ->
     scalable_count s' = 1 /\
     exists f, filters s' = [f] /\ element_count f = Z.of_nat (length xs)).
Proof.
  split; [exact scalable_count_spec|]. split; [reflexivity|].
  intros p xs bs s' Hcap Hrun Hn Hall Hlen.
  destruct (scalable_run_single xs _ bs s' (static_filter_new (base p)) Hrun)
    as (f & Hf & E); simpl; auto; try lia.
  simpl in E.
  assert (Hb : filter negb bs = bs).
  { clear -Hall. induction bs as [|b bs IH]; simpl in *; [reflexivity|].
    apply andb_true_iff in Hall as [-> H]. simpl. f_equal. auto. }
  rewrite Hb, (scalable_run_length _ _ _ _ Hrun) in E.
  split; [|exists f; auto].
  rewrite scalable_count_spec, Hf. simpl. unfold static_count. rewrite E.
  destruct (Z.eqb_spec (Z.of_nat (length xs)) 0); [lia | reflexivity].
Qed.

End BloomProps.

Lemma demo_wf_static p : wf_static (@static_filter_new demo_env p) <->
  (2 <= length (hash_seeds p))%nat.
Proof. unfold wf_static; simpl. lia. Qed.



Lemma scalable_count_counts_nonempty_filters_witness :
  let s := @Build_scalable_filter demo_env demo_scalable_parameters
             [demo_sub demo_parameters [40; 80] 2] in
  scalable_run demo_scalable ["a"; "bb"]%string = Ok ([false; false], s) /\
  scalable_count s = 1 /\
  exists f, filters s = [f] /\ element_count f = 2.
Proof.
  split; [reflexivity|].
  apply (proj2 (proj2 (@scalable_count_counts_nonempty_filters demo_env))
           demo_scalable_parameters ["a"; "bb"]%string [false; false]).
  - simpl. lia.
  - reflexivity.
  - simpl. lia.
  - reflexivity.
  - reflexivity.
Defined.

(** ** Bloom filters: new filters, answers and capacities *)

Section BloomMore.
Context {env : filter_env}.

Lemma new_filter_wf p :
  0 <= hash_count (target_error_rate p) <= Z.of_nat (length (hash_seeds p)) ->
  0 < slice_bits (target_error_rate p) (capacity p) ->
  hash_count (target_error_rate p) * slice_bits (target_error_rate p) (capacity p) < 2 ^ 64 ->
  wf_static (static_filter_new p).
Proof.
  intros Hh Hs Hp. unfold wf_static, static_filter_new, memory_new.
  cbn [mem params slices bps bits].
  repeat split; try lia.
  rewrite repeat_length. rewrite wrap64_small by nia.
  set (bc := hash_count (target_error_rate p) * slice_bits (target_error_rate p) (capacity p)) in *.
  unfold CHAR_BIT.
  assert (0 <= bc) by (unfold bc; nia).
  pose proof (Z.div_mod bc 8 ltac:(lia)) as D.
  pose proof (Z.mod_pos_bound bc 8 ltac:(lia)) as M.
  assert (0 <= bc / 8) by (apply Z.div_pos; lia).
  destruct (Z.eqb_spec (bc mod 8) 0); rewrite Z2Nat.id by lia; lia.
Qed.

Lemma new_memory_bit_off s b idx c :
  mem_check (memory_new s b) idx = Ok c -> c = false.
Proof.
  unfold mem_check, memory_new. cbn [bits]. intros H. bind_inv H. injection H as <-.
  apply index_Ok in Ha as [_ Ha]. apply nth_error_In, repeat_spec in Ha. subst a.
  reflexivity.
Qed.

(** X1. A new filter holds nothing.  When the
    parameters give between 1 and [hash_seeds.size()] hash functions and
    slices of at least one bit, with fewer than 2^64 bits in all, the
    constructor allocates a byte for every bit that [hash_i] can produce,
    and [might_contain] of the new static filter, and of the new scalable
    filter built from the same parameters, answers false for every
    element. *)
Theorem new_filter_tests_negative (sp : scalable_parameters) (x : string) :
  0 < hash_count (target_error_rate (base sp))
    <= Z.of_nat (length (hash_seeds (base sp))) ->
  0 < slice_bits (target_error_rate (base sp)) (capacity (base sp)) ->
  hash_count (target_error_rate (base sp))
    * slice_bits (target_error_rate (base sp)) (capacity (base sp)) < 2 ^ 64 ->
  wf_static (static_filter_new (base sp)) /\
  static_might_contain (static_filter_new (base sp)) x = Ok false /\
  scalable_might_contain (scalable_filter_new sp) x = Ok false.
Proof.
  intros Hh Hs Hp.
  assert (W : wf_static (static_filter_new (base sp))) by (apply new_filter_wf; lia).
  assert (M : static_might_contain (static_filter_new (base sp)) x = Ok false).
  { unfold static_might_contain.
    destruct (Z.to_nat (slices (mem (static_filter_new (base sp))))) as [|n] eqn:E.
    { simpl in E. lia. }
    cbn [might_contain_from].
    destruct (hash_i_total (static_filter_new (base sp)) 0 x W) as (b & -> & Hb).
    { simpl. lia. }
    cbn [bind].
    destruct (mem_check_total (mem (static_filter_new (base sp))) b) as (c & Hc).
    { destruct W as (_ & _ & _ & _ & ?). lia. }
    rewrite Hc. pose proof (new_memory_bit_off _ _ _ _ Hc). subst c. reflexivity. }
  split; [exact W|]. split; [exact M|].
  unfold scalable_might_contain, scalable_filter_new. cbn [filters might_contain_any].
  rewrite M. reflexivity.
Qed.

(** Setting a bit leaves every other bit as it was. *)
Lemma mem_set_other m idx m' j :
  mem_set m idx = Ok m' -> 0 <= idx -> 0 <= j -> idx <> j ->
  mem_check m' j = mem_check m j.
Proof.
  unfold mem_set. intros H Hi Hj Hne. bind_inv H. bind_inv H. injection H as <-.
  apply store_Ok in Ha0 as [Hr ->]. unfold mem_check; cbn [bits].
  apply index_Ok in Ha as [_ Ha].
  destruct (Z.eq_dec (byte_idx idx) (byte_idx j)) as [E|E].
  - rewrite <- E.
    assert (I1 : index (upd (bits m) (Z.to_nat (byte_idx idx)) (Z.lor a (sub_bit idx)))
                   (byte_idx idx) = Ok (Z.lor a (sub_bit idx))).
    { apply index_Ok. rewrite upd_length. split; [exact Hr|].
      apply nth_error_upd_same. lia. }
    assert (I2 : index (bits m) (byte_idx idx) = Ok a) by (apply index_Ok; auto).
    rewrite I1, I2. cbn [bind]. f_equal. rewrite !land_sub_bit.
    rewrite Z.lor_spec. unfold sub_bit. rewrite Z.shiftl_1_l.
    assert (Hm : idx mod CHAR_BIT <> j mod CHAR_BIT).
    { unfold byte_idx, CHAR_BIT in *. intros Em.
      pose proof (Z.div_mod idx 8 ltac:(lia)). pose proof (Z.div_mod j 8 ltac:(lia)). lia. }
    rewrite Z.pow2_bits_false; [apply orb_false_r|].
    intros X. apply Hm. exact X.
  - assert (N : Z.to_nat (byte_idx idx) <> Z.to_nat (byte_idx j)).
    { unfold byte_idx, CHAR_BIT in *.
      assert (0 <= idx / 8) by (apply Z.div_pos; lia).
      assert (0 <= j / 8) by (apply Z.div_pos; lia). lia. }
    unfold index. rewrite upd_length, nth_error_upd_other by exact N. reflexivity.
Qed.

Lemma hash_i_slice f i x b :
  wf_static f -> 0 <= i < slices (mem f) -> hash_i f i x = Ok b ->
  i * bps (mem f) <= b < (i + 1) * bps (mem f).
Proof.
  intros (Hb & Hs & Hseed & Hlt & _) Hi. unfold hash_i.
  destruct (nth_error (hash_seeds (params f)) (Z.to_nat i)) as [seed|]; [|discriminate].
  cbn [bind]. destruct (Z.eqb_spec (bps (mem f)) 0) as [Z0|_]; [lia|].
  intros [= <-].
  pose proof (Z.mod_pos_bound (XXHash64_hash x seed) (bps (mem f)) Hb) as Hm.
  assert (Hi2 : 0 <= i * bps (mem f) /\
                i * bps (mem f) + bps (mem f) <= slices (mem f) * bps (mem f)) by nia.
  rewrite (wrap64_small (i * _)) by lia. rewrite wrap64_small by lia. lia.
Qed.

(** The slices above the one a bit was set in test as before. *)
Lemma might_contain_from_other f x i0 b m n : forall i,
  wf_static f -> 0 <= i0 < i -> i + Z.of_nat n <= slices (mem f) ->
  hash_i f i0 x = Ok b -> mem_set (mem f) b = Ok m ->
  might_contain_from (with_mem f m) x i n = might_contain_from f x i n.
Proof.
  induction n as [|n IH]; intros i W Hi Hn Hb Hm; cbn [might_contain_from]; [reflexivity|].
  pose proof (extends_with_mem f b m Hm) as E.
  rewrite (hash_i_ext f (with_mem f m)) by exact E.
  destruct (hash_i f i x) as [b'|e] eqn:Hb'; [|reflexivity]. cbn [bind].
  pose proof (hash_i_slice f i0 x b W ltac:(lia) Hb) as R0.
  pose proof (hash_i_slice f i x b' W ltac:(lia) Hb') as R1.
  destruct W as (Hbps & W').
  assert (b <> b') by nia.
  change (mem (with_mem f m)) with m.
  rewrite (mem_set_other (mem f) b m b' Hm) by nia.
  destruct (mem_check (mem f) b') as [c|e]; [|reflexivity]. cbn [bind].
  destruct c; [|reflexivity].
  apply IH; auto; try lia. split; assumption.
Qed.

Lemma insert_from_answer x n : forall f i a b f',
  wf_static f -> 0 <= i -> i + Z.of_nat n <= slices (mem f) ->
  insert_from f x i n a = Ok (b, f') ->
  exists c, might_contain_from f x i n = Ok c /\ b = c && a.
Proof.
  induction n as [|n IH]; intros f i a b f' W Hi Hn; cbn [insert_from might_contain_from].
  - intros [= <- <-]. exists true. auto.
  - intros H. bind_inv H. bind_inv H. destruct a1 as [old m].
    unfold mem_check_set in Ha0. bind_inv Ha0. bind_inv Ha0. injection Ha0 as <- <-.
    rewrite Ha. cbn [bind]. rewrite Ha1. cbn [bind].
    pose proof (extends_with_mem f a0 a2 Ha2) as E.
    destruct (IH (with_mem f a2) (i + 1) (a1 && a) b f') as (c & Hc & ->).
    + apply (wf_static_extends _ _ E), W.
    + lia.
    + rewrite (extends_slices _ _ E). lia.
    + exact H.
    + rewrite (might_contain_from_other f x i a0 a2 n (i + 1)) in Hc; auto; try lia.
      destruct a1.
      * exists c. split; [exact Hc|]. destruct c, a; reflexivity.
      * exists false. split; [reflexivity|]. destruct c, a; reflexivity.
Qed.

(** X2. [insert] of a static filter
    answers what [might_contain] answered just before the call (true: all
    the bits of the element were set already), and the element count goes
    up by one exactly when the answer is false. *)
Theorem static_insert_answers_membership f x b f' :
  wf_static f -> static_insert f x = Ok (b, f') ->
  static_might_contain f x = Ok b /\
  element_count f' = (if b then element_count f else wrap64 (element_count f + 1)) /\
  params f' = params f.
Proof.
  intros W H. unfold static_insert in H. bind_inv H. destruct a as [all_set g].
  pose proof (insert_from_spec _ _ _ _ _ _ _ Ha) as (E & C & _).
  destruct (insert_from_answer x (Z.to_nat (slices (mem f))) f 0 true all_set g W
              ltac:(lia)) as (c & Hc & Hb); auto.
  { destruct W as (_ & ? & _). lia. }
  rewrite andb_true_r in Hb. subst c.
  destruct E as (P & _).
  change (static_might_contain f x = Ok all_set) in Hc.
  destruct all_set; injection H as <- <-; cbn [element_count params];
    rewrite ?C; repeat split; auto.
Qed.

(** [might_contain] of a scalable filter whose sub-filters are well-formed
    returns. *)
Lemma might_contain_any_total fs x :
  Forall wf_static fs -> exists c, might_contain_any fs x = Ok c.
Proof.
  induction 1 as [|f fs Wf _ IH]; cbn [might_contain_any]; [eauto|].
  destruct (static_might_contain_total f x Wf) as (c & ->). cbn [bind].
  destruct c; eauto.
Qed.

(** X3. [insert] of a scalable filter stays
    inside its vectors: when the sub-filters are well-formed, and so is the
    sub-filter that would be added if the last one is full, the call
    returns, its answer is that of [might_contain] before the call, the
    sub-filters stay well-formed, and a sub-filter is added exactly when
    the element is new and the last sub-filter is full. *)
Theorem scalable_insert_returns s x last :
  back (filters s) = Ok last -> Forall wf_static (filters s) ->
  (good last = false ->
   wf_static (static_filter_new (scaled (sparams s) (params last)))) ->
  exists b s1 last1,
    scalable_insert s x = Ok (b, s1) /\ scalable_might_contain s x = Ok b /\
    sparams s1 = sparams s /\ Forall wf_static (filters s1) /\
    back (filters s1) = Ok last1 /\
    length (filters s1)
    = (if b || good last then length (filters s) else S (length (filters s))).
Proof.
  intros B W Wn. unfold scalable_insert, scalable_might_contain.
  destruct (might_contain_any_total (filters s) x W) as (c & Hc). rewrite Hc. cbn [bind].
  destruct c.
  { exists true, s, last. cbn [orb]. auto 10. }
  rewrite B. cbn [bind orb]. pose proof (back_Ok _ _ B) as Hfs.
  assert (Wl : wf_static last).
  { rewrite Hfs in W. apply Forall_app in W as (_ & W). inversion W; assumption. }
  unfold insert_new_back. destruct (good last) eqn:G.
  - rewrite B. cbn [bind].
    destruct (static_insert_new_total last x Wl) as (f' & Hf'). rewrite Hf'. cbn [bind].
    apply static_insert_new_spec in Hf' as (E & _ & _).
    exists false. eexists. exists f'. split; [reflexivity|]. cbn [sparams filters].
    split; [reflexivity|]. split; [reflexivity|]. split; [|split].
    + rewrite Hfs in W. apply Forall_app in W as (W1 & _).
      apply Forall_app. split; [exact W1|]. constructor; [|constructor].
      apply (wf_static_extends _ _ E), Wl.
    + apply back_last.
    + rewrite Hfs at 2. rewrite !length_app. reflexivity.
  - specialize (Wn eq_refl). rewrite back_last. cbn [bind].
    destruct (static_insert_new_total _ x Wn) as (f' & Hf'). rewrite Hf'. cbn [bind].
    apply static_insert_new_spec in Hf' as (E & _ & _).
    exists false. eexists. exists f'. split; [reflexivity|]. cbn [sparams filters].
    split; [reflexivity|]. split; [reflexivity|]. rewrite removelast_last. split; [|split].
    + apply Forall_app. split; [exact W|]. constructor; [|constructor].
      apply (wf_static_extends _ _ E), Wn.
    + apply back_last.
    + rewrite length_app. simpl. lia.
Qed.

Lemma grows_params fs fs' f :
  grows fs fs' -> In f fs -> exists g, In g fs' /\ params g = params f.
Proof.
  intros (gs & extra & -> & F) Hin.
  induction F as [|a g fs0 gs0 E F IH]; [destruct Hin|].
  destruct Hin as [->|Hin].
  - exists g. split; [left; reflexivity | apply E].
  - destruct (IH Hin) as (g' & Hg' & P). exists g'. split; [right; exact Hg' | exact P].
Qed.

Lemma scalable_insert_within s x b s1 :
  scalable_insert s x = Ok (b, s1) -> Forall within_capacity (filters s) ->
  Forall (fun f => 0 < capacity (params f)) (filters s1) ->
  Forall within_capacity (filters s1).
Proof.
  unfold scalable_insert. intros H Wc Pos. bind_inv H. destruct a.
  { injection H as <- <-. exact Wc. }
  bind_inv H. bind_inv H. injection H as <- <-. cbn [filters] in *.
  apply insert_new_back_spec in Ha1 as (f & f' & B & I & ->).
  apply static_insert_new_spec in I as ((P & _) & C & _).
  pose proof (back_Ok _ _ Ha0) as Hfs.
  apply Forall_app in Pos as (_ & Pos). inversion Pos as [|? ? Pf' _]; subst.
  destruct (good a) eqn:G.
  - rewrite B in Ha0. injection Ha0 as <-.
    rewrite Hfs in Wc. apply Forall_app in Wc as (W1 & W2).
    inversion W2 as [|? ? Wf _]; subst.
    apply Forall_app. split; [exact W1|]. constructor; [|constructor].
    unfold within_capacity, good in *. rewrite P, C.
    apply Z.ltb_lt in G. rewrite wrap64_small by lia. lia.
  - rewrite back_last in B. injection B as <-. rewrite removelast_last.
    apply Forall_app. split; [exact Wc|]. constructor; [|constructor].
    unfold within_capacity. rewrite P in *. rewrite C.
    cbn [element_count static_filter_new params scaled capacity] in *.
    pose proof (wrap64_range (capacity (params a) * scaling_factor (sparams s))).
    rewrite wrap64_small by lia. lia.
Qed.

(** X4. A scalable filter never puts
    more elements into a sub-filter than its capacity: after any
    insertions into a new filter, every sub-filter counts at most
    [capacity] elements, provided no capacity was scaled to 0 (modulo
    2^64). *)
Theorem scalable_filter_respects_capacity sp xs bs s' :
  0 <= capacity (base sp) < 2 ^ 64 ->
  scalable_run (scalable_filter_new sp) xs = Ok (bs, s') ->
  Forall (fun f => 0 < capacity (params f)) (filters s') ->
  Forall within_capacity (filters s').
Proof.
  intros Hc Hrun Pos.
  assert (W0 : Forall within_capacity (filters (scalable_filter_new sp))).
  { constructor; [|constructor]. unfold within_capacity. simpl. lia. }
  revert W0 Hrun. generalize (scalable_filter_new sp) as s. revert bs.
  induction xs as [|x xs IH]; intros bs s W0 Hrun; cbn [scalable_run] in Hrun.
  - injection Hrun as <- <-. exact W0.
  - bind_inv Hrun. destruct a as [b s1]. bind_inv Hrun. destruct a as [bs' s2].
    injection Hrun as <- <-.
    apply (IH bs' s1); [|exact Ha0].
    apply (scalable_insert_within s x b s1 Ha W0).
    apply Forall_forall. intros f Hf.
    destruct (grows_params _ _ f (scalable_run_grows _ _ _ _ Ha0) Hf) as (g & Hg & <-).
    rewrite Forall_forall in Pos. apply Pos, Hg.
Qed.

End BloomMore.

(** ** Bloom filters: the size of a slice *)

Lemma floor_eq z x : (IZR z <= x < IZR z + 1)%R -> floor x = z.
Proof.
  intros [H1 H2]. unfold floor. rewrite <- (up_tech x z H1); [lia|].
  rewrite plus_IZR. exact H2.
Qed.

Lemma double_to_integer_IZR z : double_to_integer (IZR z) = z.
Proof.
  unfold double_to_integer. destruct (Rle_dec 0 (IZR z)).
  - apply floor_eq. lra.
  - rewrite <- opp_IZR. rewrite (floor_eq (- z)); [lia|]. lra.
Qed.

Lemma ceil_eq z x : (IZR z - 1 < x <= IZR z)%R -> ceil x = IZR z.
Proof.
  intros H. unfold ceil. rewrite (floor_eq (- z)); [f_equal; lia|].
  rewrite opp_IZR. lra.
Qed.

Lemma ln_2_range : (0 < ln 2 < 1)%R.
Proof.
  split.
  - rewrite <- ln_1. apply ln_increasing; lra.
  - rewrite <- (ln_exp 1). apply ln_increasing; [lra|].
    pose proof (exp_ineq1 1 ltac:(lra)). lra.
Qed.

Lemma ln_rate_range r : (1 / 2 <= r < 1)%R -> (- ln 2 <= ln r < 0)%R.
Proof.
  intros [H1 H2]. split.
  - replace (- ln 2)%R with (ln (/ 2)) by (apply ln_Rinv; lra).
    destruct (Req_dec (/ 2) r) as [<-|N]; [lra|].
    left. apply ln_increasing; lra.
  - rewrite <- ln_1. apply ln_increasing; lra.
Qed.

(** For a rate of 1/2 or more there is one slice, and it has no bits. *)
Lemma hash_count_of_high_rate r : (1 / 2 <= r < 1)%R -> parameters_hash_count r = 1.
Proof.
  intros H. pose proof (ln_rate_range r H) as L. pose proof ln_2_range as L2.
  unfold parameters_hash_count, log2.
  assert (E : ln (1 / r) = (- ln r)%R).
  { unfold Rdiv. rewrite Rmult_1_l. apply ln_Rinv. lra. }
  rewrite E, (ceil_eq 1); [apply double_to_integer_IZR|].
  assert (P : (0 < - ln r / ln 2)%R).
  { apply Rmult_lt_0_compat; [lra | apply Rinv_0_lt_compat; lra]. }
  assert (Q : (- ln r / ln 2 <= 1)%R).
  { apply (Rmult_le_reg_r (ln 2)); [lra|]. unfold Rdiv. rewrite Rmult_assoc, Rinv_l; lra. }
  lra.
Qed.

Lemma slice_bits_of_high_rate r capacity :
  (1 / 2 <= r < 1)%R -> parameters_slice_bits r capacity = 0.
Proof.
  intros H. pose proof (ln_rate_range r H) as L. pose proof ln_2_range as L2.
  unfold parameters_slice_bits.
  assert (E : double_to_integer (ln r) = 0).
  { unfold double_to_integer. destruct (Rle_dec 0 (ln r)); [lra|].
    rewrite (floor_eq 0); [reflexivity | lra]. }
  rewrite E. cbn [Z.abs]. rewrite Z.mul_0_r. change (wrap64 0) with 0.
  unfold Rdiv. rewrite Rmult_0_l, (ceil_eq 0) by lra. apply double_to_integer_IZR.
Qed.

Section HighRate.

Variable hash : string -> Z -> Z.

(** C7. A filter built for a target error rate of 1/2 or more (the
    documented range is [0 < target_error_rate < 1]) has one slice of no
    bits: [abs(log(rate))] is [int abs(int)] of a logarithm that truncates
    to 0, so the numerator of [slice_bits] is 0.  The first call of
    [hash_i] then computes [% 0]: neither [insert] nor [insert_new] nor
    [might_contain] returns, of the static filter and of the scalable
    filter built from the same parameters, and no inserted element tests
    positive.  (For these rates the roundings of the [double] operations
    do not change the integers: the logarithm lies between -0.7 and 0, and
    [1.0 / rate] between [1 + 2^-52] and 2.) *)
Theorem filter_of_high_rate_divides_by_zero (r : R) cap seeds tr sf x :
  (1 / 2 <= r < 1)%R -> seeds <> [] ->
  let p := @Build_parameters (sized_env hash) r cap seeds in
  let f := @static_filter_new (sized_env hash) p in
  let s := @scalable_filter_new (sized_env hash)
             (@Build_scalable_parameters (sized_env hash) p tr sf) in
  slices (mem f) = 1 /\ bps (mem f) = 0 /\
  static_insert f x = Fault DivisionByZero /\
  static_insert_new f x = Fault DivisionByZero /\
  static_might_contain f x = Fault DivisionByZero /\
  scalable_insert s x = Fault DivisionByZero /\
  scalable_might_contain s x = Fault DivisionByZero.
Proof.
  intros Hr Hs p f s.
  assert (E1 : slices (mem f) = 1) by apply (hash_count_of_high_rate r Hr).
  assert (E2 : bps (mem f) = 0) by apply (slice_bits_of_high_rate r cap Hr).
  assert (Hh : forall g, params g = p -> bps (mem g) = 0 -> hash_i g 0 x = Fault DivisionByZero).
  { intros g Hp Hb. unfold hash_i. rewrite Hp. cbn [hash_seeds Z.to_nat].
    destruct seeds as [|seed seeds']; [congruence|]. cbn [nth_error bind].
    rewrite Hb. reflexivity. }
  assert (M : static_might_contain f x = Fault DivisionByZero).
  { unfold static_might_contain. rewrite E1. change (Z.to_nat 1) with 1%nat.
    cbn [might_contain_from]. rewrite (Hh f eq_refl E2). reflexivity. }
  split; [exact E1|]. split; [exact E2|]. split; [|split; [|split; [exact M|split]]].
  - unfold static_insert. rewrite E1. change (Z.to_nat 1) with 1%nat.
    cbn [insert_from]. rewrite (Hh f eq_refl E2). reflexivity.
  - unfold static_insert_new. rewrite E1. change (Z.to_nat 1) with 1%nat.
    cbn [insert_new_from]. rewrite Hh; [reflexivity | reflexivity | exact E2].
  - unfold scalable_insert, scalable_might_contain.
    change (filters s) with [f]. cbn [might_contain_any]. rewrite M. reflexivity.
  - unfold scalable_might_contain.
    change (filters s) with [f]. cbn [might_contain_any]. rewrite M. reflexivity.
Qed.

End HighRate.

Lemma floor_bounds x : (IZR (floor x) <= x < IZR (floor x) + 1)%R.
Proof.
  unfold floor. rewrite minus_IZR. destruct (archimed x) as [A B]. lra.
Qed.

Lemma ceil_bounds x : (x <= ceil x < x + 1)%R.
Proof.
  unfold ceil. rewrite opp_IZR. pose proof (floor_bounds (- x)). lra.
Qed.

(** [ceil] of a positive number, converted to an integer type, is at least 1. *)
Lemma ceil_positive x : (0 < x)%R -> 1 <= double_to_integer (ceil x).
Proof.
  intros H. pose proof (ceil_bounds x) as B. unfold ceil in *.
  rewrite double_to_integer_IZR.
  assert (L : (0 < IZR (- floor (- x)))%R) by lra.
  apply lt_IZR in L. lia.
Qed.

Lemma ceil_at_most x k : (x <= IZR k)%R -> double_to_integer (ceil x) <= k.
Proof.
  intros H. pose proof (ceil_bounds x) as B. unfold ceil in *.
  rewrite double_to_integer_IZR.
  assert (L : (IZR (- floor (- x)) < IZR (k + 1))%R) by (rewrite plus_IZR; lra).
  apply lt_IZR in L. lia.
Qed.

Lemma hash_count_positive r : (0 < r < 1)%R -> 1 <= parameters_hash_count r.
Proof.
  intros H. pose proof ln_2_range as L2.
  unfold parameters_hash_count, log2. apply ceil_positive.
  assert (E : ln (1 / r) = (- ln r)%R).
  { unfold Rdiv. rewrite Rmult_1_l. apply ln_Rinv. lra. }
  rewrite E.
  assert (ln r < 0)%R by (rewrite <- ln_1; apply ln_increasing; lra).
  apply Rmult_lt_0_compat; [lra | apply Rinv_0_lt_compat; lra].
Qed.

Lemma ln_of_low_rate r : (0 < r <= exp (-1))%R -> (ln r <= -1)%R.
Proof.
  intros [H1 H2]. rewrite <- (ln_exp (-1)).
  destruct H2 as [H2| ->]; [left; apply ln_increasing; assumption | right; reflexivity].
Qed.

Lemma slice_bits_positive r capacity :
  (0 < r <= exp (-1))%R -> 0 < capacity ->
  capacity * Z.abs (double_to_integer (ln r)) < 2 ^ 64 ->
  1 <= parameters_slice_bits r capacity.
Proof.
  intros Hr Hc Hw. pose proof (ln_of_low_rate r Hr) as L. pose proof ln_2_range as L2.
  assert (E1 : (exp (-1) < 1)%R).
  { rewrite <- exp_0. apply exp_increasing. lra. }
  pose proof (hash_count_positive r ltac:(lra)) as Hh.
  unfold parameters_slice_bits.
  assert (Ha : 1 <= Z.abs (double_to_integer (ln r))).
  { unfold double_to_integer. destruct (Rle_dec 0 (ln r)); [lra|].
    pose proof (floor_bounds (- ln r)) as B.
    assert (F : (0 < IZR (floor (- ln r)))%R) by lra.
    apply lt_IZR in F. lia. }
  rewrite wrap64_small by nia. apply ceil_positive.
  assert (N : (0 < IZR (capacity * Z.abs (double_to_integer (ln r))))%R).
  { apply IZR_lt. nia. }
  assert (D : (0 < IZR (parameters_hash_count r))%R) by (apply IZR_lt; lia).
  apply Rmult_lt_0_compat; [exact N | apply Rinv_0_lt_compat].
  repeat apply Rmult_lt_0_compat; lra.
Qed.

Section LowRate.

Variable hash : string -> Z -> Z.

(** X25. A static filter built by the constructor for a target error rate
    of at most 1/e has no false negatives, when the capacity is positive,
    [capacity * abs(log(rate))] stays below 2^64, the number of hashes is
    at most the number of seeds and there are fewer than 2^64 bits in all:
    every slice has at least one bit, the filter is well-formed, [insert]
    returns, every later sequence of insertions returns, and
    [might_contain] of the inserted bytes then answers true. *)
Theorem filter_of_low_rate_tests_positive (r : R) cap seeds x ops :
  (0 < r <= exp (-1))%R -> 0 < cap ->
  cap * Z.abs (double_to_integer (ln r)) < 2 ^ 64 ->
  parameters_hash_count r <= Z.of_nat (length seeds) ->
  parameters_hash_count r * parameters_slice_bits r cap < 2 ^ 64 ->
  let f := @static_filter_new (sized_env hash)
             (@Build_parameters (sized_env hash) r cap seeds) in
  1 <= slices (mem f) /\ 1 <= bps (mem f) /\ wf_static f /\
  exists b f1 f2, static_insert f x = Ok (b, f1) /\ static_run f1 ops = Ok f2 /\
                  static_might_contain f2 x = Ok true.
Proof.
  intros Hr Hc Hw Hs Hb f.
  assert (E1 : (exp (-1) < 1)%R).
  { rewrite <- exp_0. apply exp_increasing. lra. }
  pose proof (hash_count_positive r ltac:(lra)) as Hh.
  pose proof (slice_bits_positive r cap Hr Hc Hw) as Hp.
  assert (W : wf_static f).
  { apply (@new_filter_wf (sized_env hash)); cbn [target_error_rate capacity hash_seeds];
      cbn [hash_count slice_bits sized_env]; lia. }
  split; [exact Hh|]. split; [exact Hp|]. split; [exact W|].
  destruct (static_insert_total f x W) as (b & f1 & H1).
  pose proof (static_insert_spec _ _ _ _ H1) as (E & M1).
  destruct (static_run_total ops f1) as (f2 & H2);
    [apply (wf_static_extends _ _ E), W|].
  exists b, f1, f2. repeat split; auto.
  eapply static_might_contain_ext; [eapply static_run_extends, H2 | exact M1].
Qed.

End LowRate.

Lemma ln_2_above_half : (1 / 2 < ln 2)%R.
Proof. pose proof ln_lt_2. lra. Qed.

Lemma ln_quarter : ln (1 / 4) = (- (ln 2 + ln 2))%R.
Proof.
  unfold Rdiv. rewrite Rmult_1_l, ln_Rinv by lra.
  replace 4%R with (2 * 2)%R by lra. rewrite ln_mult by lra. reflexivity.
Qed.

Lemma quarter_is_low : (0 < 1 / 4 <= exp (-1))%R.
Proof.
  split; [lra|].
  replace (exp (-1)) with (/ exp 1)%R by (rewrite <- exp_Ropp; f_equal; lra).
  pose proof exp_le_3.
  assert (0 < exp 1)%R by apply exp_pos.
  left. apply (Rlt_le_trans _ (/ 3)); [lra|].
  apply Rinv_le_contravar; assumption.
Qed.

Lemma hash_count_quarter : parameters_hash_count (1 / 4) = 2.
Proof.
  pose proof ln_2_range as L2.
  unfold parameters_hash_count, log2.
  replace (1 / (1 / 4))%R with (2 * 2)%R by lra. rewrite ln_mult by lra.
  replace ((ln 2 + ln 2) / ln 2)%R with 2%R by (field; lra).
  rewrite (ceil_eq 2) by lra. apply double_to_integer_IZR.
Qed.

Lemma log_quarter_truncated : double_to_integer (ln (1 / 4)) = -1.
Proof.
  pose proof ln_2_range as L2. pose proof ln_2_above_half as L3.
  rewrite ln_quarter. unfold double_to_integer.
  destruct (Rle_dec 0 (- (ln 2 + ln 2))); [lra|].
  rewrite (floor_eq 1); [reflexivity | lra].
Qed.

Lemma slice_bits_quarter : parameters_slice_bits (1 / 4) 1 <= 2.
Proof.
  pose proof ln_2_range as L2. pose proof ln_2_above_half as L3.
  unfold parameters_slice_bits.
  rewrite log_quarter_truncated, hash_count_quarter.
  change (wrap64 (1 * Z.abs (-1))) with 1.
  apply ceil_at_most.
  assert (D : (/ 2 <= 2 * ln 2 * ln 2)%R) by nra.
  assert (P : (0 < 2 * ln 2 * ln 2)%R) by nra.
  apply (Rmult_le_reg_r (2 * ln 2 * ln 2)); [exact P|].
  unfold Rdiv. rewrite Rmult_assoc, Rinv_l by lra. lra.
Qed.

Lemma filter_of_low_rate_tests_positive_witness :
  let f := @static_filter_new (sized_env (fun _ _ => 0))
             (@Build_parameters (sized_env (fun _ _ => 0)) (1 / 4)%R 1 seeds32) in
  slices (mem f) = 2 /\ 1 <= bps (mem f) <= 2 /\
  exists b f1 f2, static_insert f "a" = Ok (b, f1) /\
                  static_run f1 [SInsert "bb"; SInsertNew "c"]%string = Ok f2 /\
                  static_might_contain f2 "a" = Ok true.
Proof.
  intros f.
  destruct (filter_of_low_rate_tests_positive (fun _ _ => 0) (1 / 4)%R 1 seeds32
              "a"%string [SInsert "bb"; SInsertNew "c"]%string)
    as (_ & Hb & _ & H).
  - exact quarter_is_low.
  - lia.
  - rewrite log_quarter_truncated. vm_compute. reflexivity.
  - rewrite hash_count_quarter. vm_compute. discriminate.
  - rewrite hash_count_quarter. pose proof slice_bits_quarter. lia.
  - split; [exact hash_count_quarter|]. split; [|exact H].
    split; [exact Hb | exact slice_bits_quarter].
Defined.

Lemma filter_of_high_rate_divides_by_zero_witness :
  let p := @Build_parameters (sized_env (fun _ _ => 0)) (1 / 2)%R 1000 seeds32 in
  let f := @static_filter_new (sized_env (fun _ _ => 0)) p in
  slices (mem f) = 1 /\ bps (mem f) = 0 /\
  static_insert f "a" = Fault DivisionByZero /\
  static_might_contain f "a" = Fault DivisionByZero.
Proof.
  intros p f.
  destruct (filter_of_high_rate_divides_by_zero (fun _ _ => 0) (1 / 2)%R 1000 seeds32
              (9 / 10)%R 2 "a"%string) as (E1 & E2 & I & _ & M & _).
  - lra.
  - discriminate.
  - repeat split; assumption.
Defined.

(** ** The memtable *)

Section SkiptableProps.

Import skiptable.
Context {alloc : allocator}.

(** *** What an insertion leaves alone *)

Lemma same_frame_refl s : same_frame s s.
Proof. split; reflexivity. Qed.

Lemma same_frame_trans s1 s2 s3 :
  same_frame s1 s2 -> same_frame s2 s3 -> same_frame s1 s3.
Proof. intros [A B] [C D]. split; congruence. Qed.

Lemma link_frame s r i n s' : link s r i n = Ok s' -> same_frame s s'.
Proof.
  unfold link. intros H. bind_inv H. bind_inv H. injection H as <-.
  destruct r; split; reflexivity.
Qed.

Lemma CE_link_frame s r i e n b s' : CE_link s r i e n = Ok (b, s') -> same_frame s s'.
Proof.
  unfold CE_link. intros H. bind_inv H. bind_inv H.
  destruct (same_node a0 e).
  - bind_inv H. injection H as <- <-. eapply link_frame, Ha1.
  - injection H as <- <-. apply same_frame_refl.
Qed.

Lemma splice_frame j u x levels : forall s b s',
  splice s j levels u x = Ok (b, s') -> same_frame s s'.
Proof.
  induction levels as [|i IH]; simpl; intros s b s' H.
  - injection H as <- <-. apply same_frame_refl.
  - bind_inv H. bind_inv H. bind_inv H. destruct a1 as [r|]; [|discriminate].
    bind_inv H. destruct a1 as [ok s2].
    pose proof (link_frame _ _ _ _ _ Ha0) as F1.
    pose proof (CE_link_frame _ _ _ _ _ _ _ Ha2) as F2.
    destruct ok.
    + eapply same_frame_trans; [|eapply IH, H].
      eapply same_frame_trans; eauto.
    + injection H as <- <-. eapply same_frame_trans; eauto.
Qed.

Lemma insert_loop_frame k idx sz level j retries : forall s u x r s',
  insert_loop retries s k idx sz level j u x = Ok (r, s') -> same_frame s s'.
Proof.
  induction retries as [|n IH]; simpl; intros s u x r s' H; [discriminate|].
  bind_inv H. destruct a as [u' x'|n2 [|]].
  - bind_inv H. destruct a as [ok s1].
    pose proof (splice_frame _ _ _ _ _ _ _ Ha0) as F.
    destruct ok.
    + injection H as <- <-. destruct F. split; assumption.
    + eapply same_frame_trans; [exact F | eapply IH, H].
  - bind_inv H. destruct a as [old s1]. bind_inv H. injection H as <- <-.
    unfold update in Ha0. bind_inv Ha0. injection Ha0 as <- <-.
    split; reflexivity.
  - injection H as <- <-. split; reflexivity.
Qed.

Lemma insert_frame s k dat sz draw r s' :
  insert s k dat sz draw = Ok (r, s') -> same_frame s s'.
Proof.
  unfold insert. destruct (locked s).
  { intros [= <- <-]. apply same_frame_refl. }
  intros H. bind_inv H. destruct (malloc_ok sz).
  - destruct (Z.of_nat (String.length dat) <? sz); [discriminate|].
    bind_inv H. apply insert_loop_frame in H. destruct H as [A B]. split; assumption.
  - bind_inv H. injection H as <- <-. split; reflexivity.
Qed.

Lemma run_is_locked ops : forall s s',
  run s ops = Ok s' -> is_locked s' = is_locked s || existsb is_lock ops.
Proof.
  induction ops as [|o ops IH]; simpl; intros s s' H.
  - injection H as <-. rewrite orb_false_r. reflexivity.
  - bind_inv H. rewrite (IH _ _ H). destruct o as [k dat sz draw|]; simpl in *.
    + bind_inv Ha. destruct a0 as [r s1]. injection Ha as <-.
      apply insert_frame in Ha0 as [_ ->]. reflexivity.
    + injection Ha as <-. simpl. rewrite orb_true_r. reflexivity.
Qed.

(** C5. [locked()] is the disjunction of the three thresholds and the
    flag that only [lock()] sets ([next_record], an [int32_t] that is never
    negative, is compared as a [size_t]); on a locked table [insert]
    returns [nullptr] and the table is unchanged. *)
Theorem locked_table_rejects_insert :
  (forall s,
     locked s = true <->
     (total_data_limit (config s) <= total_data_size s \/
      writes_before_lock (config s) <= to_size_t (next_record s) \/
      data_limit (config s) <= data_size s \/
      is_locked s = true)) /\
  (forall s, 0 <= next_record s < 2 ^ 31 -> to_size_t (next_record s) = next_record s) /\
  (forall opts ops s,
     run (create opts) ops = Ok s ->
     (is_locked s = true <-> In Lock ops)) /\
  (forall s k dat sz draw,
     locked s = true -> insert s k dat sz draw = Ok (None, s)).
Proof.
  split; [|split; [|split]].
  - intros s. unfold locked. rewrite !orb_true_iff, !Z.leb_le. tauto.
  - intros s H. apply wrap64_small. lia.
  - intros opts ops s H. rewrite (run_is_locked _ _ _ H). simpl.
    rewrite existsb_exists. split.
    + intros (o & Hin & Ho). destruct o; [discriminate | exact Hin].
    + intros Hin. exists Lock. auto.
  - intros s k dat sz draw H. unfold insert. rewrite H. reflexivity.
Qed.

End SkiptableProps.

(** ** Concrete runs

    The runs below use the fixtures of the first part; all nodes are drawn
    level 0 unless said otherwise. *)

Lemma locked_table_rejects_insert_witness :
  to_size_t (skiptable.next_record sealed_table) = skiptable.next_record sealed_table /\
  (skiptable.is_locked sealed_table = true <-> In skiptable.Lock [skiptable.Lock]) /\
  skiptable.locked sealed_table = true /\
  @skiptable.insert glibc_malloc sealed_table "k" "v" 1 level0 = Ok (None, sealed_table).
Proof.
  pose proof (@locked_table_rejects_insert glibc_malloc) as (_ & Hconv & Hrun & Hins).
  split; [|split; [|split]].
  - apply Hconv. simpl. lia.
  - apply (Hrun four_writes [skiptable.Lock] sealed_table). reflexivity.
  - reflexivity.
  - apply Hins. reflexivity.
Defined.

(** *** sstable.h on small tables *)

(** C6. [padding_bytes n] is [8 - n mod 8]: between 1 and 8 bytes, and 8
    bytes (not none) when [n] is a multiple of 8.  In the file of the
    single pair ("abcdefgh", "12345678") the entry takes 48 bytes: the
    8-byte key is followed by 8 zero bytes and the value starts at byte
    32, not at byte 24. *)
Theorem padding_bytes_of_aligned_size_is_8 :
  (forall n, sstable.padding_bytes n = 8 - n mod 8 /\
             1 <= sstable.padding_bytes n <= 8) /\
  sstable.padding_bytes 0 = 8 /\
  sstable.padding_bytes 8 = 8 /\
  (exists bytes,
     file_of 128 [("abcdefgh", "12345678")]%string = Ok bytes /\
     read_bytes bytes 16 8 = Ok "abcdefgh"%string /\
     read_bytes bytes 24 8 = Ok (zeros 8) /\
     read_bytes bytes 32 8 = Ok "12345678"%string /\
     read_bytes bytes 40 8 = Ok (zeros 8)).
Proof.
  split; [|split; [reflexivity | split; [reflexivity|]]].
  - intros n. unfold sstable.padding_bytes, sstable.sizeof_uint64.
    pose proof (Z.mod_pos_bound n 8 ltac:(lia)) as H.
    rewrite wrap64_small by lia. lia.
  - eexists. split; [vm_compute; reflexivity|]. repeat split; vm_compute; reflexivity.
Qed.

(** C3. A locked table holds "ab" -> "1" and "abc" -> "2"; in the file
    built from it, [get] of "abc" returns true with the value of "ab":
    the entry of "ab" comes first and is compared on the first two bytes
    of the key only. *)
Theorem sstable_get_returns_value_of_shorter_key :
  exists table bytes,
    table_of fresh_table [("ab", "1"); ("abc", "2")]%string = Ok table /\
    skiptable.locked table = true /\
    (r <- skiptable.get table "abc" ;; Ok (option_map skiptable.data r))
      = Ok (Some (Some "2"%string)) /\
    sstable.build {| sstable.max_block_size := 128 |} table = Ok (Some bytes) /\
    sstable.get bytes "abc" = Ok (Some "1"%string).
Proof.
  do 2 eexists. split; [vm_compute; reflexivity|].
  split; [vm_compute; reflexivity|].
  split; [vm_compute; reflexivity|].
  split; [vm_compute; reflexivity|].
  vm_compute; reflexivity.
Qed.

(** C9. The file built from the locked table with the single pair
    "b" -> "x" has one block; for the key "a", smaller than every stored
    key, the block loop stops at block 0, [block -= 1] wraps to
    [2^64 - 1], and the next read, of the index count, is outside the
    file. *)
Theorem sstable_get_of_small_key_reads_outside_file :
  exists bytes ftr,
    file_of 64 [("b", "x")]%string = Ok bytes /\
    sstable.read_footer bytes = Ok ftr /\
    sstable.block_count ftr = 1 /\
    sstable.selected_block bytes "a" = Ok (2 ^ 64 - 1) /\
    sstable.get bytes "a" = Fault OutOfBounds.
Proof.
  do 2 eexists. split; [vm_compute; reflexivity|].
  split; [vm_compute; reflexivity|].
  repeat split; vm_compute; reflexivity.
Qed.

(** *** wal.h on a one-record log *)

(** C2. One insert, "a" -> "1", is logged: the file is "a", a newline,
    "1".  [load] of that file into a fresh table strips the last byte of
    the key and of the value that [getline] returned: the table then holds
    the empty key with an empty value, and "a" is not in it.  With a
    second record the value is not followed by a newline either, the next
    key is read as part of it, and [load] stops at its [assert]. *)
Theorem wal_load_misses_logged_key :
  (exists bytes loaded,
     log_all fresh_table (walfile.create walfile.default_config) [("a", "1")]%string
       = Ok bytes /\
     bytes = ("a" ++ walfile.newline ++ "1")%string /\
     @walfile.load glibc_malloc bytes fresh_table all_level0 = Ok loaded /\
     skiptable.get loaded "a" = Ok None /\
     (r <- skiptable.get loaded "" ;; Ok (option_map skiptable.data r))
       = Ok (Some (Some ""%string))) /\
  (exists bytes,
     log_all fresh_table (walfile.create walfile.default_config)
       [("a", "1"); ("b", "2")]%string = Ok bytes /\
     bytes = ("a" ++ walfile.newline ++ "1b" ++ walfile.newline ++ "2")%string /\
     @walfile.load glibc_malloc bytes fresh_table all_level0 = Fault AssertionFailed).
Proof.
  split.
  - do 2 eexists. split; [vm_compute; reflexivity|].
    split; [reflexivity|]. split; [vm_compute; reflexivity|].
    split; vm_compute; reflexivity.
  - eexists. split; [vm_compute; reflexivity|].
    split; [reflexivity | vm_compute; reflexivity].
Qed.

(** *** kvstore.h on small stores *)

(** C1. Four puts of the key "k" with one write per memtable: the
    history then holds three tables, and [get] answers "v4".  The
    background thread wakes up and flushes: the tables are written newest
    first, so the file of the oldest table carries the latest time stamp
    and is the first that [get] looks at; [get] now answers "v1". *)
Theorem get_after_flush_returns_stale_value :
  exists s,
    @kvstore.run glibc_malloc 2 (kvstore.create small_config)
      [kvstore.Put "k" "v1" all_level0; kvstore.Put "k" "v2" all_level0;
       kvstore.Put "k" "v3" all_level0; kvstore.Put "k" "v4" all_level0;
       kvstore.Get "k"; kvstore.Wake; kvstore.Get "k"]%string
    = Ok ([Some "v4"; Some "v1"]%string, s) /\
    map kvstore.created (kvstore.sstq s) = [4; 3; 2; 1] /\
    map (fun e => sstable.get (kvstore.file e) "k") (kvstore.sstq s)
    = [Ok (Some "v1"); Ok (Some "v2"); Ok (Some "v3"); Ok (Some "v4")]%string.
Proof.
  eexists. split; [vm_compute; reflexivity|].
  split; vm_compute; reflexivity.
Qed.

Lemma put_retry_sealed_empty {alloc : allocator} retries : forall s k v draws i,
  skiptable.locked (kvstore.mtable s) = true ->
  skiptable.empty (kvstore.mtable s) = true ->
  kvstore.put_retry retries s k v draws i = Fault NoProgress.
Proof.
  induction retries as [|n IH]; intros s k v draws i HL HE; simpl; [reflexivity|].
  unfold skiptable.insert. rewrite HL. simpl.
  unfold kvstore.save_memtable. simpl. rewrite HE.
  apply IH; simpl; assumption.
Qed.

(** C8. With one write per memtable, [put("a", "")] returns and
    [get("a")] then yields a zero-length value.  The memtable is now
    sealed, and [empty()] holds of it because it has no data bytes:
    [save_memtable] returns without replacing it, and [put("b", "")]
    jumps back to [put_retry] for ever, whatever the bound on the
    retries. *)
Theorem put_of_empty_value_spins_on_sealed_memtable :
  exists s,
    @kvstore.run glibc_malloc 1 (kvstore.create small_config)
      [kvstore.Put "a" "" all_level0; kvstore.Get "a"]%string
    = Ok ([Some ""%string], s) /\
    forall retries draws,
      @kvstore.put_retry glibc_malloc retries s "b" "" draws 0 = Fault NoProgress.
Proof.
  eexists. split; [vm_compute; reflexivity|].
  intros retries draws. apply put_retry_sealed_empty; vm_compute; reflexivity.
Qed.

(** *** memtable.h: the level of a new node *)

(** C4. The level loop runs while [level < MAX_TABLE_LEVELS], so sixteen
    odd numbers in a row leave [level = 16]; the search loop then starts
    at [i = 16] and reads [next[16]] of the head, one past the sixteen
    links of a node: the insertion leaves defined behaviour and no chain
    is guaranteed after it.  With fifteen odd numbers the same insertion
    returns and the bottom level holds the key. *)
Theorem insert_at_level_16_reads_past_the_links :
  skiptable.random_level always_odd = skiptable.MAX_TABLE_LEVELS /\
  length (skiptable.next (skiptable.head fresh_table)) = 16%nat /\
  @skiptable.insert glibc_malloc fresh_table "a" "1" 1 always_odd = Fault OutOfBounds /\
  (exists s, @skiptable.insert glibc_malloc fresh_table "a" "1" 1
               (fun d => if Nat.ltb d 15 then 1 else 0) = Ok (Some 0%nat, s) /\
             skiptable.bottom s = Ok [0%nat]).
Proof.
  split; [reflexivity|]. split; [reflexivity|].
  split; [vm_compute; reflexivity|].
  eexists. split; [vm_compute; reflexivity|]. vm_compute; reflexivity.
Qed.

(** ** The skip list keeps its bottom level sorted

    What follows shows that the defect above is the only way in which
    [insert] breaks the order of the bottom level: for levels 0..15 an
    insertion returns and keeps every node on the bottom level, once, in
    strictly ascending key order, and [find] then finds the key. *)

(** *** The order of the keys *)

Lemma ascii_compare_refl c : Ascii.compare c c = Eq.
Proof. unfold Ascii.compare. apply N.compare_refl. Qed.

Lemma string_compare_refl a : String.compare a a = Eq.
Proof. induction a as [|c a IH]; simpl; [reflexivity|]. rewrite ascii_compare_refl. exact IH. Qed.

Lemma key_lt_irrefl a : ~ key_lt a a.
Proof. unfold key_lt. rewrite string_compare_refl. discriminate. Qed.

Lemma key_lt_trans a : forall b c, key_lt a b -> key_lt b c -> key_lt a c.
Proof.
  unfold key_lt. induction a as [|x a IH]; intros [|y b] [|z c]; simpl; try discriminate; auto.
  intros H1 H2.
  destruct (Ascii.compare x y) eqn:Exy; try discriminate;
    destruct (Ascii.compare y z) eqn:Eyz; try discriminate.
  - apply Ascii.compare_eq_iff in Exy, Eyz. subst. rewrite ascii_compare_refl. eauto.
  - apply Ascii.compare_eq_iff in Exy. subst. rewrite Eyz. reflexivity.
  - apply Ascii.compare_eq_iff in Eyz. subst. rewrite Exy. reflexivity.
  - unfold Ascii.compare in *. rewrite N.compare_lt_iff in *.
    assert (L : (N_of_ascii x < N_of_ascii z)%N) by (eapply N.lt_trans; eauto).
    apply N.compare_lt_iff in L. rewrite L. reflexivity.
Qed.

Lemma key_lt_gt a b : String.compare a b = Gt <-> key_lt b a.
Proof.
  unfold key_lt. rewrite (String.compare_antisym b a).
  destruct (String.compare a b); simpl; split; congruence.
Qed.

Lemma key_lt_neq a b : key_lt a b -> a <> b.
Proof. intros H ->. exact (key_lt_irrefl _ H). Qed.

(** *** Lists *)

Lemma nth_error_nth_default {A} (l : list A) n d a :
  nth_error l n = Some a -> nth n l d = a.
Proof. intros H. apply nth_error_nth. exact H. Qed.

Lemma upd_nth {A} (l : list A) n m a d :
  nth m (upd l n a) d = if Nat.eqb n m then (if Nat.ltb n (length l) then a else d) else nth m l d.
Proof.
  revert n m; induction l as [|h t IH]; intros [|n] [|m]; simpl; auto.
  destruct (Nat.eqb n m); reflexivity.
Qed.

Lemma filter_length_lt {A} (f g : A -> bool) (l : list A) x :
  (forall y, f y = true -> g y = true) -> In x l -> g x = true -> f x = false ->
  (length (filter f l) < length (filter g l))%nat.
Proof.
  intros Hfg. induction l as [|h t IH]; simpl; [tauto|].
  assert (Hle : (length (filter f t) <= length (filter g t))%nat).
  { clear IH. induction t as [|a t IHt]; simpl; [lia|].
    destruct (f a) eqn:Fa; [rewrite (Hfg _ Fa); simpl; lia|].
    destruct (g a); simpl; lia. }
  intros [->|Hin] Gx Fx.
  - rewrite Gx, Fx. simpl. lia.
  - specialize (IH Hin Gx Fx).
    destruct (f h) eqn:Fh; [rewrite (Hfg _ Fh); simpl; lia|].
    destruct (g h); simpl; lia.
Qed.

Lemma filter_length_le {A} (f : A -> bool) (l : list A) :
  (length (filter f l) <= length l)%nat.
Proof. induction l as [|h t IH]; simpl; [lia|]. destruct (f h); simpl; lia. Qed.

Section SkiplistInvariant.

Import skiptable.

(** *** Links, keys and the shape of a table *)

Lemma node_ref_eqb_spec a b : reflect (a = b) (node_ref_eqb a b).
Proof.
  destruct a as [|x], b as [|y]; simpl; try (constructor; congruence).
  destruct (Nat.eqb_spec x y); constructor; congruence.
Qed.

Lemma relinked_refl s : relinked s s.
Proof. constructor; auto. Qed.

Lemma relinked_trans s1 s2 s3 : relinked s1 s2 -> relinked s2 s3 -> relinked s1 s3.
Proof.
  intros [] []. constructor; try congruence; auto.
Qed.

Lemma deref_valid s r : valid s r -> exists nd, deref s r = Ok nd.
Proof.
  destruct r as [|j]; simpl; [eauto|]. intros H.
  destruct (nth_error (nodes s) j) eqn:E; [eauto|].
  apply nth_error_None in E. lia.
Qed.

Lemma deref_levels s r nd : levels_ok s -> deref s r = Ok nd -> length (next nd) = 16%nat.
Proof.
  intros [Hh Hn]. destruct r as [|j]; simpl.
  - intros [= <-]. exact Hh.
  - destruct (nth_error (nodes s) j) eqn:E; [|discriminate]. intros [= <-]. eauto.
Qed.

Lemma index_nth {A} (l : list A) (i : nat) d :
  (i < length l)%nat -> index l (Z.of_nat i) = Ok (nth i l d).
Proof.
  intros H. apply index_Ok. split; [lia|]. rewrite Nat2Z.id.
  apply nth_error_nth'. exact H.
Qed.

Lemma iterate_nxt s r nd i :
  levels_ok s -> deref s r = Ok nd -> (i < 16)%nat ->
  iterate nd (Z.of_nat i) = Ok (nxt s r i).
Proof.
  intros L D Hi. unfold iterate, nxt. rewrite D.
  apply index_nth. rewrite (deref_levels _ _ _ L D). exact Hi.
Qed.

Lemma store_nat {A} (l : list A) (i : nat) a :
  (i < length l)%nat -> store l (Z.of_nat i) a = Ok (upd l i a).
Proof. intros H. apply store_Ok. rewrite Nat2Z.id. split; [lia | reflexivity]. Qed.

(** [link] writes one link and nothing else. *)
Lemma link_spec s r i v :
  levels_ok s -> valid s r -> (i < 16)%nat ->
  exists s', link s r (Z.of_nat i) v = Ok s' /\ relinked s s' /\
             (forall j, idxof s' j = idxof s j) /\
             forall r' i', nxt s' r' i' =
                           if node_ref_eqb r r' && Nat.eqb i i' then v else nxt s r' i'.
Proof.
  intros L V Hi. destruct (deref_valid s r V) as (nd & D).
  pose proof (deref_levels _ _ _ L D) as Hlen.
  unfold link. rewrite D. simpl. rewrite store_nat by lia. simpl.
  eexists. split; [reflexivity|].
  destruct r as [|j]; simpl in *.
  - injection D as <-. split; [|split].
    + constructor; simpl; auto. intros [Hh Hn]. split; simpl; [|exact Hn].
      rewrite upd_length. exact Hh.
    + reflexivity.
    + intros [|j'] i'; unfold nxt; simpl.
      * rewrite upd_nth. destruct (Nat.eqb_spec i i'); [|reflexivity].
        destruct (Nat.ltb_spec i (length (next (head s)))); [reflexivity | lia].
      * reflexivity.
  - destruct (nth_error (nodes s) j) as [n0|] eqn:E; [|discriminate].
    injection D as <-.
    assert (K : forall j', nth_error (upd (nodes s) j (with_next n0 (upd (next n0) i v))) j'
                           = if Nat.eqb j j' then Some (with_next n0 (upd (next n0) i v))
                             else nth_error (nodes s) j').
    { intros j'. destruct (Nat.eqb_spec j j') as [<-|Hne].
      - apply nth_error_upd_same. exact V.
      - apply nth_error_upd_other. exact Hne. }
    split; [|split].
    + constructor; simpl; auto.
      * apply upd_length.
      * intros j'. unfold keyof; simpl. rewrite K.
        destruct (Nat.eqb_spec j j') as [<-|]; [rewrite E|]; reflexivity.
      * intros [Hh Hn]. split; simpl; [exact Hh|].
        intros j' nd'. rewrite K. destruct (Nat.eqb_spec j j') as [<-|]; [|apply Hn].
        intros [= <-]. simpl. rewrite upd_length. exact Hlen.
    + intros j'. unfold idxof; simpl. rewrite K.
      destruct (Nat.eqb_spec j j') as [<-|]; [rewrite E|]; reflexivity.
    + intros [|j'] i'; unfold nxt; simpl; [reflexivity|]. rewrite K.
      destruct (Nat.eqb_spec j j') as [<-|]; simpl; [|reflexivity].
      rewrite E, upd_nth. destruct (Nat.eqb_spec i i'); [|reflexivity].
      destruct (Nat.ltb_spec i (length (next n0))); [reflexivity | lia].
Qed.

(** *** Walking along one level *)

Lemma ltb_key_lt a b : String.ltb a b = true <-> key_lt a b.
Proof. unfold String.ltb, key_lt. destruct (String.compare a b); split; congruence. Qed.

Lemma keyof_nth s j nd : nth_error (nodes s) j = Some nd -> keyof s j = key nd.
Proof. unfold keyof. intros ->. reflexivity. Qed.

Lemma room_step s r i j :
  links_ok s -> valid s r -> nxt s r i = Some j -> (room s (At j) < room s r)%nat.
Proof.
  intros L V N. pose proof (lk_valid s L r i j V N) as Hj.
  destruct (nth_error (nodes s) j) as [nd|] eqn:E; [|apply nth_error_None in E; lia].
  pose proof (keyof_nth _ _ _ E) as Kj.
  destruct r as [|j0]; simpl.
  - assert (T : length (filter (fun _ : node => true) (nodes s)) = length (nodes s)).
    { clear. induction (nodes s); simpl; auto. }
    rewrite <- T. apply (filter_length_lt _ _ _ nd); auto.
    + eapply nth_error_In, E.
    + rewrite Kj. destruct (String.ltb (key nd) (key nd)) eqn:F; [|reflexivity].
      apply ltb_key_lt in F. destruct (key_lt_irrefl _ F).
  - pose proof (lk_asc s L j0 i j V N) as A.
    apply (filter_length_lt _ _ _ nd).
    + intros y Hy. apply ltb_key_lt. apply ltb_key_lt in Hy.
      eapply key_lt_trans; eauto.
    + eapply nth_error_In, E.
    + apply ltb_key_lt. rewrite <- Kj. exact A.
    + rewrite Kj. destruct (String.ltb (key nd) (key nd)) eqn:F; [|reflexivity].
      apply ltb_key_lt in F. destruct (key_lt_irrefl _ F).
Qed.

(** One level of [find]: the walk ends in front of the first larger key,
    or on the key. *)
Lemma find_level_spec s k i (P : node_ref -> Prop) :
  links_ok s -> (i < 16)%nat ->
  (forall r j, P r -> valid s r -> nxt s r i = Some j -> P (At j)) ->
  forall fuel n, valid s n -> below s n k -> P n -> (room s n < fuel)%nat ->
  (exists p, find_level fuel s k n (Z.of_nat i) = Ok (Below p) /\
             valid s p /\ below s p k /\ above s (nxt s p i) k /\ P p /\
             (room s p <= room s n)%nat) \/
  (exists j, find_level fuel s k n (Z.of_nat i) = Ok (Match j) /\
             (j < length (nodes s))%nat /\ keyof s j = k).
Proof.
  intros L Hi HP. induction fuel as [|fuel IH]; intros n V B Pn R; [lia|].
  simpl. destruct (deref_valid s n V) as (nd & D). rewrite D. simpl.
  rewrite (iterate_nxt s n nd i (lk_levels s L) D Hi). simpl.
  destruct (nxt s n i) as [j|] eqn:N.
  2:{ left. exists n. rewrite N. simpl. auto 10. }
  pose proof (lk_valid s L n i j V N) as Hj.
  destruct (nth_error (nodes s) j) as [nd2|] eqn:E; [|apply nth_error_None in E; lia].
  simpl. rewrite <- (keyof_nth _ _ _ E).
  destruct (String.compare k (keyof s j)) eqn:C.
  - right. exists j. repeat split; auto. symmetry. apply String.compare_eq_iff, C.
  - left. exists n. rewrite N. simpl. auto 10.
  - pose proof (room_step s n i j L V N) as RS.
    assert (Bj : below s (At j) k) by (apply key_lt_gt, C).
    assert (Pj : P (At j)) by (eapply HP; eauto).
    assert (Rj : (room s (At j) < fuel)%nat) by lia.
    destruct (IH (At j) Hj Bj Pj Rj) as [(p & F & Vp & Bp & Ap & Pp & Rp)|(j' & F & Vj & Kj)].
    + left. exists p. repeat split; auto. lia.
    + right. exists j'. auto.
Qed.

(** *** The bottom level *)

Lemma strongly_sorted_app {A} (R : A -> A -> Prop) (l1 l2 : list A) :
  StronglySorted R (l1 ++ l2) <->
  StronglySorted R l1 /\ StronglySorted R l2 /\
  forall x y, In x l1 -> In y l2 -> R x y.
Proof.
  induction l1 as [|a l1 IH]; simpl.
  - split; [intros H; repeat split; [constructor | exact H | tauto] | tauto].
  - split.
    + intros H. apply StronglySorted_inv in H as [H F].
      apply IH in H as (H1 & H2 & H3). rewrite Forall_app in F. destruct F as [F1 F2].
      repeat split; [constructor; auto | auto |].
      intros x y [<-|Hx] Hy; [|auto]. rewrite Forall_forall in F2. auto.
    + intros (H1 & H2 & H3). apply StronglySorted_inv in H1 as [H1 F1].
      constructor.
      * apply IH. repeat split; auto.
      * rewrite Forall_app. split; [exact F1|]. apply Forall_forall. auto.
Qed.

Lemma path_split s a l q :
  path s a l -> In q l ->
  exists l1 l2, l = l1 ++ q :: l2 /\ path s (nxt s (At q) 0) l2.
Proof.
  induction 1 as [|j l Hj Hp IH]; simpl; [tauto|].
  intros [->|Hin].
  - exists [], l. auto.
  - destruct (IH Hin) as (l1 & l2 & -> & P). exists (j :: l1), l2. auto.
Qed.

Lemma path_valid s a l : path s a l -> forall j, In j l -> (j < length (nodes s))%nat.
Proof. induction 1; simpl; [tauto|]. intros j' [<-|Hin]; auto. Qed.

Lemma path_above s a l k :
  path s a l -> ascending s l -> above s a k -> forall y, In y l -> key_lt k (keyof s y).
Proof.
  intros Hp Hs Ha y Hy. destruct Hp as [|j l Hj Hp]; [destruct Hy|].
  simpl in Ha. apply StronglySorted_inv in Hs as [_ F]. rewrite Forall_forall in F.
  destruct Hy as [<-|Hy]; [exact Ha|]. eapply key_lt_trans; eauto.
Qed.

(** The place in the bottom level where a walk at level 0 stopped: the
    keys before it are smaller than [k], the keys after it are larger. *)
Lemma bottom_cut s n l p k :
  bottom_ok s n l -> match p with Head => True | At q => (q < n)%nat end ->
  below s p k -> above s (nxt s p 0) k ->
  exists l1 l2, l = l1 ++ l2 /\ path s (nxt s p 0) l2 /\
    (forall x, In x l1 -> key_lt (keyof s x) k) /\
    (forall y, In y l2 -> key_lt k (keyof s y)) /\
    match p with Head => l1 = [] | At q => exists l0, l1 = l0 ++ [q] end.
Proof.
  intros [Hp Hall Hasc] V B A. destruct p as [|q].
  - exists [], l. split; [reflexivity|]. split; [exact Hp|].
    split; [intros x []|]. split; [|reflexivity].
    eapply path_above; eauto.
  - destruct (path_split _ _ _ q Hp (Hall q V)) as (l0 & l2 & -> & P).
    exists (l0 ++ [q]), l2. rewrite <- app_assoc. simpl.
    unfold ascending in Hasc. apply strongly_sorted_app in Hasc as (_ & S2 & C).
    apply StronglySorted_inv in S2 as [S2 F].
    repeat split; eauto.
    + intros x Hx. apply in_app_iff in Hx as [Hx|[<-|[]]]; [|exact B].
      eapply key_lt_trans; [|exact B]. apply C; simpl; auto.
    + eapply path_above; eauto.
Qed.

Lemma ascending_NoDup s l : ascending s l -> NoDup l.
Proof.
  induction 1 as [|a l Hs IH F]; constructor; auto.
  intros Hin. rewrite Forall_forall in F. exact (key_lt_irrefl _ (F a Hin)).
Qed.

Lemma bottom_length s l : bottom_ok s (length (nodes s)) l -> length l = length (nodes s).
Proof.
  intros [Hp Hall Hasc]. apply Nat.le_antisymm.
  - rewrite <- (length_seq (length (nodes s)) 0).
    apply NoDup_incl_length; [eapply ascending_NoDup; eauto|].
    intros j Hj. apply in_seq. pose proof (path_valid _ _ _ Hp j Hj). lia.
  - rewrite <- (length_seq (length (nodes s)) 0).
    apply NoDup_incl_length; [apply seq_NoDup|].
    intros j Hj. apply in_seq in Hj. apply Hall. lia.
Qed.

(** Keys occur once: two nodes with the same key are the same node. *)
Lemma bottom_key_unique s n l a b :
  bottom_ok s n l -> (a < n)%nat -> (b < n)%nat ->
  keyof s a = keyof s b -> a = b.
Proof.
  intros [Hp Hall Hasc] Ha Hb E.
  destruct (Nat.eq_dec a b) as [|Hne]; [assumption|exfalso].
  destruct (in_split _ _ (Hall a Ha)) as (l1 & l2 & ->).
  unfold ascending in Hasc. apply strongly_sorted_app in Hasc as (_ & S2 & C).
  apply StronglySorted_inv in S2 as [_ F]. rewrite Forall_forall in F.
  pose proof (Hall b Hb) as Hin. apply in_app_iff in Hin as [Hin|[Heq|Hin]].
  - specialize (C b a Hin (or_introl eq_refl)). rewrite E in C. exact (key_lt_irrefl _ C).
  - congruence.
  - specialize (F b Hin). rewrite E in F. exact (key_lt_irrefl _ F).
Qed.

(** [chain_from] computes the path. *)
Lemma chain_from_path s a l :
  levels_ok s -> path s a l ->
  forall fuel, (length l <= fuel)%nat -> chain_from fuel s a = Ok l.
Proof.
  intros L. induction 1 as [|j l Hj Hp IH]; intros fuel Hf; [destruct fuel; reflexivity|].
  destruct fuel as [|fuel]; simpl in Hf; [lia|]. simpl.
  destruct (nth_error (nodes s) j) as [nd|] eqn:E; [|apply nth_error_None in E; lia].
  simpl. assert (D : deref s (At j) = Ok nd) by (simpl; rewrite E; reflexivity).
  pose proof (iterate_nxt s (At j) nd 0%nat L D ltac:(lia)) as X.
  change (Z.of_nat 0) with 0 in X. rewrite X. simpl.
  rewrite IH by lia. reflexivity.
Qed.

(** *** [find], [first] and [iterate] *)

Lemma find_from_spec s l k :
  links_ok s -> bottom_ok s (length (nodes s)) l ->
  forall levels fuel n, (levels <= 16)%nat -> valid s n -> below s n k ->
    (room s n < fuel)%nat ->
    (exists j, find_from fuel s k n levels = Ok (Some j) /\
               (j < length (nodes s))%nat /\ keyof s j = k) \/
    (find_from fuel s k n levels = Ok None /\
     (levels <> 0%nat -> forall j, (j < length (nodes s))%nat -> keyof s j <> k)).
Proof.
  intros L B. induction levels as [|i IH]; intros fuel n Hl V Bn R; simpl.
  { right. split; [reflexivity | congruence]. }
  destruct (find_level_spec s k i (fun _ => True) L ltac:(lia) ltac:(auto) fuel n V Bn I R)
    as [(p & F & Vp & Bp & Ap & _ & Rp)|(j & F & Vj & Kj)]; rewrite F; simpl.
  2:{ left. exists j. auto. }
  destruct (IH fuel p ltac:(lia) Vp Bp ltac:(lia)) as [Found|[N A]]; [left; exact Found|].
  right. split; [exact N|]. intros _ j Hj.
  destruct i as [|i]; [|apply A; [congruence | exact Hj]].
  assert (Vp' : match p with Head => True | At q => (q < length (nodes s))%nat end)
    by (destruct p; exact Vp).
  destruct (bottom_cut s _ l p k B Vp' Bp Ap) as (l1 & l2 & -> & _ & H1 & H2 & _).
  pose proof (bo_all s _ _ B j Hj) as Hin. apply in_app_iff in Hin as [Hin|Hin].
  - apply key_lt_neq. auto.
  - intros E. apply (key_lt_neq _ _ (H2 j Hin)). congruence.
Qed.

(** [find] returns the node of the key, or [nullptr] when no node has it. *)
Lemma find_spec s l k :
  links_ok s -> bottom_ok s (length (nodes s)) l ->
  (exists j, find s k = Ok (Some j) /\ (j < length (nodes s))%nat /\ keyof s j = k) \/
  (find s k = Ok None /\ forall j, (j < length (nodes s))%nat -> keyof s j <> k).
Proof.
  intros L B. unfold find.
  destruct (find_from_spec s l k L B 16 (S (length (nodes s))) Head
              (Nat.le_refl 16) I I (Nat.lt_succ_diag_r _)) as [F|[N A]].
  - left. exact F.
  - right. split; [exact N|]. apply A. discriminate.
Qed.

(** The traversal from [first()] by [iterate(0)] visits the bottom level. *)
Lemma bottom_spec s l :
  links_ok s -> bottom_ok s (length (nodes s)) l -> bottom s = Ok l.
Proof.
  intros L B. unfold bottom, first.
  pose proof (iterate_nxt s Head (head s) 0%nat (lk_levels s L) eq_refl ltac:(lia)) as X.
  change (Z.of_nat 0) with 0 in X. rewrite X. simpl.
  apply chain_from_path; [apply L | apply B |].
  rewrite (bottom_length s l B). lia.
Qed.

(** *** The search of [insert] *)

Lemma insert_level_spec s k idx i (P : node_ref -> Prop) :
  links_ok s -> (i < 16)%nat ->
  (forall r j, P r -> valid s r -> nxt s r i = Some j -> P (At j)) ->
  forall fuel n, valid s n -> below s n k -> P n -> (room s n < fuel)%nat ->
  (exists p, insert_level fuel s k idx n (Z.of_nat i) = Ok (Between p (nxt s p i)) /\
             valid s p /\ below s p k /\ above s (nxt s p i) k /\ P p /\
             (room s p <= room s n)%nat) \/
  (exists j, (j < length (nodes s))%nat /\ keyof s j = k /\ P (At j) /\
             insert_level fuel s k idx n (Z.of_nat i) =
             if idxof s j >? idx then Ok (IsNewer j)
             else if idxof s j <? idx then Ok (IsOlder j)
             else Fault AssertionFailed).
Proof.
  intros L Hi HP. induction fuel as [|fuel IH]; intros n V B Pn R; [lia|].
  simpl. destruct (deref_valid s n V) as (nd & D). rewrite D. simpl.
  rewrite (iterate_nxt s n nd i (lk_levels s L) D Hi). simpl.
  destruct (nxt s n i) as [j|] eqn:N.
  2:{ left. exists n. rewrite N. simpl. auto 10. }
  pose proof (lk_valid s L n i j V N) as Hj.
  destruct (nth_error (nodes s) j) as [nd2|] eqn:E; [|apply nth_error_None in E; lia].
  simpl. rewrite <- (keyof_nth _ _ _ E).
  assert (Pj : P (At j)) by (eapply HP; eauto).
  destruct (String.compare k (keyof s j)) eqn:C.
  - right. exists j. split; [exact Hj|]. split; [symmetry; apply String.compare_eq_iff, C|].
    split; [exact Pj|]. unfold newer, older, idxof. rewrite E. reflexivity.
  - left. exists n. rewrite N. simpl. auto 10.
  - pose proof (room_step s n i j L V N) as RS.
    assert (Bj : below s (At j) k) by (apply key_lt_gt, C).
    assert (Rj : (room s (At j) < fuel)%nat) by lia.
    destruct (IH (At j) Hj Bj Pj Rj) as [(p & F & Vp & Bp & Ap & Pp & Rp)|(j' & Vj & Kj & Pj' & F)].
    + left. exists p. repeat split; auto. lia.
    + right. exists j'. auto.
Qed.

Lemma insert_search_spec s k idx (P : node_ref -> Prop) :
  links_ok s ->
  (forall r i j, P r -> valid s r -> nxt s r i = Some j -> P (At j)) ->
  forall levels fuel n u x, (levels <= 16)%nat ->
    length u = 16%nat -> length x = 16%nat ->
    valid s n -> below s n k -> P n -> (room s n < fuel)%nat ->
    (exists u' x', insert_search fuel s k idx n levels u x = Ok (Links u' x') /\
                   found_links s k P levels u' x' /\
                   forall i, (levels <= i)%nat ->
                             nth i u' None = nth i u None /\ nth i x' None = nth i x None) \/
    (exists j, (j < length (nodes s))%nat /\ keyof s j = k /\ P (At j) /\
               insert_search fuel s k idx n levels u x =
               if idxof s j >? idx then Ok (Existing j false)
               else if idxof s j <? idx then Ok (Existing j true)
               else Fault AssertionFailed).
Proof.
  intros L HP. induction levels as [|i IH]; intros fuel n u x Hl Hu Hx V B Pn R; simpl.
  { left. exists u, x. split; [reflexivity|]. split; [|auto].
    split; [exact Hu|]. split; [exact Hx|]. intros i Hi. lia. }
  destruct (insert_level_spec s k idx i P L ltac:(lia) (fun r j => HP r i j) fuel n V B Pn R)
    as [(p & F & Vp & Bp & Ap & Pp & Rp)|(j & Vj & Kj & Pj & F)]; rewrite F; simpl.
  2:{ right. exists j. repeat split; auto.
      destruct (idxof s j >? idx); [reflexivity|].
      destruct (idxof s j <? idx); reflexivity. }
  rewrite !store_nat by lia. simpl.
  destruct (IH fuel p (upd u i (Some p)) (upd x i (nxt s p i)) ltac:(lia)
              ltac:(rewrite upd_length; exact Hu) ltac:(rewrite upd_length; exact Hx)
              Vp Bp Pp ltac:(lia))
    as [(u' & x' & Hs & (Hu' & Hx' & FL) & Keep)|Ex]; [|right; exact Ex].
  left. exists u', x'. split; [exact Hs|]. split.
  - split; [exact Hu'|]. split; [exact Hx'|]. intros i' Hi'.
    destruct (Nat.eq_dec i' i) as [->|Hne]; [|apply FL; lia].
    destruct (Keep i (Nat.le_refl i)) as [Ku Kx].
    exists p. rewrite Ku, Kx, !upd_nth, Nat.eqb_refl.
    destruct (Nat.ltb_spec i (length u)); [|lia].
    destruct (Nat.ltb_spec i (length x)); [|lia]. auto 10.
  - intros i' Hi'. destruct (Keep i' ltac:(lia)) as [Ku Kx].
    rewrite Ku, Kx, !upd_nth. destruct (Nat.eqb_spec i i'); [lia | auto].
Qed.

(** *** The linking of [insert] *)

Lemma same_node_refl a : same_node a a = true.
Proof. destruct a; simpl; [apply Nat.eqb_refl | reflexivity]. Qed.

Lemma relinked_valid s s' r : relinked s s' -> valid s r -> valid s' r.
Proof. intros R. destruct r; simpl; [auto|]. rewrite (rl_length _ _ R). auto. Qed.

(** On one thread every compare-exchange of the linking loop succeeds, and
    the loop redirects exactly the links found by the search. *)
Lemma splice_spec j u x : forall levels s,
  levels_ok s -> (j < length (nodes s))%nat -> (levels <= 16)%nat ->
  spliceable s j levels u x ->
  exists s', splice s j levels u x = Ok (true, s') /\ relinked s s' /\
    (forall j', idxof s' j' = idxof s j') /\
    forall r i, nxt s' r i =
      if (i <? levels)%nat then
        if node_ref_eqb (At j) r then nth i x None
        else if is_pred u i r then Some j else nxt s r i
      else nxt s r i.
Proof.
  induction levels as [|i IH]; intros s L Hj Hl (Hu & Hx & Sp); simpl (splice _ _ _ _ _).
  { exists s. split; [reflexivity|]. split; [apply relinked_refl|]. split; auto. }
  destruct (Sp i (Nat.lt_succ_diag_r i)) as (p & Up & Xp & Vp & Np).
  rewrite (index_nth x i None) by lia. cbn [bind].
  destruct (link_spec s (At j) i (nth i x None) L Hj ltac:(lia)) as (s1 & K1 & R1 & I1 & N1).
  rewrite K1. cbn [bind]. rewrite (index_nth u i None) by lia. cbn [bind]. rewrite Up.
  pose proof (rl_levels _ _ R1 L) as L1.
  pose proof (relinked_valid _ _ p R1 Vp) as Vp1.
  destruct (deref_valid s1 p Vp1) as (nd1 & D1).
  unfold CE_link. rewrite D1. cbn [bind].
  pose proof (iterate_nxt s1 p nd1 i L1 D1 ltac:(lia)) as It. unfold iterate in It.
  rewrite It. cbn [bind].
  assert (Ep : node_ref_eqb (At j) p = false).
  { destruct (node_ref_eqb_spec (At j) p); [congruence | reflexivity]. }
  rewrite N1, Ep. cbn [andb]. rewrite <- Xp, same_node_refl.
  destruct (link_spec s1 p i (Some j) L1 Vp1 ltac:(lia)) as (s2 & K2 & R2 & I2 & N2).
  rewrite K2. cbn [bind].
  pose proof (rl_levels _ _ R2 L1) as L2.
  assert (Sp2 : spliceable s2 j i u x).
  { split; [exact Hu|]. split; [exact Hx|]. intros i' Hi'.
    destruct (Sp i' ltac:(lia)) as (p' & Up' & Xp' & Vp' & Np').
    exists p'. split; [exact Up'|]. split.
    - rewrite N2, N1. destruct (Nat.eqb_spec i i'); [lia|].
      rewrite !andb_false_r. exact Xp'.
    - split; [|exact Np']. eapply relinked_valid; [exact R2|].
      eapply relinked_valid; eauto. }
  destruct (IH s2 L2) as (s' & Hs & R' & I' & N'); auto; try lia.
  { rewrite (rl_length _ _ R2), (rl_length _ _ R1). exact Hj. }
  exists s'. split; [exact Hs|]. split.
  { eapply relinked_trans; [|exact R']. eapply relinked_trans; eauto. }
  split.
  { intros j'. rewrite I', I2, I1. reflexivity. }
  intros r i0. rewrite N'. unfold is_pred.
  destruct (Nat.ltb_spec i0 i) as [Lt|Ge].
  - destruct (Nat.ltb_spec i0 (S i)); [|lia].
    destruct (node_ref_eqb (At j) r); [reflexivity|].
    destruct (nth i0 u None) as [q|]; [destruct (node_ref_eqb q r); [reflexivity|]|];
      rewrite N2, N1; destruct (Nat.eqb_spec i i0); try lia; rewrite !andb_false_r; reflexivity.
  - rewrite N2, N1. destruct (Nat.eqb_spec i i0) as [<-|Hne].
    + destruct (Nat.ltb_spec i (S i)); [|lia]. rewrite !andb_true_r, Up.
      destruct (node_ref_eqb_spec p r) as [<-|Hpr].
      * rewrite Ep. reflexivity.
      * reflexivity.
    + destruct (Nat.ltb_spec i0 (S i)); [lia|]. rewrite !andb_false_r. reflexivity.
Qed.

(** *** Tables with the same links *)

Lemma path_ext s s' a l :
  path s a l ->
  (forall q, In q l -> (q < length (nodes s'))%nat /\ nxt s' (At q) 0 = nxt s (At q) 0) ->
  path s' a l.
Proof.
  induction 1 as [|j l Hj Hp IH]; intros E; constructor.
  - apply E. simpl. auto.
  - destruct (E j (or_introl eq_refl)) as [_ ->]. apply IH.
    intros q Hq. apply E. simpl. auto.
Qed.

Lemma ascending_ext s s' l :
  (forall q, In q l -> keyof s' q = keyof s q) -> ascending s l -> ascending s' l.
Proof.
  unfold ascending. intros E H. induction H as [|a l Hs IH F]; constructor.
  - apply IH. intros q Hq. apply E. simpl. auto.
  - rewrite Forall_forall in *. intros b Hb.
    rewrite (E a), (E b) by (simpl; auto). auto.
Qed.

(** Replacing [path s b rest] by [path s' b rest'] behind a prefix whose
    links did not change. *)
Lemma path_rebuild s s' l0 rest rest' : forall a,
  path s a (l0 ++ rest) ->
  (forall q, In q l0 -> (q < length (nodes s'))%nat /\ nxt s' (At q) 0 = nxt s (At q) 0) ->
  (forall b, path s b rest -> path s' b rest') ->
  path s' a (l0 ++ rest').
Proof.
  induction l0 as [|h l0 IH]; simpl; intros a Hp E Hr; [auto|].
  inversion Hp as [|j l Hj Hp']; subst. constructor.
  - apply E. auto.
  - destruct (E h (or_introl eq_refl)) as [_ ->]. apply IH; auto.
Qed.

(** *** A new node is linked in *)

Lemma spliced_links_ok s s' j k l levels u x :
  pending s j k l -> relinked s s' -> (0 < levels)%nat ->
  found_links s k (fun r => r <> At j) levels u x ->
  (forall r i, nxt s' r i =
     if (i <? levels)%nat then
       if node_ref_eqb (At j) r then nth i x None
       else if is_pred u i r then Some j else nxt s r i
     else nxt s r i) ->
  links_ok s'.
Proof.
  intros Pe R Hl (Hu & Hx & FL) N. pose proof (pe_links _ _ _ _ Pe) as L.
  assert (Val : forall r, valid s' r -> valid s r).
  { intros [|a]; simpl; [auto|]. rewrite (rl_length _ _ R). auto. }
  constructor.
  - apply (rl_levels _ _ R), L.
  - intros r i t V. rewrite N, (rl_length _ _ R). apply Val in V.
    destruct (Nat.ltb_spec i levels) as [Hi|Hi]; [|apply (lk_valid s L r i t V)].
    destruct (FL i Hi) as (p & Up & Xp & Vp & Np & Bp & Ap).
    destruct (node_ref_eqb (At j) r).
    + rewrite Xp. apply (lk_valid s L p i t Vp).
    + unfold is_pred. rewrite Up. destruct (node_ref_eqb p r).
      * intros [= <-]. rewrite (pe_last _ _ _ _ Pe). lia.
      * apply (lk_valid s L r i t V).
  - intros a i b Ha. rewrite N, !(rl_keys _ _ R). rewrite (rl_length _ _ R) in Ha.
    destruct (Nat.ltb_spec i levels) as [Hi|Hi]; [|apply (lk_asc s L a i b Ha)].
    destruct (FL i Hi) as (p & Up & Xp & Vp & Np & Bp & Ap).
    destruct (node_ref_eqb_spec (At j) (At a)) as [E|E].
    + injection E as <-. rewrite Xp. intros Hb. rewrite Hb in Ap. simpl in Ap.
      rewrite (pe_key _ _ _ _ Pe). exact Ap.
    + unfold is_pred. rewrite Up. destruct (node_ref_eqb_spec p (At a)) as [->|E'].
      * intros [= <-]. simpl in Bp. rewrite (pe_key _ _ _ _ Pe). exact Bp.
      * apply (lk_asc s L a i b Ha).
Qed.

Lemma spliced_bottom_ok s s' j k l levels u x :
  pending s j k l -> relinked s s' -> (0 < levels)%nat ->
  found_links s k (fun r => r <> At j) levels u x ->
  (forall r i, nxt s' r i =
     if (i <? levels)%nat then
       if node_ref_eqb (At j) r then nth i x None
       else if is_pred u i r then Some j else nxt s r i
     else nxt s r i) ->
  exists l1 l2, l = l1 ++ l2 /\ bottom_ok s' (S j) (l1 ++ j :: l2).
Proof.
  intros Pe R Hl (Hu & Hx & FL) N.
  pose proof (pe_bottom _ _ _ _ Pe) as B. pose proof (pe_key _ _ _ _ Pe) as Kj.
  pose proof (pe_last _ _ _ _ Pe) as Len.
  destruct (FL 0%nat Hl) as (p & Up & Xp & Vp & Np & Bp & Ap).
  assert (Vp' : match p with Head => True | At q => (q < j)%nat end).
  { destruct p as [|q]; [exact I|]. simpl in Vp.
    assert (q <> j) by congruence. lia. }
  destruct (bottom_cut s j l p k B Vp' Bp Ap) as (l1 & l2 & -> & P2 & K1 & K2 & Sh).
  exists l1, l2. split; [reflexivity|].
  assert (N0 : forall r, nxt s' r 0 =
                 if node_ref_eqb (At j) r then nxt s p 0
                 else if node_ref_eqb p r then Some j else nxt s r 0).
  { intros r. rewrite N. destruct (Nat.ltb_spec 0 levels); [|lia].
    unfold is_pred. rewrite Up, Xp. reflexivity. }
  assert (Old : forall q, key_lt (keyof s q) k \/ key_lt k (keyof s q) ->
                          node_ref_eqb (At j) (At q) = false).
  { intros q Hq. destruct (node_ref_eqb_spec (At j) (At q)) as [E|]; [|reflexivity].
    injection E as <-. rewrite Kj in Hq. destruct Hq as [Hq|Hq]; destruct (key_lt_irrefl _ Hq). }
  assert (Len' : length (nodes s') = S j) by (rewrite (rl_length _ _ R); exact Len).
  pose proof (bo_path _ _ _ B) as Pl. pose proof (bo_asc _ _ _ B) as Al.
  unfold ascending in Al. apply strongly_sorted_app in Al as (S1 & S2 & C).
  (* the part behind the new node *)
  assert (P2' : path s' (Some j) (j :: l2)).
  { constructor; [lia|]. rewrite N0. simpl. rewrite Nat.eqb_refl.
    apply (path_ext s s' _ _ P2). intros q Hq. split.
    - rewrite Len', <- Len. apply (path_valid _ _ _ P2 q Hq).
    - rewrite N0, (Old q) by (right; auto).
      destruct (node_ref_eqb_spec p (At q)) as [->|]; [|reflexivity].
      simpl in Bp. destruct (key_lt_irrefl _ (key_lt_trans _ _ _ Bp (K2 q Hq))). }
  constructor.
  - (* the path from the head *)
    destruct p as [|q].
    + subst l1. simpl. rewrite N0. simpl. exact P2'.
    + destruct Sh as (l0 & ->). rewrite <- !app_assoc in *. simpl in *.
      assert (NH : nxt s' Head 0 = nxt s Head 0) by (rewrite N0; reflexivity).
      rewrite NH. apply (path_rebuild s s' l0 (q :: l2) (q :: j :: l2) _ Pl).
      * intros a Ha. split.
        { rewrite Len', <- Len. eapply path_valid; [exact Pl|]. apply in_app_iff. auto. }
        rewrite N0, (Old a) by (left; apply K1, in_app_iff; auto).
        simpl. destruct (Nat.eqb_spec q a) as [<-|]; [|reflexivity]. exfalso.
        apply strongly_sorted_app in S1 as (_ & _ & C1).
        exact (key_lt_irrefl _ (C1 q q Ha (or_introl eq_refl))).
      * intros b Hb. inversion Hb; subst. constructor; [lia|].
        rewrite N0, (Old q) by (left; exact Bp). simpl. rewrite Nat.eqb_refl. exact P2'.
  - intros a Ha. apply in_app_iff. destruct (Nat.eq_dec a j) as [->|Hne]; [simpl; auto|].
    pose proof (bo_all _ _ _ B a ltac:(lia)) as Hin.
    apply in_app_iff in Hin as [|]; simpl; auto.
  - apply (ascending_ext s); [intros q _; apply (rl_keys _ _ R)|].
    unfold ascending. apply strongly_sorted_app. split; [exact S1|]. split.
    + constructor; [exact S2|]. apply Forall_forall. intros y Hy. rewrite Kj. auto.
    + intros a b Ha [<-|Hb]; [rewrite Kj; auto | auto].
Qed.

(** *** Tables with the same links and keys *)

Lemma links_ok_ext s s' : same_links s s' -> links_ok s -> links_ok s'.
Proof.
  intros (Len & N & K & Lv) L. constructor.
  - apply Lv, L.
  - intros r i j V. rewrite N, Len. apply (lk_valid s L).
    destruct r; simpl in *; [auto | lia].
  - intros j i j' Hj. rewrite N, !K. apply (lk_asc s L). lia.
Qed.

Lemma bottom_ok_ext s s' n l : same_links s s' -> bottom_ok s n l -> bottom_ok s' n l.
Proof.
  intros (Len & N & K & Lv) [P A S]. constructor.
  - rewrite N. apply (path_ext s s' _ _ P). intros q Hq. split; [|apply N].
    rewrite Len. eapply path_valid; eauto.
  - exact A.
  - apply (ascending_ext s); auto.
Qed.

Lemma upd_app_l {A} (l : list A) j a b :
  (j < length l)%nat -> upd (l ++ [a]) j b = upd l j b ++ [a].
Proof.
  revert j; induction l as [|h t IH]; intros [|j] H; simpl in *; try lia; auto.
  rewrite IH by lia. reflexivity.
Qed.

Lemma nth_error_upd {A} (l : list A) j a m :
  (j < length l)%nat ->
  nth_error (upd l j a) m = if Nat.eqb j m then Some a else nth_error l m.
Proof.
  intros H. destruct (Nat.eqb_spec j m) as [<-|Hne].
  - apply nth_error_upd_same, H.
  - apply nth_error_upd_other, Hne.
Qed.

(** A node gets another record index: links and keys stay. *)
Lemma reindex_same_links s s' j nd idx :
  nth_error (nodes s) j = Some nd ->
  head s' = head s ->
  nodes s' = upd (nodes s) j {| key := key nd; record_idx := idx; next := next nd |} ->
  same_links s s' /\
  forall a, idxof s' a = if Nat.eqb j a then idx else idxof s a.
Proof.
  intros E Hh Hn.
  assert (Hj : (j < length (nodes s))%nat) by (apply nth_error_Some; congruence).
  split; [split; [|split; [|split]]|].
  - rewrite Hn. apply upd_length.
  - intros [|a] i; unfold nxt; simpl; [rewrite Hh; reflexivity|].
    rewrite Hn, nth_error_upd by exact Hj.
    destruct (Nat.eqb_spec j a) as [<-|]; [rewrite E|]; reflexivity.
  - intros a. unfold keyof. rewrite Hn, nth_error_upd by exact Hj.
    destruct (Nat.eqb_spec j a) as [<-|]; [rewrite E|]; reflexivity.
  - intros [L1 L2]. split; [rewrite Hh; exact L1|].
    intros a nd'. rewrite Hn, nth_error_upd by exact Hj.
    destruct (Nat.eqb_spec j a) as [<-|]; [|apply L2].
    intros [= <-]. simpl. eauto.
  - intros a. unfold idxof. rewrite Hn, nth_error_upd by exact Hj.
    destruct (Nat.eqb_spec j a) as [<-|]; reflexivity.
Qed.

(** The table right after [new node(...)]. *)
Lemma pending_intro s s1 l nd :
  links_ok s -> bottom_ok s (length (nodes s)) l ->
  head s1 = head s -> nodes s1 = nodes s ++ [nd] -> next nd = no_links ->
  pending s1 (length (nodes s)) (key nd) l /\
  (forall a, (a < length (nodes s))%nat -> idxof s1 a = idxof s a) /\
  idxof s1 (length (nodes s)) = record_idx nd.
Proof.
  intros L B Hh Hn Hx.
  assert (NE : forall a, nth_error (nodes s1) a =
                         if (a <? length (nodes s))%nat then nth_error (nodes s) a
                         else if Nat.eqb a (length (nodes s)) then Some nd else None).
  { intros a. rewrite Hn. destruct (Nat.ltb_spec a (length (nodes s))).
    - apply nth_error_app1. assumption.
    - rewrite nth_error_app2 by assumption.
      destruct (Nat.eqb_spec a (length (nodes s))) as [->|].
      + rewrite Nat.sub_diag. reflexivity.
      + destruct (a - length (nodes s))%nat as [|m] eqn:E; [lia|]. destruct m; reflexivity. }
  assert (NX : forall r i, valid s r -> nxt s1 r i = nxt s r i).
  { intros [|a] i V; unfold nxt; simpl; [rewrite Hh; reflexivity|].
    rewrite NE. simpl in V. destruct (Nat.ltb_spec a (length (nodes s))); [reflexivity | lia]. }
  assert (NJ : forall i, nxt s1 (At (length (nodes s))) i = None).
  { intros i. unfold nxt; simpl. rewrite NE, Nat.ltb_irrefl, Nat.eqb_refl, Hx.
    unfold no_links. apply nth_repeat. }
  assert (KO : forall a, (a < length (nodes s))%nat -> keyof s1 a = keyof s a).
  { intros a Ha. unfold keyof. rewrite NE.
    destruct (Nat.ltb_spec a (length (nodes s))); [reflexivity | lia]. }
  assert (KJ : keyof s1 (length (nodes s)) = key nd).
  { unfold keyof. rewrite NE, Nat.ltb_irrefl, Nat.eqb_refl. reflexivity. }
  assert (Len : length (nodes s1) = S (length (nodes s))).
  { rewrite Hn, length_app. simpl. lia. }
  assert (Vs : forall r, valid s1 r -> valid s r \/ r = At (length (nodes s))).
  { intros [|a]; simpl; [auto|]. rewrite Len. intros Ha.
    destruct (Nat.eq_dec a (length (nodes s))) as [->|]; [auto | left; lia]. }
  split; [constructor|split].
  - constructor.
    + destruct (lk_levels s L) as [L1 L2]. split; [rewrite Hh; exact L1|].
      intros a nd'. rewrite NE. destruct (a <? length (nodes s))%nat; [apply L2|].
      destruct (Nat.eqb a (length (nodes s))); [|discriminate].
      intros [= <-]. rewrite Hx. unfold no_links. apply repeat_length.
    + intros r i t V Ht. rewrite Len. destruct (Vs r V) as [V0| ->].
      * rewrite NX in Ht by exact V0. pose proof (lk_valid s L r i t V0 Ht). lia.
      * rewrite NJ in Ht. discriminate.
    + intros a i b Ha Hb. destruct (Vs (At a) Ha) as [V0|E].
      * rewrite NX in Hb by exact V0. simpl in V0.
        pose proof (lk_valid s L (At a) i b V0 Hb) as Vb.
        rewrite !KO by assumption. apply (lk_asc s L a i b V0 Hb).
      * injection E as ->. rewrite NJ in Hb. discriminate.
  - exact Len.
  - exact KJ.
  - exact NJ.
  - intros r i V Ht. destruct (Vs r V) as [V0| ->].
    + rewrite NX in Ht by exact V0. pose proof (lk_valid s L r i _ V0 Ht). lia.
    + rewrite NJ in Ht. discriminate.
  - destruct B as [P A S]. constructor.
    + rewrite NX by exact I. apply (path_ext s s1 _ _ P). intros q Hq.
      pose proof (path_valid _ _ _ P q Hq) as Vq. split; [lia|]. apply NX. exact Vq.
    + exact A.
    + apply (ascending_ext s); [|exact S]. intros q Hq. apply KO.
      apply (path_valid _ _ _ P q Hq).
  - intros a Ha. unfold idxof. rewrite NE.
    destruct (Nat.ltb_spec a (length (nodes s))); [reflexivity | lia].
  - unfold idxof. rewrite NE, Nat.ltb_irrefl, Nat.eqb_refl. reflexivity.
Qed.

(** *** [insert] from the label [insert_loop] on *)

Lemma same_links_fields s s' :
  head s' = head s -> nodes s' = nodes s -> same_links s s' /\
  forall a, idxof s' a = idxof s a.
Proof.
  intros Hh Hn. unfold same_links, nxt, keyof, idxof, levels_ok, deref.
  rewrite Hh, Hn. repeat split; auto; tauto.
Qed.

Lemma found_links_spliceable s k j levels u x :
  found_links s k (fun r => r <> At j) levels u x -> spliceable s j levels u x.
Proof.
  intros (Hu & Hx & FL). split; [exact Hu|]. split; [exact Hx|].
  intros i Hi. destruct (FL i Hi) as (p & Up & Xp & Vp & Np & _). eauto.
Qed.

Lemma insert_loop_ok s s1 l k nidx idx sz level :
  links_ok s -> bottom_ok s (length (nodes s)) l ->
  head s1 = head s -> nodes s1 = nodes s ++ [new_node k nidx] -> idx = to_int32 nidx ->
  0 <= level < 16 ->
  (forall a, (a < length (nodes s))%nat -> 0 <= idxof s a < idx) ->
  0 <= idx <= Z.of_nat (length (records s1)) ->
  exists r s',
    insert_loop (S (length (nodes s))) s1 k idx sz level (length (nodes s))
      (repeat None (Z.to_nat MAX_TABLE_LEVELS)) no_links = Ok (Some r, s') /\
    links_ok s' /\ (exists l', bottom_ok s' (length (nodes s')) l') /\
    (r < length (nodes s'))%nat /\ keyof s' r = k /\ idxof s' r = idx /\
    (forall a, (a < length (nodes s'))%nat -> 0 <= idxof s' a <= idx) /\
    config s' = config s1 /\ records s' = records s1 /\
    next_record s' = next_record s1 /\ is_locked s' = is_locked s1 /\
    total_data_size s' = total_data_size s1 /\
    ((r = length (nodes s) /\ length (nodes s') = S (length (nodes s)) /\
      (forall a, (a < length (nodes s))%nat ->
                 keyof s' a = keyof s a /\ idxof s' a = idxof s a) /\
      data_size s' = wrap64 (data_size s1 + sz)) \/
     ((r < length (nodes s))%nat /\ length (nodes s') = length (nodes s) /\
      keyof s r = k /\
      (forall a, keyof s' a = keyof s a) /\
      (forall a, a <> r -> idxof s' a = idxof s a) /\
      exists rec, index (records s1) (idxof s r) = Ok rec /\
                  data_size s' = wrap64 (wrap64 (data_size s1 - size rec) + sz))).
Proof.
  intros L B Hh Hn Hidx Hlv Old Hrec.
  set (j := length (nodes s)) in *.
  destruct (pending_intro s s1 l (new_node k nidx) L B Hh Hn eq_refl) as (Pe & I1 & IJ).
  fold j in Pe, I1, IJ. simpl in Pe, IJ.
  pose proof (pe_links _ _ _ _ Pe) as L1. pose proof (pe_last _ _ _ _ Pe) as Len1.
  cbn [insert_loop].
  assert (Hlev : exists n, Z.to_nat (level + 1) = S n /\ (S n <= 16)%nat).
  { exists (Z.to_nat level). split; lia. }
  destruct Hlev as (n & Hn1 & Hn16). rewrite Hn1.
  assert (Cl : forall r i t, r <> At j -> valid s1 r -> nxt s1 r i = Some t -> At t <> At j).
  { intros r i t _ V Ht E. injection E as ->. exact (pe_fresh _ _ _ _ Pe r i V Ht). }
  assert (HH : Head <> At j) by discriminate.
  assert (Rm : (room s1 Head < S (length (nodes s1)))%nat) by (simpl; lia).
  destruct (insert_search_spec s1 k idx (fun r => r <> At j) L1 Cl
              (S n) (S (length (nodes s1))) Head
              (repeat None (Z.to_nat MAX_TABLE_LEVELS)) no_links Hn16
              (repeat_length _ _) (repeat_length _ _) I I HH Rm)
    as [(u & x & Hs & FL & _)|(j' & Vj' & Kj' & Pj' & Hs)]; rewrite Hs; cbn [bind].
  - (* the key is new: the node is linked in *)
    destruct (splice_spec j u x (S n) s1 (lk_levels _ L1) ltac:(lia) Hn16
                (found_links_spliceable _ _ _ _ _ _ FL))
      as (s2 & Sp & R & I2 & N2).
    rewrite Sp. cbn [bind].
    pose proof (spliced_links_ok s1 s2 j k l (S n) u x Pe R ltac:(lia) FL N2) as L2.
    destruct (spliced_bottom_ok s1 s2 j k l (S n) u x Pe R ltac:(lia) FL N2)
      as (l1 & l2 & _ & B2).
    set (s3 := set_data_size s2 (wrap64 (data_size s2 + sz))).
    destruct (same_links_fields s2 s3 eq_refl eq_refl) as (SL & I3).
    assert (Len3 : length (nodes s3) = S j) by (simpl; rewrite (rl_length _ _ R); exact Len1).
    exists j, s3. split; [reflexivity|].
    split; [apply (links_ok_ext s2 s3 SL L2)|].
    split; [exists (l1 ++ j :: l2); rewrite Len3; apply (bottom_ok_ext s2 s3 _ _ SL B2)|].
    split; [lia|].
    split; [destruct SL as (_ & _ & K3 & _); rewrite K3, (rl_keys _ _ R); apply Pe|].
    split; [rewrite I3, I2, IJ; symmetry; exact Hidx|].
    split.
    { intros a Ha. rewrite I3, I2. rewrite Len3 in Ha.
      destruct (Nat.eq_dec a j) as [->|].
      - rewrite IJ, <- Hidx. lia.
      - rewrite I1 by lia. pose proof (Old a ltac:(lia)). lia. }
    split; [apply R|]. split; [apply R|]. split; [apply R|]. split; [apply R|].
    split; [apply R|]. left.
    split; [reflexivity|]. split; [exact Len3|]. split.
    { intros a Ha. fold j in Ha. destruct SL as (_ & _ & K3 & _).
      rewrite K3, (rl_keys _ _ R), I3, I2, (I1 a Ha). split; [|reflexivity].
      unfold keyof. rewrite Hn, nth_error_app1 by exact Ha. reflexivity. }
    simpl. rewrite (rl_data _ _ R). reflexivity.
  - (* the key is there: its node gets the new record *)
    assert (Hj' : (j' < j)%nat) by (assert (j' <> j) by congruence; lia).
    pose proof (Old j' Hj') as Oj'. rewrite <- (I1 j' Hj') in Oj'.
    destruct (Z.gtb_spec (idxof s1 j') idx); [lia|].
    destruct (Z.ltb_spec (idxof s1 j') idx); [|lia].
    cbn [bind]. unfold update.
    destruct (nth_error (nodes s) j') as [nd|] eqn:E; [|apply nth_error_None in E; lia].
    assert (E1 : nth_error (nodes s1) j' = Some nd).
    { rewrite Hn, nth_error_app1 by lia. exact E. }
    cbn [deref]. rewrite E1. cbn [bind put_node set_nodes records].
    assert (Oi : idxof s1 j' = record_idx nd) by (unfold idxof; rewrite E1; reflexivity).
    rewrite Oi in *.
    destruct (index_total (records s1) (record_idx nd) ltac:(lia)) as (rec & Hrc).
    rewrite Hrc. cbn [bind].
    eexists j', _. split; [reflexivity|].
    match goal with |- context [delete_last ?s0] => set (s4 := delete_last s0) end.
    assert (Hh4 : head s4 = head s) by (simpl; exact Hh).
    assert (Hn4 : nodes s4 = upd (nodes s) j'
                    {| key := key nd; record_idx := idx; next := next nd |}).
    { simpl. rewrite Hn, upd_app_l by lia. apply removelast_last. }
    destruct (reindex_same_links s s4 j' nd idx E Hh4 Hn4) as (SL & I4).
    pose proof SL as (Len4 & _ & K4 & _).
    split; [apply (links_ok_ext s s4 SL L)|].
    split; [exists l; rewrite Len4; apply (bottom_ok_ext s s4 _ _ SL B)|].
    split; [lia|].
    split; [rewrite K4; unfold keyof in *; rewrite E; rewrite E1 in Kj'; exact Kj'|].
    split; [rewrite I4, Nat.eqb_refl; reflexivity|].
    split.
    { intros a Ha. rewrite I4. destruct (Nat.eqb_spec j' a); [lia|].
      pose proof (Old a ltac:(lia)). lia. }
    split; [reflexivity|]. split; [reflexivity|]. split; [reflexivity|].
    split; [reflexivity|]. split; [reflexivity|]. right.
    split; [exact Hj'|]. split; [exact Len4|].
    split; [unfold keyof in *; rewrite E; rewrite E1 in Kj'; exact Kj'|].
    split; [exact K4|]. split.
    { intros a Ha. rewrite I4. destruct (Nat.eqb_spec j' a); [congruence | reflexivity]. }
    exists rec. split; [|reflexivity].
    replace (idxof s j') with (record_idx nd) by (unfold idxof; rewrite E; reflexivity).
    exact Hrc.
Qed.

End SkiplistInvariant.

Section SkiplistTheorems.

Import skiptable.
Context {alloc : allocator}.

(** *** The invariant of a table between two calls *)

Lemma to_int32_small z : - 2 ^ 31 <= z < 2 ^ 31 -> to_int32 z = z.
Proof. intros H. unfold to_int32. rewrite Z.mod_small by lia. lia. Qed.

Lemma level_loop_range draw fuel : forall d level,
  level <= MAX_TABLE_LEVELS -> level <= level_loop draw d fuel level <= MAX_TABLE_LEVELS.
Proof.
  induction fuel as [|fuel IH]; intros d level H; simpl; [lia|].
  destruct (Z.ltb_spec level MAX_TABLE_LEVELS); [|lia].
  destruct (Z.odd (draw d)); [|lia].
  specialize (IH (S d) (level + 1) ltac:(lia)). lia.
Qed.

Lemma random_level_range draw : 0 <= random_level draw <= MAX_TABLE_LEVELS.
Proof. apply level_loop_range. unfold MAX_TABLE_LEVELS. lia. Qed.

Lemma create_ok opts :
  0 <= writes_before_lock opts <= 2 ^ 31 - 1 -> table_ok (create opts).
Proof.
  intros H.
  assert (N : forall r i, nxt (create opts) r i = None).
  { intros [|j] i; unfold nxt.
    - change (deref (create opts) Head) with (Ok (new_node EmptyString (-1))).
      change (next (new_node EmptyString (-1))) with no_links.
      unfold no_links. apply nth_repeat.
    - simpl. destruct j; reflexivity. }
  constructor; simpl.
  - constructor.
    + split; [reflexivity|]. intros [|j] nd; discriminate.
    + intros r i j _. rewrite N. discriminate.
    + intros j i j'. simpl. lia.
  - exists []. constructor.
    + rewrite N. constructor.
    + intros j. lia.
    + constructor.
  - rewrite repeat_length. lia.
  - lia.
  - lia.
  - intros j. lia.
Qed.

Lemma lock_ok s : table_ok s -> table_ok (snd (lock s)).
Proof.
  intros [L (l & B) R Li N I].
  destruct (same_links_fields s (snd (lock s)) eq_refl eq_refl) as (SL & Ix).
  constructor; simpl; auto.
  - apply (links_ok_ext s _ SL L).
  - exists l. apply (bottom_ok_ext s _ _ _ SL B).
Qed.

(** An insertion on a well-formed table, with a level inside the array of
    links and a buffer that holds [sz] bytes, returns and leaves a
    well-formed table; when it was accepted, it returns the node of the
    key, and that node refers to the record just written. *)
Lemma insert_ok s k dat sz draw :
  table_ok s -> random_level draw < MAX_TABLE_LEVELS ->
  (malloc_ok sz = true -> sz <= strlen dat) ->
  exists r s', insert s k dat sz draw = Ok (r, s') /\ table_ok s' /\
    (locked s = false -> malloc_ok sz = true ->
     exists j, r = Some j /\ (j < length (nodes s'))%nat /\ keyof s' j = k /\
               idxof s' j = next_record s /\ next_record s' = next_record s + 1 /\
               index (records s') (next_record s)
               = Ok {| data := Some (substring 0 (Z.to_nat sz) dat); size := sz |}) /\
    insert_effect s k dat sz r s'.
Proof.
  intros OK Hlv Hbuf. pose proof OK as [L (l & B) R Li N I].
  unfold insert, insert_effect. destruct (locked s) eqn:Lk.
  { exists None, s. split; [reflexivity|]. split; [exact OK|].
    split; [discriminate | auto]. }
  unfold locked in Lk. rewrite !orb_false_iff in Lk. destruct Lk as (((_ & Lk) & _) & _).
  apply Z.leb_gt in Lk. unfold to_size_t in *.
  rewrite wrap64_small in * by lia.
  destruct (index_total (records s) (next_record s) ltac:(lia)) as (slot & Hslot).
  rewrite Hslot. cbn [bind].
  rewrite (to_int32_small (next_record s + 1)) by lia.
  destruct (malloc_ok sz) eqn:M.
  - specialize (Hbuf eq_refl). unfold strlen in Hbuf.
    destruct (Z.ltb_spec (Z.of_nat (String.length dat)) sz); [lia|].
    unfold store. destruct (Z.leb_spec 0 (next_record s)); [|lia].
    destruct (Z.ltb_spec (next_record s) (Z.of_nat (length (records s)))); [|lia].
    cbn [andb bind].
    match goal with |- context [insert_loop _ ?st _ _ _ _ _ _ _] => set (s1 := st) end.
    pose proof (random_level_range draw) as Hr.
    destruct (insert_loop_ok s s1 l k (next_record s) (next_record s) sz (random_level draw)
                L B eq_refl eq_refl)
      as (r & s' & Hs & L' & B' & Vr & Kr & Ir & Io & Cf & Rc & Nx & Lk' & Tot & Eff).
    + symmetry. apply to_int32_small. lia.
    + unfold MAX_TABLE_LEVELS in *. lia.
    + exact I.
    + simpl. rewrite upd_length. lia.
    + rewrite (to_int32_small (next_record s)) by lia. rewrite Hs.
      assert (OK' : table_ok s').
      { constructor; auto.
        - rewrite Rc, Cf. simpl. rewrite upd_length. exact R.
        - rewrite Cf. exact Li.
        - rewrite Nx, Cf. simpl. lia.
        - intros j Hj. rewrite Nx. simpl. specialize (Io j Hj). lia. }
      exists (Some r), s'. split; [reflexivity|]. split; [exact OK'|]. split.
      * intros _ _. exists r. repeat split; auto.
        rewrite Rc. simpl. apply index_Ok. rewrite upd_length. split; [lia|].
        apply nth_error_upd_same. lia.
      * split; [exact Cf|]. split; [exact Lk'|]. split; [exact Nx|].
        split; [exact Rc|]. split; [exact Tot|].
        exists r. split; [reflexivity|]. split; [exact Kr|]. split; [exact Ir|].
        destruct Eff as [(Er & El & Ek & Ed)|(Er & El & Ek0 & Ek & Ei & rec & Hrc & Ed)].
        -- left. split; [exact Er|]. split; [exact El|]. split; [|exact Ed].
           intros a Ha. destruct (Ek a Ha) as (Ka & Ia). split; [exact Ka|].
           split; [exact Ia|]. intros Kk. destruct B' as (l' & B').
           assert (a = r); [|lia].
           apply (bottom_key_unique s' _ l' a r B'); try lia. congruence.
        -- right. split; [exact Er|]. split; [exact El|]. split; [exact Ek0|].
           split; [exact Ek|]. split; [exact Ei|]. rewrite Ed. simpl.
           do 3 f_equal. unfold size_at.
           assert (Hrc0 : index (records s) (idxof s r) = Ok rec).
           { simpl in Hrc. apply index_Ok in Hrc as [Hr0 Hr1]. rewrite upd_length in Hr0.
             apply index_Ok. split; [exact Hr0|].
             rewrite nth_error_upd_other in Hr1; [exact Hr1|].
             pose proof (I r Er). lia. }
           rewrite Hrc0. reflexivity.
  - unfold store. destruct (Z.leb_spec 0 (next_record s)); [|lia].
    destruct (Z.ltb_spec (next_record s) (Z.of_nat (length (records s)))); [|lia].
    cbn [andb bind]. eexists None, _. split; [reflexivity|]. split; [|split].
    + match goal with |- table_ok ?st => set (s1 := st) end.
      destruct (same_links_fields s s1 eq_refl eq_refl) as (SL & Ix).
      constructor; simpl.
      * apply (links_ok_ext s _ SL L).
      * exists l. apply (bottom_ok_ext s _ _ _ SL B).
      * rewrite upd_length. exact R.
      * exact Li.
      * lia.
      * intros j Hj. specialize (I j Hj). rewrite Ix. lia.
    + discriminate.
    + simpl. unfold size_at. rewrite Hslot. repeat split; reflexivity.
Qed.

(** [get] of a key that a node carries returns the record of that node. *)
Lemma get_spec s k j :
  table_ok s -> (j < length (nodes s))%nat -> keyof s j = k ->
  exists r, get s k = Ok (Some r) /\ index (records s) (idxof s j) = Ok r.
Proof.
  intros [L (l & B) R Li N I] Hj Kj. unfold get.
  destruct (find_spec s l k L B) as [(j2 & F & Vj2 & Kj2)|(F & A)].
  2:{ destruct (A j Hj Kj). }
  rewrite F. cbn [bind].
  assert (j2 = j) by (eapply bottom_key_unique; eauto; congruence). subst j2.
  unfold get_node. specialize (I j Hj). unfold idxof in *.
  destruct (nth_error (nodes s) j) as [nd|] eqn:E; [|apply nth_error_None in E; lia].
  cbn [deref]. rewrite E. cbn [bind].
  destruct (Z.ltb_spec (record_idx nd) 0); [lia|].
  destruct (Z.leb_spec (next_record s) (record_idx nd)); [lia|].
  cbn [orb]. destruct (index_total (records s) (record_idx nd) ltac:(lia)) as (r & Hr).
  rewrite Hr. cbn [bind]. eauto.
Qed.

(** [get] of a key that no node carries returns [nullptr]. *)
Lemma get_absent s k :
  table_ok s -> (forall j, (j < length (nodes s))%nat -> keyof s j <> k) ->
  get s k = Ok None.
Proof.
  intros [L (l & B) R Li N I] A. unfold get.
  destruct (find_spec s l k L B) as [(j2 & F & Vj2 & Kj2)|(F & _)].
  - destruct (A j2 Vj2 Kj2).
  - rewrite F. reflexivity.
Qed.

(** An accepted insertion is read back. *)
Lemma get_after_insert s k dat sz draw :
  table_ok s -> random_level draw < MAX_TABLE_LEVELS ->
  locked s = false -> malloc_ok sz = true -> sz <= strlen dat ->
  exists j s', insert s k dat sz draw = Ok (Some j, s') /\ table_ok s' /\
    get s' k = Ok (Some {| data := Some (substring 0 (Z.to_nat sz) dat); size := sz |}).
Proof.
  intros OK Hlv Lk M Hb.
  destruct (insert_ok s k dat sz draw OK Hlv (fun _ => Hb))
    as (r & s' & Hi & OK' & Acc & _).
  destruct (Acc Lk M) as (j & -> & Vj & Kj & Ij & _ & Rj).
  exists j, s'. split; [exact Hi|]. split; [exact OK'|].
  destruct (get_spec s' k j OK' Vj Kj) as (r & G & Hr).
  rewrite Ij, Rj in Hr. injection Hr as <-. exact G.
Qed.

Lemma run_ok ops : forall s,
  table_ok s -> Forall op_fits ops -> exists s', run s ops = Ok s' /\ table_ok s'.
Proof.
  induction ops as [|o ops IH]; intros s OK F; simpl; [eauto|].
  inversion F as [|? ? Fo F']; subst.
  destruct o as [k dat sz draw|]; simpl.
  - destruct Fo as [Hlv Hb].
    destruct (insert_ok s k dat sz draw OK Hlv Hb) as (r & s1 & -> & OK1 & _ & _).
    cbn [bind]. apply IH; assumption.
  - apply IH; [apply lock_ok, OK | assumption].
Qed.

(** The bottom level of a well-formed table: [first()] and [iterate(0)]
    visit every node once, in strictly ascending order of the keys. *)
Lemma bottom_sorted s :
  table_ok s ->
  exists l, bottom s = Ok l /\ NoDup l /\
            (forall j, In j l <-> (j < length (nodes s))%nat) /\
            StronglySorted (fun a b => key_lt (keyof s a) (keyof s b)) l.
Proof.
  intros [L (l & B) _ _ _ _]. exists l.
  split; [apply bottom_spec; assumption|].
  split; [eapply ascending_NoDup, B|].
  split; [|apply B].
  intros j. split; [apply (path_valid _ _ _ (bo_path _ _ _ B)) | apply B].
Qed.

(** X5. For every table reached
    from an empty one by insertions whose levels
    stay below [MAX_TABLE_LEVELS] (and by [lock()]), the traversal of the
    bottom level returns, and visits every node exactly once in strictly
    ascending key order. *)
Theorem bottom_level_sorted_for_levels_below_16 opts ops :
  0 <= writes_before_lock opts <= 2 ^ 31 - 1 -> Forall op_fits ops ->
  exists s l, run (create opts) ops = Ok s /\ bottom s = Ok l /\ NoDup l /\
              (forall j, In j l <-> (j < length (nodes s))%nat) /\
              StronglySorted (fun a b => key_lt (keyof s a) (keyof s b)) l.
Proof.
  intros Ho F. destruct (run_ok ops (create opts) (create_ok opts Ho) F) as (s & R & OK).
  destruct (bottom_sorted s OK) as (l & B & N & A & S).
  exists s, l. auto.
Qed.

(** With sixteen odd draws, every accepted insertion leaves defined
    behaviour: the search starts at [next[16]] of the head. *)
Lemma level_16_insert_faults s k dat sz draw :
  table_ok s -> locked s = false -> malloc_ok sz = true -> sz <= strlen dat ->
  random_level draw = MAX_TABLE_LEVELS ->
  insert s k dat sz draw = Fault OutOfBounds.
Proof.
  intros [L (l & B) R Li N I] Lk M Hb Hlv. unfold insert. rewrite Lk.
  unfold locked in Lk. rewrite !orb_false_iff in Lk. destruct Lk as (((_ & Lk) & _) & _).
  apply Z.leb_gt in Lk. unfold to_size_t in *. rewrite wrap64_small in * by lia.
  destruct (index_total (records s) (next_record s) ltac:(lia)) as (slot & ->).
  cbn [bind]. rewrite M. unfold strlen in Hb.
  destruct (Z.ltb_spec (Z.of_nat (String.length dat)) sz); [lia|].
  unfold store. destruct (Z.leb_spec 0 (next_record s)); [|lia].
  destruct (Z.ltb_spec (next_record s) (Z.of_nat (length (records s)))); [|lia].
  cbn [andb bind]. rewrite Hlv. cbn [insert_loop].
  change (Z.to_nat (MAX_TABLE_LEVELS + 1)) with 17%nat.
  cbn [insert_search insert_level deref head bind].
  unfold iterate, index. destruct (lk_levels s L) as [-> _]. reflexivity.
Qed.

(** A zero-length value is accepted by a table that takes writes, and read
    back with length zero. *)
Lemma empty_value_read_back s k draw :
  table_ok s -> random_level draw < MAX_TABLE_LEVELS ->
  locked s = false -> malloc_ok 0 = true ->
  exists j s', insert s k EmptyString 0 draw = Ok (Some j, s') /\ table_ok s' /\
               get s' k = Ok (Some {| data := Some EmptyString; size := 0 |}).
Proof.
  intros OK Hlv Lk M.
  apply (get_after_insert s k EmptyString 0 draw OK Hlv Lk M). cbn. lia.
Qed.

End SkiplistTheorems.

(** The theorems above at a run of three insertions, out of key order and
    with levels 0, 3 and 1, followed by [lock()]. *)
Lemma bottom_level_sorted_for_levels_below_16_witness :
  exists s l,
    @skiptable.run glibc_malloc (skiptable.create four_writes)
      [skiptable.Insert "b" "2" 1 level0;
       skiptable.Insert "a" "1" 1 (fun d => if Nat.ltb d 3 then 1 else 0);
       skiptable.Insert "c" "3" 1 (fun d => if Nat.ltb d 1 then 1 else 0);
       skiptable.Lock] = Ok s /\
    skiptable.bottom s = Ok l /\ NoDup l /\
    (forall j, In j l <-> (j < length (skiptable.nodes s))%nat) /\
    StronglySorted (fun a b => key_lt (keyof s a) (keyof s b)) l.
Proof.
  apply (@bottom_level_sorted_for_levels_below_16 glibc_malloc).
  - simpl. lia.
  - repeat constructor; try (vm_compute; reflexivity);
      intros _; vm_compute; discriminate.
Defined.

(** ** Array updates and sums *)

Lemma index_upd_other {A} (l : list A) n a i :
  Z.to_nat i <> n -> index (upd l n a) i = index l i.
Proof.
  intros H. unfold index. rewrite upd_length, nth_error_upd_other by auto. reflexivity.
Qed.

Lemma index_upd_same {A} (l : list A) n a :
  (n < length l)%nat -> index (upd l n a) (Z.of_nat n) = Ok a.
Proof.
  intros H. apply index_Ok. rewrite upd_length, Nat2Z.id. split; [lia|].
  apply nth_error_upd_same, H.
Qed.

Lemma length_substring_0 n s :
  String.length (substring 0 n s) = Nat.min n (String.length s).
Proof.
  revert s; induction n as [|n IH]; intros [|c s]; simpl; auto.
Qed.

(** ** The memtable as a map, its record slots and its counters *)

Section SkiplistMap.
Import skiptable.
Context {alloc : allocator}.

Lemma op_sound_fits o : op_sound o -> op_fits o.
Proof. destruct o; simpl; tauto. Qed.

(** [get] sees the keys of the nodes and the records they refer to. *)
Lemma get_ext s s' k :
  table_ok s -> table_ok s' ->
  (forall j, (j < length (nodes s))%nat -> keyof s j = k ->
     exists j', (j' < length (nodes s'))%nat /\ keyof s' j' = k /\
                index (records s') (idxof s' j') = index (records s) (idxof s j)) ->
  (forall j', (j' < length (nodes s'))%nat -> keyof s' j' = k ->
     exists j, (j < length (nodes s))%nat /\ keyof s j = k) ->
  get s' k = get s k.
Proof.
  intros OK OK' F G. pose proof OK as [L (l & B) _ _ _ _].
  destruct (find_spec s l k L B) as [(j & _ & Vj & Kj)|(_ & A)].
  - destruct (F j Vj Kj) as (j' & Vj' & Kj' & E).
    destruct (get_spec s k j OK Vj Kj) as (r & -> & Hr).
    destruct (get_spec s' k j' OK' Vj' Kj') as (r' & -> & Hr').
    congruence.
  - rewrite (get_absent s k OK A). apply get_absent; [exact OK'|].
    intros j' Vj' Kj'. destruct (G j' Vj' Kj') as (j & Vj & Kj). exact (A j Vj Kj).
Qed.

Lemma insert_get_other s k dat sz r s' k' :
  table_ok s -> table_ok s' -> insert_effect s k dat sz r s' -> k' <> k ->
  get s' k' = get s k'.
Proof.
  intros OK OK' (_ & _ & E) Hne. pose proof OK as [_ _ R _ N I].
  destruct (locked s); [destruct E as (_ & ->); reflexivity|].
  destruct E as (Nx & E). destruct (malloc_ok sz).
  - destruct E as (Rc & _ & j & _ & Kj & Ij & [(Ej & El & Eo & _)|(Ej & El & Ek0 & Ek & Ei & _)]).
    + apply get_ext; auto.
      * intros a Va Ka. destruct (Eo a Va) as (K1 & I1 & _).
        exists a. split; [lia|]. split; [congruence|].
        rewrite I1, Rc. apply index_upd_other. pose proof (I a Va). lia.
      * intros a Va Ka. exists a. split; [|].
        -- assert (a <> j) by congruence. lia.
        -- assert (a <> j) by congruence. destruct (Eo a ltac:(lia)) as (K1 & _). congruence.
    + apply get_ext; auto.
      * intros a Va Ka. exists a. split; [lia|]. split; [rewrite Ek; exact Ka|].
        assert (a <> j) by congruence.
        rewrite Ei, Rc by assumption. apply index_upd_other. pose proof (I a Va). lia.
      * intros a Va Ka. exists a. split; [lia|]. rewrite <- Ek. exact Ka.
  - destruct E as (_ & Rc & _ & _ & Hh & Hn).
    destruct (same_links_fields s s' Hh Hn) as ((_ & _ & K & _) & Ix).
    apply get_ext; auto.
    + intros a Va Ka. exists a. rewrite Hn. split; [exact Va|]. split; [rewrite K; exact Ka|].
      rewrite Ix, Rc. apply index_upd_other. pose proof (I a Va). lia.
    + intros a Va Ka. exists a. rewrite Hn in Va. split; [exact Va|]. rewrite <- K. exact Ka.
Qed.

(** *** The counters of a table *)

Lemma sum_map_ext {A} (f g : A -> Z) l :
  (forall a, In a l -> g a = f a) ->
  fold_right Z.add 0 (map g l) = fold_right Z.add 0 (map f l).
Proof.
  induction l as [|h t IH]; intros H; simpl; [reflexivity|].
  rewrite (H h) by (left; reflexivity). rewrite IH; [reflexivity|].
  intros a Ha. apply H. right. exact Ha.
Qed.

Lemma sum_map_change {A} (f g : A -> Z) l j :
  NoDup l -> In j l -> (forall a, In a l -> a <> j -> g a = f a) ->
  fold_right Z.add 0 (map g l) = fold_right Z.add 0 (map f l) - f j + g j.
Proof.
  induction l as [|h t IH]; intros ND Hin H; [destruct Hin|].
  inversion ND as [|? ? Nh ND']; subst. simpl. destruct Hin as [->|Hin].
  - rewrite (sum_map_ext f g t); [lia|].
    intros a Ha. apply H; [right; exact Ha|]. intros ->. exact (Nh Ha).
  - rewrite IH; auto.
    + rewrite (H h); [lia | left; reflexivity|]. intros ->. exact (Nh Hin).
    + intros a Ha. apply H. right. exact Ha.
Qed.

Lemma sum_map_app {A} (f : A -> Z) l1 l2 :
  fold_right Z.add 0 (map f (l1 ++ l2))
  = fold_right Z.add 0 (map f l1) + fold_right Z.add 0 (map f l2).
Proof. induction l1 as [|h t IH]; simpl; [reflexivity|]. rewrite IH. lia. Qed.

Lemma sum_upd {A} (f : A -> Z) l n a b :
  nth_error l n = Some b ->
  fold_right Z.add 0 (map f (upd l n a)) = fold_right Z.add 0 (map f l) - f b + f a.
Proof.
  revert n; induction l as [|h t IH]; intros [|n] H; simpl in *; try discriminate.
  - injection H as ->. lia.
  - rewrite (IH n H). lia.
Qed.

Lemma wrap64_idem z : wrap64 (wrap64 z) = wrap64 z.
Proof. unfold wrap64. apply Z.mod_mod. lia. Qed.

Lemma wrap64_sub_l a b : wrap64 (wrap64 a - b) = wrap64 (a - b).
Proof. unfold wrap64. rewrite Zminus_mod_idemp_l. reflexivity. Qed.

Lemma size_at_upd_other (s s' : t) n rec i :
  records s' = upd (records s) n rec -> Z.to_nat i <> n -> size_at s' i = size_at s i.
Proof. intros E H. unfold size_at. rewrite E, index_upd_other by exact H. reflexivity. Qed.

Lemma create_wf opts :
  0 <= writes_before_lock opts <= 2 ^ 31 - 1 -> table_wf (create opts).
Proof.
  intros H. constructor.
  - apply create_ok, H.
  - intros j Hj. simpl in Hj. lia.
  - reflexivity.
  - unfold written_bytes. simpl.
    induction (Z.to_nat (writes_before_lock opts)) as [|n IH]; [reflexivity|].
    simpl in *. exact IH.
  - intros i r _ Hi. apply index_Ok in Hi as [_ Hi]. simpl in Hi.
    apply nth_error_In, repeat_spec in Hi. subst r. reflexivity.
Qed.

Lemma lock_wf s : table_wf s -> table_wf (snd (lock s)).
Proof.
  intros [OK R D T U]. constructor; auto. apply lock_ok, OK.
Qed.

(** An insertion keeps the table well-formed and its counters right. *)
Lemma insert_wf s k dat sz draw :
  table_wf s -> random_level draw < MAX_TABLE_LEVELS -> 0 <= sz ->
  (malloc_ok sz = true -> sz <= strlen dat) ->
  exists r s', insert s k dat sz draw = Ok (r, s') /\ table_wf s' /\
               insert_effect s k dat sz r s'.
Proof.
  intros [OK Rk D T U] Hlv Hsz Hbuf.
  destruct (insert_ok s k dat sz draw OK Hlv Hbuf) as (r & s' & Hi & OK' & _ & Eff).
  exists r, s'. split; [exact Hi|]. split; [|exact Eff].
  pose proof OK as [_ _ R Li N I].
  destruct Eff as (Cf & Lk' & E).
  destruct (locked s) eqn:Lk; [destruct E as (_ & ->); constructor; assumption|].
  unfold locked in Lk. rewrite !orb_false_iff in Lk. destruct Lk as (((_ & Lk) & _) & _).
  apply Z.leb_gt in Lk. unfold to_size_t in Lk. rewrite wrap64_small in Lk by lia.
  assert (Hni : (Z.to_nat (next_record s) < length (records s))%nat) by lia.
  destruct (nth_error (records s) (Z.to_nat (next_record s))) as [slot|] eqn:Hslot;
    [|apply nth_error_None in Hslot; lia].
  assert (Hslot0 : size slot = 0).
  { apply (U (next_record s) slot); [lia|]. apply index_Ok. split; [lia | exact Hslot]. }
  destruct E as (Nx & E). destruct (malloc_ok sz) eqn:M.
  - specialize (Hbuf eq_refl).
    destruct E as (Rc & Tt & j & _ & Kj & Ij & Cases).
    set (rec := {| data := Some (substring 0 (Z.to_nat sz) dat); size := sz |}) in *.
    assert (Hrec : index (records s') (next_record s) = Ok rec).
    { rewrite Rc. rewrite <- (Z2Nat.id (next_record s)) at 2 by lia.
      apply index_upd_same. exact Hni. }
    assert (Hsa : size_at s' (next_record s) = sz).
    { unfold size_at. rewrite Hrec. reflexivity. }
    assert (Hlen : strlen (substring 0 (Z.to_nat sz) dat) = sz).
    { unfold strlen in *. rewrite length_substring_0. lia. }
    assert (Old : forall a, (a < length (nodes s))%nat ->
                  index (records s') (idxof s a) = index (records s) (idxof s a)).
    { intros a Va. rewrite Rc. apply index_upd_other. pose proof (I a Va). lia. }
    assert (Tot' : total_data_size s' = wrap64 (written_bytes s')).
    { rewrite Tt, T, wrap64_add_l. unfold written_bytes.
      rewrite Rc, (sum_upd size _ _ _ slot Hslot), Hslot0. f_equal. simpl. lia. }
    assert (Un' : forall i r0, next_record s' <= i -> index (records s') i = Ok r0 ->
                               size r0 = 0).
    { intros i r0 Hi0 Hr0. rewrite Rc, index_upd_other in Hr0 by lia.
      apply (U i r0); [lia | exact Hr0]. }
    destruct Cases as [(Ej & El & Eo & Ed)|(Ej & El & Ek0 & Ek & Ei & Ed)].
    + constructor; auto.
      * intros a Va. rewrite El in Va.
        destruct (Nat.eq_dec a j) as [->|Hne].
        -- exists (substring 0 (Z.to_nat sz) dat). rewrite Ij, Hrec, Hlen. reflexivity.
        -- assert (Va0 : (a < length (nodes s))%nat) by lia.
           destruct (Eo a Va0) as (_ & I1 & _). rewrite I1, (Old a Va0). apply Rk, Va0.
      * rewrite Ed, D, wrap64_add_l. f_equal. unfold live_bytes.
        rewrite El, seq_S, sum_map_app. simpl. rewrite <- Ej, Ij, Hsa.
        rewrite (sum_map_ext (fun a => size_at s (idxof s a))
                   (fun a => size_at s' (idxof s' a))); [lia|].
        intros a Ha. apply in_seq in Ha. destruct (Eo a ltac:(lia)) as (_ & I1 & _).
        rewrite I1. unfold size_at. rewrite (Old a) by lia. reflexivity.
    + constructor; auto.
      * intros a Va. rewrite El in Va.
        destruct (Nat.eq_dec a j) as [->|Hne].
        -- exists (substring 0 (Z.to_nat sz) dat). rewrite Ij, Hrec, Hlen. reflexivity.
        -- rewrite (Ei a Hne), (Old a Va). apply Rk, Va.
      * rewrite Ed, D, wrap64_sub_l, wrap64_add_l. f_equal. unfold live_bytes.
        rewrite El.
        rewrite (sum_map_change (fun a => size_at s (idxof s a))
                   (fun a => size_at s' (idxof s' a)) _ j).
        -- rewrite Ij, Hsa. lia.
        -- apply seq_NoDup.
        -- apply in_seq. lia.
        -- intros a Ha Hne. apply in_seq in Ha. rewrite (Ei a Hne).
           unfold size_at. rewrite (Old a) by lia. reflexivity.
  - destruct E as (_ & Rc & Tt & Dt & Hh & Hn).
    destruct (same_links_fields s s' Hh Hn) as (_ & Ix).
    assert (Old : forall a, (a < length (nodes s))%nat ->
                  index (records s') (idxof s a) = index (records s) (idxof s a)).
    { intros a Va. rewrite Rc. apply index_upd_other. pose proof (I a Va). lia. }
    constructor; auto.
    + intros a Va. rewrite Hn in Va. rewrite Ix, (Old a Va). apply Rk, Va.
    + rewrite Dt, D. f_equal. unfold live_bytes. rewrite Hn.
      apply sum_map_ext. intros a Ha. apply in_seq in Ha.
      rewrite Ix. unfold size_at. rewrite (Old a) by lia. reflexivity.
    + rewrite Tt, T. f_equal. unfold written_bytes.
      rewrite Rc, (sum_upd size _ _ _ slot Hslot). simpl.
      unfold size_at. rewrite (proj2 (index_Ok _ _ slot)) by (split; [lia | exact Hslot]). lia.
    + intros i r0 Hi0 Hr0. rewrite Rc, index_upd_other in Hr0 by lia.
      apply (U i r0); [lia | exact Hr0].
Qed.

Lemma run_wf ops : forall s,
  table_wf s -> Forall op_sound ops -> exists s', run s ops = Ok s' /\ table_wf s'.
Proof.
  induction ops as [|o ops IH]; intros s W F; cbn [run]; [eauto|].
  inversion F as [|? ? Fo F']; subst.
  destruct o as [k dat sz draw|]; cbn [step].
  - destruct Fo as (Hlv & Hsz & Hb).
    destruct (insert_wf s k dat sz draw W Hlv Hsz Hb) as (r & s1 & -> & W1 & _).
    cbn [bind]. apply IH; assumption.
  - cbn [bind]. apply IH; [apply lock_wf, W | assumption].
Qed.

(** *** Keys shorter than 2^32 bytes *)



(** *** The table as a map *)

(** X6. The memtable is a map from keys to
    records.  On every table reached from a new one by insertions and
    [lock()], a further [insert] of [sz] bytes under the key [k] returns;
    it returns [nullptr] exactly when the table is locked or [malloc]
    fails; otherwise [get(k)] then yields a record with the first [sz]
    bytes of the buffer and size [sz]; and in every case [get] of every
    other key yields what it yielded before ([get(k)] too, when the call
    returned [nullptr]). *)
Theorem insert_changes_one_key opts ops s k dat sz draw :
  0 <= writes_before_lock opts <= 2 ^ 31 - 1 -> Forall op_sound ops ->
  run (create opts) ops = Ok s ->
  random_level draw < MAX_TABLE_LEVELS -> 0 <= sz <= strlen dat ->
  exists r s',
    insert s k dat sz draw = Ok (r, s') /\
    (r = None <-> locked s = true \/ malloc_ok sz = false) /\
    get s' k = match r with
               | Some _ => Ok (Some {| data := Some (substring 0 (Z.to_nat sz) dat);
                                       size := sz |})
               | None => get s k
               end /\
    forall k', k' <> k -> get s' k' = get s k'.
Proof.
  intros Ho F Hrun Hlv Hsz.
  destruct (run_wf ops (create opts) (create_wf opts Ho) F) as (s0 & Hrun0 & W).
  rewrite Hrun in Hrun0. injection Hrun0 as <-.
  pose proof (wf_ok s W) as OK.
  destruct (insert_ok s k dat sz draw OK Hlv ltac:(lia)) as (r & s' & Hi & OK' & Acc & Eff).
  exists r, s'. split; [exact Hi|].
  split; [|split].
  - destruct Eff as (_ & _ & E). destruct (locked s).
    { destruct E as (-> & _). split; auto. }
    destruct E as (_ & E). destruct (malloc_ok sz).
    + destruct E as (_ & _ & j & -> & _). split; [discriminate|]. intros [?|?]; discriminate.
    + destruct E as (-> & _). split; auto.
  - destruct r as [j|].
    + destruct Eff as (_ & _ & E). destruct (locked s) eqn:Lk.
      { destruct E as (? & _). discriminate. }
      destruct E as (_ & E). destruct (malloc_ok sz) eqn:M.
      2:{ destruct E as (? & _). discriminate. }
      destruct (Acc eq_refl eq_refl) as (j' & _ & Vj & Kj & Ij & _ & Rj).
      destruct (get_spec s' k j' OK' Vj Kj) as (rec & G & Hr).
      rewrite Ij, Rj in Hr. injection Hr as <-. exact G.
    + destruct Eff as (_ & _ & E). destruct (locked s) eqn:Lk.
      { destruct E as (_ & ->). reflexivity. }
      destruct E as (_ & E). destruct (malloc_ok sz) eqn:M.
      { destruct E as (_ & _ & j & ? & _). discriminate. }
      destruct E as (_ & Rc & _ & _ & Hh & Hn).
      destruct (same_links_fields s s' Hh Hn) as ((_ & _ & K & _) & Ix).
      pose proof OK as [_ _ _ _ _ I].
      apply get_ext; auto.
      * intros a Va Ka. exists a. rewrite Hn. split; [exact Va|].
        split; [rewrite K; exact Ka|].
        rewrite Ix, Rc. apply index_upd_other. pose proof (I a Va). lia.
      * intros a Va Ka. exists a. rewrite Hn in Va. split; [exact Va|].
        rewrite <- K. exact Ka.
  - intros k' Hne. eapply insert_get_other; eauto.
Qed.

(** *** A failed allocation *)

(** X7. When [malloc] fails on a table
    that takes writes, [insert] returns [nullptr] after it has taken the
    record slot: [next_record] is one higher, while the nodes, the byte
    counters and the answer of [get] for every key are as before. *)
Theorem failed_allocation_costs_a_slot opts ops s k dat sz draw :
  0 <= writes_before_lock opts <= 2 ^ 31 - 1 -> Forall op_sound ops ->
  run (create opts) ops = Ok s ->
  locked s = false -> malloc_ok sz = false ->
  exists s',
    insert s k dat sz draw = Ok (None, s') /\
    next_record s' = next_record s + 1 /\
    head s' = head s /\ nodes s' = nodes s /\
    data_size s' = data_size s /\ total_data_size s' = total_data_size s /\
    forall k', get s' k' = get s k'.
Proof.
  intros Ho F Hrun Lk M.
  destruct (run_wf ops (create opts) (create_wf opts Ho) F) as (s0 & Hrun0 & W).
  rewrite Hrun in Hrun0. injection Hrun0 as <-.
  pose proof (wf_ok s W) as OK. pose proof OK as [L (l & B) R Li N I].
  unfold insert. rewrite Lk, M.
  unfold locked in Lk. rewrite !orb_false_iff in Lk. destruct Lk as (((_ & Lk) & _) & _).
  apply Z.leb_gt in Lk. unfold to_size_t in *. rewrite wrap64_small in * by lia.
  destruct (index_total (records s) (next_record s) ltac:(lia)) as (slot & ->).
  cbn [bind]. rewrite (to_int32_small (next_record s + 1)) by lia.
  unfold store. destruct (Z.leb_spec 0 (next_record s)); [|lia].
  destruct (Z.ltb_spec (next_record s) (Z.of_nat (length (records s)))); [|lia].
  cbn [andb bind]. eexists. split; [reflexivity|]. cbn [next_record head nodes data_size
    total_data_size]. repeat split.
  intros k'. match goal with |- get ?st _ = _ => set (s1 := st) end.
  destruct (same_links_fields s s1 eq_refl eq_refl) as (SL & Ix).
  assert (OK1 : table_ok s1).
  { constructor; simpl.
    - apply (links_ok_ext s _ SL L).
    - exists l. apply (bottom_ok_ext s _ _ _ SL B).
    - rewrite upd_length. exact R.
    - exact Li.
    - lia.
    - intros j Hj. specialize (I j Hj). rewrite Ix. lia. }
  destruct SL as (_ & _ & K & _).
  apply get_ext; auto.
  - intros a Va Ka. exists a. split; [exact Va|]. split; [rewrite K; exact Ka|].
    rewrite Ix. simpl. apply index_upd_other. pose proof (I a Va). lia.
  - intros a Va Ka. exists a. split; [exact Va|]. rewrite <- K. exact Ka.
Qed.

(** *** Record slots *)

Lemma locked_stays ops : forall s s',
  run s ops = Ok s' -> locked s = true -> locked s' = true /\ next_record s' = next_record s.
Proof.
  induction ops as [|o ops IH]; intros s s' H Lk; cbn [run] in H.
  - injection H as <-. auto.
  - bind_inv H. destruct o as [k dat sz draw|]; cbn [step] in Ha.
    + unfold insert in Ha. rewrite Lk in Ha. cbn [bind] in Ha. injection Ha as <-.
      apply IH; assumption.
    + injection Ha as <-. apply (IH _ _ H).
      unfold locked, lock. simpl. apply orb_true_r.
Qed.

Lemma run_slots ops : forall s,
  table_wf s -> Forall op_sound ops ->
  Z.of_nat (length (nodes s)) <= next_record s ->
  exists s', run s ops = Ok s' /\ table_wf s' /\
    Z.of_nat (length (nodes s')) <= next_record s' /\
    (locked s' = true \/
     next_record s' = next_record s
                      + Z.of_nat (length (filter (fun o => negb (is_lock o)) ops))).
Proof.
  induction ops as [|o ops IH]; intros s W F Hn; cbn [run].
  - exists s. split; [reflexivity|]. split; [exact W|]. split; [exact Hn|].
    right. simpl. lia.
  - inversion F as [|? ? Fo F']; subst.
    destruct o as [k dat sz draw|]; cbn [step filter is_lock negb].
    + destruct Fo as (Hlv & Hsz & Hb).
      destruct (insert_wf s k dat sz draw W Hlv Hsz Hb) as (r & s1 & Hi & W1 & Eff).
      rewrite Hi. cbn [bind]. destruct Eff as (_ & _ & E).
      destruct (locked s) eqn:Lk.
      { destruct E as (_ & ->).
        destruct (IH s W F' Hn) as (s' & Hr & W' & Hn' & _).
        exists s'. split; [exact Hr|]. split; [exact W'|]. split; [exact Hn'|].
        left. eapply locked_stays; eauto. }
      destruct E as (Nx & E).
      assert (Hn1 : Z.of_nat (length (nodes s1)) <= next_record s1).
      { destruct (malloc_ok sz).
        - destruct E as (_ & _ & j & _ & _ & _ & [(_ & El & _)|(_ & El & _)]); lia.
        - destruct E as (_ & _ & _ & _ & _ & ->). lia. }
      destruct (IH s1 W1 F' Hn1) as (s' & Hr & W' & Hn' & Hc).
      exists s'. split; [exact Hr|]. split; [exact W'|]. split; [exact Hn'|].
      destruct Hc as [Hc|Hc]; [left; exact Hc | right].
      rewrite Hc, Nx. cbn [length]. lia.
    + cbn [bind]. destruct (IH _ (lock_wf s W) F' Hn) as (s' & Hr & W' & Hn' & _).
      exists s'. split; [exact Hr|]. split; [exact W'|]. split; [exact Hn'|].
      left. eapply locked_stays; [exact Hr|]. unfold locked, lock. simpl. apply orb_true_r.
Qed.

(** X8. Every call of [insert] on a
    table that is not locked takes one record slot, whether it adds a key,
    overwrites one, or fails to allocate: after any calls on a new table
    there are at most [next_record] nodes and at most [writes_before_lock]
    slots taken; unless the table is locked, [next_record] is the number of
    calls of [insert] made; and after [writes_before_lock] calls or more
    the table is locked. *)
Theorem every_insert_takes_a_record_slot opts ops :
  0 <= writes_before_lock opts <= 2 ^ 31 - 1 -> Forall op_sound ops ->
  exists s, run (create opts) ops = Ok s /\
    Z.of_nat (length (nodes s)) <= next_record s <= writes_before_lock opts /\
    (locked s = true \/
     next_record s = Z.of_nat (length (filter (fun o => negb (is_lock o)) ops))) /\
    (writes_before_lock opts
       <= Z.of_nat (length (filter (fun o => negb (is_lock o)) ops)) ->
     locked s = true).
Proof.
  intros Ho F.
  destruct (run_slots ops (create opts) (create_wf opts Ho) F) as (s & Hr & W & Hn & Hc).
  { simpl. lia. }
  exists s. split; [exact Hr|].
  pose proof (wf_ok s W) as [_ _ _ _ N _].
  assert (G : forall ops s0 s, run s0 ops = Ok s -> config s = config s0).
  { clear. induction ops as [|o ops IH]; intros s0 s H; cbn [run] in H.
    - injection H as <-. reflexivity.
    - bind_inv H. rewrite (IH _ _ H). destruct o; cbn [step] in Ha.
      + bind_inv Ha. destruct a0 as [r s1]. injection Ha as <-.
        apply insert_frame in Ha0 as [C _]. exact C.
      + injection Ha as <-. reflexivity. }
  assert (Cf : config s = opts) by (apply (G _ _ _ Hr)).
  rewrite Cf in N. simpl in Hc. split; [lia|]. split; [exact Hc|].
  intros Hw. destruct Hc as [Hc|Hc]; [exact Hc|].
  unfold locked. rewrite Cf. unfold to_size_t. rewrite wrap64_small by lia.
  destruct (Z.leb_spec (writes_before_lock opts) (next_record s)); [|lia].
  rewrite orb_true_r. reflexivity.
Qed.

(** *** The byte counters *)

(** X9. The byte counters agree with the
    records: on every table reached from a new one, [data_size] is the sum
    (modulo 2^64) of the sizes of the records that the nodes refer to,
    [total_data_size] is the sum of the sizes of all records written,
    [empty()] holds exactly when the former sum is 0 modulo 2^64, and
    every node refers to a record whose buffer holds [size] bytes. *)
Theorem counters_agree_with_records opts ops :
  0 <= writes_before_lock opts <= 2 ^ 31 - 1 -> Forall op_sound ops ->
  exists s, run (create opts) ops = Ok s /\
    data_size s = wrap64 (live_bytes s) /\
    total_data_size s = wrap64 (written_bytes s) /\
    (empty s = true <-> wrap64 (live_bytes s) = 0) /\
    forall j, (j < length (nodes s))%nat ->
      exists d, index (records s) (idxof s j) = Ok {| data := Some d; size := strlen d |}.
Proof.
  intros Ho F.
  destruct (run_wf ops (create opts) (create_wf opts Ho) F) as (s & Hr & [OK R D T U]).
  exists s. split; [exact Hr|]. split; [exact D|]. split; [exact T|]. split; [|exact R].
  unfold empty. rewrite D. apply Z.eqb_eq.
Qed.

End SkiplistMap.

(** ** The destructor of the memtable *)

Section Destructor.

Import skiptable.
Context {alloc : allocator}.

Lemma delete_chain_path s a l :
  levels_ok s -> path s a l -> NoDup l ->
  forall fuel deleted, (length l <= fuel)%nat ->
    (forall x, In x l -> ~ In x deleted) ->
    delete_chain fuel s a deleted = Ok (rev l ++ deleted).
Proof.
  intros L. induction 1 as [|j l Hj Hp IH]; intros ND fuel deleted Hf Hd;
    [destruct fuel; reflexivity|].
  destruct fuel as [|fuel]; simpl in Hf; [lia|]. cbn [delete_chain].
  inversion ND as [|? ? Nj ND']; subst.
  assert (X0 : existsb (Nat.eqb j) deleted = false).
  { destruct (existsb (Nat.eqb j) deleted) eqn:E; [|reflexivity].
    apply existsb_exists in E as (x & Hx & Ex). apply Nat.eqb_eq in Ex. subst x.
    destruct (Hd j (or_introl eq_refl) Hx). }
  rewrite X0.
  destruct (nth_error (nodes s) j) as [nd|] eqn:E; [|apply nth_error_None in E; lia].
  assert (D : deref s (At j) = Ok nd) by (simpl; rewrite E; reflexivity).
  rewrite D. cbn [bind].
  pose proof (iterate_nxt s (At j) nd 0%nat L D ltac:(lia)) as X.
  change (Z.of_nat 0) with 0 in X. rewrite X. cbn [bind].
  rewrite IH; auto; try lia.
  - simpl. rewrite <- app_assoc. reflexivity.
  - intros x Hx [<-|Hin]; [exact (Nj Hx) | exact (Hd x (or_intror Hx) Hin)].
Qed.

Lemma freed_records_spec rs : forall i0 i,
  In i (freed_records rs i0) <->
  exists r d, (i0 <= i)%nat /\ nth_error rs (i - i0) = Some r /\ data r = Some d.
Proof.
  induction rs as [|r rs IH]; intros i0 i; cbn [freed_records].
  - split; [intros [] | intros (r & d & _ & H & _)]. destruct (i - i0)%nat; discriminate.
  - assert (Tail : In i (freed_records rs (S i0)) <->
                   exists r0 d, (S i0 <= i)%nat /\ nth_error rs (i - S i0) = Some r0
                                /\ data r0 = Some d) by apply IH.
    assert (Shift : forall r0, (S i0 <= i)%nat ->
              (nth_error (r :: rs) (i - i0) = Some r0 <-> nth_error rs (i - S i0) = Some r0)).
    { intros r0 Hi. replace (i - i0)%nat with (S (i - S i0)) by lia. reflexivity. }
    destruct (data r) as [d0|] eqn:Dr.
    + split.
      * intros [<-|Hin].
        -- exists r, d0. rewrite Nat.sub_diag. auto.
        -- apply Tail in Hin as (r0 & d & Hi & Hn & Hd).
           exists r0, d. split; [lia|]. split; [apply Shift; assumption | exact Hd].
      * intros (r0 & d & Hi & Hn & Hd).
        destruct (Nat.eq_dec i i0) as [->|Hne]; [left; reflexivity|].
        right. apply Tail. exists r0, d. split; [lia|]. split; [|exact Hd].
        apply Shift; [lia | exact Hn].
    + split.
      * intros Hin. apply Tail in Hin as (r0 & d & Hi & Hn & Hd).
        exists r0, d. split; [lia|]. split; [apply Shift; assumption | exact Hd].
      * intros (r0 & d & Hi & Hn & Hd).
        destruct (Nat.eq_dec i i0) as [->|Hne].
        { rewrite Nat.sub_diag in Hn. simpl in Hn. injection Hn as <-. congruence. }
        apply Tail. exists r0, d. split; [lia|]. split; [|exact Hd].
        apply Shift; [lia | exact Hn].
Qed.

(** X10. The destructor deletes
    every node once and frees every buffer once: on every table reached
    from a new one by insertions with levels below [MAX_TABLE_LEVELS], the
    walk along the bottom level reads no node that was deleted, ends, and
    has deleted each node of the table exactly once; the second loop frees
    exactly the records that have a buffer. *)
Theorem destructor_deletes_every_node_once opts ops :
  0 <= writes_before_lock opts <= 2 ^ 31 - 1 -> Forall op_fits ops ->
  exists s ns rs,
    run (create opts) ops = Ok s /\ destroy s = Ok (ns, rs) /\
    NoDup ns /\ (forall j, In j ns <-> (j < length (nodes s))%nat) /\
    (forall i, In i rs <-> exists r d, nth_error (records s) i = Some r /\ data r = Some d).
Proof.
  intros Ho F.
  destruct (run_ok ops (create opts) (create_ok opts Ho) F) as (s & Hr & OK).
  pose proof OK as [L (l & B) _ _ _ _].
  pose proof (ascending_NoDup s l (bo_asc _ _ _ B)) as ND.
  exists s, l, (freed_records (records s) 0). split; [exact Hr|]. split; [|split; [|split]].
  - unfold destroy, first.
    pose proof (iterate_nxt s Head (head s) 0%nat (lk_levels s L) eq_refl ltac:(lia)) as X.
    change (Z.of_nat 0) with 0 in X. rewrite X. cbn [bind].
    rewrite (delete_chain_path s _ l (lk_levels s L) (bo_path _ _ _ B) ND).
    + cbn [bind]. rewrite app_nil_r, rev_involutive. reflexivity.
    + rewrite (bottom_length s l B). lia.
    + intros x _ [].
  - exact ND.
  - intros j. split; [apply (path_valid _ _ _ (bo_path _ _ _ B)) | apply B].
  - intros i. rewrite freed_records_spec. rewrite Nat.sub_0_r.
    split; intros (r & d & H); exists r, d; [tauto | split; [lia | exact H]].
Qed.

End Destructor.

(** ** Bytes *)

Lemma string_app_assoc (a b c : string) : ((a ++ b) ++ c = a ++ (b ++ c))%string.
Proof. induction a as [|x a IH]; simpl; [reflexivity|]. rewrite IH. reflexivity. Qed.

Lemma string_app_nil_r (a : string) : (a ++ "" = a)%string.
Proof. induction a as [|x a IH]; simpl; [reflexivity|]. rewrite IH. reflexivity. Qed.

Lemma string_length_app (a b : string) :
  String.length (a ++ b) = (String.length a + String.length b)%nat.
Proof. induction a as [|x a IH]; simpl; [reflexivity|]. rewrite IH. reflexivity. Qed.

Lemma strlen_app (a b : string) : strlen (a ++ b) = strlen a + strlen b.
Proof. unfold strlen. rewrite string_length_app. lia. Qed.

Lemma strlen_nonneg a : 0 <= strlen a.
Proof. unfold strlen. lia. Qed.

Lemma substring_all (a : string) : substring 0 (String.length a) a = a.
Proof. induction a as [|x a IH]; simpl; [reflexivity|]. rewrite IH. reflexivity. Qed.

Lemma substring_app_l (a b : string) : substring 0 (String.length a) (a ++ b) = a.
Proof.
  induction a as [|x a IH]; simpl; [destruct b; reflexivity|]. rewrite IH. reflexivity.
Qed.

Lemma substring_app_skip (a b : string) n m :
  substring (String.length a + n) m (a ++ b) = substring n m b.
Proof. induction a as [|x a IH]; simpl; [reflexivity | exact IH]. Qed.

Lemma read_bytes_app (a b c : string) :
  read_bytes (a ++ b ++ c) (strlen a) (strlen b) = Ok b.
Proof.
  unfold read_bytes. rewrite !strlen_app.
  pose proof (strlen_nonneg a). pose proof (strlen_nonneg b). pose proof (strlen_nonneg c).
  destruct (Z.leb_spec 0 (strlen a)); [|lia].
  destruct (Z.leb_spec 0 (strlen b)); [|lia].
  destruct (Z.leb_spec (strlen a + strlen b) (strlen a + (strlen b + strlen c))); [|lia].
  cbn [andb]. f_equal. unfold strlen. rewrite !Nat2Z.id.
  rewrite <- (Nat.add_0_r (String.length a)), substring_app_skip.
  apply substring_app_l.
Qed.

Lemma le_bytes_length w : forall z, String.length (le_bytes w z) = w.
Proof. induction w as [|w IH]; intros z; simpl; [reflexivity|]. rewrite IH. reflexivity. Qed.

Lemma strlen_le_bytes w z : strlen (le_bytes w z) = Z.of_nat w.
Proof. unfold strlen. rewrite le_bytes_length. reflexivity. Qed.

Lemma le_value_le_bytes w : forall z,
  0 <= z -> le_value (le_bytes w z) = z mod 256 ^ Z.of_nat w.
Proof.
  induction w as [|w IH]; intros z Hz.
  - simpl. rewrite Z.mod_1_r. reflexivity.
  - cbn [le_bytes le_value].
    pose proof (Z.mod_pos_bound z 256 ltac:(lia)) as Hm.
    rewrite N_ascii_embedding by lia. rewrite Z2N.id by lia.
    rewrite IH by (apply Z.div_pos; lia).
    rewrite Nat2Z.inj_succ, Z.pow_succ_r by lia.
    rewrite (Z.rem_mul_r z 256 (256 ^ Z.of_nat w)) by lia. reflexivity.
Qed.

Lemma read_u32_app (a c : string) z :
  0 <= z < 2 ^ 32 -> read_u32 (a ++ le_bytes 4 z ++ c) (strlen a) = Ok z.
Proof.
  intros Hz. unfold read_u32.
  change 4 with (strlen (le_bytes 4 z)). rewrite read_bytes_app. cbn [bind].
  rewrite le_value_le_bytes by lia. f_equal. apply Z.mod_small. simpl. lia.
Qed.

Lemma read_u64_app (a c : string) z :
  0 <= z < 2 ^ 64 -> read_u64 (a ++ le_bytes 8 z ++ c) (strlen a) = Ok z.
Proof.
  intros Hz. unfold read_u64.
  change 8 with (strlen (le_bytes 8 z)). rewrite read_bytes_app. cbn [bind].
  rewrite le_value_le_bytes by lia. f_equal. apply Z.mod_small. simpl. lia.
Qed.

(** ** sstable.h: headers and footers *)

Section SstBytes.
Import sstable.
Local Infix "+++" := String.append (at level 60, right associativity).

Lemma read_header_app pre post h :
  0 <= prefix_bytes h < 2 ^ 32 -> 0 <= suffix_bytes h < 2 ^ 32 ->
  0 <= value_bytes h < 2 ^ 64 ->
  read_header (pre +++ write_header h +++ post) (strlen pre) = Ok h.
Proof.
  intros Hp Hs Hv. unfold read_header, write_header. rewrite !string_app_assoc.
  rewrite read_u32_app by exact Hp. cbn [bind].
  replace (strlen pre + 4) with (strlen (pre +++ le_bytes 4 (prefix_bytes h)))
    by (rewrite strlen_app, strlen_le_bytes; reflexivity).
  rewrite <- (string_app_assoc pre). rewrite read_u32_app by exact Hs. cbn [bind].
  replace (strlen pre + 8)
    with (strlen ((pre +++ le_bytes 4 (prefix_bytes h)) +++ le_bytes 4 (suffix_bytes h)))
    by (rewrite !strlen_app, !strlen_le_bytes; simpl; lia).
  rewrite <- (string_app_assoc (pre +++ _)). rewrite read_u64_app by exact Hv. cbn [bind].
  destruct h; reflexivity.
Qed.

Lemma read_footer_app body f :
  0 <= block_size f < 2 ^ 64 -> 0 <= block_count f < 2 ^ 64 ->
  0 <= entry_count f < 2 ^ 64 -> 0 <= key_bytes f < 2 ^ 64 ->
  0 <= footer_value_bytes f < 2 ^ 64 -> 0 <= magic f < 2 ^ 64 ->
  read_footer (body +++ write_footer f) = Ok f.
Proof.
  intros H1 H2 H3 H4 H5 H6. unfold read_footer, write_footer.
  assert (Hoff : strlen (body +++ le_bytes 8 (block_size f) +++ le_bytes 8 (block_count f)
                   +++ le_bytes 8 (entry_count f) +++ le_bytes 8 (key_bytes f)
                   +++ le_bytes 8 (footer_value_bytes f) +++ le_bytes 8 (magic f))
                 - sizeof_footer = strlen body).
  { rewrite !strlen_app, !strlen_le_bytes. unfold sizeof_footer. simpl. lia. }
  rewrite Hoff.
  rewrite read_u64_app by exact H1. cbn [bind].
  set (b1 := le_bytes 8 (block_size f)). set (b2 := le_bytes 8 (block_count f)).
  set (b3 := le_bytes 8 (entry_count f)). set (b4 := le_bytes 8 (key_bytes f)).
  set (b5 := le_bytes 8 (footer_value_bytes f)). set (b6 := le_bytes 8 (magic f)).
  assert (L1 : strlen b1 = 8) by apply strlen_le_bytes.
  assert (L2 : strlen b2 = 8) by apply strlen_le_bytes.
  assert (L3 : strlen b3 = 8) by apply strlen_le_bytes.
  assert (L4 : strlen b4 = 8) by apply strlen_le_bytes.
  assert (L5 : strlen b5 = 8) by apply strlen_le_bytes.
  replace (body +++ b1 +++ b2 +++ b3 +++ b4 +++ b5 +++ b6)
    with ((body +++ b1) +++ b2 +++ b3 +++ b4 +++ b5 +++ b6)
    by (rewrite !string_app_assoc; reflexivity).
  replace (strlen body + 8) with (strlen (body +++ b1)) by (rewrite strlen_app; lia).
  unfold b2 at 1. rewrite read_u64_app by exact H2. cbn [bind]. fold b2.
  replace ((body +++ b1) +++ b2 +++ b3 +++ b4 +++ b5 +++ b6)
    with (((body +++ b1) +++ b2) +++ b3 +++ b4 +++ b5 +++ b6)
    by (rewrite !string_app_assoc; reflexivity).
  replace (strlen body + 16) with (strlen ((body +++ b1) +++ b2))
    by (rewrite !strlen_app; lia).
  unfold b3 at 1. rewrite read_u64_app by exact H3. cbn [bind]. fold b3.
  replace (((body +++ b1) +++ b2) +++ b3 +++ b4 +++ b5 +++ b6)
    with ((((body +++ b1) +++ b2) +++ b3) +++ b4 +++ b5 +++ b6)
    by (rewrite !string_app_assoc; reflexivity).
  replace (strlen body + 24) with (strlen (((body +++ b1) +++ b2) +++ b3))
    by (rewrite !strlen_app; lia).
  unfold b4 at 1. rewrite read_u64_app by exact H4. cbn [bind]. fold b4.
  replace ((((body +++ b1) +++ b2) +++ b3) +++ b4 +++ b5 +++ b6)
    with (((((body +++ b1) +++ b2) +++ b3) +++ b4) +++ b5 +++ b6)
    by (rewrite !string_app_assoc; reflexivity).
  replace (strlen body + 32) with (strlen ((((body +++ b1) +++ b2) +++ b3) +++ b4))
    by (rewrite !strlen_app; lia).
  unfold b5 at 1. rewrite read_u64_app by exact H5. cbn [bind]. fold b5.
  replace (((((body +++ b1) +++ b2) +++ b3) +++ b4) +++ b5 +++ b6)
    with ((((((body +++ b1) +++ b2) +++ b3) +++ b4) +++ b5) +++ b6 +++ "")
    by (rewrite !string_app_assoc, string_app_nil_r; reflexivity).
  replace (strlen body + 40) with (strlen (((((body +++ b1) +++ b2) +++ b3) +++ b4) +++ b5))
    by (rewrite !strlen_app; lia).
  unfold b6 at 1. rewrite read_u64_app by exact H6. cbn [bind].
  destruct f; reflexivity.
Qed.

(** X11. What [build] writes for an entry
    header and for the footer, [get] reads back: the three fields of a
    header written anywhere in a file, and the six fields of a footer
    written at the end of a file, are read as they were written, when they
    fit their types. *)
Theorem headers_and_footers_read_back :
  (forall pre post h,
     0 <= prefix_bytes h < 2 ^ 32 -> 0 <= suffix_bytes h < 2 ^ 32 ->
     0 <= value_bytes h < 2 ^ 64 ->
     read_header (pre +++ write_header h +++ post) (strlen pre) = Ok h) /\
  (forall body f,
     0 <= block_size f < 2 ^ 64 -> 0 <= block_count f < 2 ^ 64 ->
     0 <= entry_count f < 2 ^ 64 -> 0 <= key_bytes f < 2 ^ 64 ->
     0 <= footer_value_bytes f < 2 ^ 64 -> 0 <= magic f < 2 ^ 64 ->
     read_footer (body +++ write_footer f) = Ok f).
Proof.
  split.
  - intros pre post h. apply read_header_app.
  - intros body f. apply read_footer_app.
Qed.

End SstBytes.

(** ** sstable.h: the file that [build] writes *)

Section SstBuild.
Import sstable.
Context {alloc : allocator}.
Local Infix "+++" := String.append (at level 60, right associativity).

Lemma common_prefix_range p k : 0 <= common_prefix p k <= strlen k.
Proof.
  revert k; induction p as [|a p IH]; intros [|b k]; cbn [common_prefix]; unfold strlen;
    cbn [String.length]; try lia.
  destruct (Ascii.eqb a b); [|lia]. specialize (IH k). unfold strlen in IH. lia.
Qed.

Lemma header_of_range p k v :
  0 <= prefix_bytes (fst (header_of p k v)) <= strlen k.
Proof.
  unfold header_of. destruct (String.eqb p EmptyString); cbn [fst prefix_bytes].
  - unfold strlen. lia.
  - apply common_prefix_range.
Qed.

(** The counter of [header_from] does not wrap on a key shorter than 2^32
    bytes. *)
Lemma header_from_short p k v :
  strlen k < 2 ^ 32 -> header_from p k v = Ok (header_of p k v).
Proof.
  intros H. unfold header_from. pose proof (common_prefix_range p k).
  destruct (Z.leb_spec (2 ^ 32) (common_prefix p k)); [lia|].
  rewrite andb_false_r. reflexivity.
Qed.

Lemma substr_total s pos count :
  0 <= pos <= strlen s -> exists r, substr s pos count = Ok r.
Proof.
  intros H. unfold substr. destruct (Z.ltb_spec (strlen s) pos); [lia|]. eauto.
Qed.

Lemma build_entry_ok cfg w k r last d :
  strlen k < 2 ^ 32 ->
  skiptable.data r = Some d -> skiptable.size r = strlen d -> writer_in_range w ->
  exists w', build_entry cfg w k r last = Ok w' /\ writer_in_range w' /\
    entries w' = wrap64 (entries w + 1) /\
    data_bytes w' = wrap64 (data_bytes w + skiptable.size r) /\
    w_key_bytes w' = wrap64 (w_key_bytes w + strlen k).
Proof.
  intros Hk Hd Hs (R1 & R2 & R3 & R4). unfold build_entry.
  rewrite (header_from_short _ _ _ Hk). cbn [bind].
  pose proof (header_of_range (prefix w) k (skiptable.size r)) as Hp.
  destruct (header_of (prefix w) k (skiptable.size r)) as [hdr prefix1].
  cbn [fst] in Hp.
  destruct (substr_total k (prefix_bytes hdr) (suffix_bytes hdr) Hp) as (sfx & ->).
  cbn [bind]. rewrite Hd, Hs. destruct (Z.ltb_spec (strlen d) (strlen d)); [lia|].
  cbn [bind]. eexists. split; [reflexivity|].
  unfold writer_in_range; cbn [blocks w_key_bytes data_bytes entries].
  repeat split; try apply wrap64_range; try reflexivity;
    destruct last; destruct (_ <? block_bytes w); try apply wrap64_range; lia.
Qed.

Lemma get_node_ok s j d :
  table_ok s -> (j < length (skiptable.nodes s))%nat ->
  index (skiptable.records s) (idxof s j)
    = Ok {| skiptable.data := Some d; skiptable.size := strlen d |} ->
  exists nd, skiptable.deref s (skiptable.At j) = Ok nd /\ skiptable.key nd = keyof s j /\
    skiptable.get_node s (Some j)
    = Ok (Some {| skiptable.data := Some d; skiptable.size := strlen d |}).
Proof.
  intros [_ _ _ _ _ I] Hj Hr. specialize (I j Hj). unfold skiptable.get_node.
  unfold idxof, keyof in *. cbn [skiptable.deref].
  destruct (nth_error (skiptable.nodes s) j) as [nd|] eqn:E;
    [|apply nth_error_None in E; lia].
  exists nd. split; [reflexivity|]. split; [reflexivity|]. cbn [bind].
  destruct (Z.ltb_spec (skiptable.record_idx nd) 0); [lia|].
  destruct (Z.leb_spec (skiptable.next_record s) (skiptable.record_idx nd)); [lia|].
  cbn [orb]. rewrite Hr. reflexivity.
Qed.

Lemma build_loop_ok cfg s a l :
  table_wf s -> keys_short s -> path s a l ->
  forall fuel w, (length l <= fuel)%nat -> writer_in_range w ->
  exists w', build_loop fuel cfg s a w = Ok w' /\ writer_in_range w' /\
    entries w' = wrap64 (entries w + Z.of_nat (length l)) /\
    data_bytes w' = wrap64 (data_bytes w
                            + fold_right Z.add 0 (map (fun j => size_at s (idxof s j)) l)) /\
    w_key_bytes w' = wrap64 (w_key_bytes w
                             + fold_right Z.add 0 (map (fun j => strlen (keyof s j)) l)).
Proof.
  intros W Sh. pose proof (wf_ok s W) as OK. pose proof OK as [L _ _ _ _ _].
  induction 1 as [|j l Hj Hp IH]; intros fuel w Hf Rw.
  - exists w. destruct Rw as (R1 & R2 & R3 & R4).
    split; [destruct fuel; reflexivity|]. split; [repeat split; lia|].
    simpl. rewrite !Z.add_0_r, !wrap64_small by lia. auto.
  - destruct fuel as [|fuel]; simpl in Hf; [lia|]. cbn [build_loop].
    destruct (wf_records s W j Hj) as (d & Hr).
    destruct (get_node_ok s j d OK Hj Hr) as (nd & D & Kn & G).
    rewrite G, D. cbn [bind].
    pose proof (iterate_nxt s (skiptable.At j) nd 0%nat (lk_levels s L) D ltac:(lia)) as X.
    change (Z.of_nat 0) with 0 in X. rewrite X. cbn [bind].
    destruct (build_entry_ok cfg w (skiptable.key nd)
                {| skiptable.data := Some d; skiptable.size := strlen d |}
                (match nxt s (skiptable.At j) 0 with None => true | Some _ => false end)
                d ltac:(rewrite Kn; apply Sh, Hj) eq_refl eq_refl Rw)
      as (w1 & -> & Rw1 & E1 & D1 & K1).
    cbn [bind]. destruct (IH fuel w1 ltac:(lia) Rw1) as (w' & -> & Rw' & E' & D' & K').
    exists w'. split; [reflexivity|]. split; [exact Rw'|].
    assert (Sz : size_at s (idxof s j) = strlen d) by (unfold size_at; rewrite Hr; reflexivity).
    cbn [length map fold_right skiptable.size] in *.
    rewrite E', E1, D', D1, K', K1, Sz, Kn, !wrap64_add_l.
    repeat split; f_equal; lia.
Qed.


Lemma sum_map_perm {A} (f : A -> Z) l l' :
  Permutation l l' -> fold_right Z.add 0 (map f l) = fold_right Z.add 0 (map f l').
Proof. induction 1; simpl; lia. Qed.


(** *** Prefix compression *)

Lemma common_prefix_shared p : forall k,
  0 <= common_prefix p k <= strlen p /\
  substring 0 (Z.to_nat (common_prefix p k)) p = substring 0 (Z.to_nat (common_prefix p k)) k.
Proof.
  induction p as [|a p IH]; intros [|b k]; cbn [common_prefix]; unfold strlen;
    cbn [String.length]; try (split; [lia | reflexivity]).
  destruct (Ascii.eqb_spec a b) as [->|]; [|split; [lia | reflexivity]].
  destruct (IH k) as (R & E). unfold strlen in R. split; [lia|].
  replace (Z.to_nat (1 + common_prefix p k)) with (S (Z.to_nat (common_prefix p k))) by lia.
  cbn [substring]. rewrite E. reflexivity.
Qed.

Lemma substring_split (s : string) n :
  (n <= String.length s)%nat ->
  (substring 0 n s ++ substring n (String.length s - n) s)%string = s.
Proof.
  revert n; induction s as [|c s IH]; intros [|n] H; cbn [String.length] in *;
    try reflexivity; try lia.
  - cbn [substring String.append Nat.sub]. rewrite substring_all. reflexivity.
  - cbn [substring String.append Nat.sub]. rewrite IH by lia. reflexivity.
Qed.

(** X13. Prefix compression loses no byte
    of a key shorter than 2^32: the header of [header_from] has
    [prefix_bytes + suffix_bytes = key.size()], the first [prefix_bytes]
    bytes of the key are those of the prefix, these bytes followed by the
    suffix that [build] writes are the key, and the key is an index key
    ([prefix_bytes = 0]) exactly when it shares no leading byte with the
    prefix; an empty prefix is replaced by the key. *)
Theorem entry_header_matches_its_key prefix k v :
  strlen k < 2 ^ 32 ->
  exists h prefix' p sfx,
    header_from prefix k v = Ok (h, prefix') /\
    prefix' = (if String.eqb prefix EmptyString then k else prefix) /\
    (prefix_bytes h = 0 <-> common_prefix prefix k = 0) /\
    prefix_bytes h + suffix_bytes h = strlen k /\ value_bytes h = v /\
    substr prefix' 0 (prefix_bytes h) = Ok p /\
    substr k 0 (prefix_bytes h) = Ok p /\
    substr k (prefix_bytes h) (suffix_bytes h) = Ok sfx /\
    (p ++ sfx)%string = k.
Proof.
  intros Hk. pose proof (strlen_nonneg k) as Hk0.
  rewrite (header_from_short _ _ _ Hk). unfold header_of.
  destruct (String.eqb_spec prefix EmptyString) as [->|Hne].
  - do 2 eexists. exists EmptyString, k. split; [reflexivity|].
    cbn [prefix_bytes suffix_bytes value_bytes common_prefix].
    rewrite Z.sub_0_r, Z.mod_small by lia.
    split; [reflexivity|]. split; [tauto|]. split; [lia|]. split; [reflexivity|].
    unfold substr. destruct (Z.ltb_spec (strlen k) 0); [lia|].
    rewrite Z.sub_0_r, Z.min_l, Z.min_id by lia.
    change (Z.to_nat 0) with 0%nat. unfold strlen. rewrite Nat2Z.id, substring_all.
    destruct k; repeat split; reflexivity.
  - destruct (common_prefix_shared prefix k) as (R & E).
    pose proof (common_prefix_range prefix k) as Rk.
    set (n := common_prefix prefix k) in *.
    do 2 eexists. exists (substring 0 (Z.to_nat n) k), (substring (Z.to_nat n)
      (String.length k - Z.to_nat n) k). split; [reflexivity|].
    cbn [prefix_bytes suffix_bytes value_bytes].
    rewrite Z.mod_small by lia.
    split; [reflexivity|]. split; [tauto|]. split; [lia|]. split; [reflexivity|].
    unfold substr.
    destruct (Z.ltb_spec (strlen prefix) 0); [lia|].
    destruct (Z.ltb_spec (strlen k) 0); [lia|].
    destruct (Z.ltb_spec (strlen k) n); [lia|].
    rewrite !Z.sub_0_r, !Z.min_l by lia. change (Z.to_nat 0) with 0%nat.
    split; [rewrite E; reflexivity|]. split; [reflexivity|]. split.
    + do 2 f_equal. unfold strlen. lia.
    + apply substring_split. unfold strlen in Rk. lia.
Qed.

End SstBuild.

(** ** sstable.h: reading back a file of one block *)

Section SstRoundTrip.
Import sstable.
Context {alloc : allocator}.
Local Infix "+++" := String.append (at level 60, right associativity).

Lemma strlen_zeros n : strlen (zeros n) = Z.of_nat n.
Proof. unfold strlen. induction n; cbn [zeros String.length]; lia. Qed.

Lemma padding_bytes_range n : 0 <= n -> 1 <= padding_bytes n <= 8.
Proof.
  intros H. unfold padding_bytes, sizeof_uint64.
  pose proof (Z.mod_pos_bound n 8 ltac:(lia)).
  rewrite wrap64_small; lia.
Qed.

Lemma strlen_write_header h : strlen (write_header h) = 16.
Proof.
  unfold write_header. rewrite !strlen_app, !strlen_le_bytes. reflexivity.
Qed.

Lemma strlen_enc e : entry_ok e -> strlen (enc e) = enc_size e.
Proof.
  intros (Hp & Hs & Hs' & Hv & Hv'). unfold enc, enc_size, sizeof_entry_header.
  pose proof (strlen_nonneg (e_sfx e)). pose proof (strlen_nonneg (e_val e)).
  pose proof (padding_bytes_range (suffix_bytes (e_hdr e)) ltac:(lia)).
  pose proof (padding_bytes_range (value_bytes (e_hdr e)) ltac:(lia)).
  rewrite !strlen_app, strlen_write_header, !strlen_zeros, !Z2Nat.id by lia. lia.
Qed.

Lemma enc_size_range e : entry_ok e -> 18 <= enc_size e <= 32 + strlen (e_sfx e) + strlen (e_val e).
Proof.
  intros (Hp & Hs & Hs' & Hv & Hv'). unfold enc_size, sizeof_entry_header.
  pose proof (strlen_nonneg (e_sfx e)). pose proof (strlen_nonneg (e_val e)).
  pose proof (padding_bytes_range (suffix_bytes (e_hdr e)) ltac:(lia)).
  pose proof (padding_bytes_range (value_bytes (e_hdr e)) ltac:(lia)). lia.
Qed.

Lemma strlen_encs es : Forall entry_ok es -> strlen (encs es) = encs_size es.
Proof.
  induction 1 as [|e es He _ IH]; cbn [encs encs_size]; [reflexivity|].
  rewrite strlen_app, strlen_enc, IH by assumption. reflexivity.
Qed.

Lemma encs_app es1 es2 : encs (es1 ++ es2) = encs es1 +++ encs es2.
Proof.
  induction es1 as [|e es1 IH]; cbn [encs app]; [reflexivity|].
  rewrite IH, string_app_assoc. reflexivity.
Qed.

Lemma encs_size_app es1 es2 : encs_size (es1 ++ es2) = encs_size es1 + encs_size es2.
Proof. induction es1 as [|e es1 IH]; cbn [encs_size app]; lia. Qed.

Lemma encs_size_length es : Forall entry_ok es -> Z.of_nat (length es) <= encs_size es.
Proof.
  induction 1 as [|e es He _ IH]; cbn [encs_size length]; [lia|].
  pose proof (enc_size_range e He). lia.
Qed.

Lemma enc_size_in es e : Forall entry_ok es -> In e es -> enc_size e <= encs_size es.
Proof.
  induction 1 as [|x l Hx Hl IH]; intros I; [destruct I|].
  cbn [encs_size]. pose proof (encs_size_length l Hl).
  pose proof (enc_size_range x Hx). destruct I as [->|I]; [lia|].
  specialize (IH I). lia.
Qed.

(** *** Reading an entry *)

Lemma read_entry pre e post :
  entry_ok e -> strlen pre + enc_size e < 2 ^ 64 ->
  let file := pre +++ enc e +++ post in
  read_header file (strlen pre) = Ok (e_hdr e) /\
  key_at file (strlen pre) (e_hdr e) = Ok (e_sfx e) /\
  read_bytes file
    (wrap64 (strlen pre + sizeof_entry_header + suffix_bytes (e_hdr e)
             + padding_bytes (suffix_bytes (e_hdr e))))
    (value_bytes (e_hdr e)) = Ok (e_val e).
Proof.
  intros He Hlt file. pose proof He as (Hp & Hs & Hs' & Hv & Hv').
  pose proof (strlen_nonneg pre). pose proof (strlen_nonneg (e_sfx e)).
  pose proof (strlen_nonneg (e_val e)).
  pose proof (padding_bytes_range (suffix_bytes (e_hdr e)) ltac:(lia)) as P1.
  pose proof (padding_bytes_range (value_bytes (e_hdr e)) ltac:(lia)) as P2.
  pose proof (enc_size_range e He) as R. unfold enc_size, sizeof_entry_header in *.
  split; [|split].
  - unfold file, enc. rewrite !string_app_assoc.
    apply read_header_app; lia.
  - unfold key_at, sizeof_entry_header. rewrite wrap64_small by lia.
    set (A := pre +++ write_header (e_hdr e)).
    assert (F : file = A +++ e_sfx e
                       +++ (zeros (Z.to_nat (padding_bytes (suffix_bytes (e_hdr e))))
                            +++ e_val e
                            +++ zeros (Z.to_nat (padding_bytes (value_bytes (e_hdr e))))
                            +++ post)).
    { unfold file, enc, A. rewrite !string_app_assoc. reflexivity. }
    rewrite F, Hs.
    replace (strlen pre + 16) with (strlen A)
      by (unfold A; rewrite strlen_app, strlen_write_header; reflexivity).
    apply read_bytes_app.
  - rewrite wrap64_small by lia.
    set (A := pre +++ write_header (e_hdr e) +++ e_sfx e
              +++ zeros (Z.to_nat (padding_bytes (suffix_bytes (e_hdr e))))).
    assert (F : file = A +++ e_val e
                       +++ (zeros (Z.to_nat (padding_bytes (value_bytes (e_hdr e))))
                            +++ post)).
    { unfold file, enc, A. rewrite !string_app_assoc. reflexivity. }
    rewrite F, Hv.
    replace (strlen pre + 16 + suffix_bytes (e_hdr e) + padding_bytes (suffix_bytes (e_hdr e)))
      with (strlen A)
      by (unfold A; rewrite !strlen_app, strlen_write_header, strlen_zeros, Z2Nat.id by lia;
          lia).
    apply read_bytes_app.
Qed.


(** *** The entries under one index key *)

Lemma scan_entries_step fuel file k p off :
  scan_entries (S fuel) file k p off
  = (hdr <- read_header file off ;;
     suffix <- key_at file off hdr ;;
     hit <- matches k p hdr suffix ;;
     let after_key :=
       off + sizeof_entry_header + suffix_bytes hdr + padding_bytes (suffix_bytes hdr) in
     if hit then
       v <- read_bytes file (wrap64 after_key) (value_bytes hdr) ;;
       Ok (Some v)
     else
       let off' :=
         wrap64 (after_key + value_bytes hdr + padding_bytes (value_bytes hdr)) in
       hdr' <- read_header file off' ;;
       if prefix_bytes hdr' =? 0 then Ok None
       else scan_entries fuel file k p off').
Proof.
  cbn [scan_entries]. destruct (read_header file off) as [hdr|]; [|reflexivity].
  cbn [bind]. destruct (key_at file off hdr) as [sfx|]; [|reflexivity].
  cbn [bind]. unfold matches.
  destruct (substr k 0 (prefix_bytes hdr)) as [kp|]; [|reflexivity].
  destruct (substr p 0 (prefix_bytes hdr)) as [pp|]; reflexivity.
Qed.

Lemma scan_entries_hit k p : forall es1 pre e es2 post fuel,
  Forall entry_ok (es1 ++ [e]) ->
  strlen pre + encs_size (es1 ++ [e]) < 2 ^ 64 ->
  (forall e', In e' es1 -> matches k p (e_hdr e') (e_sfx e') = Ok false) ->
  matches k p (e_hdr e) (e_sfx e) = Ok true ->
  (forall e', In e' (tl (es1 ++ [e])) -> prefix_bytes (e_hdr e') <> 0) ->
  (length es1 < fuel)%nat ->
  scan_entries fuel (pre +++ encs (es1 ++ e :: es2) +++ post) k p (strlen pre)
  = Ok (Some (e_val e)).
Proof.
  induction es1 as [|e1 es1 IH]; intros pre e es2 post fuel Hok Hsz Hno Hyes Hpb Hf;
    (destruct fuel as [|fuel]; [simpl in Hf; lia|]); rewrite scan_entries_step.
  - cbn [app encs]. rewrite string_app_assoc.
    cbn [app encs_size] in Hsz. apply Forall_inv in Hok.
    destruct (read_entry pre e (encs es2 +++ post) Hok ltac:(lia)) as (H1 & H2 & Hv).
    rewrite H1. cbn [bind]. rewrite H2. cbn [bind]. rewrite Hyes. cbn [bind]. cbv iota. rewrite Hv. reflexivity.
  - cbn [app encs]. rewrite string_app_assoc.
    cbn [app encs_size] in Hsz. cbn [app] in Hok. pose proof (Forall_inv Hok) as Hok1.
    pose proof (Forall_inv_tail Hok) as Hok2.
    pose proof (strlen_nonneg pre) as Hpre.
    assert (Hn : 0 <= encs_size (es1 ++ [e])).
    { pose proof (encs_size_length _ Hok2). lia. }
    destruct (read_entry pre e1 (encs (es1 ++ e :: es2) +++ post) Hok1 ltac:(lia))
      as (H1 & H2 & _).
    rewrite H1. cbn [bind]. rewrite H2. cbn [bind]. rewrite (Hno e1 (or_introl eq_refl)). cbn [bind]. cbv iota. cbv zeta.
    pose proof (enc_size_range e1 Hok1) as R1.
    assert (Hoff : wrap64 (strlen pre + sizeof_entry_header + suffix_bytes (e_hdr e1)
                           + padding_bytes (suffix_bytes (e_hdr e1))
                           + value_bytes (e_hdr e1)
                           + padding_bytes (value_bytes (e_hdr e1)))
                   = strlen (pre +++ enc e1)).
    { rewrite strlen_app, (strlen_enc e1 Hok1). unfold enc_size in *.
      rewrite wrap64_small by lia. lia. }
    rewrite Hoff.
    assert (Hsz' : strlen (pre +++ enc e1) + encs_size (es1 ++ [e]) < 2 ^ 64).
    { rewrite strlen_app, (strlen_enc e1 Hok1). lia. }
    assert (Hhd : exists e2 tl2, es1 ++ e :: es2 = e2 :: tl2 /\ In e2 (es1 ++ [e])).
    { destruct es1 as [|e2 es1']; cbn [app]; eauto using in_eq. }
    destruct Hhd as (e2 & tl2 & E2 & I2).
    assert (Hok3 : entry_ok e2) by (eapply Forall_forall in Hok2; eauto).
    assert (Hrd : read_header (pre +++ enc e1 +++ encs (es1 ++ e :: es2) +++ post)
                    (strlen (pre +++ enc e1)) = Ok (e_hdr e2)).
    { rewrite E2. cbn [encs]. rewrite <- (string_app_assoc pre (enc e1)).
      rewrite (string_app_assoc (enc e2)).
      apply read_entry; [exact Hok3|].
      assert (enc_size e2 <= encs_size (es1 ++ [e])); [|lia].
      apply enc_size_in; assumption. }
    rewrite Hrd. cbn [bind].
    destruct (Z.eqb_spec (prefix_bytes (e_hdr e2)) 0) as [Z0|_].
    { exfalso. apply (Hpb e2); [|exact Z0]. cbn [app tl]. exact I2. }
    rewrite <- (string_app_assoc pre (enc e1)).
    apply IH; try assumption.
    + intros e' He'. apply Hno. right. exact He'.
    + intros e' He'. apply Hpb. cbn [app tl].
      destruct es1; cbn [app tl] in *; [destruct He'|]. right. exact He'.
    + simpl in Hf. lia.
Qed.


(** *** The index of a block *)

Lemma concat_cons x l : String.concat "" (x :: l) = x +++ String.concat "" l.
Proof. destruct l; cbn [String.concat]; [rewrite string_app_nil_r|]; reflexivity. Qed.

Lemma concat_le_app l1 l2 :
  String.concat "" (map (le_bytes 8) (l1 ++ l2))
  = String.concat "" (map (le_bytes 8) l1) +++ String.concat "" (map (le_bytes 8) l2).
Proof.
  induction l1 as [|x l1 IH]; [reflexivity|].
  cbn [app map]. rewrite !concat_cons, IH, string_app_assoc. reflexivity.
Qed.

Lemma strlen_concat_le l :
  strlen (String.concat "" (map (le_bytes 8) l)) = 8 * Z.of_nat (length l).
Proof.
  induction l as [|x l IH]; [reflexivity|].
  cbn [map]. rewrite concat_cons, strlen_app, strlen_le_bytes, IH. cbn [length]. lia.
Qed.

Lemma index_of_in : forall es off o k0,
  In (o, k0) (index_of off es) ->
  exists esa e' esb, es = esa ++ e' :: esb /\ o = off + encs_size esa /\
    prefix_bytes (e_hdr e') = 0 /\ k0 = e_sfx e'.
Proof.
  induction es as [|e es IH]; intros off o k0 I; [destruct I|].
  cbn [index_of] in I. apply in_app_or in I as [I|I].
  - destruct (Z.eqb_spec (prefix_bytes (e_hdr e)) 0) as [Z0|]; [|destruct I].
    destruct I as [I|[]]. injection I as <- <-.
    exists [], e, es. cbn [app encs_size]. repeat split; [lia | exact Z0].
  - destruct (IH _ _ _ I) as (esa & e' & esb & -> & -> & Z0 & ->).
    exists (e :: esa), e', esb. cbn [app encs_size]. repeat split; [lia | exact Z0].
Qed.

Lemma find_index_walk file ftr k m idx :
  (forall idx1 o k0 idx2, idx = idx1 ++ (o, k0) :: idx2 ->
     read_u64 file (wrap64 (0 + block_size ftr
                            - sizeof_uint64 * (1 + m - Z.of_nat (length idx1)))) = Ok o /\
     exists hdr, read_header file (wrap64 (0 + o)) = Ok hdr /\ prefix_bytes hdr = 0 /\
                 key_at file (wrap64 (0 + o)) hdr = Ok k0) ->
  forall idx2 idx1 cur, idx = idx1 ++ idx2 ->
    find_index file ftr k 0 m (Z.of_nat (length idx1)) (fst cur) (snd cur) (length idx2)
    = Ok (index_walk k cur idx2).
Proof.
  intros F. induction idx2 as [|[o k0] idx2 IH]; intros idx1 cur E.
  - destruct cur. reflexivity.
  - cbn [length find_index index_walk].
    destruct (F idx1 o k0 idx2 E) as (-> & hdr & Hh & Z0 & Hk).
    cbn [bind]. rewrite Hh. cbn [bind]. rewrite Z0. cbn [Z.eqb assert bind].
    rewrite Hk. cbn [bind]. destruct (String.ltb k k0); [destruct cur; reflexivity|].
    specialize (IH (idx1 ++ [(o, k0)]) (o, k0)).
    rewrite length_app, Nat2Z.inj_add in IH. cbn [length fst snd] in IH.
    change (Z.of_nat 1) with 1 in IH. apply IH.
    rewrite <- app_assoc. exact E.
Qed.

(** *** [get] on a file of one block *)

Lemma get_block ftr es fill k E0 es1 e E2 p :
  let idx := index_of 0 es in
  let m := Z.of_nat (length idx) in
  let file := encs es +++ fill +++ String.concat "" (map (le_bytes 8) (map fst idx))
              +++ le_bytes 8 m +++ write_footer ftr in
  Forall entry_ok es ->
  es = E0 ++ es1 ++ e :: E2 ->
  encs_size es + strlen fill + 8 * m + 8 = block_size ftr ->
  block_size ftr < 2 ^ 64 -> block_count ftr = 1 -> magic ftr = MAGIC_NUMBER ->
  0 <= entry_count ftr < 2 ^ 64 -> 0 <= key_bytes ftr < 2 ^ 64 ->
  0 <= footer_value_bytes ftr < 2 ^ 64 ->
  (exists e0 rest, es = e0 :: rest /\ prefix_bytes (e_hdr e0) = 0 /\
                   String.ltb k (e_sfx e0) = false) ->
  index_walk k (0, EmptyString) idx = (encs_size E0, p) ->
  (forall e', In e' es1 -> matches k p (e_hdr e') (e_sfx e') = Ok false) ->
  matches k p (e_hdr e) (e_sfx e) = Ok true ->
  (forall e', In e' (tl (es1 ++ [e])) -> prefix_bytes (e_hdr e') <> 0) ->
  get file k = Ok (Some (e_val e)).
Proof.
  intros idx m file Hok Hes Hbs Hlt Hbc Hmg He Hk Hv (e0 & rest & Es & Z0 & Hge) Hw Hno Hyes Hpb.
  pose proof (strlen_nonneg fill) as Hfill.
  pose proof (encs_size_length es Hok) as Hlen.
  assert (Hm : 0 <= m) by (unfold m; lia).
  set (tail := fill +++ String.concat "" (map (le_bytes 8) (map fst idx))
               +++ le_bytes 8 m +++ write_footer ftr).
  assert (Hfile : file = encs es +++ tail) by reflexivity.
  assert (Hrf : read_footer file = Ok ftr).
  { unfold file. rewrite <- !string_app_assoc. apply read_footer_app; try lia.
    rewrite Hmg. unfold MAGIC_NUMBER. lia. }
  unfold get. rewrite Hrf. cbn [bind]. rewrite Hmg, Z.eqb_refl. cbn [assert bind].
  rewrite Hbc. change (Z.to_nat 1) with 1%nat. cbn [find_block].
  change (0 * block_size ftr) with 0. change (wrap64 0) with 0.
  (* the first entry *)
  assert (Hok0 : entry_ok e0) by (rewrite Es in Hok; apply (Forall_inv Hok)).
  assert (Hr0 : read_header file 0 = Ok (e_hdr e0) /\ key_at file 0 (e_hdr e0) = Ok (e_sfx e0)).
  { rewrite Hfile, Es. cbn [encs]. rewrite string_app_assoc.
    pose proof (read_entry EmptyString e0 (encs rest +++ tail) Hok0) as R.
    change (strlen EmptyString) with 0 in R. cbn [String.append] in R.
    assert (R0 : enc_size e0 <= encs_size es).
    { apply enc_size_in; [exact Hok|]. rewrite Es. apply in_eq. }
    destruct R as (R1 & R2 & _); [lia|]. split; assumption. }
  destruct Hr0 as (Hr0 & Hk0). rewrite Hr0. cbn [bind]. rewrite Z0. cbn [Z.eqb assert bind].
  rewrite Hk0. cbn [bind]. rewrite Hge.
  change (wrap64 (0 + 1)) with 1. cbn [bind]. change (wrap64 (1 - 1)) with 0.
  change (0 * block_size ftr) with 0. change (wrap64 0) with 0.
  (* the number of index keys *)
  assert (Hic : read_u64 file (wrap64 (0 + block_size ftr - sizeof_uint64)) = Ok m).
  { unfold sizeof_uint64. rewrite wrap64_small by lia. unfold file.
    rewrite <- (string_app_assoc fill), <- (string_app_assoc (encs es)).
    replace (0 + block_size ftr - 8)
      with (strlen (encs es +++ fill +++ String.concat "" (map (le_bytes 8) (map fst idx)))).
    - rewrite <- (string_app_assoc (encs es)).
      apply read_u64_app. lia.
    - rewrite !strlen_app, strlen_concat_le, length_map, (strlen_encs es Hok). fold m. lia. }
  rewrite Hic. cbn [bind].
  (* the walk over the index *)
  assert (Hfi : find_index file ftr k 0 m 0 0 EmptyString (Z.to_nat m)
                = Ok (index_walk k (0, EmptyString) idx)).
  { unfold m at 2. rewrite Nat2Z.id.
    apply (find_index_walk file ftr k m idx) with (idx1 := []) (cur := (0, EmptyString));
      [|reflexivity].
    intros idx1 o k0 idx2 Ei.
    assert (Hin : In (o, k0) (index_of 0 es)).
    { fold idx. rewrite Ei. apply in_or_app. right. apply in_eq. }
    destruct (index_of_in es 0 o k0 Hin) as (esa & e' & esb & Ee & Ho & Z0' & Ek0).
    assert (Hoka : Forall entry_ok esa).
    { rewrite Ee in Hok. apply Forall_app in Hok. apply Hok. }
    assert (Hok' : entry_ok e').
    { rewrite Ee in Hok. apply Forall_app in Hok. apply (Forall_inv (proj2 Hok)). }
    pose proof (encs_size_length esa Hoka) as Hla.
    pose proof (enc_size_range e' Hok') as Hre.
    assert (Hsa : encs_size esa + enc_size e' <= encs_size es).
    { rewrite Ee, encs_size_app. cbn [encs_size].
      assert (Forall entry_ok esb).
      { rewrite Ee in Hok. apply Forall_app in Hok. apply (Forall_inv_tail (proj2 Hok)). }
      pose proof (encs_size_length esb H). lia. }
    split.
    - unfold sizeof_uint64. rewrite wrap64_small.
      2:{ assert (Z.of_nat (length idx1) <= m); [|lia].
          unfold m. rewrite Ei, length_app. lia. }
      unfold file. rewrite Ei, map_app. cbn [map fst].
      rewrite concat_le_app. cbn [map]. rewrite concat_cons.
      set (A := encs es +++ fill +++ String.concat "" (map (le_bytes 8) (map fst idx1))).
      match goal with |- read_u64 ?f _ = _ =>
        replace f with (A +++ le_bytes 8 o
                        +++ (String.concat "" (map (le_bytes 8) (map fst idx2))
                             +++ le_bytes 8 m +++ write_footer ftr))
          by (unfold A; rewrite !string_app_assoc; reflexivity)
      end.
      replace (0 + block_size ftr - 8 * (1 + m - Z.of_nat (length idx1))) with (strlen A).
      + apply read_u64_app. lia.
      + unfold A. rewrite !strlen_app, strlen_concat_le, length_map, (strlen_encs es Hok).
        lia.
    - exists (e_hdr e'). rewrite Ho, !Z.add_0_l, wrap64_small by lia.
      rewrite <- (strlen_encs esa Hoka).
      rewrite Hfile, Ee, encs_app. cbn [encs]. rewrite !string_app_assoc.
      destruct (read_entry (encs esa) e' (encs esb +++ tail) Hok') as (R1 & R2 & _).
      { rewrite (strlen_encs esa Hoka). lia. }
      split; [exact R1|]. split; [exact Z0'|]. rewrite Ek0. exact R2. }
  rewrite Hfi, Hw. cbn [bind].
  (* the entries under the index key *)
  assert (Hok0' : Forall entry_ok E0).
  { rewrite Hes in Hok. apply Forall_app in Hok. apply Hok. }
  pose proof (encs_size_length E0 Hok0') as Hl0.
  assert (Hok1 : Forall entry_ok (es1 ++ [e])).
  { rewrite Hes in Hok. apply Forall_app in Hok. destruct Hok as [_ Hok].
    apply Forall_app in Hok. apply Forall_app. split; [apply Hok|].
    constructor; [apply (Forall_inv (proj2 Hok)) | constructor]. }
  pose proof (encs_size_length _ Hok1) as Hl1. rewrite length_app in Hl1. cbn [length] in Hl1.
  assert (Hsz : encs_size E0 + encs_size (es1 ++ [e]) <= encs_size es).
  { rewrite Hes, !encs_size_app. cbn [encs_size].
    assert (Forall entry_ok E2).
    { rewrite Hes in Hok. apply Forall_app in Hok. destruct Hok as [_ Hok].
      apply Forall_app in Hok. apply (Forall_inv_tail (proj2 Hok)). }
    pose proof (encs_size_length E2 H). lia. }
  assert (Hfuel : (length es1 < S (String.length file))%nat).
  { assert (encs_size es <= strlen file).
    { rewrite Hfile, strlen_app, (strlen_encs es Hok). pose proof (strlen_nonneg tail). lia. }
    unfold strlen in H. lia. }
  set (fuel := S (String.length file)) in *.
  rewrite Z.add_0_l, wrap64_small by lia.
  rewrite <- (strlen_encs E0 Hok0').
  rewrite Hfile, Hes, encs_app, string_app_assoc.
  apply scan_entries_hit; try assumption.
  rewrite (strlen_encs E0 Hok0'). lia.
Qed.

End SstRoundTrip.

(** ** sstable.h: keys, prefixes and the index of a block *)

Section SstKeys.
Import sstable.
Local Infix "+++" := String.append (at level 60, right associativity).

(** *** The comparison of [get] and prefixes of keys *)

Lemma substring_0_0 s : substring 0 0 s = EmptyString.
Proof. destruct s; reflexivity. Qed.

Lemma length_substring n : forall m s,
  (n + m <= String.length s)%nat -> String.length (substring n m s) = m.
Proof.
  induction n as [|n IH]; intros m s H.
  - revert s H. induction m as [|m IHm]; intros s H; [rewrite substring_0_0; reflexivity|].
    destruct s as [|c s]; cbn [String.length] in H; [lia|].
    cbn [substring String.length]. rewrite IHm; [reflexivity | lia].
  - destruct s as [|c s]; cbn [String.length] in H; [lia|].
    cbn [substring]. apply IH. lia.
Qed.

Lemma prefix_length a k : String.prefix a k = true -> (String.length a <= String.length k)%nat.
Proof.
  revert k. induction a as [|c a IH]; intros [|c' k]; cbn [String.prefix String.length];
    try lia; try discriminate.
  destruct (ascii_dec c c'); [|discriminate]. intros H. specialize (IH _ H). lia.
Qed.

(** The two comparisons of [get], for an entry whose key is [a ++ b],
    split after the prefix bytes. *)
Lemma prefix_split a b : forall k,
  String.prefix (a +++ b) k
  = String.eqb (substring 0 (Nat.min (String.length a) (String.length k)) k) a
    && String.eqb (substring (String.length a)
                     (Nat.min (String.length b) (String.length k - String.length a)) k) b.
Proof.
  induction a as [|c a IH]; intros k.
  - cbn [String.append String.length Nat.min]. rewrite substring_0_0. cbn [String.eqb andb].
    rewrite Nat.sub_0_r. revert k. induction b as [|c b IHb]; intros k.
    + cbn [String.length Nat.min]. rewrite substring_0_0. destruct k; reflexivity.
    + destruct k as [|c' k]; [reflexivity|].
      cbn [String.prefix String.length Nat.min substring String.eqb].
      rewrite <- IHb. destruct (ascii_dec c c') as [->|N].
      * rewrite Ascii.eqb_refl. reflexivity.
      * destruct (Ascii.eqb_spec c' c) as [->|]; [destruct N|]; reflexivity.
  - destruct k as [|c' k]; [reflexivity|].
    cbn [String.append String.prefix String.length Nat.min substring String.eqb Nat.sub].
    rewrite IH. destruct (ascii_dec c c') as [->|N].
    + rewrite Ascii.eqb_refl. reflexivity.
    + destruct (Ascii.eqb_spec c' c) as [->|]; [destruct N|]; reflexivity.
Qed.


Lemma header_of_fields P k v :
  strlen k < 2 ^ 32 ->
  let hdr := fst (header_of P k v) in
  0 <= prefix_bytes hdr <= strlen k /\
  suffix_bytes hdr = strlen k - prefix_bytes hdr /\ value_bytes hdr = v /\
  (prefix_bytes hdr <> 0 -> P <> EmptyString /\ prefix_bytes hdr = common_prefix P k) /\
  snd (header_of P k v) = (if String.eqb P EmptyString then k else P).
Proof.
  intros Hk hdr. pose proof (header_of_range P k v) as R. fold hdr in R.
  pose proof (strlen_nonneg k). unfold hdr, header_of in *.
  destruct (String.eqb_spec P EmptyString) as [->|N]; cbn [fst snd prefix_bytes suffix_bytes
    value_bytes] in *.
  - rewrite Z.mod_small by lia. repeat split; lia.
  - rewrite Z.mod_small by lia. repeat split; try lia; auto.
Qed.

Lemma entry_of_ok P k d :
  strlen k < 2 ^ 32 -> strlen d < 2 ^ 32 -> entry_ok (entry_of P k d).
Proof.
  intros Hk Hd. destruct (header_of_fields P k (strlen d) Hk) as (R & S & V & _).
  unfold entry_ok, entry_of. cbn [e_hdr e_sfx e_val]. rewrite S, V.
  assert (L : strlen (substring (Z.to_nat (prefix_bytes (fst (header_of P k (strlen d)))))
                        (Z.to_nat (strlen k - prefix_bytes (fst (header_of P k (strlen d))))) k)
              = strlen k - prefix_bytes (fst (header_of P k (strlen d)))).
  { unfold strlen in *. rewrite length_substring; lia. }
  rewrite L. repeat split; lia.
Qed.

Lemma entry_of_key P k d :
  strlen k < 2 ^ 32 ->
  let e := entry_of P k d in
  k = substring 0 (Z.to_nat (prefix_bytes (e_hdr e))) k +++ e_sfx e /\
  String.length (substring 0 (Z.to_nat (prefix_bytes (e_hdr e))) k)
  = Z.to_nat (prefix_bytes (e_hdr e)) /\
  String.length (e_sfx e) = Z.to_nat (suffix_bytes (e_hdr e)).
Proof.
  intros Hk e. destruct (header_of_fields P k (strlen d) Hk) as (R & S & V & _).
  unfold e, entry_of. cbn [e_hdr e_sfx e_val]. rewrite S. unfold strlen in *.
  set (pb := prefix_bytes (fst (header_of P k (Z.of_nat (String.length d))))) in *.
  replace (Z.to_nat (Z.of_nat (String.length k) - pb))
    with (String.length k - Z.to_nat pb)%nat by lia.
  split; [|split].
  - symmetry. apply substring_split. lia.
  - apply length_substring. lia.
  - apply length_substring. lia.
Qed.

(** The comparison of [get] tells whether the key of the entry is a
    prefix of the key looked for, when the prefix that [get] holds is the
    prefix the entry was written under. *)
Lemma matches_entry P p k' d' k :
  strlen k' < 2 ^ 32 ->
  prefix_bytes (e_hdr (entry_of P k' d')) = 0 \/ p = P ->
  matches k p (e_hdr (entry_of P k' d')) (e_sfx (entry_of P k' d'))
  = Ok (String.prefix k' k).
Proof.
  intros Hk Hp. destruct (header_of_fields P k' (strlen d') Hk) as (R & S & V & C & _).
  destruct (entry_of_key P k' d' Hk) as (Ek & La & Lb).
  set (e := entry_of P k' d') in *.
  change (fst (header_of P k' (strlen d'))) with (e_hdr e) in *.
  set (pb := prefix_bytes (e_hdr e)) in *. set (sb := suffix_bytes (e_hdr e)) in *.
  set (a := substring 0 (Z.to_nat pb) k') in *. set (b := e_sfx e) in *.
  pose proof (strlen_nonneg k) as Hk0. pose proof (strlen_nonneg p) as Hp0.
  assert (Hpp : substr p 0 pb = Ok a).
  { unfold substr. destruct (Z.ltb_spec (strlen p) 0); [lia|]. f_equal.
    destruct (Z.eq_dec pb 0) as [Z0|N0].
    - unfold a. rewrite Z0. cbn [Z.min Z.to_nat]. rewrite Z.min_l by lia.
      change (Z.to_nat 0) with 0%nat. rewrite !substring_0_0. reflexivity.
    - destruct Hp as [Hp|Hp]; [lia|]. destruct (C N0) as (PN & Cp).
      destruct (common_prefix_shared P k') as (Rp & Sh). subst p.
      rewrite Z.sub_0_r, Z.min_l by lia. unfold a. rewrite Cp. exact Sh. }
  unfold matches. fold pb sb. rewrite Hpp. unfold substr at 1.
  destruct (Z.ltb_spec (strlen k) 0); [lia|]. cbn [bind].
  rewrite Ek, prefix_split. fold a b.
  replace (Z.to_nat (Z.min pb (strlen k - 0)))
    with (Nat.min (String.length a) (String.length k)) by (unfold strlen; lia).
  change (Z.to_nat 0) with 0%nat.
  destruct (String.eqb_spec (substring 0 (Nat.min (String.length a) (String.length k)) k) a)
    as [Ea|Na]; cbn [andb]; [|reflexivity].
  assert (Hle : (String.length a <= String.length k)%nat).
  { pose proof (length_substring_0 (Nat.min (String.length a) (String.length k)) k) as L.
    rewrite Ea in L. lia. }
  unfold substr. destruct (Z.ltb_spec (strlen k) pb); [unfold strlen in *; lia|].
  cbn [bind]. f_equal. f_equal. f_equal; [lia|unfold strlen; lia].
Qed.

(** *** Keys in ascending order *)

Lemma key_lt_not_ltb a b : key_lt a b -> String.ltb b a = false.
Proof.
  intros H. destruct (String.ltb b a) eqn:E; [|reflexivity].
  apply ltb_key_lt in E. destruct (key_lt_irrefl a). eapply key_lt_trans; eauto.
Qed.

Lemma ltb_irrefl a : String.ltb a a = false.
Proof.
  destruct (String.ltb a a) eqn:E; [|reflexivity].
  apply ltb_key_lt in E. destruct (key_lt_irrefl a E).
Qed.

(** A key between two keys that share their first byte shares it too. *)
Lemma common_prefix_between P x k :
  key_lt P x -> key_lt x k -> common_prefix P k <> 0 -> common_prefix P x <> 0.
Proof.
  unfold key_lt. destruct P as [|a P]; [cbn; congruence|].
  destruct k as [|b k]; [cbn; congruence|]. destruct x as [|c x]; [cbn; discriminate|].
  cbn [common_prefix String.compare]. intros H1 H2 H3.
  destruct (Ascii.eqb_spec a b) as [<-|]; [|congruence].
  assert (E : c = a).
  { destruct (Ascii.compare a c) eqn:C1; [| |discriminate].
    - symmetry. apply Ascii.compare_eq_iff. exact C1.
    - rewrite Ascii.compare_antisym, C1 in H2. discriminate. }
  subst c. rewrite Ascii.eqb_refl. pose proof (common_prefix_range P x). lia.
Qed.


(** *** The entries and the index of a list of pairs *)

Lemma entries_of_app p A B :
  entries_of p (A ++ B) = entries_of p A ++ entries_of (prefix_after p A) B.
Proof.
  revert p. induction A as [|[k d] A IH]; intros p; [reflexivity|].
  cbn [app entries_of prefix_after]. rewrite IH. reflexivity.
Qed.

Lemma entries_of_ok kvs : forall p, Forall short_pair kvs -> Forall entry_ok (entries_of p kvs).
Proof.
  induction kvs as [|[k d] kvs IH]; intros p H; [constructor|].
  cbn [entries_of]. pose proof (Forall_inv H) as [Hk Hd]. cbn [fst snd] in *.
  constructor; [apply entry_of_ok; assumption | apply IH, (Forall_inv_tail H)].
Qed.

Lemma prefix_after_set p kvs : p <> EmptyString -> prefix_after p kvs = p.
Proof.
  intros N. induction kvs as [|[k d] kvs IH]; [reflexivity|].
  cbn [prefix_after]. unfold header_of.
  destruct (String.eqb_spec p EmptyString); [contradiction|]. exact IH.
Qed.

Lemma prefix_after_unset kvs :
  Forall (fun kv => fst kv = EmptyString) kvs -> prefix_after EmptyString kvs = EmptyString.
Proof.
  induction 1 as [|[k d] kvs Hk _ IH]; [reflexivity|].
  cbn [fst] in Hk. subst k. exact IH.
Qed.

(** The pair whose key is the prefix. *)
Lemma prefix_after_split A P :
  prefix_after EmptyString A = P -> P <> EmptyString ->
  exists A0 dP M, A = A0 ++ (P, dP) :: M /\ Forall (fun kv => fst kv = EmptyString) A0.
Proof.
  induction A as [|[k d] A IH]; intros E N; [cbn in E; congruence|].
  cbn [prefix_after] in E. unfold header_of in E. cbn [String.eqb snd] in E.
  destruct (String.eqb_spec k EmptyString) as [->|Nk].
  - destruct (IH E N) as (A0 & dP & M & -> & F).
    exists ((EmptyString, d) :: A0), dP, M. split; [reflexivity|]. constructor; auto.
  - rewrite (prefix_after_set k A Nk) in E. subst k.
    exists [], d, A. split; [reflexivity | constructor].
Qed.

Lemma entries_of_in P kvs e :
  P <> EmptyString -> In e (entries_of P kvs) ->
  exists k d, In (k, d) kvs /\ e = entry_of P k d.
Proof.
  intros N. induction kvs as [|[k d] kvs IH]; [intros []|].
  cbn [entries_of]. intros [<-|I].
  - exists k, d. split; [apply in_eq | reflexivity].
  - unfold header_of in I. destruct (String.eqb_spec P EmptyString); [contradiction|].
    cbn [snd] in I. destruct (IH I) as (k' & d' & I' & ->).
    exists k', d'. split; [right; exact I' | reflexivity].
Qed.

Lemma index_of_app es1 : forall off es2,
  index_of off (es1 ++ es2) = index_of off es1 ++ index_of (off + encs_size es1) es2.
Proof.
  induction es1 as [|e es1 IH]; intros off es2; cbn [app index_of encs_size].
  - rewrite Z.add_0_r. reflexivity.
  - rewrite IH, <- app_assoc, Z.add_assoc. reflexivity.
Qed.

(** An index key is the whole key of its pair. *)
Lemma index_of_keys kvs : forall p off o K,
  Forall short_pair kvs -> In (o, K) (index_of off (entries_of p kvs)) ->
  exists d, In (K, d) kvs.
Proof.
  induction kvs as [|[k d] kvs IH]; intros p off o K H I; [destruct I|].
  cbn [entries_of index_of] in I. apply in_app_or in I as [I|I].
  - destruct (Z.eqb_spec (prefix_bytes (e_hdr (entry_of p k d))) 0) as [Z0|]; [|destruct I].
    destruct I as [I|[]]. injection I as _ EK.
    pose proof (Forall_inv H) as [Hk _]. cbn [fst] in Hk.
    destruct (entry_of_key p k d Hk) as (Ek & _). rewrite Z0 in Ek.
    change (Z.to_nat 0) with 0%nat in Ek. rewrite substring_0_0 in Ek.
    cbn [String.append] in Ek. change (e_sfx (entry_of p k d) = K) in EK.
    exists d. rewrite <- EK, <- Ek. apply in_eq.
  - destruct (IH _ _ _ _ (Forall_inv_tail H) I) as (d' & I'). exists d'. right. exact I'.
Qed.

Lemma index_of_none es off :
  Forall (fun e => prefix_bytes (e_hdr e) <> 0) es -> index_of off es = [].
Proof.
  revert off. induction es as [|e es IH]; intros off H; [reflexivity|].
  cbn [index_of]. destruct (Z.eqb_spec (prefix_bytes (e_hdr e)) 0) as [Z0|_].
  - destruct (Forall_inv H Z0).
  - apply IH, (Forall_inv_tail H).
Qed.

Lemma index_walk_pass k idx1 : forall cur o K idx2,
  (forall o' K', In (o', K') idx1 -> String.ltb k K' = false) ->
  String.ltb k K = false ->
  (forall o' K', In (o', K') idx2 -> String.ltb k K' = true) ->
  index_walk k cur (idx1 ++ (o, K) :: idx2) = (o, K).
Proof.
  induction idx1 as [|[o1 K1] idx1 IH]; intros cur o K idx2 H1 HK H2.
  - cbn [app index_walk]. rewrite HK. destruct idx2 as [|[o2 K2] idx2]; [reflexivity|].
    cbn [index_walk]. rewrite (H2 o2 K2 (in_eq _ _)). reflexivity.
  - cbn [app index_walk]. rewrite (H1 o1 K1 (in_eq _ _)).
    apply IH; auto. intros o' K' I. apply (H1 o' K'). right. exact I.
Qed.


Lemma prefix_refl k : String.prefix k k = true.
Proof. apply String.prefix_correct, substring_all. Qed.

(** What [get] meets when it looks for a key of the block no other key
    of which is a prefix of it. *)
Lemma block_lookup A k d R :
  let kvs := A ++ (k, d) :: R in
  StronglySorted (fun a b => key_lt (fst a) (fst b)) kvs ->
  Forall short_pair kvs ->
  (forall k' d', In (k', d') kvs -> k' <> k -> String.prefix k' k = false) ->
  exists E0 es1 e E2 p,
    entries_of EmptyString kvs = E0 ++ es1 ++ e :: E2 /\ e_val e = d /\
    index_walk k (0, EmptyString) (index_of 0 (entries_of EmptyString kvs))
    = (encs_size E0, p) /\
    (forall e', In e' es1 -> matches k p (e_hdr e') (e_sfx e') = Ok false) /\
    matches k p (e_hdr e) (e_sfx e) = Ok true /\
    (forall e', In e' (tl (es1 ++ [e])) -> prefix_bytes (e_hdr e') <> 0).
Proof.
  intros kvs Hs Hsh Hpre.
  destruct (proj1 (strongly_sorted_app _ A ((k, d) :: R)) Hs) as (SA & SR & AR).
  apply StronglySorted_inv in SR as [SR HkR]. rewrite Forall_forall in HkR.
  assert (HA : forall k' d', In (k', d') A -> key_lt k' k).
  { intros k' d' I. apply (AR (k', d') (k, d) I (in_eq _ _)). }
  assert (HR : forall k' d', In (k', d') R -> key_lt k k').
  { intros k' d' I. apply (HkR (k', d') I). }
  pose proof Hsh as Hsh'. unfold kvs in Hsh'. rewrite Forall_app in Hsh'.
  destruct Hsh' as [ShA ShkR]. pose proof (Forall_inv ShkR) as [Hk Hd]. cbn [fst snd] in Hk, Hd.
  pose proof (Forall_inv_tail ShkR) as ShR.
  set (P := prefix_after EmptyString A).
  set (e := entry_of P k d).
  set (P' := snd (header_of P k (strlen d))).
  assert (Ees : entries_of EmptyString kvs
                = entries_of EmptyString A ++ e :: entries_of P' R).
  { unfold kvs. rewrite entries_of_app. reflexivity. }
  assert (HidxR : forall off o' K', In (o', K') (index_of off (entries_of P' R)) ->
                                    String.ltb k K' = true).
  { intros off o' K' I. destruct (index_of_keys R P' off o' K' ShR I) as (d' & I').
    apply ltb_key_lt. apply (HR K' d' I'). }
  assert (Hself : forall p, prefix_bytes (e_hdr e) = 0 \/ p = P ->
                            matches k p (e_hdr e) (e_sfx e) = Ok true).
  { intros p Hp. unfold e. rewrite (matches_entry P p k d k Hk Hp), prefix_refl.
    reflexivity. }
  destruct (Z.eq_dec (prefix_bytes (e_hdr e)) 0) as [Z0|N0].
  - (* the key is an index key *)
    assert (Ek : e_sfx e = k).
    { destruct (entry_of_key P k d Hk) as (Ek & _). fold e in Ek. rewrite Z0 in Ek.
      change (Z.to_nat 0) with 0%nat in Ek. rewrite substring_0_0 in Ek. symmetry. exact Ek. }
    exists (entries_of EmptyString A), [], e, (entries_of P' R), k.
    split; [exact Ees|]. split; [reflexivity|]. split; [|split; [|split]].
    + rewrite Ees, index_of_app. cbn [index_of]. rewrite Z0. cbn [Z.eqb app].
      rewrite Ek, Z.add_0_l. apply index_walk_pass.
      * intros o' K' I. destruct (index_of_keys A _ _ o' K' ShA I) as (d' & I').
        apply key_lt_not_ltb. apply (HA K' d' I').
      * apply ltb_irrefl.
      * apply HidxR.
    + intros e' [].
    + apply Hself. left. exact Z0.
    + intros e' [].
  - (* the key is under the prefix of the block *)
    destruct (header_of_fields P k (strlen d) Hk) as (_ & _ & _ & C & _).
    destruct (C N0) as (PN & Cp).
    destruct (prefix_after_split A P eq_refl PN) as (A0 & dP & M & EA & F0).
    assert (SA' := SA). rewrite EA in SA'.
    destruct (proj1 (strongly_sorted_app _ A0 ((P, dP) :: M)) SA') as (_ & SM & _).
    apply StronglySorted_inv in SM as [_ HPM]. rewrite Forall_forall in HPM.
    assert (ShA' := ShA). rewrite EA, Forall_app in ShA'. destruct ShA' as [ShA0 ShPM].
    pose proof (Forall_inv ShPM) as [HP _]. cbn [fst] in HP.
    pose proof (Forall_inv_tail ShPM) as ShM.
    assert (EeA : entries_of EmptyString A
                  = entries_of EmptyString A0 ++ entry_of EmptyString P dP :: entries_of P M).
    { rewrite EA, entries_of_app, (prefix_after_unset A0 F0). cbn [entries_of].
      unfold header_of. cbn [String.eqb snd]. reflexivity. }
    assert (HP0 : prefix_bytes (e_hdr (entry_of EmptyString P dP)) = 0) by reflexivity.
    assert (EkP : e_sfx (entry_of EmptyString P dP) = P).
    { destruct (entry_of_key EmptyString P dP HP) as (Ek & _). rewrite HP0 in Ek.
      change (Z.to_nat 0) with 0%nat in Ek. rewrite substring_0_0 in Ek. symmetry. exact Ek. }
    assert (HPk : key_lt P k).
    { apply (HA P dP). rewrite EA. apply in_or_app. right. apply in_eq. }
    assert (HM : forall e', In e' (entries_of P M) ->
                   exists k' d', In (k', d') M /\ e' = entry_of P k' d' /\
                                 prefix_bytes (e_hdr e') <> 0).
    { intros e' I. destruct (entries_of_in P M e' PN I) as (k' & d' & I' & ->).
      exists k', d'. split; [exact I'|]. split; [reflexivity|].
      assert (Hk' : strlen k' < 2 ^ 32).
      { rewrite Forall_forall in ShM. apply (ShM (k', d') I'). }
      unfold entry_of. cbn [e_hdr]. unfold header_of.
      destruct (String.eqb_spec P EmptyString); [contradiction|]. cbn [fst prefix_bytes].
      apply (common_prefix_between P k' k).
      - apply (HPM (k', d') I').
      - apply (HA k' d'). rewrite EA. apply in_or_app. right. right. exact I'.
      - rewrite <- Cp. exact N0. }
    exists (entries_of EmptyString A0), (entry_of EmptyString P dP :: entries_of P M), e,
      (entries_of P' R), P.
    split; [|split; [reflexivity|]; split; [|split; [|split]]].
    + rewrite Ees, EeA, <- app_assoc. reflexivity.
    + rewrite Ees, EeA, <- app_assoc. cbn [app].
      rewrite index_of_app. cbn [index_of]. rewrite HP0. cbn [Z.eqb app].
      rewrite EkP, Z.add_0_l.
      rewrite index_of_app.
      rewrite (index_of_none (entries_of P M)).
      2:{ apply Forall_forall. intros e' I. destruct (HM e' I) as (_ & _ & _ & _ & X).
          exact X. }
      cbn [app index_of]. destruct (Z.eqb_spec (prefix_bytes (e_hdr e)) 0); [contradiction|].
      cbn [app]. apply index_walk_pass.
      * intros o' K' I. destruct (index_of_keys A0 _ _ o' K' ShA0 I) as (d' & I').
        apply key_lt_not_ltb. apply (HA K' d'). rewrite EA. apply in_or_app. left. exact I'.
      * apply key_lt_not_ltb, HPk.
      * apply HidxR.
    + intros e' [<-|I].
      * rewrite (matches_entry EmptyString P P dP k HP (or_introl HP0)).
        f_equal. apply (Hpre P dP).
        -- unfold kvs. rewrite EA. apply in_or_app. left. apply in_or_app. right. apply in_eq.
        -- apply key_lt_neq, HPk.
      * destruct (HM e' I) as (k' & d' & I' & -> & _).
        assert (Hk' : strlen k' < 2 ^ 32).
        { rewrite Forall_forall in ShM. apply (ShM (k', d') I'). }
        rewrite (matches_entry P P k' d' k Hk' (or_intror eq_refl)).
        f_equal. apply (Hpre k' d').
        -- unfold kvs. rewrite EA. apply in_or_app. left. apply in_or_app. right. right.
           exact I'.
        -- apply key_lt_neq. apply (HA k' d'). rewrite EA. apply in_or_app. right. right.
           exact I'.
    + apply Hself. right. reflexivity.
    + cbn [app tl]. intros e' I. apply in_app_or in I as [I|[<-|[]]]; [|exact N0].
      destruct (HM e' I) as (_ & _ & _ & _ & X). exact X.
Qed.

End SstKeys.

(** ** sstable.h: a table that fits into one block *)

Section SstSingleBlock.
Import sstable.
Context {alloc : allocator}.
Local Infix "+++" := String.append (at level 60, right associativity).

(** *** [build] while everything fits into one block *)

Lemma pairs_size_nonneg kvs : 0 <= pairs_size kvs.
Proof.
  unfold pairs_size. induction kvs as [|[k d] kvs IH]; cbn [map fold_right fst snd]; [lia|].
  pose proof (strlen_nonneg k). pose proof (strlen_nonneg d). lia.
Qed.

Lemma pairs_size_in kvs k d :
  In (k, d) kvs -> 40 + strlen k + strlen d <= pairs_size kvs.
Proof.
  unfold pairs_size. induction kvs as [|[k' d'] kvs IH]; [intros []|].
  cbn [map fold_right fst snd]. pose proof (pairs_size_nonneg kvs) as N. unfold pairs_size in N.
  pose proof (strlen_nonneg k'). pose proof (strlen_nonneg d').
  intros [E|I]; [injection E as -> ->; lia | specialize (IH I); lia].
Qed.

Lemma entry_of_size p k d :
  strlen k < 2 ^ 32 -> strlen d < 2 ^ 32 ->
  18 <= enc_size (entry_of p k d) <= 32 + strlen k + strlen d.
Proof.
  intros Hk Hd. pose proof (enc_size_range _ (entry_of_ok p k d Hk Hd)) as R.
  destruct (entry_of_key p k d Hk) as (_ & _ & L).
  destruct (header_of_fields p k (strlen d) Hk) as (Rp & S & _).
  change (fst (header_of p k (strlen d))) with (e_hdr (entry_of p k d)) in *.
  cbn [e_val entry_of] in R. unfold strlen in *. lia.
Qed.

Lemma build_entry_single cfg w k d last :
  strlen k < 2 ^ 32 -> strlen d < 2 ^ 32 -> 0 <= block_bytes w ->
  block_bytes w + (40 + strlen k + strlen d)
    + 8 * Z.of_nat (length (idx_offsets w)) + 8 <= max_block_size cfg ->
  max_block_size cfg < 2 ^ 64 ->
  let e := entry_of (prefix w) k d in
  let offs := idx_offsets w ++ map fst (index_of (block_bytes w) [e]) in
  exists w',
    build_entry cfg w k {| skiptable.data := Some d; skiptable.size := strlen d |} last
    = Ok w' /\
    prefix w' = snd (header_of (prefix w) k (strlen d)) /\
    block_bytes w' = block_bytes w + enc_size e /\
    idx_offsets w' = offs /\
    blocks w' = (if last then wrap64 (blocks w + 1) else blocks w) /\
    out w' = out w +++ enc e
             +++ (if last then block_footer cfg (block_bytes w + enc_size e) offs
                  else EmptyString).
Proof.
  intros Hk Hd Hb Hfit Hmax e offs.
  pose proof (entry_of_size (prefix w) k d Hk Hd) as Rs. fold e in Rs.
  destruct (header_of_fields (prefix w) k (strlen d) Hk) as (Rp & S & V & _).
  pose proof (strlen_nonneg k) as Hk0. pose proof (strlen_nonneg d) as Hd0.
  unfold build_entry. cbn [skiptable.size skiptable.data].
  rewrite (header_from_short _ _ _ Hk). cbn [bind].
  rewrite (surjective_pairing (header_of (prefix w) k (strlen d))).
  change (fst (header_of (prefix w) k (strlen d))) with (e_hdr e) in *.
  set (hdr := e_hdr e) in *.
  assert (Eb : wrap64 (sizeof_entry_header + suffix_bytes hdr + padding_bytes (suffix_bytes hdr)
                       + strlen d + padding_bytes (strlen d)) = enc_size e).
  { unfold enc_size. fold hdr. rewrite V. apply wrap64_small. unfold enc_size in Rs.
    fold hdr in Rs. rewrite V in Rs. lia. }
  rewrite Eb.
  set (n := Z.of_nat (length (idx_offsets w))) in *.
  assert (Hroom : (wrap64 (max_block_size cfg - enc_size e
                           - (if prefix_bytes hdr =? 0 then sizeof_uint64 else 0)
                           - n * sizeof_uint64 - sizeof_uint64) <? block_bytes w) = false).
  { unfold sizeof_uint64. apply Z.ltb_ge.
    assert (0 <= n) by (unfold n; lia).
    rewrite wrap64_small; destruct (prefix_bytes hdr =? 0); lia. }
  rewrite Hroom. cbv iota.
  assert (Es : substr k (prefix_bytes hdr) (suffix_bytes hdr) = Ok (e_sfx e)).
  { unfold substr. destruct (Z.ltb_spec (strlen k) (prefix_bytes hdr)); [lia|].
    rewrite S, Z.min_id.
    change (e_sfx e)
      with (substring (Z.to_nat (prefix_bytes hdr)) (Z.to_nat (suffix_bytes hdr)) k).
    rewrite S. reflexivity. }
  rewrite Es. cbn [bind]. destruct (Z.ltb_spec (strlen d) (strlen d)); [lia|].
  cbn [bind].
  replace (substring 0 (Z.to_nat (strlen d)) d) with d
    by (unfold strlen; rewrite Nat2Z.id, substring_all; reflexivity).
  eexists. split; [reflexivity|].
  cbn [prefix block_bytes idx_offsets blocks out snd].
  assert (Eo : (if prefix_bytes hdr =? 0 then idx_offsets w ++ [block_bytes w]
                else idx_offsets w) = offs).
  { unfold offs. cbn [index_of]. fold hdr. destruct (prefix_bytes hdr =? 0); cbn [app map fst];
      [reflexivity | rewrite app_nil_r; reflexivity]. }
  rewrite Eo, (wrap64_small (block_bytes w + enc_size e)) by lia.
  split; [reflexivity|]. split; [reflexivity|]. split; [reflexivity|]. split; [reflexivity|].
  unfold enc. fold hdr. rewrite V. cbn [e_val e entry_of].
  destruct last; rewrite ?string_app_assoc, ?string_app_nil_r; reflexivity.
Qed.


Lemma valof_record s j d :
  index (skiptable.records s) (idxof s j)
  = Ok {| skiptable.data := Some d; skiptable.size := strlen d |} ->
  valof s j = d.
Proof. intros H. unfold valof. rewrite H. reflexivity. Qed.

Lemma entries_of_size kvs : forall p off,
  Forall short_pair kvs ->
  0 <= encs_size (entries_of p kvs) /\
  encs_size (entries_of p kvs)
    + 8 * Z.of_nat (length (index_of off (entries_of p kvs))) <= pairs_size kvs.
Proof.
  unfold pairs_size.
  induction kvs as [|[k d] kvs IH]; intros p off H; cbn [entries_of encs_size index_of map
    fold_right fst snd length]; [lia|].
  pose proof (Forall_inv H) as [Hk Hd]. cbn [fst snd] in Hk, Hd.
  pose proof (entry_of_size p k d Hk Hd) as R.
  destruct (IH (snd (header_of p k (strlen d))) (off + enc_size (entry_of p k d))
              (Forall_inv_tail H)) as [I0 I1].
  rewrite length_app.
  destruct (prefix_bytes (e_hdr (entry_of p k d)) =? 0); cbn [length]; lia.
Qed.

Lemma build_loop_single cfg s a l :
  table_wf s -> path s a l -> Forall short_pair (map (pair_of s) l) ->
  max_block_size cfg < 2 ^ 64 ->
  forall fuel w, (length l <= fuel)%nat -> 0 <= block_bytes w ->
    block_bytes w + pairs_size (map (pair_of s) l)
      + 8 * Z.of_nat (length (idx_offsets w)) + 8 <= max_block_size cfg ->
    exists w', build_loop fuel cfg s a w = Ok w' /\
      (l <> [] ->
       let es := entries_of (prefix w) (map (pair_of s) l) in
       out w' = out w +++ encs es
                +++ block_footer cfg (block_bytes w + encs_size es)
                      (idx_offsets w ++ map fst (index_of (block_bytes w) es)) /\
       blocks w' = wrap64 (blocks w + 1)).
Proof.
  intros W. pose proof (wf_ok s W) as OK. pose proof OK as [L _ _ _ _ _].
  intros Hp Hsh Hmax. induction Hp as [|j l Hj Hp IH]; intros fuel w Hf Hb Hfit.
  - exists w. split; [destruct fuel; reflexivity|]. intros N. destruct (N eq_refl).
  - destruct fuel as [|fuel]; [simpl in Hf; lia|]. cbn [build_loop].
    destruct (wf_records s W j Hj) as (d & Hr).
    destruct (get_node_ok s j d OK Hj Hr) as (nd & D & Kn & G).
    rewrite G, D. cbn [bind].
    pose proof (iterate_nxt s (skiptable.At j) nd 0%nat (lk_levels s L) D ltac:(lia)) as X.
    change (Z.of_nat 0) with 0 in X. rewrite X. cbn [bind].
    assert (Ep : pair_of s j = (keyof s j, d)).
    { unfold pair_of. rewrite (valof_record s j d Hr). reflexivity. }
    cbn [map] in Hsh, Hfit. rewrite Ep in Hsh, Hfit.
    pose proof (Forall_inv Hsh) as [Hk Hd]. cbn [fst snd] in Hk, Hd.
    unfold pairs_size in Hfit. cbn [map fold_right fst snd] in Hfit.
    fold (pairs_size (map (pair_of s) l)) in Hfit.
    pose proof (pairs_size_nonneg (map (pair_of s) l)) as Hps.
    rewrite Kn.
    destruct (build_entry_single cfg w (keyof s j) d
                (match nxt s (skiptable.At j) 0 with None => true | Some _ => false end)
                Hk Hd Hb ltac:(lia) Hmax) as (w1 & -> & P1 & B1 & I1 & K1 & O1).
    cbn [bind].
    pose proof (entry_of_size (prefix w) (keyof s j) d Hk Hd) as Rs.
    assert (Hl1 : (length (idx_offsets w1) <= S (length (idx_offsets w)))%nat).
    { rewrite I1, length_app, length_map. cbn [index_of].
      destruct (prefix_bytes _ =? 0); cbn [app length]; lia. }
    destruct (IH (Forall_inv_tail Hsh) fuel w1 ltac:(simpl in Hf; lia) ltac:(lia) ltac:(lia))
      as (w' & Hw' & Hout).
    exists w'. split; [exact Hw'|]. intros _.
    cbn [map]. rewrite Ep. cbn [entries_of encs encs_size index_of].
    destruct l as [|j' l].
    + inversion Hp as [Hn|]; subst. rewrite <- Hn in *.
      assert (w' = w1) by (destruct fuel; cbn [build_loop] in Hw'; congruence). subst w'.
      cbn [map entries_of encs encs_size index_of]. rewrite string_app_nil_r, Z.add_0_r.
      rewrite O1, K1, app_nil_r. cbn [index_of] in *. rewrite app_nil_r in *.
      split; reflexivity.
    + inversion Hp as [|? ? ? ? Hn]; subst. rewrite <- Hn in *.
      destruct (Hout ltac:(discriminate)) as (Ho & Hbl).
      rewrite Ho, Hbl, O1, K1, P1, B1, I1, string_app_nil_r.
      cbn [index_of]. rewrite app_nil_r, map_app, <- !app_assoc, !string_app_assoc.
      rewrite Z.add_assoc. split; reflexivity.
Qed.


Lemma entry_of_index_key k d :
  strlen k < 2 ^ 32 ->
  prefix_bytes (e_hdr (entry_of EmptyString k d)) = 0 /\ e_sfx (entry_of EmptyString k d) = k.
Proof.
  intros Hk. split; [reflexivity|].
  destruct (entry_of_key EmptyString k d Hk) as (Ek & _).
  change (prefix_bytes (e_hdr (entry_of EmptyString k d))) with 0 in Ek.
  change (Z.to_nat 0) with 0%nat in Ek. rewrite substring_0_0 in Ek. symmetry. exact Ek.
Qed.

(** The first entry of the block is an index entry, and its key is not
    above any key of the block. *)
Lemma block_first A k d R :
  let kvs := A ++ (k, d) :: R in
  StronglySorted (fun a b => key_lt (fst a) (fst b)) kvs -> Forall short_pair kvs ->
  exists e0 rest, entries_of EmptyString kvs = e0 :: rest /\
    prefix_bytes (e_hdr e0) = 0 /\ String.ltb k (e_sfx e0) = false.
Proof.
  intros kvs Hs Hsh. unfold kvs in *. destruct A as [|[k1 d1] A]; cbn [app entries_of] in *.
  - pose proof (Forall_inv Hsh) as [Hk _]. cbn [fst] in Hk.
    destruct (entry_of_index_key k d Hk) as (Z0 & Ek).
    do 2 eexists. split; [reflexivity|]. split; [exact Z0|]. rewrite Ek. apply ltb_irrefl.
  - pose proof (Forall_inv Hsh) as [Hk _]. cbn [fst] in Hk.
    destruct (entry_of_index_key k1 d1 Hk) as (Z0 & Ek).
    do 2 eexists. split; [reflexivity|]. split; [exact Z0|]. rewrite Ek.
    apply key_lt_not_ltb. apply StronglySorted_inv in Hs as [_ F].
    rewrite Forall_forall in F. apply (F (k, d)). apply in_or_app. right. apply in_eq.
Qed.

Lemma sorted_map {A B} (f : A -> B) (R : B -> B -> Prop) l :
  StronglySorted (fun a b => R (f a) (f b)) l -> StronglySorted R (map f l).
Proof.
  induction 1 as [|a l _ IH F]; cbn [map]; constructor; [exact IH|].
  rewrite Forall_forall in *. intros b Hb. apply in_map_iff in Hb as (x & <- & Hx).
  apply F, Hx.
Qed.

Lemma sum_map_add3 {A} (g h : A -> Z) l :
  fold_right Z.add 0 (map (fun a => 40 + g a + h a) l)
  = 40 * Z.of_nat (length l) + fold_right Z.add 0 (map g l) + fold_right Z.add 0 (map h l).
Proof. induction l as [|a l IH]; cbn [map fold_right length]; lia. Qed.

(** The bytes of the pairs of a table. *)
Lemma pairs_size_table s l :
  table_wf s -> Permutation l (seq 0 (length (skiptable.nodes s))) ->
  pairs_size (map (pair_of s) l)
  = key_bytes_of s + live_bytes s + 40 * Z.of_nat (length (skiptable.nodes s)).
Proof.
  intros W Hl. unfold pairs_size. rewrite map_map.
  rewrite (sum_map_ext (fun j => 40 + strlen (keyof s j) + size_at s (idxof s j)) _ l).
  - rewrite (sum_map_perm _ _ _ Hl), sum_map_add3, length_seq.
    unfold key_bytes_of, live_bytes. lia.
  - intros j Hj. apply (Permutation_in _ Hl), in_seq in Hj.
    destruct (wf_records s W j ltac:(lia)) as (d & Hr).
    unfold pair_of. cbn [fst snd]. rewrite (valof_record s j d Hr).
    unfold size_at. rewrite Hr. reflexivity.
Qed.


(** X14. What [build] writes, [get]
    reads back, when the table fits into one block.  For a locked table
    reached from a new one whose keys and values, with 40 bytes for each
    pair and 8 more, fit into a block shorter than 2^32: [build] returns,
    and for every key of the table of which no other key of the table is
    a prefix, [get] on the file returns true and copies out the bytes that
    the table holds for the key. *)
Theorem file_of_one_block_returns_the_value opts ops cfg s j :
  0 <= skiptable.writes_before_lock opts <= 2 ^ 31 - 1 -> Forall op_sound ops ->
  skiptable.run (skiptable.create opts) ops = Ok s ->
  skiptable.locked s = true ->
  (j < length (skiptable.nodes s))%nat ->
  key_bytes_of s + live_bytes s + 40 * Z.of_nat (length (skiptable.nodes s)) + 8
    <= max_block_size cfg < 2 ^ 32 ->
  (forall j', (j' < length (skiptable.nodes s))%nat -> j' <> j ->
     String.prefix (keyof s j') (keyof s j) = false) ->
  exists file d,
    build cfg s = Ok (Some file) /\
    skiptable.get s (keyof s j)
    = Ok (Some {| skiptable.data := Some d; skiptable.size := strlen d |}) /\
    get file (keyof s j) = Ok (Some d).
Proof.
  intros Ho F Hr Lk Hj Hfit Hpre.
  destruct (run_wf ops (skiptable.create opts) (create_wf opts Ho) F) as (s' & Hr' & W).
  rewrite Hr in Hr'. injection Hr' as <-.
  pose proof (wf_ok s W) as OK. pose proof OK as [L (l & B) _ _ _ _].
  destruct (wf_records s W j Hj) as (d & Hd).
  destruct (get_spec s (keyof s j) j OK Hj eq_refl) as (r & Hg & Hr2).
  rewrite Hd in Hr2. injection Hr2 as <-.
  assert (Hl : Permutation l (seq 0 (length (skiptable.nodes s)))).
  { apply NoDup_Permutation; [eapply ascending_NoDup, B | apply seq_NoDup|].
    intros i. rewrite in_seq. split.
    - intros Hi. pose proof (path_valid _ _ _ (bo_path _ _ _ B) i Hi). lia.
    - intros Hi. apply B. lia. }
  set (kvs := map (pair_of s) l).
  assert (Hps : pairs_size kvs + 8 <= max_block_size cfg).
  { unfold kvs. rewrite (pairs_size_table s l W Hl). lia. }
  assert (Hsh : Forall short_pair kvs).
  { apply Forall_forall. intros [k' d'] I. pose proof (pairs_size_in kvs k' d' I).
    pose proof (strlen_nonneg k'). pose proof (strlen_nonneg d').
    unfold short_pair. cbn [fst snd]. lia. }
  assert (Hsort : StronglySorted (fun a b => key_lt (fst a) (fst b)) kvs).
  { unfold kvs. apply sorted_map. exact (bo_asc _ _ _ B). }
  destruct (in_split j l (bo_all _ _ _ B j Hj)) as (l1 & l2 & El).
  assert (Ekvs : kvs = map (pair_of s) l1 ++ (keyof s j, d) :: map (pair_of s) l2).
  { unfold kvs. rewrite El, map_app. cbn [map]. unfold pair_of at 2.
    rewrite (valof_record s j d Hd). reflexivity. }
  assert (Hpre' : forall k' d', In (k', d') kvs -> k' <> keyof s j ->
                    String.prefix k' (keyof s j) = false).
  { intros k' d' I N. unfold kvs in I. apply in_map_iff in I as (j' & E & Ij').
    injection E as <- _. apply Hpre.
    - apply (path_valid _ _ _ (bo_path _ _ _ B) j' Ij').
    - intros ->. apply N. reflexivity. }
  rewrite Ekvs in Hsort, Hsh, Hpre'.
  destruct (block_lookup _ _ _ _ Hsort Hsh Hpre')
    as (E0 & es1 & e & E2 & p & Ees & Ev & Hw & Hno & Hyes & Hpb).
  destruct (block_first _ _ _ _ Hsort Hsh) as (e0 & rest & Ee0 & Z0 & Hge).
  rewrite <- Ekvs in *.
  set (es := entries_of EmptyString kvs) in *.
  assert (Hok : Forall entry_ok es) by (apply entries_of_ok; exact Hsh).
  destruct (entries_of_size kvs EmptyString 0 Hsh) as (Hs0 & Hs1).
  fold es in Hs0, Hs1.
  assert (Sh : keys_short s).
  { intros i Hi. pose proof Hsh as Hsh'. rewrite Forall_forall in Hsh'.
    destruct (Hsh' (pair_of s i)) as [Hk _]; [|exact Hk].
    unfold kvs. apply in_map. apply B, Hi. }
  (* the file *)
  unfold build. rewrite Lk. cbn [negb]. unfold skiptable.first.
  pose proof (iterate_nxt s skiptable.Head (skiptable.head s) 0%nat (lk_levels s L)
                eq_refl ltac:(lia)) as X.
  change (Z.of_nat 0) with 0 in X. rewrite X. cbn [bind].
  destruct (build_loop_ok cfg s _ l W Sh (bo_path _ _ _ B) (length (skiptable.nodes s))
              writer_init) as (w0 & Hw0 & (R1 & R2 & R3 & R4) & _).
  { rewrite (bottom_length s l B). lia. }
  { unfold writer_in_range. simpl. lia. }
  destruct (build_loop_single cfg s _ l W (bo_path _ _ _ B)
              Hsh ltac:(lia)
              (length (skiptable.nodes s)) writer_init) as (w & Hw1 & Hout).
  { rewrite (bottom_length s l B). lia. }
  { simpl. lia. }
  { fold kvs. cbn [block_bytes idx_offsets writer_init length]. lia. }
  rewrite Hw0 in Hw1. injection Hw1 as <-. rewrite Hw0. cbn [bind].
  destruct Hout as (Hout & Hb); [rewrite El; destruct l1; discriminate|].
  cbn [prefix block_bytes idx_offsets out blocks writer_init app String.append] in Hout, Hb.
  fold kvs in Hout. fold es in Hout. rewrite Z.add_0_l in Hout.
  change (wrap64 (0 + 1)) with 1 in Hb.
  do 2 eexists. split; [reflexivity|]. split; [exact Hg|].
  rewrite Hout, Hb, <- Ev. unfold block_footer. rewrite length_map.
  set (idx := index_of 0 es) in *. set (m := Z.of_nat (length idx)) in *.
  assert (Hm : 0 <= m) by (unfold m; lia).
  unfold sizeof_uint64.
  rewrite (wrap64_small (8 * (m + 1))) by lia.
  rewrite (wrap64_small (max_block_size cfg - 8 * (m + 1))) by lia.
  rewrite !string_app_assoc.
  apply (get_block _ es _ (keyof s j) E0 es1 e E2 p); cbn [block_size block_count magic
    entry_count key_bytes footer_value_bytes]; try assumption; try lia; try reflexivity.
  - fold idx m. rewrite strlen_zeros, Z2Nat.id by lia. lia.
  - exists e0, rest. auto.
Qed.

End SstSingleBlock.

(** ** wal.h: lines read and records logged *)

Section WalProps.
Import walfile.
Context {alloc : allocator}.

Lemma take_line_app line r :
  no_newline line = true -> take_line (line ++ newline ++ r) = (line, Some r).
Proof.
  unfold no_newline. induction line as [|c line IH]; cbn [lacks String.append]; intros H.
  - reflexivity.
  - apply andb_true_iff in H as [Hc Hl]. cbn [take_line].
    destruct (Ascii.eqb c (ascii_of_N 10)); [discriminate|].
    rewrite (IH Hl). reflexivity.
Qed.

Lemma take_line_last line :
  no_newline line = true -> take_line line = (line, None).
Proof.
  unfold no_newline. induction line as [|c line IH]; cbn [lacks]; intros H; [reflexivity|].
  apply andb_true_iff in H as [Hc Hl]. cbn [take_line].
  destruct (Ascii.eqb c (ascii_of_N 10)); [discriminate|].
  rewrite (IH Hl). reflexivity.
Qed.

Lemma getline_line line r :
  no_newline line = true ->
  getline (open (line ++ newline ++ r)) = (line, open r).
Proof.
  intros H. unfold getline, open, good. cbn [eofbit failbit negb andb rest].
  rewrite (take_line_app line r H). reflexivity.
Qed.

Lemma read_pairs_lines kvs : forall fuel acc,
  kvs <> [] ->
  Forall (fun kv => no_newline (fst kv) = true /\ no_newline (snd kv) = true) kvs ->
  (length kvs <= fuel)%nat ->
  read_pairs fuel (open (wal_lines kvs)) acc = Ok (acc ++ kvs).
Proof.
  induction kvs as [|[k v] kvs IH]; intros fuel acc Hne F Hf; [congruence|].
  inversion F as [|? ? [Hk Hv] F']; subst. cbn [fst snd] in *.
  destruct fuel as [|fuel]; [simpl in Hf; lia|].
  destruct kvs as [|kv2 kvs].
  - cbn [wal_lines read_pairs]. change (good (open _)) with true. cbn [negb].
    rewrite (getline_line k v Hk). change (good (open v)) with true. cbn [assert bind].
    unfold getline. change (good (open v)) with true. cbn [negb open rest].
    rewrite (take_line_last v Hv).
    destruct fuel; cbn [read_pairs good eofbit failbit negb andb]; reflexivity.
  - change (wal_lines ((k, v) :: kv2 :: kvs))
      with (k ++ newline ++ v ++ newline ++ wal_lines (kv2 :: kvs))%string.
    cbn [read_pairs]. change (good (open _)) with true. cbn [negb].
    rewrite (getline_line k _ Hk). change (good (open _)) with true. cbn [assert bind].
    rewrite (getline_line v _ Hv).
    rewrite IH; [|discriminate|exact F'|simpl in *; lia].
    rewrite <- app_assoc. reflexivity.
Qed.

(** X15. The read loop of [load]
    takes a log apart at its newlines: from a file that holds one or more
    records, each a key line and a value line without newline bytes, with
    a newline between two records and none after the last, it collects
    exactly these pairs, in the order of the file, and no [assert]
    fails. *)
Theorem load_reads_newline_separated_pairs kvs :
  kvs <> [] ->
  Forall (fun kv => no_newline (fst kv) = true /\ no_newline (snd kv) = true) kvs ->
  read_pairs (S (String.length (wal_lines kvs))) (open (wal_lines kvs)) [] = Ok kvs.
Proof.
  intros Hne F. rewrite read_pairs_lines; auto.
  clear. induction kvs as [|[k v] kvs IH]; [simpl; lia|].
  destruct kvs as [|kv2 kvs].
  - simpl. lia.
  - change (wal_lines ((k, v) :: kv2 :: kvs))
      with (k ++ newline ++ v ++ newline ++ wal_lines (kv2 :: kvs))%string.
    rewrite !string_length_app. cbn [length] in *. simpl (String.length newline). lia.
Qed.

(** *** [log] on one thread *)

Lemma at_Ok {A} (l : list A) i a : index l i = Ok a -> at_ l i = Ok a.
Proof. unfold at_. intros ->. reflexivity. Qed.

Lemma log_ok table w j :
  table_wf table -> (j < length (skiptable.nodes table))%nat -> wal_ok w ->
  exists w' d,
    log w table (Some j) = Ok w' /\ wal_ok w' /\ config w' = config w /\
    index (skiptable.records table) (idxof table j)
      = Ok {| skiptable.data := Some d; skiptable.size := strlen d |} /\
    logfile w' = (logfile w ++ keyof table j ++ newline ++ d)%string.
Proof.
  intros W Hj (Hl & Hq & Hr & Hw).
  pose proof (wf_ok table W) as OK.
  destruct (wf_records table W j Hj) as (d & Hd).
  pose proof OK as [_ _ _ _ _ I]. specialize (I j Hj).
  unfold log, modulo. rewrite Hw.
  set (lim := concurrent_put_limit (config w)) in *.
  destruct (Z.eqb_spec lim 0); [lia|]. cbn [bind].
  rewrite (wrap64_small (read w + 1)) by lia.
  assert (Hnext : (read w + 1) mod lim <> read w).
  { destruct (Z.eq_dec (read w + 1) lim) as [E|E].
    - rewrite E, Z.mod_same by lia. lia.
    - rewrite Z.mod_small by lia. lia. }
  destruct (Z.eqb_spec ((read w + 1) mod lim) (read w)); [contradiction|].
  destruct (index_total (putq w) (read w) ltac:(lia)) as (old & Hold).
  rewrite (at_Ok _ _ _ Hold). cbn [bind].
  assert (Hst : store (putq w) (read w) (Some j)
                = Ok (upd (putq w) (Z.to_nat (read w)) (Some j))).
  { apply store_Ok. split; [lia | reflexivity]. }
  rewrite Hst. cbn [bind].
  destruct (Z.to_nat lim) as [|fuel] eqn:Ef; [lia|].
  cbn [drain read write putq config logfile].
  destruct (Z.eqb_spec (read w) ((read w + 1) mod lim)); [lia|].
  assert (Hat : index (upd (putq w) (Z.to_nat (read w)) (Some j)) (read w) = Ok (Some j)).
  { apply index_Ok. rewrite upd_length. split; [lia|]. apply nth_error_upd_same. lia. }
  rewrite (at_Ok _ _ _ Hat). cbn [bind].
  assert (Hst2 : store (upd (putq w) (Z.to_nat (read w)) (Some j)) (read w) None
                 = Ok (upd (upd (putq w) (Z.to_nat (read w)) (Some j))
                         (Z.to_nat (read w)) None)).
  { apply store_Ok. rewrite upd_length. split; [lia | reflexivity]. }
  rewrite Hst2. cbn [bind].
  unfold skiptable.get_node. cbn [skiptable.deref].
  unfold idxof, keyof in *.
  destruct (nth_error (skiptable.nodes table) j) as [nd|] eqn:E;
    [|apply nth_error_None in E; lia].
  cbn [bind].
  destruct (Z.ltb_spec (skiptable.record_idx nd) 0); [lia|].
  destruct (Z.leb_spec (skiptable.next_record table) (skiptable.record_idx nd)); [lia|].
  cbn [orb]. rewrite Hd. cbn [bind skiptable.data skiptable.size].
  rewrite (wrap64_small (read w + 1)) by lia. unfold modulo. fold lim.
  destruct (Z.eqb_spec lim 0); [lia|]. cbn [bind].
  assert (Hsub : substring 0 (Z.to_nat (strlen d)) d = d).
  { unfold strlen. rewrite Nat2Z.id. apply substring_all. }
  rewrite Hsub.
  destruct fuel as [|fuel]; cbn [drain read write]; rewrite Z.eqb_refl;
    (eexists; exists d; split; [reflexivity|]; split;
      [unfold wal_ok; cbn [config putq read write]; rewrite !upd_length;
       fold lim; pose proof (Z.mod_pos_bound (read w + 1) lim ltac:(lia)); repeat split; lia
      |split; [reflexivity|]; split; [reflexivity|];
       cbn [logfile]; rewrite ?string_app_assoc; reflexivity]).
Qed.

(** X16. [log] on one thread appends one
    record and drains the queue: with a queue of two or more slots that is
    drained, the call for a node of a table reached from a new one returns,
    the file has grown by the key, a newline and the bytes of the node's
    value (and no newline after them), and the queue is drained again. *)
Theorem log_appends_key_and_value opts ops table w j :
  0 <= skiptable.writes_before_lock opts <= 2 ^ 31 - 1 -> Forall op_sound ops ->
  skiptable.run (skiptable.create opts) ops = Ok table ->
  (j < length (skiptable.nodes table))%nat -> wal_ok w ->
  exists w' d,
    log w table (Some j) = Ok w' /\ wal_ok w' /\ config w' = config w /\
    index (skiptable.records table) (idxof table j)
      = Ok {| skiptable.data := Some d; skiptable.size := strlen d |} /\
    logfile w' = (logfile w ++ keyof table j ++ newline ++ d)%string.
Proof.
  intros Ho F Hrun Hj Hw.
  destruct (run_wf ops (skiptable.create opts) (create_wf opts Ho) F) as (s0 & Hrun0 & W).
  rewrite Hrun in Hrun0. injection Hrun0 as <-.
  apply log_ok; assumption.
Qed.

(** X17. [concurrent_put_limit] must be 2 or
    more: with 0 the index computation of [log] divides by zero, and with
    1 the queue counts as full whenever [read] is 0, so the call retries
    for ever. *)
Theorem log_needs_a_queue_of_two w table node :
  (concurrent_put_limit (config w) = 0 -> log w table node = Fault DivisionByZero) /\
  (concurrent_put_limit (config w) = 1 -> read w = 0 ->
   log w table node = Fault NoProgress).
Proof.
  unfold log, modulo. split.
  - intros ->. reflexivity.
  - intros -> ->. cbn [Z.eqb bind]. rewrite Z.mod_1_r. reflexivity.
Qed.

End WalProps.

(** ** kvstore.h: what [put], [get] and the background thread keep *)

Section StoreProps.
Import kvstore.
Context {alloc : allocator}.

(** [find] and [get] of a table look at its nodes and records only. *)
Lemma find_level_same s s' k i :
  skiptable.head s' = skiptable.head s -> skiptable.nodes s' = skiptable.nodes s ->
  forall fuel n, skiptable.find_level fuel s' k n i = skiptable.find_level fuel s k n i.
Proof.
  intros Hh Hn. induction fuel as [|fuel IH]; intros n; cbn [skiptable.find_level];
    [reflexivity|].
  assert (D : forall r, skiptable.deref s' r = skiptable.deref s r).
  { intros [|j]; cbn [skiptable.deref]; rewrite ?Hh, ?Hn; reflexivity. }
  rewrite (D n). destruct (skiptable.deref s n) as [nd|e]; [|reflexivity]. cbn [bind].
  destruct (skiptable.iterate nd i) as [[j|]|e]; try reflexivity. cbn [bind].
  rewrite (D (skiptable.At j)).
  destruct (skiptable.deref s (skiptable.At j)) as [nd2|e]; [|reflexivity]. cbn [bind].
  destruct (String.compare k (skiptable.key nd2)); try reflexivity. apply IH.
Qed.

Lemma find_from_same s s' k :
  skiptable.head s' = skiptable.head s -> skiptable.nodes s' = skiptable.nodes s ->
  forall levels fuel n,
    skiptable.find_from fuel s' k n levels = skiptable.find_from fuel s k n levels.
Proof.
  intros Hh Hn. induction levels as [|i IH]; intros fuel n; cbn [skiptable.find_from];
    [reflexivity|].
  rewrite (find_level_same s s' k _ Hh Hn).
  destruct (skiptable.find_level fuel s k n (Z.of_nat i)) as [[n'|j]|e]; try reflexivity.
  cbn [bind]. apply IH.
Qed.

Lemma get_locked s k : skiptable.get (snd (skiptable.lock s)) k = skiptable.get s k.
Proof.
  unfold skiptable.get, skiptable.find.
  rewrite (find_from_same s (snd (skiptable.lock s)) k eq_refl eq_refl). reflexivity.
Qed.

Lemma get_fresh opts k : skiptable.get (skiptable.create opts) k = Ok None.
Proof. reflexivity. Qed.

Lemma get_save_memtable s k : get (save_memtable s) k = get s k.
Proof.
  unfold save_memtable. destruct (skiptable.empty (mtable s)); [reflexivity|].
  unfold get. cbn [mtable hist sstq get_hist].
  rewrite get_fresh. cbn [bind]. rewrite get_locked. reflexivity.
Qed.

(** X18. Moving the memtable to the
    history changes no answer of [get]: [save_memtable] leaves a store
    with an empty memtable as it is, and otherwise puts the locked
    memtable in front of the history and starts a new one, and [get] of
    every key returns after the call what it returned before. *)
Theorem save_memtable_keeps_every_answer s :
  (skiptable.empty (mtable s) = true -> save_memtable s = s) /\
  (skiptable.empty (mtable s) = false ->
   hist (save_memtable s) = snd (skiptable.lock (mtable s)) :: hist s /\
   mtable (save_memtable s) = skiptable.create (memtable_options (config s))) /\
  forall k, get (save_memtable s) k = get s k.
Proof.
  split; [|split].
  - intros E. unfold save_memtable. rewrite E. reflexivity.
  - intros E. unfold save_memtable. rewrite E. split; reflexivity.
  - apply get_save_memtable.
Qed.

Lemma copy_out_value v :
  copy_out {| skiptable.data := Some (substring 0 (Z.to_nat (strlen v)) v);
              skiptable.size := strlen v |} = Ok v.
Proof.
  unfold copy_out. cbn [skiptable.data skiptable.size].
  assert (E : substring 0 (Z.to_nat (strlen v)) v = v).
  { unfold strlen. rewrite Nat2Z.id. apply substring_all. }
  rewrite E. destruct (Z.ltb_spec (strlen v) (strlen v)); [lia|]. rewrite E. reflexivity.
Qed.

Lemma fresh_unlocked c :
  config_sane c -> skiptable.locked (skiptable.create (memtable_options c)) = false.
Proof.
  intros (Hw & Hd & Ht & _). unfold skiptable.locked, skiptable.create. simpl.
  unfold to_size_t, wrap64. rewrite Z.mod_0_l by lia.
  destruct (Z.leb_spec (skiptable.total_data_limit (memtable_options c)) 0); [lia|].
  destruct (Z.leb_spec (skiptable.writes_before_lock (memtable_options c)) 0); [lia|].
  destruct (Z.leb_spec (skiptable.data_limit (memtable_options c)) 0); [lia|].
  reflexivity.
Qed.

Lemma create_store_ok c : config_sane c -> store_ok (create c).
Proof.
  intros S. pose proof S as (Hw & Hd & Ht & Hl & Hb). constructor; cbn [create config mtable wal hist].
  - exact S.
  - apply create_wf. lia.
  - reflexivity.
  - unfold wal_ok, walfile.create. cbn. rewrite repeat_length. lia.
  - constructor.
Qed.

Lemma save_memtable_ok s : store_ok s -> store_ok (save_memtable s).
Proof.
  intros [S M C W H]. unfold save_memtable.
  destruct (skiptable.empty (mtable s)); [constructor; assumption|].
  pose proof S as (Hw & _).
  constructor; cbn [config mtable wal hist]; auto.
  - apply create_wf. lia.
  - constructor; [|exact H]. split; [apply lock_wf, M|].
    unfold skiptable.locked, skiptable.lock. simpl. apply orb_true_r.
Qed.

(** A [put] into a memtable that takes writes. *)
Lemma put_unlocked n s k v draws i :
  store_ok s -> skiptable.locked (mtable s) = false -> malloc_ok (strlen v) = true ->
  skiptable.random_level (draws i) < skiptable.MAX_TABLE_LEVELS ->
  exists s',
    put_retry (S n) s k v draws i = Ok s' /\ store_ok s' /\
    config s' = config s /\ hist s' = hist s /\ sstq s' = sstq s /\
    skiptable.get (mtable s') k
    = Ok (Some {| skiptable.data := Some (substring 0 (Z.to_nat (strlen v)) v);
                  skiptable.size := strlen v |}) /\
    (forall k', k' <> k -> skiptable.get (mtable s') k' = skiptable.get (mtable s) k') /\
    walfile.logfile (wal s') = (walfile.logfile (wal s) ++ k ++ walfile.newline ++ v)%string.
Proof.
  intros [S M C W H] Lk Ma Hlv. cbn [put_retry].
  pose proof (strlen_nonneg v) as Hv.
  destruct (insert_wf (mtable s) k v (strlen v) (draws i) M Hlv Hv ltac:(lia))
    as (r & table & Hi & M' & Eff).
  destruct (insert_ok (mtable s) k v (strlen v) (draws i) (wf_ok _ M) Hlv ltac:(lia))
    as (r0 & table0 & Hi0 & OK' & Acc & _).
  rewrite Hi in Hi0. injection Hi0 as <- <-.
  destruct (Acc Lk Ma) as (j & -> & Vj & Kj & Ij & Nx & Rj).
  rewrite Hi. cbn [bind wal].
  destruct (log_ok table (wal s) j M' Vj W) as (w' & d & Hl & W' & Cw & Hd & Hf).
  rewrite Hl. cbn [bind]. eexists. split; [reflexivity|].
  cbn [config mtable wal hist sstq].
  destruct (get_spec table k j OK' Vj Kj) as (rec & G & Hr).
  rewrite Ij, Rj in Hr. injection Hr as <-.
  split; [|split; [reflexivity|split; [reflexivity|split; [reflexivity|split;
    [exact G|split]]]]].
  - constructor; cbn [config mtable wal hist]; auto.
    destruct Eff as (Cf & _). congruence.
  - intros k' Hne. eapply insert_get_other; eauto. apply (wf_ok _ M).
  - rewrite Hf, Kj. rewrite Ij, Rj in Hd. injection Hd as Hd _.
    rewrite <- Hd. unfold strlen. rewrite Nat2Z.id, substring_all. reflexivity.
Qed.

Lemma put_read_back s k v draws :
  store_ok s ->
  (skiptable.locked (mtable s) = true -> skiptable.empty (mtable s) = false) ->
  malloc_ok (strlen v) = true ->
  skiptable.random_level (draws 0%nat) < skiptable.MAX_TABLE_LEVELS ->
  skiptable.random_level (draws 1%nat) < skiptable.MAX_TABLE_LEVELS ->
  exists s',
    put_retry 2 s k v draws 0 = Ok s' /\ store_ok s' /\
    get s' k = Ok (Some v) /\
    (forall k', k' <> k -> get s' k' = get s k') /\
    hist s' = (if skiptable.locked (mtable s)
               then snd (skiptable.lock (mtable s)) :: hist s else hist s).
Proof.
  intros OK Hne Ma L0 L1. destruct (skiptable.locked (mtable s)) eqn:Lk.
  - specialize (Hne eq_refl).
    set (s1 := save_memtable s).
    assert (E1 : s1 = {| config := config s;
                         mtable := skiptable.create (memtable_options (config s));
                         wal := wal s;
                         hist := snd (skiptable.lock (mtable s)) :: hist s;
                         sstq := sstq s; clock := clock s |}).
    { unfold s1, save_memtable. rewrite Hne. reflexivity. }
    assert (OK1 : store_ok s1) by (apply save_memtable_ok, OK).
    assert (Lk1 : skiptable.locked (mtable s1) = false).
    { rewrite E1. apply fresh_unlocked, OK. }
    destruct (put_unlocked 0 s1 k v draws 1 OK1 Lk1 Ma L1)
      as (s' & Hp & OK' & Cf & Hh & Hq & G & Go & _).
    exists s'. split.
    { cbn [put_retry]. unfold skiptable.insert. rewrite Lk. cbn [bind].
      replace (save_memtable _) with s1; [exact Hp|].
      unfold s1, save_memtable. cbn [mtable config wal hist sstq clock].
      rewrite Hne. reflexivity. }
    split; [exact OK'|]. split; [|split].
    + unfold get. cbn [get_hist]. rewrite G. cbn [bind]. rewrite copy_out_value. reflexivity.
    + intros k' Hk. rewrite <- (get_save_memtable s k'). fold s1.
      unfold get. cbn [get_hist]. rewrite (Go k' Hk), Hh, Hq. reflexivity.
    + rewrite Hh, E1. reflexivity.
  - destruct (put_unlocked 1 s k v draws 0 OK Lk Ma L0)
      as (s' & Hp & OK' & Cf & Hh & Hq & G & Go & _).
    exists s'. split; [exact Hp|]. split; [exact OK'|]. split; [|split].
    + unfold get. cbn [get_hist]. rewrite G. cbn [bind]. rewrite copy_out_value. reflexivity.
    + intros k' Hk. unfold get. cbn [get_hist]. rewrite (Go k' Hk), Hh, Hq. reflexivity.
    + exact Hh.
Qed.

(** *** The invariant of the store *)

Lemma put_retry_ok k v draws :
  (forall i, skiptable.random_level (draws i) < skiptable.MAX_TABLE_LEVELS) ->
  forall retries s i s',
    store_ok s -> put_retry retries s k v draws i = Ok s' -> store_ok s'.
Proof.
  intros Hlv. induction retries as [|retries IH]; intros s i s' OK H; [discriminate|].
  cbn [put_retry] in H. pose proof OK as [S M C W Hh].
  pose proof (strlen_nonneg v) as Hv.
  destruct (insert_wf (mtable s) k v (strlen v) (draws i) M (Hlv i) Hv ltac:(lia))
    as (r & table & Hi & M' & Eff).
  rewrite Hi in H. cbn [bind] in H.
  assert (Cf : skiptable.config table = memtable_options (config s)).
  { destruct Eff as (Cf & _). congruence. }
  destruct r as [j|].
  - cbn [wal] in H.
    assert (Vj : (j < length (skiptable.nodes table))%nat).
    { destruct Eff as (_ & _ & E). destruct (skiptable.locked (mtable s)).
      { destruct E as (? & _). discriminate. }
      destruct E as (_ & E). destruct (malloc_ok (strlen v)).
      2:{ destruct E as (? & _). discriminate. }
      destruct E as (_ & _ & j' & [= <-] & _ & _ & [(-> & -> & _)|(? & -> & _)]); lia. }
    destruct (log_ok table (wal s) j M' Vj W) as (w' & d & Hl & W' & _).
    rewrite Hl in H. cbn [bind] in H. injection H as <-.
    constructor; cbn [config mtable wal hist]; auto.
  - refine (IH _ _ _ (save_memtable_ok _ _) H).
    constructor; cbn [config mtable wal hist]; auto.
Qed.




(** What a flush leaves, when it returns. *)
Lemma flush_memtables_keeps s s' :
  store_ok s -> flush_memtables s = Ok s' ->
  store_ok s' /\ config s' = config s /\ hist s' = [] /\
  mtable s' = mtable (save_memtable s) /\
  wal s' = walfile.create (wal_options (config s)).
Proof.
  intros OK H. pose proof (save_memtable_ok s OK) as [S M C W Hh].
  unfold flush_memtables in H. bind_inv H. destruct a as [q now]. injection H as <-.
  assert (Cs : config (save_memtable s) = config s).
  { unfold save_memtable. destruct (skiptable.empty (mtable s)); reflexivity. }
  cbn [config hist mtable wal sstq]. rewrite Cs in *.
  split; [|auto].
  constructor; cbn [config mtable wal hist]; auto.
  pose proof S as (_ & _ & _ & Hq & _).
  unfold wal_ok, walfile.create. cbn. rewrite repeat_length. lia.
Qed.



Lemma background_keeps s s' : store_ok s -> background s = Ok s' -> store_ok s'.
Proof.
  intros OK H. unfold background in H.
  destruct (memtable_history (config s) <? Z.of_nat (length (hist s))).
  - apply (flush_memtables_keeps s s' OK H).
  - injection H as <-. exact OK.
Qed.

Lemma run_store_ok retries ops : forall s answers s',
  store_ok s -> Forall op_ok ops -> run retries s ops = Ok (answers, s') -> store_ok s'.
Proof.
  induction ops as [|o ops IH]; intros s answers s' OK F H; cbn [run] in H.
  - injection H as <- <-. exact OK.
  - inversion F as [|? ? Fo F']; subst. destruct o as [k v draws|k|].
    + bind_inv H. apply (IH a answers s'); auto.
      apply (put_retry_ok k v draws Fo retries s 0%nat a OK Ha).
    + bind_inv H. bind_inv H. destruct a0 as [ans s1]. injection H as <- <-.
      apply (IH s ans s1); auto.
    + bind_inv H. apply (IH a answers s'); auto.
      apply (background_keeps s a OK Ha).
Qed.

(** *** Keys shorter than 2^32 bytes *)




(** X19. A [put] is read back, and changes the answer
    for no other key.  On every store reached from a new one by [put]s,
    [get]s and wake-ups of the background thread, a [put] of a value that
    [malloc] has room for returns after at most one retry, unless the
    memtable is locked while [empty()] holds (it then holds zero-length
    values only); [get] of the key then copies out the bytes put, [get] of
    every other key returns what it returned before, and a locked memtable
    has been put in front of the history. *)
Theorem put_is_read_back retries cfg ops answers s k v draws :
  config_sane cfg -> Forall op_ok ops ->
  run retries (create cfg) ops = Ok (answers, s) ->
  (skiptable.locked (mtable s) = true -> skiptable.empty (mtable s) = false) ->
  malloc_ok (strlen v) = true ->
  skiptable.random_level (draws 0%nat) < skiptable.MAX_TABLE_LEVELS ->
  skiptable.random_level (draws 1%nat) < skiptable.MAX_TABLE_LEVELS ->
  exists s',
    put_retry 2 s k v draws 0 = Ok s' /\
    get s' k = Ok (Some v) /\
    (forall k', k' <> k -> get s' k' = get s k') /\
    hist s' = (if skiptable.locked (mtable s)
               then snd (skiptable.lock (mtable s)) :: hist s else hist s).
Proof.
  intros S F H Hne Ma L0 L1.
  pose proof (run_store_ok retries ops _ _ _ (create_store_ok cfg S) F H) as OK.
  destruct (put_read_back s k v draws OK Hne Ma L0 L1) as (s' & Hp & _ & G & Go & Hh).
  exists s'. auto.
Qed.


End StoreProps.

(** ** tool.cpp: commands and sessions *)

Section ToolProps.
Import tool.
Context {alloc : allocator}.
Local Infix "+++" := String.append (at level 60, right associativity).
Local Open Scope string_scope.

Lemma take_until_app d word r :
  lacks d word = true ->
  take_until d (word +++ String d r) = (word, Some r).
Proof.
  induction word as [|c word IH]; cbn [lacks String.append take_until]; intros H.
  - rewrite Ascii.eqb_refl. reflexivity.
  - apply andb_true_iff in H as [Hc Hl].
    destruct (Ascii.eqb c d); [discriminate|]. rewrite (IH Hl). reflexivity.
Qed.

Lemma take_until_last d word :
  lacks d word = true -> take_until d word = (word, None).
Proof.
  induction word as [|c word IH]; cbn [lacks take_until]; intros H; [reflexivity|].
  apply andb_true_iff in H as [Hc Hl].
  destruct (Ascii.eqb c d); [discriminate|]. rewrite (IH Hl). reflexivity.
Qed.

Lemma getline_word word r :
  lacks space word = true ->
  getline space (walfile.open (word +++ String space r)) = (word, walfile.open r).
Proof.
  intros H. unfold getline, walfile.open, walfile.good.
  cbn [walfile.eofbit walfile.failbit negb andb walfile.rest].
  rewrite (take_until_app space word r H). reflexivity.
Qed.

Lemma getline_last_word word :
  lacks space word = true -> word <> EmptyString ->
  exists ss, getline space (walfile.open word) = (word, ss) /\ walfile.failbit ss = false.
Proof.
  intros H Hne. unfold getline, walfile.open, walfile.good.
  cbn [walfile.eofbit walfile.failbit negb andb walfile.rest].
  rewrite (take_until_last space word H). eexists. split; [reflexivity|].
  cbn [walfile.failbit]. apply String.eqb_neq. exact Hne.
Qed.

(** What [parse] does after the words [put] and [get]. *)
Lemma parse_put_line tail :
  parse ("put " +++ tail)
  = let '(key, ss2) := getline space (walfile.open tail) in
    if walfile.failbit ss2 then Skip
    else let '(val, ss3) := getline space ss2 in
         if walfile.failbit ss3 then Skip else Put key val.
Proof.
  unfold parse.
  change ("put " +++ tail) with ("put" +++ String space tail).
  rewrite getline_word by reflexivity. reflexivity.
Qed.

Lemma parse_get_line tail :
  parse ("get " +++ tail)
  = let '(key, ss2) := getline space (walfile.open tail) in
    if walfile.failbit ss2 then Skip else Get key.
Proof.
  unfold parse.
  change ("get " +++ tail) with ("get" +++ String space tail).
  rewrite getline_word by reflexivity.
  cbn [walfile.failbit walfile.open String.eqb Ascii.eqb Bool.eqb andb].
  destruct (getline space (walfile.open tail)) as [key ss2].
  destruct (walfile.failbit ss2); reflexivity.
Qed.

Lemma parse_put k v :
  lacks space k = true -> lacks space v = true -> v <> EmptyString ->
  parse ("put " +++ k +++ " " +++ v) = Put k v.
Proof.
  intros Hk Hv Hne.
  rewrite parse_put_line. change (k +++ " " +++ v) with (k +++ String space v).
  rewrite (getline_word k v Hk). cbn [walfile.failbit walfile.open].
  destruct (getline_last_word v Hv Hne) as (ss & E & F).
  change {| walfile.rest := v; walfile.eofbit := false; walfile.failbit := false |}
    with (walfile.open v).
  rewrite E, F. reflexivity.
Qed.

Lemma parse_get k :
  lacks space k = true -> k <> EmptyString -> parse ("get " +++ k) = Get k.
Proof.
  intros Hk Hkne.
  rewrite parse_get_line. destruct (getline_last_word k Hk Hkne) as (ss & E & F).
  rewrite E, F. reflexivity.
Qed.

(** X21. A command line is split at single
    spaces.  For a key and a value without spaces, the value not empty:
    [put k v] puts [v] under [k], and what follows a further space is
    dropped; [get k] asks for a key that is not empty, and what follows a
    further space is dropped; [get] without a key, [put] without a value
    and the empty line do nothing; and a line whose first word is [quit]
    ends the loop. *)
Theorem commands_are_split_at_spaces k v rest :
  lacks space k = true -> lacks space v = true -> v <> EmptyString ->
  parse ("put " +++ k +++ " " +++ v) = Put k v /\
  parse ("put " +++ k +++ " " +++ v +++ " " +++ rest) = Put k v /\
  (k <> EmptyString -> parse ("get " +++ k) = Get k /\
                       parse ("get " +++ k +++ " " +++ rest) = Get k) /\
  parse "get" = Skip /\ parse "get " = Skip /\ parse ("put " +++ k) = Skip /\
  parse ("quit " +++ rest) = Quit /\ parse EmptyString = Skip.
Proof.
  intros Hk Hv Hne.
  split; [|split; [|split; [|split; [|split; [|split; [|split]]]]]].
  - apply parse_put; assumption.
  - rewrite parse_put_line. change (k +++ " " +++ v +++ " " +++ rest)
      with (k +++ String space (v +++ String space rest)).
    rewrite (getline_word k _ Hk). cbn [walfile.failbit walfile.open].
    change {| walfile.rest := v +++ String space rest; walfile.eofbit := false;
              walfile.failbit := false |}
      with (walfile.open (v +++ String space rest)).
    rewrite (getline_word v rest Hv). reflexivity.
  - intros Hkne. split.
    + apply parse_get; assumption.
    + rewrite parse_get_line. change (k +++ " " +++ rest) with (k +++ String space rest).
      rewrite (getline_word k rest Hk). reflexivity.
  - reflexivity.
  - reflexivity.
  - rewrite parse_put_line. destruct k as [|c k].
    + reflexivity.
    + destruct (getline_last_word (String c k) Hk ltac:(discriminate)) as (ss & E & F).
      rewrite E, F. unfold getline.
      assert (Gd : walfile.good ss = false).
      { unfold getline, walfile.open, walfile.good in E.
        cbn [walfile.eofbit walfile.failbit negb andb walfile.rest] in E.
        rewrite (take_until_last space _ Hk) in E. injection E as <-. reflexivity. }
      rewrite Gd. reflexivity.
  - unfold parse. change ("quit " +++ rest) with ("quit" +++ String space rest).
    rewrite getline_word by reflexivity. reflexivity.
  - reflexivity.
Qed.

Lemma lacks_app d a b : lacks d (a +++ b) = lacks d a && lacks d b.
Proof.
  induction a as [|c a IH]; cbn [String.append lacks]; [reflexivity|].
  rewrite IH. apply andb_assoc.
Qed.

(** X22. The loop of [main] is left by
    [quit] only: once the standard input is at its end (or has failed),
    every further turn reads an empty line and does nothing, so [main]
    does not return, whatever the number of turns. *)
Theorem tool_never_stops_at_end_of_input fuel retries store cin draws n cout :
  walfile.good cin = false ->
  main fuel retries store cin draws n cout = Fault NoProgress.
Proof.
  revert cin n cout. induction fuel as [|fuel IH]; intros cin n cout Hg; [reflexivity|].
  cbn [main]. unfold walfile.getline at 1. rewrite Hg. cbn [negb].
  change (parse "") with Skip. cbv iota. apply IH.
  unfold walfile.good. cbn [walfile.failbit]. apply andb_false_r.
Qed.

(** X23. A session: on a new store, the
    input [put k v], [get k], [quit] (one command per line; key and value
    not empty and without spaces or newlines) makes the tool print the
    prompt three times, [PUT k:v] after the first and [GET k:v] after the
    second, and return. *)
Theorem tool_prints_the_value_put cfg k v draws :
  config_sane cfg ->
  lacks space k = true -> lacks space v = true ->
  no_newline k = true -> no_newline v = true ->
  k <> "" -> v <> "" ->
  malloc_ok (strlen v) = true ->
  skiptable.random_level (draws 0%nat 0%nat) < skiptable.MAX_TABLE_LEVELS ->
  main 3 1 (kvstore.create cfg)
    (walfile.open ("put " +++ k +++ " " +++ v +++ walfile.newline
                   +++ "get " +++ k +++ walfile.newline
                   +++ "quit" +++ walfile.newline))
    draws 0 ""
  = Ok (prompt +++ "PUT " +++ k +++ ":" +++ v +++ walfile.newline
        +++ prompt +++ "GET " +++ k +++ ":" +++ v +++ walfile.newline +++ prompt).
Proof.
  intros S Hk Hv Nk Nv Hkne Hvne Ma L0.
  pose proof (parse_put k v Hk Hv Hvne) as P.
  pose proof (parse_get k Hk Hkne) as G1.
  assert (Nput : no_newline ("put " +++ k +++ " " +++ v) = true).
  { unfold no_newline in *. rewrite !lacks_app, Nk, Nv. reflexivity. }
  assert (Nget : no_newline ("get " +++ k) = true).
  { unfold no_newline in *. rewrite !lacks_app, Nk. reflexivity. }
  assert (A : forall a b c, (a +++ b) +++ c = a +++ b +++ c) by apply string_app_assoc.
  cbn [main].
  replace ("put " +++ k +++ " " +++ v +++ walfile.newline +++ "get " +++ k
           +++ walfile.newline +++ "quit" +++ walfile.newline)
    with (("put " +++ k +++ " " +++ v) +++ walfile.newline
          +++ (("get " +++ k) +++ walfile.newline +++ "quit" +++ walfile.newline)).
  2:{ cbn [String.append]. rewrite !A. cbn [String.append]. reflexivity. }
  rewrite (getline_line _ _ Nput), P.
  destruct (put_unlocked 0 (kvstore.create cfg) k v (draws 0%nat) 0
              (create_store_ok cfg S) (fresh_unlocked cfg S) Ma L0)
    as (s1 & Hp & OK1 & _ & Hh & Hq & Gt & _).
  rewrite Hp. cbn [bind].
  rewrite (getline_line _ _ Nget), G1.
  assert (Get1 : kvstore.get s1 k = Ok (Some v)).
  { unfold kvstore.get. cbn [kvstore.get_hist]. rewrite Gt. cbn [bind].
    rewrite copy_out_value. reflexivity. }
  rewrite Get1. cbn [bind].
  change (walfile.getline (walfile.open ("quit" +++ walfile.newline)))
    with ("quit", walfile.open "").
  cbv iota. change (parse "quit") with Quit. cbv iota.
  f_equal. repeat first [rewrite A | progress cbn [String.append]]. reflexivity.
Qed.

End ToolProps.

(** ** The statements above on small inputs *)

Lemma new_filter_tests_negative_witness :
  wf_static demo_filter /\
  static_might_contain demo_filter "a" = Ok false /\
  scalable_might_contain demo_scalable "a" = Ok false.
Proof.
  apply (@new_filter_tests_negative demo_env demo_scalable_parameters "a"%string);
    simpl; lia.
Defined.

Lemma static_insert_answers_membership_witness :
  static_might_contain demo_filter "a" = Ok false /\
  element_count (demo_sub demo_parameters [8; 16] 1) = wrap64 (element_count demo_filter + 1) /\
  params (demo_sub demo_parameters [8; 16] 1) = params demo_filter.
Proof.
  apply (@static_insert_answers_membership demo_env demo_filter "a"%string false
           (demo_sub demo_parameters [8; 16] 1)).
  - apply demo_wf_static. simpl. lia.
  - reflexivity.
Defined.

Lemma scalable_insert_returns_witness :
  exists b s1 last1,
    scalable_insert demo_scalable "a" = Ok (b, s1) /\
    scalable_might_contain demo_scalable "a" = Ok b /\
    sparams s1 = sparams demo_scalable /\ Forall wf_static (filters s1) /\
    back (filters s1) = Ok last1 /\
    length (filters s1)
    = (if b || good demo_filter then length (filters demo_scalable)
       else S (length (filters demo_scalable))).
Proof.
  apply (@scalable_insert_returns demo_env demo_scalable "a"%string demo_filter).
  - reflexivity.
  - constructor; [|constructor]. apply demo_wf_static. simpl. lia.
  - intros _. apply demo_wf_static. simpl. lia.
Defined.

Lemma scalable_filter_respects_capacity_witness :
  Forall within_capacity (filters demo_final).
Proof.
  apply (@scalable_filter_respects_capacity demo_env demo_scalable_parameters
           ("a"%string :: demo_later) [false; false; false; false; true; true]).
  - simpl. lia.
  - reflexivity.
  - repeat constructor.
Defined.

Lemma insert_changes_one_key_witness :
  exists r s',
    @skiptable.insert glibc_malloc table_b "a" "1" 1 level0 = Ok (r, s') /\
    (r = None <-> skiptable.locked table_b = true \/ @malloc_ok glibc_malloc 1 = false) /\
    skiptable.get s' "a"
    = match r with
      | Some _ => Ok (Some {| skiptable.data := Some (substring 0 (Z.to_nat 1) "1");
                              skiptable.size := 1 |})
      | None => skiptable.get table_b "a"
      end /\
    forall k', k' <> "a"%string -> skiptable.get s' k' = skiptable.get table_b k'.
Proof.
  apply (@insert_changes_one_key glibc_malloc four_writes insert_b).
  - simpl. lia.
  - repeat apply Forall_cons; try apply Forall_nil; vm_compute; intuition discriminate.
  - reflexivity.
  - vm_compute. reflexivity.
  - vm_compute. split; discriminate.
Defined.

Lemma failed_allocation_costs_a_slot_witness :
  exists s',
    @skiptable.insert small_malloc fresh_table "k" "123456789" 9 level0 = Ok (None, s') /\
    skiptable.next_record s' = skiptable.next_record fresh_table + 1 /\
    skiptable.head s' = skiptable.head fresh_table /\
    skiptable.nodes s' = skiptable.nodes fresh_table /\
    skiptable.data_size s' = skiptable.data_size fresh_table /\
    skiptable.total_data_size s' = skiptable.total_data_size fresh_table /\
    forall k', skiptable.get s' k' = skiptable.get fresh_table k'.
Proof.
  apply (@failed_allocation_costs_a_slot small_malloc four_writes []).
  - simpl. lia.
  - constructor.
  - reflexivity.
  - reflexivity.
  - reflexivity.
Defined.

Lemma every_insert_takes_a_record_slot_witness :
  exists s,
    @skiptable.run glibc_malloc (skiptable.create four_writes) insert_b = Ok s /\
    Z.of_nat (length (skiptable.nodes s)) <= skiptable.next_record s
      <= skiptable.writes_before_lock four_writes /\
    (skiptable.locked s = true \/
     skiptable.next_record s
     = Z.of_nat (length (filter (fun o => negb (skiptable.is_lock o)) insert_b))) /\
    (skiptable.writes_before_lock four_writes
       <= Z.of_nat (length (filter (fun o => negb (skiptable.is_lock o)) insert_b)) ->
     skiptable.locked s = true).
Proof.
  apply (@every_insert_takes_a_record_slot glibc_malloc four_writes insert_b).
  - simpl. lia.
  - repeat apply Forall_cons; try apply Forall_nil; vm_compute; intuition discriminate.
Defined.

Lemma counters_agree_with_records_witness :
  exists s,
    @skiptable.run glibc_malloc (skiptable.create four_writes) insert_b = Ok s /\
    skiptable.data_size s = wrap64 (live_bytes s) /\
    skiptable.total_data_size s = wrap64 (written_bytes s) /\
    (skiptable.empty s = true <-> wrap64 (live_bytes s) = 0) /\
    forall j, (j < length (skiptable.nodes s))%nat ->
      exists d, index (skiptable.records s) (idxof s j)
                = Ok {| skiptable.data := Some d; skiptable.size := strlen d |}.
Proof.
  apply (@counters_agree_with_records glibc_malloc four_writes insert_b).
  - simpl. lia.
  - repeat apply Forall_cons; try apply Forall_nil; vm_compute; intuition discriminate.
Defined.

Lemma destructor_deletes_every_node_once_witness :
  exists s ns rs,
    @skiptable.run glibc_malloc (skiptable.create four_writes) insert_b = Ok s /\
    skiptable.destroy s = Ok (ns, rs) /\
    NoDup ns /\ (forall j, In j ns <-> (j < length (skiptable.nodes s))%nat) /\
    (forall i, In i rs <-> exists r d, nth_error (skiptable.records s) i = Some r /\
                                       skiptable.data r = Some d).
Proof.
  apply (@destructor_deletes_every_node_once glibc_malloc four_writes insert_b).
  - simpl. lia.
  - repeat apply Forall_cons; try apply Forall_nil; vm_compute; intuition discriminate.
Defined.

Lemma headers_and_footers_read_back_witness :
  sstable.read_header
    ("xy" ++ sstable.write_header
               {| sstable.prefix_bytes := 1; sstable.suffix_bytes := 2;
                  sstable.value_bytes := 3 |} ++ "z")%string 2
  = Ok {| sstable.prefix_bytes := 1; sstable.suffix_bytes := 2; sstable.value_bytes := 3 |}.
Proof.
  apply (proj1 headers_and_footers_read_back "xy"%string "z"%string
           {| sstable.prefix_bytes := 1; sstable.suffix_bytes := 2;
              sstable.value_bytes := 3 |}); simpl; lia.
Defined.


Lemma file_of_one_block_returns_the_value_witness :
  exists file d,
    sstable.build {| sstable.max_block_size := 128 |} table_ab_ac = Ok (Some file) /\
    skiptable.get table_ab_ac (keyof table_ab_ac 1)
    = Ok (Some {| skiptable.data := Some d; skiptable.size := strlen d |}) /\
    sstable.get file (keyof table_ab_ac 1) = Ok (Some d).
Proof.
  apply (@file_of_one_block_returns_the_value glibc_malloc four_writes insert_ab_ac).
  - simpl. lia.
  - repeat apply Forall_cons; try apply Forall_nil; vm_compute; intuition discriminate.
  - reflexivity.
  - reflexivity.
  - simpl. lia.
  - vm_compute. intuition discriminate.
  - intros [|[|j']] H N; [reflexivity | contradiction | simpl in H; lia].
Defined.

Lemma entry_header_matches_its_key_witness :
  exists h prefix' p sfx,
    sstable.header_from "abc" "abd" 1 = Ok (h, prefix') /\
    prefix' = (if String.eqb "abc" EmptyString then "abd" else "abc")%string /\
    (sstable.prefix_bytes h = 0 <-> sstable.common_prefix "abc" "abd" = 0) /\
    sstable.prefix_bytes h + sstable.suffix_bytes h = strlen "abd" /\
    sstable.value_bytes h = 1 /\
    substr prefix' 0 (sstable.prefix_bytes h) = Ok p /\
    substr "abd" 0 (sstable.prefix_bytes h) = Ok p /\
    substr "abd" (sstable.prefix_bytes h) (sstable.suffix_bytes h) = Ok sfx /\
    (p ++ sfx)%string = "abd"%string.
Proof.
  apply (@entry_header_matches_its_key "abc"%string "abd"%string 1).
  vm_compute. reflexivity.
Defined.

Lemma load_reads_newline_separated_pairs_witness :
  walfile.read_pairs
    (S (String.length (wal_lines [("a", "1"); ("b", "2")]%string)))
    (walfile.open (wal_lines [("a", "1"); ("b", "2")]%string)) []
  = Ok [("a", "1"); ("b", "2")]%string.
Proof.
  apply (load_reads_newline_separated_pairs [("a", "1"); ("b", "2")]%string).
  - discriminate.
  - repeat constructor.
Defined.

Lemma log_appends_key_and_value_witness :
  exists w' d,
    walfile.log (walfile.create walfile.default_config) table_b (Some 0%nat) = Ok w' /\
    wal_ok w' /\
    walfile.config w' = walfile.config (walfile.create walfile.default_config) /\
    index (skiptable.records table_b) (idxof table_b 0)
      = Ok {| skiptable.data := Some d; skiptable.size := strlen d |} /\
    walfile.logfile w'
    = (walfile.logfile (walfile.create walfile.default_config)
       ++ keyof table_b 0 ++ walfile.newline ++ d)%string.
Proof.
  apply (@log_appends_key_and_value glibc_malloc four_writes insert_b).
  - simpl. lia.
  - repeat apply Forall_cons; try apply Forall_nil; vm_compute; intuition discriminate.
  - reflexivity.
  - simpl. lia.
  - unfold wal_ok. simpl. lia.
Defined.

Lemma log_needs_a_queue_of_two_witness :
  walfile.log (walfile.create {| walfile.concurrent_put_limit := 0 |}) table_b (Some 0%nat)
  = Fault DivisionByZero.
Proof.
  apply (proj1 (log_needs_a_queue_of_two
                  (walfile.create {| walfile.concurrent_put_limit := 0 |}) table_b
                  (Some 0%nat))).
  reflexivity.
Defined.

Lemma save_memtable_keeps_every_answer_witness :
  kvstore.hist (kvstore.save_memtable store_a)
  = snd (skiptable.lock (kvstore.mtable store_a)) :: kvstore.hist store_a /\
  kvstore.mtable (kvstore.save_memtable store_a)
  = skiptable.create (kvstore.memtable_options (kvstore.config store_a)).
Proof.
  apply (proj1 (proj2 (save_memtable_keeps_every_answer store_a))). reflexivity.
Defined.

Lemma put_is_read_back_witness :
  exists s',
    @kvstore.put_retry glibc_malloc 2 store_a "k" "v" all_level0 0 = Ok s' /\
    kvstore.get s' "k" = Ok (Some "v"%string) /\
    (forall k', k' <> "k"%string -> kvstore.get s' k' = kvstore.get store_a k') /\
    kvstore.hist s'
    = (if skiptable.locked (kvstore.mtable store_a)
       then snd (skiptable.lock (kvstore.mtable store_a)) :: kvstore.hist store_a
       else kvstore.hist store_a).
Proof.
  apply (@put_is_read_back glibc_malloc 1%nat small_config put_a []).
  - vm_compute. intuition discriminate.
  - repeat apply Forall_cons; try apply Forall_nil; intros i; vm_compute; reflexivity.
  - reflexivity.
  - reflexivity.
  - reflexivity.
  - vm_compute. reflexivity.
  - vm_compute. reflexivity.
Defined.


Lemma commands_are_split_at_spaces_witness :
  tool.parse "put key val" = tool.Put "key" "val" /\
  tool.parse "put key val more" = tool.Put "key" "val" /\
  ("key"%string <> EmptyString ->
   tool.parse "get key" = tool.Get "key" /\ tool.parse "get key more" = tool.Get "key") /\
  tool.parse "get" = tool.Skip /\ tool.parse "get " = tool.Skip /\
  tool.parse "put key" = tool.Skip /\
  tool.parse "quit more" = tool.Quit /\ tool.parse EmptyString = tool.Skip.
Proof.
  apply (commands_are_split_at_spaces "key"%string "val"%string "more"%string);
    [reflexivity | reflexivity | discriminate].
Defined.

Lemma tool_never_stops_at_end_of_input_witness :
  @tool.main glibc_malloc 5 1 (kvstore.create small_config) cin_at_end
    (fun _ => all_level0) 0 EmptyString = Fault NoProgress.
Proof.
  apply (@tool_never_stops_at_end_of_input glibc_malloc). reflexivity.
Defined.

Lemma tool_prints_the_value_put_witness :
  @tool.main glibc_malloc 3 1 (kvstore.create small_config)
    (walfile.open ("put " ++ "k" ++ " " ++ "v" ++ walfile.newline
                   ++ "get " ++ "k" ++ walfile.newline
                   ++ "quit" ++ walfile.newline)%string)
    (fun _ => all_level0) 0 ""
  = Ok (tool.prompt ++ "PUT " ++ "k" ++ ":" ++ "v" ++ walfile.newline
        ++ tool.prompt ++ "GET " ++ "k" ++ ":" ++ "v" ++ walfile.newline ++ tool.prompt)%string.
Proof.
  apply (@tool_prints_the_value_put glibc_malloc small_config "k"%string "v"%string
           (fun _ => all_level0)); try reflexivity; try discriminate.
  vm_compute. intuition discriminate.
Defined.
